(** * Quorum signing core: bounded write-back cache, recovered-signature
      store, signing manager and DKG session manager.

    A shallow embedding of
      - [src/evo/evodb.h]                  (module [EvoDB]),
      - [src/llmq/quorums_signing.{h,cpp}] (modules [RecSigDb], [Signing]),
      - [src/llmq/quorums_utils.h]         ([IterateNodesRandom]),
      - [src/llmq/quorums_dkgsessionmgr.cpp] (module [DKGMgr]),
    followed by the properties proved about them.

    Conventions.  Mutable C++ objects are records passed explicitly; a member
    function takes the object last and returns the new object.  A result of
    type [option _] uses [None] for behaviour the C++ standard leaves undefined
    (dereferencing an iterator that is not in the list, indexing past the end
    of a vector) or for an exception leaving the function.  Calls made to
    collaborators that live outside these files (peer manager, listeners, share
    signer, log) are returned as a list of events in program order. *)

From Stdlib Require Import ZArith Lia.
From stdpp Require Import base option numbers list sorting gmap sets strings.

Open Scope Z_scope.

(* ===================================================================== *)
(** * Part I: the embedding                                               *)
(* ===================================================================== *)

(** ** [CDBWrapper] and [CDBBatch]: the key-value store interface *)

(** Modelled from the spec: the persistent key-value store ([dbwrapper.h] is
    not among the sources).  The store is a finite map; a batch is a list of
    puts and deletes applied in the order they were added, all of them or
    none. *)
Module DBWrapper.
Section store.
Context {K : Type} `{Countable K} {V : Type}.

(** A [CDBBatch]: operations in the order they were added. *)
Inductive BatchOp := BWrite (k : K) (v : V) | BErase (k : K).

Definition apply_op (d : gmap K V) (o : BatchOp) : gmap K V :=
  match o with
  | BWrite k v => <[k := v]> d
  | BErase k => delete k d
  end.

Definition apply_batch (batch : list BatchOp) (d : gmap K V) : gmap K V :=
  foldl apply_op d batch.

(** [CDBWrapper::WriteBatch]: the store applies the whole batch or none of
    it.  [ok] is the outcome the store reports. *)
Definition WriteBatch (ok : bool) (batch : list BatchOp) (d : gmap K V) : bool * gmap K V :=
  if ok then (true, apply_batch batch d) else (false, d).

(** What one operation does to the value stored under key [k]. *)
Definition op_effect (k : K) (x : option V) (o : BatchOp) : option V :=
  match o with
  | BWrite k' v => if decide (k' = k) then Some v else x
  | BErase k' => if decide (k' = k) then None else x
  end.
End store.
Global Arguments BatchOp : clear implicits.
End DBWrapper.

(** ** [CEvoDB<K,V>]: FIFO write-back cache over a key-value store *)
Module EvoDB.
Import DBWrapper.
Section definitions.
Context {K : Type} `{Countable K} {V : Type}.

(** A [std::list] iterator.  List iterators stay valid until their own node
    is erased, so a node is given an identity of its own, drawn from a
    counter; [fifoList] pairs every node with it. *)
Definition iterator := nat.

Record CEvoDB : Type := mkCEvoDB {
  mapCache : gmap K iterator;
  fifoList : list (iterator * (K * V));
  setEraseCache : gset K;
  maxCacheSize : nat;
  bFlushOnNextRead : bool;
  (** the [CDBWrapper] base object: what is on disk *)
  disk : gmap K V;
  (** identity of the next list node to be allocated *)
  fresh : iterator
}.

(** [CEvoDB(db_params, maxCacheSizeIn)] opened on a store holding [d]. *)
Definition open (d : gmap K V) (maxCacheSizeIn : nat) : CEvoDB :=
  mkCEvoDB ∅ [] ∅ maxCacheSizeIn false d 0%nat.

(** [*it] for an iterator into [l]. *)
Fixpoint deref (l : list (iterator * (K * V))) (it : iterator) : option (K * V) :=
  match l with
  | [] => None
  | (it', e) :: l' => if decide (it' = it) then Some e else deref l' it
  end.

(** [l.erase(it)]: unlinks exactly the node [it] designates. *)
Definition list_erase (it : iterator) (l : list (iterator * (K * V)))
  : option (list (iterator * (K * V))) :=
  match deref l it with
  | Some _ => Some (filter (λ e, e.1 ≠ it) l)
  | None => None
  end.

Definition IsCacheFull (c : CEvoDB) : bool :=
  bool_decide (0 < maxCacheSize c)%nat
  && bool_decide (maxCacheSize c ≤ size (mapCache c) + size (setEraseCache c))%nat.

(** The [find]/[erase] prologue that [WriteCache] and [EraseCache] share:
    [it = mapCache.find(key); if (it != end) { fifoList.erase(it->second);
    mapCache.erase(it); }] *)
Definition unlink (key : K) (c : CEvoDB) : option CEvoDB :=
  match mapCache c !! key with
  | Some it =>
      l ← list_erase it (fifoList c);
      Some (mkCEvoDB (delete key (mapCache c)) l (setEraseCache c)
              (maxCacheSize c) (bFlushOnNextRead c) (disk c) (fresh c))
  | None => Some c
  end.

(** [WriteCache] up to and including [setEraseCache.erase(key)]. *)
Definition upsert (key : K) (value : V) (c : CEvoDB) : option CEvoDB :=
  c1 ← unlink key c;
  let it := fresh c1 in
  Some (mkCEvoDB (<[key := it]> (mapCache c1))
          (fifoList c1 ++ [(it, (key, value))])
          (setEraseCache c1 ∖ {[key]})
          (maxCacheSize c1) (bFlushOnNextRead c1) (disk c1) (S it)).

(** The guard of the eviction branch of [WriteCache]. *)
Definition over_limit (c : CEvoDB) : bool :=
  bool_decide (0 < maxCacheSize c)%nat
  && bool_decide (maxCacheSize c < size (mapCache c))%nat.

(** [oldest = fifoList.front(); fifoList.pop_front();
    mapCache.erase(oldest.first);] *)
Definition evict_front (c : CEvoDB) : option CEvoDB :=
  match fifoList c with
  | (_, (oldest, _)) :: rest =>
      Some (mkCEvoDB (delete oldest (mapCache c)) rest (setEraseCache c)
              (maxCacheSize c) (bFlushOnNextRead c) (disk c) (fresh c))
  | [] => None
  end.

Definition WriteCache (key : K) (value : V) (c : CEvoDB) : option CEvoDB :=
  c2 ← upsert key value c;
  if over_limit c2 then evict_front c2 else Some c2.

Definition EraseCache (key : K) (c : CEvoDB) : option CEvoDB :=
  let c0 := mkCEvoDB (mapCache c) (fifoList c) (setEraseCache c)
              (maxCacheSize c) true (disk c) (fresh c) in
  c1 ← unlink key c0;
  Some (mkCEvoDB (mapCache c1) (fifoList c1) ({[key]} ∪ setEraseCache c1)
          (maxCacheSize c1) (bFlushOnNextRead c1) (disk c1) (fresh c1)).

(** The batch [FlushCacheToDisk] prepares: one write per entry of
    [mapCache], with the value read through the entry's iterator, then one
    erase per element of [setEraseCache]. *)
Definition flush_batch (c : CEvoDB) : option (list (BatchOp K V)) :=
  writes ← mapM (λ '(key, it), e ← deref (fifoList c) it; Some (BWrite key e.2))
                (map_to_list (mapCache c));
  Some (writes ++ (BErase <$> elements (setEraseCache c))).

Definition FlushCacheToDisk (ok : bool) (c : CEvoDB) : option (bool * CEvoDB) :=
  if bool_decide (mapCache c = ∅) && bool_decide (setEraseCache c = ∅)
  then Some (true, c)
  else
    batch ← flush_batch c;
    let '(res, d) := WriteBatch ok batch (disk c) in
    if res
    then Some (res, mkCEvoDB ∅ [] ∅ (maxCacheSize c) (bFlushOnNextRead c) d (fresh c))
    else Some (res, c).

(** [if (bFlushOnNextRead) { bFlushOnNextRead = false; FlushCacheToDisk(); }]
    The result of the flush is dropped, as in the source. *)
Definition flush_if_armed (ok : bool) (c : CEvoDB) : option CEvoDB :=
  if bFlushOnNextRead c
  then snd <$> FlushCacheToDisk ok
                 (mkCEvoDB (mapCache c) (fifoList c) (setEraseCache c)
                    (maxCacheSize c) false (disk c) (fresh c))
  else Some c.

(** [ReadCache(key, value)]: [Some v] stands for [true] with [value = v],
    [None] for [false].  [ok] is the outcome of the store's batch write
    should the read flush first. *)
Definition ReadCache (ok : bool) (key : K) (c : CEvoDB) : option (option V * CEvoDB) :=
  c1 ← flush_if_armed ok c;
  match mapCache c1 !! key with
  | Some it => e ← deref (fifoList c1) it; Some (Some e.2, c1)
  | None => Some (disk c1 !! key, c1)
  end.

Definition ExistsCache (ok : bool) (key : K) (c : CEvoDB) : option (bool * CEvoDB) :=
  c1 ← flush_if_armed ok c;
  Some (bool_decide (is_Some (mapCache c1 !! key)) || bool_decide (is_Some (disk c1 !! key)), c1).

(** Calls a client can make, with the store outcome where one is consumed. *)
Inductive Call :=
| CWrite (key : K) (value : V)
| CErase (key : K)
| CFlush (ok : bool)
| CRead (ok : bool) (key : K)
| CExists (ok : bool) (key : K).

Definition step (c : CEvoDB) (o : Call) : option CEvoDB :=
  match o with
  | CWrite k v => WriteCache k v c
  | CErase k => EraseCache k c
  | CFlush ok => snd <$> FlushCacheToDisk ok c
  | CRead ok k => snd <$> ReadCache ok k c
  | CExists ok k => snd <$> ExistsCache ok k c
  end.

Fixpoint run (ops : list Call) (c : CEvoDB) : option CEvoDB :=
  match ops with
  | [] => Some c
  | o :: ops' => c' ← step c o; run ops' c'
  end.

(** The value a pending write holds for [k], read through its iterator. *)
Definition pending (c : CEvoDB) (k : K) : option V :=
  it ← mapCache c !! k; snd <$> deref (fifoList c) it.

(** Keys of the list nodes, front first. *)
Definition fifo_keys (c : CEvoDB) : list K := (fifoList c).*2.*1.

(** Representation invariant of the three pending structures. *)
Record cache_inv (c : CEvoDB) : Prop := {
  inv_nodes : NoDup (fifoList c).*1;
  inv_fresh : ∀ it, it ∈ (fifoList c).*1 → (it < fresh c)%nat;
  inv_index : ∀ k it, mapCache c !! k = Some it ↔ ∃ v, (it, (k, v)) ∈ fifoList c;
  inv_disjoint : ∀ k, k ∈ setEraseCache c → mapCache c !! k = None
}.
End definitions.
Global Arguments CEvoDB K {_ _} V.
Global Arguments Call : clear implicits.
End EvoDB.

(** ** Vocabulary of the quorum code *)
Module LLMQ.

(** A 256-bit blob.  It is identified with its 32 serialized bytes read as
    one numeral, first byte most significant, so that the store's bytewise
    key order on it is the numeric order.  [uint256()] is [0]. *)
Definition uint256 := N.
Definition IsNull (h : uint256) : bool := bool_decide (h = 0%N).

Definition NodeId := Z.

(** BLS objects are opaque payloads here; what can be done with them is the
    capability [Crypto] below. *)
Definition CBLSSignature := N.
Definition CBLSPublicKey := N.
Bind Scope N_scope with uint256 CBLSSignature CBLSPublicKey.

(** [CRecoveredSig].  The in-memory [hash] member is recomputed from the
    four serialized members on construction and on deserialization, so it
    is a function of them ([GetHash] below). *)
Record CRecoveredSig := mkCRecoveredSig {
  quorumHash : uint256;
  id : uint256;
  msgHash : uint256;
  sig : CBLSSignature
}.

Global Instance CRecoveredSig_eq_dec : EqDecision CRecoveredSig.
Proof. solve_decision. Defined.

(** The hashing and BLS primitives, consumed as an opaque capability. *)
Class Crypto := {
  SerializeHash : CRecoveredSig → uint256;
  BuildSignHash3 : uint256 → uint256 → uint256 → uint256;
  IsValid : CBLSSignature → bool;
  VerifyInsecure : CBLSSignature → CBLSPublicKey → uint256 → bool
}.

Definition GetHash `{Crypto} (r : CRecoveredSig) : uint256 := SerializeHash r.

(** [CLLMQUtils::BuildSignHash(const T& s)] *)
Definition BuildSignHash `{Crypto} (s : CRecoveredSig) : uint256 :=
  BuildSignHash3 (quorumHash s) (id s) (msgHash s).

(** Conversion to [uint32_t]. *)
Definition to_uint32 (x : Z) : Z := x mod 2 ^ 32.

(** Byte swap of a 32-bit word: [htobe32] and [be32toh] on a little-endian
    host. *)
Definition bswap32 (x : Z) : Z :=
  Z.lor (Z.lor (Z.shiftl (Z.land x 255) 24)
               (Z.shiftl (Z.land (Z.shiftr x 8) 255) 16))
        (Z.lor (Z.shiftl (Z.land (Z.shiftr x 16) 255) 8)
               (Z.land (Z.shiftr x 24) 255)).
Definition htobe32 : Z → Z := bswap32.
Definition be32toh : Z → Z := bswap32.
End LLMQ.

(** ** [CRecoveredSigsDb]: the recovered-signature store *)
Module RecSigDb.
Import DBWrapper LLMQ.

(** Keys of the store: the tuples the code serializes, by record-type tag. *)
Inductive DbKey :=
| rs_r (id : uint256)                      (* ("rs_r", id) *)
| rs_r2 (id msgHash : uint256)             (* ("rs_r", id, msgHash) *)
| rs_h (hash : uint256)                    (* ("rs_h", hash) *)
| rs_s (signHash : uint256)                (* ("rs_s", signHash) *)
| rs_t (time_be : Z) (id : uint256)        (* ("rs_t", htobe32(time), id) *)
| rs_v (id : uint256)                      (* ("rs_v", id) *)
| rs_vt (time_be : Z) (id : uint256).      (* ("rs_vt", htobe32(time), id) *)

(** Values, by serialized type. *)
Inductive DbVal :=
| VRecSig (r : CRecoveredSig)
| VU32 (t : Z)
| VHash (h : uint256)
| VByte (b : Z).

Global Instance DbKey_eq_dec : EqDecision DbKey.
Proof. solve_decision. Defined.

Definition DbKey_encode (k : DbKey) : nat * Z * N :=
  match k with
  | rs_r i => (0%nat, 0, i)
  | rs_r2 i m => (1%nat, Z.of_N i, m)
  | rs_h h => (2%nat, 0, h)
  | rs_s s => (3%nat, 0, s)
  | rs_t t i => (4%nat, t, i)
  | rs_v i => (5%nat, 0, i)
  | rs_vt t i => (6%nat, t, i)
  end.

Definition DbKey_decode (c : nat * Z * N) : DbKey :=
  match c with
  | (0%nat, _, i) => rs_r i
  | (1%nat, i, m) => rs_r2 (Z.to_N i) m
  | (2%nat, _, h) => rs_h h
  | (3%nat, _, s) => rs_s s
  | (4%nat, t, i) => rs_t t i
  | (5%nat, _, i) => rs_v i
  | (_, t, i) => rs_vt t i
  end.

Global Instance DbKey_countable : Countable DbKey.
Proof.
  apply (inj_countable' DbKey_encode DbKey_decode).
  intros []; simpl; try done. by rewrite N2Z.id.
Defined.

(** *** Store order

    The store iterates keys in the bytewise order of their serialization.
    A key starts with its length-prefixed tag, so all ["rs_vt"] keys follow
    all keys with a four-letter tag, and those go by tag.  After the tag
    come the fields; a 32-bit field is written least significant byte
    first, so the bytes of [htobe32 t] appear most significant byte of [t]
    first and compare like [be32toh] of the field.  A key that is a proper
    prefix of another comes first ([-1] below). *)
Definition key_code (k : DbKey) : Z * Z * Z :=
  match k with
  | rs_h h => (0, Z.of_N h, -1)
  | rs_r i => (1, Z.of_N i, -1)
  | rs_r2 i m => (1, Z.of_N i, Z.of_N m)
  | rs_s s => (2, Z.of_N s, -1)
  | rs_t t i => (3, be32toh t, Z.of_N i)
  | rs_v i => (4, Z.of_N i, -1)
  | rs_vt t i => (5, be32toh t, Z.of_N i)
  end.

Definition lex_le (a b : Z * Z * Z) : Prop :=
  a.1.1 < b.1.1
  ∨ (a.1.1 = b.1.1 ∧ (a.1.2 < b.1.2 ∨ (a.1.2 = b.1.2 ∧ a.2 ≤ b.2))).

Definition key_le (k1 k2 : DbKey) : Prop := lex_le (key_code k1) (key_code k2).

Global Instance key_le_dec k1 k2 : Decision (key_le k1 k2).
Proof. unfold key_le, lex_le. apply _. Defined.

(** [NewIterator(); Seek(start)]: the keys at or after [start], in store
    order.  [Valid]/[GetKey]/[Next] walk this list. *)
Definition Seek {V} (start : DbKey) (d : gmap DbKey V) : list DbKey :=
  merge_sort key_le (filter (key_le start) (elements (dom d))).

(** Modelled from the spec: [unordered_lru_cache<uint256, bool, ...>]
    ([unordered_lru_cache.h] is not among the sources).  A bounded cache of
    existence answers: [get] returns the cached answer if there is one and
    may reorder entries, [insert] stores an answer and may drop other
    entries, [erase] drops one entry.  No operation invents or alters an
    answer.  [lru_entries] is the set of cached answers. *)
Class LruCache := {
  lru : Type;
  lru_get : uint256 → lru → option bool * lru;
  lru_insert : uint256 → bool → lru → lru;
  lru_erase : uint256 → lru → lru;
  lru_entries : lru → gmap uint256 bool;
  lru_get_result : ∀ k t, (lru_get k t).1 = lru_entries t !! k;
  lru_get_entries : ∀ k t, lru_entries (lru_get k t).2 = lru_entries t;
  lru_insert_eq : ∀ k v t, lru_entries (lru_insert k v t) !! k = Some v;
  lru_insert_ne : ∀ k v t k' b,
    k' ≠ k → lru_entries (lru_insert k v t) !! k' = Some b → lru_entries t !! k' = Some b;
  lru_erase_entries : ∀ k t, lru_entries (lru_erase k t) = delete k (lru_entries t)
}.

(** [CDBBatch::SizeEstimate], a function of the operations added so far. *)
Class BatchSizing := { SizeEstimate : list (BatchOp DbKey DbVal) → Z }.

Section store.
Context `{Crypto} `{LruCache} `{BatchSizing}.

Record CRecoveredSigsDb := mkCRecoveredSigsDb {
  db : gmap DbKey DbVal;
  hasSigForIdCache : lru;
  hasSigForSessionCache : lru;
  hasSigForHashCache : lru
}.

Definition set_db (d : gmap DbKey DbVal) (s : CRecoveredSigsDb) : CRecoveredSigsDb :=
  mkCRecoveredSigsDb d (hasSigForIdCache s) (hasSigForSessionCache s) (hasSigForHashCache s).
Definition set_hasSigForIdCache (t : lru) (s : CRecoveredSigsDb) : CRecoveredSigsDb :=
  mkCRecoveredSigsDb (db s) t (hasSigForSessionCache s) (hasSigForHashCache s).
Definition set_hasSigForSessionCache (t : lru) (s : CRecoveredSigsDb) : CRecoveredSigsDb :=
  mkCRecoveredSigsDb (db s) (hasSigForIdCache s) t (hasSigForHashCache s).
Definition set_hasSigForHashCache (t : lru) (s : CRecoveredSigsDb) : CRecoveredSigsDb :=
  mkCRecoveredSigsDb (db s) (hasSigForIdCache s) (hasSigForSessionCache s) t.

(** [db->Exists(k)] *)
Definition Exists (k : DbKey) (d : gmap DbKey DbVal) : bool := bool_decide (is_Some (d !! k)).

(** [db->WriteBatch(batch)].  The callers in this class drop the result;
    the store raises an error rather than return [false], and the model
    follows the executions in which it accepts the batch. *)
Definition WriteBatch (batch : list (BatchOp DbKey DbVal)) (s : CRecoveredSigsDb)
  : CRecoveredSigsDb :=
  set_db (DBWrapper.WriteBatch true batch (db s)).2 s.

Definition HasRecoveredSig (id msgHash : uint256) (s : CRecoveredSigsDb) : bool :=
  Exists (rs_r2 id msgHash) (db s).

Definition HasRecoveredSigForId (id : uint256) (s : CRecoveredSigsDb)
  : bool * CRecoveredSigsDb :=
  let '(hit, t) := lru_get id (hasSigForIdCache s) in
  match hit with
  | Some ret => (ret, set_hasSigForIdCache t s)
  | None =>
      let ret := Exists (rs_r id) (db s) in
      (ret, set_hasSigForIdCache (lru_insert id ret t) s)
  end.

Definition HasRecoveredSigForSession (signHash : uint256) (s : CRecoveredSigsDb)
  : bool * CRecoveredSigsDb :=
  let '(hit, t) := lru_get signHash (hasSigForSessionCache s) in
  match hit with
  | Some ret => (ret, set_hasSigForSessionCache t s)
  | None =>
      let ret := Exists (rs_s signHash) (db s) in
      (ret, set_hasSigForSessionCache (lru_insert signHash ret t) s)
  end.

Definition HasRecoveredSigForHash (hash : uint256) (s : CRecoveredSigsDb)
  : bool * CRecoveredSigsDb :=
  let '(hit, t) := lru_get hash (hasSigForHashCache s) in
  match hit with
  | Some ret => (ret, set_hasSigForHashCache t s)
  | None =>
      let ret := Exists (rs_h hash) (db s) in
      (ret, set_hasSigForHashCache (lru_insert hash ret t) s)
  end.

(** [db->Read(k, ret)] into a [CRecoveredSig]. *)
Definition ReadRecoveredSig (id : uint256) (s : CRecoveredSigsDb) : option CRecoveredSig :=
  match db s !! rs_r id with
  | Some (VRecSig r) => Some r
  | _ => None
  end.

Definition GetRecoveredSigById (id : uint256) (s : CRecoveredSigsDb) : option CRecoveredSig :=
  ReadRecoveredSig id s.

Definition GetRecoveredSigByHash (hash : uint256) (s : CRecoveredSigsDb)
  : option CRecoveredSig :=
  match db s !! rs_h hash with
  | Some (VHash k2) => ReadRecoveredSig k2 s
  | _ => None
  end.

(** [now] is [GetAdjustedTime()] in seconds. *)
Definition WriteRecoveredSig (now : Z) (recSig : CRecoveredSig) (s : CRecoveredSigsDb)
  : CRecoveredSigsDb :=
  let curTime := to_uint32 now in
  let k1 := rs_r (LLMQ.id recSig) in
  let k2 := rs_r2 (LLMQ.id recSig) (LLMQ.msgHash recSig) in
  let k3 := rs_h (GetHash recSig) in
  let signHash := BuildSignHash recSig in
  let k4 := rs_s signHash in
  let k5 := rs_t (htobe32 curTime) (LLMQ.id recSig) in
  let batch := [BWrite k1 (VRecSig recSig); BWrite k2 (VU32 curTime);
                BWrite k3 (VHash (LLMQ.id recSig)); BWrite k4 (VByte 1);
                BWrite k5 (VByte 1)] in
  let s := WriteBatch batch s in
  let s := set_hasSigForIdCache (lru_insert (LLMQ.id recSig) true (hasSigForIdCache s)) s in
  let s := set_hasSigForSessionCache (lru_insert signHash true (hasSigForSessionCache s)) s in
  set_hasSigForHashCache (lru_insert (GetHash recSig) true (hasSigForHashCache s)) s.

(** [RemoveRecoveredSig(batch, id, deleteHashKey, deleteTimeKey)]: reads the
    store, adds erasures to [batch], and invalidates cache entries. *)
Definition RemoveRecoveredSig (batch : list (BatchOp DbKey DbVal)) (id : uint256)
    (deleteHashKey deleteTimeKey : bool) (s : CRecoveredSigsDb)
  : list (BatchOp DbKey DbVal) * CRecoveredSigsDb :=
  match ReadRecoveredSig id s with
  | None => (batch, s)
  | Some recSig =>
      let signHash := BuildSignHash recSig in
      let k1 := rs_r (LLMQ.id recSig) in
      let k2 := rs_r2 (LLMQ.id recSig) (LLMQ.msgHash recSig) in
      let k3 := rs_h (GetHash recSig) in
      let k4 := rs_s signHash in
      let batch := batch ++ [BErase k1; BErase k2] in
      let batch := if deleteHashKey then batch ++ [BErase k3] else batch in
      let batch := batch ++ [BErase k4] in
      let batch :=
        if deleteTimeKey then
          match db s !! k2 with
          | Some (VU32 writeTime) =>
              batch ++ [BErase (rs_t (htobe32 writeTime) (LLMQ.id recSig))]
          | _ => batch
          end
        else batch in
      let s := set_hasSigForIdCache (lru_erase (LLMQ.id recSig) (hasSigForIdCache s)) s in
      let s := set_hasSigForSessionCache (lru_erase signHash (hasSigForSessionCache s)) s in
      let s := if deleteHashKey
               then set_hasSigForHashCache (lru_erase (GetHash recSig) (hasSigForHashCache s)) s
               else s in
      (batch, s)
  end.

(** [RemoveRecoveredSig(id)]: completely remove any traces. *)
Definition RemoveRecoveredSig_all (id : uint256) (s : CRecoveredSigsDb) : CRecoveredSigsDb :=
  let '(batch, s) := RemoveRecoveredSig [] id true true s in
  WriteBatch batch s.

Definition TruncateRecoveredSig (id : uint256) (s : CRecoveredSigsDb) : CRecoveredSigsDb :=
  let '(batch, s) := RemoveRecoveredSig [] id false false s in
  WriteBatch batch s.

(** The cursor loop of [CleanupOldRecoveredSigs]: collects keys until the
    cursor is exhausted, a key fails to decode as an ["rs_t"] tuple, or its
    time is not before [endTime]. *)
Fixpoint scan_rs_t (endTime : Z) (cursor : list DbKey) : list (Z * uint256) :=
  match cursor with
  | rs_t t i :: rest =>
      if bool_decide (endTime ≤ be32toh t) then [] else (t, i) :: scan_rs_t endTime rest
  | _ => []
  end.

(** The loop over [toDelete], with its intermediate flushes. *)
Fixpoint remove_all (toDelete : list uint256) (batch : list (BatchOp DbKey DbVal))
    (s : CRecoveredSigsDb) : list (BatchOp DbKey DbVal) * CRecoveredSigsDb :=
  match toDelete with
  | [] => (batch, s)
  | e :: rest =>
      let '(batch, s) := RemoveRecoveredSig batch e true false s in
      if bool_decide (2 ^ 24 ≤ SizeEstimate batch)
      then remove_all rest [] (WriteBatch batch s)
      else remove_all rest batch s
  end.

Definition CleanupOldRecoveredSigs (now maxAge : Z) (s : CRecoveredSigsDb)
  : CRecoveredSigsDb :=
  let start := rs_t 0 0%N in
  let endTime := to_uint32 (now - maxAge) in
  let found := scan_rs_t endTime (Seek start (db s)) in
  let toDelete := found.*2 in
  let toDelete2 := (λ k, rs_t k.1 k.2) <$> found in
  if bool_decide (toDelete = []) then s
  else
    let '(batch, s) := remove_all toDelete [] s in
    let batch := batch ++ (BErase <$> toDelete2) in
    WriteBatch batch s.

Definition HasVotedOnId (id : uint256) (s : CRecoveredSigsDb) : bool :=
  Exists (rs_v id) (db s).

Definition GetVoteForId (id : uint256) (s : CRecoveredSigsDb) : option uint256 :=
  match db s !! rs_v id with
  | Some (VHash h) => Some h
  | _ => None
  end.

Definition WriteVoteForId (now : Z) (id msgHash : uint256) (s : CRecoveredSigsDb)
  : CRecoveredSigsDb :=
  let k1 := rs_v id in
  let k2 := rs_vt (htobe32 (to_uint32 now)) id in
  WriteBatch [BWrite k1 (VHash msgHash); BWrite k2 (VByte 1)] s.

Fixpoint scan_rs_vt (endTime : Z) (cursor : list DbKey) : list (Z * uint256) :=
  match cursor with
  | rs_vt t i :: rest =>
      if bool_decide (endTime ≤ be32toh t) then [] else (t, i) :: scan_rs_vt endTime rest
  | _ => []
  end.

Definition CleanupOldVotes (now maxAge : Z) (s : CRecoveredSigsDb) : CRecoveredSigsDb :=
  let start := rs_vt 0 0%N in
  let endTime := to_uint32 (now - maxAge) in
  let found := scan_rs_vt endTime (Seek start (db s)) in
  let batch := found ≫= (λ k, [BErase (rs_vt k.1 k.2); BErase (rs_v k.2)]) in
  if bool_decide (length found = 0%nat) then s else WriteBatch batch s.

(** The caches only hold answers the store would give. *)
Definition cache_agrees (tag : uint256 → DbKey) (t : lru) (d : gmap DbKey DbVal) : Prop :=
  ∀ k b, lru_entries t !! k = Some b → b = Exists (tag k) d.

Record caches_agree (d : gmap DbKey DbVal) (s : CRecoveredSigsDb) : Prop := {
  agree_id : cache_agrees rs_r (hasSigForIdCache s) d;
  agree_session : cache_agrees rs_s (hasSigForSessionCache s) d;
  agree_hash : cache_agrees rs_h (hasSigForHashCache s) d
}.

Definition caches_coherent (s : CRecoveredSigsDb) : Prop := caches_agree (db s) s.

(** Under an ["rs_r", id] key there is a record, and it is the record of
    that id. *)
Definition records_keyed (d : gmap DbKey DbVal) : Prop :=
  ∀ i v, d !! rs_r i = Some v → ∃ r, v = VRecSig r ∧ LLMQ.id r = i.

(** The keys [RemoveRecoveredSig(batch, id, deleteHashKey, false)] adds
    erasures for, given what the store holds. *)
Definition removal_keys (d : gmap DbKey DbVal) (deleteHashKey : bool) (id : uint256)
  : list DbKey :=
  match d !! rs_r id with
  | Some (VRecSig r) =>
      [rs_r (LLMQ.id r); rs_r2 (LLMQ.id r) (LLMQ.msgHash r)]
      ++ (if deleteHashKey then [rs_h (GetHash r)] else [])
      ++ [rs_s (BuildSignHash r)]
  | _ => []
  end.

(** A record as [WriteRecoveredSig] leaves it: the record under its id, and
    its content hash in the by-hash index. *)
Definition stored (r : CRecoveredSig) (s : CRecoveredSigsDb) : Prop :=
  db s !! rs_r (LLMQ.id r) = Some (VRecSig r) ∧ is_Some (db s !! rs_h (GetHash r)).
End store.
End RecSigDb.

(** ** [CSigningManager] *)
Module Signing.
Import DBWrapper LLMQ RecSigDb.

(** What the code reads off a [CBlockIndex]. *)
Record CBlockIndex := mkCBlockIndex {
  nHeight : Z;
  (** [chainman.ActiveChain().Contains(pindex)] *)
  in_active_chain : bool;
  (** [pindex->IsValid(BLOCK_VALID_SCRIPTS)] *)
  valid_scripts : bool
}.

(** What the code reads off a [CQuorum]. *)
Record CQuorum := mkCQuorum {
  qc_quorumHash : uint256;
  qc_quorumPublicKey : CBLSPublicKey;
  IsValidMember : uint256 → bool
}.

Inductive LogLine :=
| LogBlockMissing (id : uint256)
| LogHeightNotMultiple (height : Z) (id : uint256)
| LogBlockNotActive (blockHash : uint256)
| LogValidRecSig (signHash id msgHash : uint256)
| LogConflictingRecSig (signHash id msgHash otherSignHash : uint256)
| LogQuorumNotFound (quorumHash : uint256)
| LogQuorumNotActive (quorumHash : uint256)
| LogAlreadyPendingReconstructed (signHash id msgHash : uint256)
| LogReceived (signHash id msgHash : uint256)
| LogVerified (count nodes : nat)
| LogBanning (peer : NodeId)
| LogSelectFailed (id msgHash : uint256)
| LogNotVotingConflict (id prevMsgHash msgHash : uint256)
| LogResigning (id prevMsgHash : uint256)
| LogNotVotingAgain (id prevMsgHash : uint256).

(** Calls into the collaborators, and log lines. *)
Inductive Event :=
| AddKnownTx (peer : NodeId) (hash : uint256)
| ReceivedResponse (node : NodeId) (hash : uint256)
| ForgetTxHash (node : NodeId) (hash : uint256)
| Misbehaving (peer : NodeId) (howmuch : Z) (message : string)
| RelayRecoveredSig (hash : uint256)
| HandleNewRecoveredSig (listener : nat) (recSig : CRecoveredSig)
| ForceReAnnouncement (quorum id msgHash : uint256)
| AsyncSign (quorum id msgHash : uint256)
| Log (line : LogLine).

(** The surroundings of the signing manager: globals, the chain, the quorum
    manager, the clock and the sources of nondeterminism.
    [SIGN_HEIGHT_LOOKBACK] and the default arguments with which
    [AsyncSignIfMember] calls [SelectQuorumForSigning] are declared in
    headers that are not among the sources, so the constant and the
    selection are taken from here.  [node_order] and [hash_order] are the
    orders in which an [unordered_map] with the given keys is traversed. *)
Record Env := mkEnv {
  fMasternodeMode : bool;
  proTxHash : uint256;
  GetAdjustedTime : Z;
  GetPeerRef : NodeId → bool;
  LookupBlockIndex : uint256 → option CBlockIndex;
  SIGN_HEIGHT_LOOKBACK : Z;
  GetQuorum : uint256 → option CQuorum;
  IsQuorumActive : uint256 → bool;
  SelectQuorumForSigning : uint256 → option CQuorum;
  Shuffle : list NodeId → list NodeId;
  Shuffle_perm : ∀ l, Shuffle l ≡ₚ l;
  node_order : gset NodeId → list NodeId;
  node_order_perm : ∀ X, node_order X ≡ₚ elements X;
  hash_order : gset uint256 → list uint256;
  hash_order_perm : ∀ X, hash_order X ≡ₚ elements X
}.

(** Modelled from the spec: [CBLSBatchVerifier<NodeId, uint256>]
    ([bls/bls_batchverifier.h] is not among the sources).  Messages are
    collected per source; [Verify] checks them against their public keys
    and puts every source that contributed a message failing the check
    into [badSources]. *)
Record Message := mkMessage {
  msgId : uint256;
  msg_signHash : uint256;
  msg_sig : CBLSSignature;
  msg_pubKey : CBLSPublicKey
}.

Record CBLSBatchVerifier := mkCBLSBatchVerifier {
  messagesBySource : list (NodeId * Message);
  badSources : gset NodeId
}.

Definition PushMessage (sourceId : NodeId) (mid signHash : uint256)
    (sg : CBLSSignature) (pubKey : CBLSPublicKey) (bv : CBLSBatchVerifier)
  : CBLSBatchVerifier :=
  mkCBLSBatchVerifier (messagesBySource bv ++ [(sourceId, mkMessage mid signHash sg pubKey)])
                      (badSources bv).

Definition message_ok `{Crypto} (msg : Message) : bool :=
  VerifyInsecure (msg_sig msg) (msg_pubKey msg) (msg_signHash msg).

Definition Verify `{Crypto} (bv : CBLSBatchVerifier) : CBLSBatchVerifier :=
  mkCBLSBatchVerifier (messagesBySource bv)
    (badSources bv
     ∪ list_to_set (filter (λ p, message_ok p.2 = false) (messagesBySource bv)).*1).

(** [CLLMQUtils::IterateNodesRandom].  The container is reached through the
    state [St]; [nodeStates] lists its keys in traversal order.  The loop is
    bounded by [fuel]; running out of it is [None]. *)
Section IterateNodesRandom.
Context {St : Type} (cont : St → bool) (callback : NodeId → St → bool * St).

Fixpoint iterate_loop (fuel : nat) (rndNodes : list NodeId) (idx : nat) (st : St)
  : option St :=
  match fuel with
  | O => None
  | S fuel =>
      if bool_decide (rndNodes = []) || negb (cont st) then Some st
      else
        nodeId ← rndNodes !! idx;
        let '(more, st) := callback nodeId st in
        if more
        then iterate_loop fuel rndNodes ((idx + 1) `mod` length rndNodes)%nat st
        else
          let rndNodes := delete idx rndNodes in
          if bool_decide (rndNodes = []) then Some st
          else iterate_loop fuel rndNodes (idx `mod` length rndNodes)%nat st
  end.

Definition IterateNodesRandom (e : Env) (fuel : nat) (nodeStates : list NodeId) (st : St)
  : option St :=
  if bool_decide (nodeStates = []) then Some st
  else iterate_loop fuel (Shuffle e nodeStates) 0 st.
End IterateNodesRandom.

Section manager.
Context `{Crypto} `{LruCache} `{BatchSizing}.

Record CSigningManager := mkCSigningManager {
  db : CRecoveredSigsDb;
  pendingRecoveredSigs : gmap NodeId (list CRecoveredSig);
  pendingReconstructedRecoveredSigs : gmap uint256 CRecoveredSig;
  recoveredSigsListeners : list nat
}.

Definition set_db (d : CRecoveredSigsDb) (m : CSigningManager) : CSigningManager :=
  mkCSigningManager d (pendingRecoveredSigs m) (pendingReconstructedRecoveredSigs m)
    (recoveredSigsListeners m).
Definition set_pendingRecoveredSigs (p : gmap NodeId (list CRecoveredSig))
    (m : CSigningManager) : CSigningManager :=
  mkCSigningManager (db m) p (pendingReconstructedRecoveredSigs m) (recoveredSigsListeners m).
Definition set_pendingReconstructedRecoveredSigs (p : gmap uint256 CRecoveredSig)
    (m : CSigningManager) : CSigningManager :=
  mkCSigningManager (db m) (pendingRecoveredSigs m) p (recoveredSigsListeners m).

(** [peerman.Misbehaving] on the peer of [nodeId], if there still is one *)
Definition misbehaving_if_peer (e : Env) (nodeId : NodeId) (howmuch : Z) (message : string)
  : list Event :=
  if GetPeerRef e nodeId then [Misbehaving nodeId howmuch message] else [].

Definition PreVerifyRecoveredSig (e : Env) (recoveredSig : CRecoveredSig)
  : bool * list Event :=
  match GetQuorum e (quorumHash recoveredSig) with
  | None => (false, [Log (LogQuorumNotFound (quorumHash recoveredSig))])
  | Some quorum =>
      if negb (IsQuorumActive e (qc_quorumHash quorum)) then (false, []) else (true, [])
  end.

(** [pfrom] is the id of the sending node. *)
Definition ProcessMessageRecoveredSig (e : Env) (pfrom : NodeId)
    (recoveredSig : CRecoveredSig) (m : CSigningManager)
  : CSigningManager * list Event :=
  let hash := GetHash recoveredSig in
  let ev0 := (if GetPeerRef e pfrom then [AddKnownTx pfrom hash] else [])
             ++ [ReceivedResponse pfrom hash] in
  let '(ok, ev1) := PreVerifyRecoveredSig e recoveredSig in
  if negb ok then (m, ev0 ++ ev1)
  else
    let '(known, d) := HasRecoveredSigForHash hash (db m) in
    let m := set_db d m in
    if known then (m, ev0 ++ ev1 ++ [ForgetTxHash pfrom hash])
    else
      let signHash := BuildSignHash recoveredSig in
      let ev2 := [Log (LogReceived signHash (id recoveredSig) (msgHash recoveredSig))] in
      match pendingReconstructedRecoveredSigs m !! hash with
      | Some _ =>
          (m, ev0 ++ ev1 ++ ev2
              ++ [Log (LogAlreadyPendingReconstructed signHash (id recoveredSig)
                         (msgHash recoveredSig));
                  ForgetTxHash pfrom hash])
      | None =>
          (set_pendingRecoveredSigs
             (<[pfrom := (pendingRecoveredSigs m !!! pfrom) ++ [recoveredSig]]>
                (pendingRecoveredSigs m)) m,
           ev0 ++ ev1 ++ ev2 ++ [ForgetTxHash pfrom hash])
      end.

Definition PushReconstructedRecoveredSig (recoveredSig : CRecoveredSig)
    (m : CSigningManager) : CSigningManager :=
  match pendingReconstructedRecoveredSigs m !! GetHash recoveredSig with
  | Some _ => m
  | None =>
      set_pendingReconstructedRecoveredSigs
        (<[GetHash recoveredSig := recoveredSig]> (pendingReconstructedRecoveredSigs m)) m
  end.

(** [ProcessRecoveredSig(nodeId, recoveredSig)]; the signature must be
    verified already. *)
Definition ProcessRecoveredSig (e : Env) (nodeId : NodeId) (recoveredSig : CRecoveredSig)
    (m : CSigningManager) : CSigningManager * list Event :=
  let hash := GetHash recoveredSig in
  let forget := [ForgetTxHash nodeId hash] in
  let ev0 := (if GetPeerRef e nodeId then [AddKnownTx nodeId hash] else [])
             ++ [ReceivedResponse nodeId hash] in
  match LookupBlockIndex e (msgHash recoveredSig) with
  | None =>
      (m, ev0 ++ [Log (LogBlockMissing (id recoveredSig))] ++ forget
          ++ misbehaving_if_peer e nodeId 10 "invalid recovered signature")
  | Some pindex =>
      if negb (bool_decide (Z.rem (nHeight pindex) (SIGN_HEIGHT_LOOKBACK e) = 0))
      then (m, ev0 ++ [Log (LogHeightNotMultiple (nHeight pindex) (id recoveredSig))]
               ++ forget
               ++ misbehaving_if_peer e nodeId 10 "invalid recovered signature block height")
      else if negb (in_active_chain pindex) || negb (valid_scripts pindex)
      then (m, ev0 ++ [Log (LogBlockNotActive (msgHash recoveredSig))] ++ forget
               ++ misbehaving_if_peer e nodeId 10 "recovered signature of unconfirmed block")
      else
        let '(known, d) := HasRecoveredSigForHash hash (db m) in
        let m := set_db d m in
        if known then (m, ev0 ++ forget)
        else
          let listeners := recoveredSigsListeners m in
          let signHash := BuildSignHash recoveredSig in
          let ev1 := ev0 ++ [Log (LogValidRecSig signHash (id recoveredSig)
                                    (msgHash recoveredSig))] in
          let '(hasId, d) := HasRecoveredSigForId (id recoveredSig) (db m) in
          let m := set_db d m in
          (** the [if (db.HasRecoveredSigForId(...))] block: [inl] is the
              [return] of its conflict branch, with the sign hash of the
              stored record; [inr] carries [bAlreadyKnown] and
              [bAlreadyKnownReturn] *)
          let verdict : uint256 + bool * bool :=
            if hasId then
              match GetRecoveredSigById (id recoveredSig) (db m) with
              | Some otherRecoveredSig =>
                  let otherSignHash := BuildSignHash otherRecoveredSig in
                  if bool_decide (signHash ≠ otherSignHash)
                  then inl otherSignHash
                  else inr (true, true)
              | None => inr (true, false)
              end
            else inr (false, false) in
          match verdict with
          | inl otherSignHash =>
              (m, ev1 ++ [Log (LogConflictingRecSig signHash (id recoveredSig)
                                 (msgHash recoveredSig) otherSignHash)]
                      ++ forget)
          | inr (bAlreadyKnown, bAlreadyKnownReturn) =>
              let m :=
                if negb bAlreadyKnownReturn
                then set_pendingReconstructedRecoveredSigs
                       (delete hash (pendingReconstructedRecoveredSigs m))
                       (set_db (WriteRecoveredSig (GetAdjustedTime e) recoveredSig (db m)) m)
                else m in
              let ev2 := ev1 ++ (if bAlreadyKnown then forget else []) in
              if bAlreadyKnown && bAlreadyKnownReturn then (m, ev2)
              else
                (m, ev2
                    ++ (if fMasternodeMode e then [RelayRecoveredSig hash] else [])
                    ++ ((λ l, HandleNewRecoveredSig l recoveredSig) <$> listeners)
                    ++ forget)
          end
  end.

(** The loop of [ProcessPendingReconstructedRecoveredSigs] over the moved-out
    map. *)
Fixpoint process_reconstructed (e : Env) (sigs : list CRecoveredSig) (m : CSigningManager)
  : CSigningManager * list Event :=
  match sigs with
  | [] => (m, [])
  | p :: rest =>
      let '(m, ev) := ProcessRecoveredSig e (-1) p m in
      let '(m, ev') := process_reconstructed e rest m in
      (m, ev ++ ev')
  end.

Definition ProcessPendingReconstructedRecoveredSigs (e : Env) (m : CSigningManager)
  : CSigningManager * list Event :=
  let moved := pendingReconstructedRecoveredSigs m in
  let m := set_pendingReconstructedRecoveredSigs ∅ m in
  process_reconstructed e
    (omap (λ h, moved !! h) (hash_order e (dom moved))) m.

(** State of the first phase of [CollectPendingRecoveredSigsToVerify]. *)
Record Collecting := mkCollecting {
  c_db : CRecoveredSigsDb;
  c_pending : gmap NodeId (list CRecoveredSig);
  uniqueSignHashes : gset (NodeId * uint256);
  retSigShares : gmap NodeId (list CRecoveredSig)
}.

(** The [Continue] and [Callback] lambdas handed to [IterateNodesRandom]. *)
Definition collect_cont (maxUniqueSessions : nat) (st : Collecting) : bool :=
  bool_decide (size (uniqueSignHashes st) < maxUniqueSessions)%nat.

Definition collect_callback (nodeId : NodeId) (st : Collecting) : bool * Collecting :=
  match c_pending st !!! nodeId with
  | [] => (false, st)
  | recSig :: ns =>
      let '(alreadyHave, d) := HasRecoveredSigForHash (GetHash recSig) (c_db st) in
      let pending := <[nodeId := ns]> (c_pending st) in
      let st :=
        if alreadyHave
        then mkCollecting d pending (uniqueSignHashes st) (retSigShares st)
        else mkCollecting d pending
               ({[(nodeId, BuildSignHash recSig)]} ∪ uniqueSignHashes st)
               (<[nodeId := (retSigShares st !!! nodeId) ++ [recSig]]> (retSigShares st)) in
      (negb (bool_decide (ns = [])), st)
  end.

(** The inner loop of the second phase: drops the candidates whose quorum
    is unknown or no longer active, recording the quorums it resolves. *)
Fixpoint resolve_quorums (e : Env) (v : list CRecoveredSig) (retQuorums : gmap uint256 CQuorum)
  : list CRecoveredSig * gmap uint256 CQuorum * list Event :=
  match v with
  | [] => ([], retQuorums, [])
  | recSig :: rest =>
      match retQuorums !! quorumHash recSig with
      | Some _ =>
          let '(v', q, ev) := resolve_quorums e rest retQuorums in (recSig :: v', q, ev)
      | None =>
          match GetQuorum e (quorumHash recSig) with
          | None =>
              let '(v', q, ev) := resolve_quorums e rest retQuorums in
              (v', q, Log (LogQuorumNotFound (quorumHash recSig)) :: ev)
          | Some quorum =>
              if negb (IsQuorumActive e (qc_quorumHash quorum))
              then
                let '(v', q, ev) := resolve_quorums e rest retQuorums in
                (v', q, Log (LogQuorumNotActive (quorumHash recSig)) :: ev)
              else
                let '(v', q, ev) :=
                  resolve_quorums e rest (<[quorumHash recSig := quorum]> retQuorums) in
                (recSig :: v', q, ev)
          end
      end
  end.

Fixpoint resolve_all (e : Env) (nodes : list NodeId)
    (retSigShares : gmap NodeId (list CRecoveredSig)) (retQuorums : gmap uint256 CQuorum)
  : gmap NodeId (list CRecoveredSig) * gmap uint256 CQuorum * list Event :=
  match nodes with
  | [] => (retSigShares, retQuorums, [])
  | nodeId :: rest =>
      let '(v, q, ev) := resolve_quorums e (retSigShares !!! nodeId) retQuorums in
      let '(r, q, ev') := resolve_all e rest (<[nodeId := v]> retSigShares) q in
      (r, q, ev ++ ev')
  end.

(** A bound on the number of callbacks [IterateNodesRandom] can make: every
    callback either removes a candidate from a queue or retires a node. *)
Definition collect_measure (pending : gmap NodeId (list CRecoveredSig))
    (nodes : list NodeId) : nat :=
  sum_list ((λ n, S (length (pending !!! n))) <$> nodes).

Definition collect_budget (pending : gmap NodeId (list CRecoveredSig)) (nodes : list NodeId)
  : nat :=
  S (collect_measure pending nodes).

Definition CollectPendingRecoveredSigsToVerify (e : Env) (maxUniqueSessions : nat)
    (m : CSigningManager)
  : option (gmap NodeId (list CRecoveredSig) * gmap uint256 CQuorum
            * CSigningManager * list Event) :=
  if bool_decide (pendingRecoveredSigs m = ∅) then Some (∅, ∅, m, [])
  else
    let nodes := node_order e (dom (pendingRecoveredSigs m)) in
    st ← IterateNodesRandom (collect_cont maxUniqueSessions) collect_callback e
           (collect_budget (pendingRecoveredSigs m) (Shuffle e nodes)) nodes
           (mkCollecting (db m) (pendingRecoveredSigs m) ∅ ∅);
    let m := set_pendingRecoveredSigs (c_pending st) (set_db (c_db st) m) in
    if bool_decide (retSigShares st = ∅) then Some (∅, ∅, m, [])
    else
      let '(r, q, ev) :=
        resolve_all e (node_order e (dom (retSigShares st))) (retSigShares st) ∅ in
      Some (r, q, m, ev).

(** The loop that feeds the batch verifier: [None] is [quorums.at] throwing.
    The result says whether the loop ran to the end of the list. *)
Fixpoint push_node (quorums : gmap uint256 CQuorum) (nodeId : NodeId)
    (v : list CRecoveredSig) (bv : CBLSBatchVerifier) (verifyCount : nat)
  : option (CBLSBatchVerifier * nat) :=
  match v with
  | [] => Some (bv, verifyCount)
  | recSig :: rest =>
      if negb (IsValid (sig recSig))
      then Some (mkCBLSBatchVerifier (messagesBySource bv) ({[nodeId]} ∪ badSources bv),
                 verifyCount)
      else
        quorum ← quorums !! quorumHash recSig;
        push_node quorums nodeId rest
          (PushMessage nodeId (GetHash recSig) (BuildSignHash recSig) (sig recSig)
             (qc_quorumPublicKey quorum) bv)
          (S verifyCount)
  end.

Fixpoint push_all (quorums : gmap uint256 CQuorum) (nodes : list NodeId)
    (recSigsByNode : gmap NodeId (list CRecoveredSig)) (bv : CBLSBatchVerifier)
    (verifyCount : nat) : option (CBLSBatchVerifier * nat) :=
  match nodes with
  | [] => Some (bv, verifyCount)
  | nodeId :: rest =>
      '(bv, verifyCount) ← push_node quorums nodeId (recSigsByNode !!! nodeId) bv verifyCount;
      push_all quorums rest recSigsByNode bv verifyCount
  end.

(** The loops that hand the surviving candidates to [ProcessRecoveredSig]. *)
Fixpoint dispatch_node (e : Env) (nodeId : NodeId) (v : list CRecoveredSig)
    (processed : gset uint256) (m : CSigningManager)
  : gset uint256 * CSigningManager * list Event :=
  match v with
  | [] => (processed, m, [])
  | recSig :: rest =>
      if bool_decide (GetHash recSig ∈ processed)
      then dispatch_node e nodeId rest processed m
      else
        let '(m, ev) := ProcessRecoveredSig e nodeId recSig m in
        let '(p, m, ev') :=
          dispatch_node e nodeId rest ({[GetHash recSig]} ∪ processed) m in
        (p, m, ev ++ ev')
  end.

Fixpoint dispatch (e : Env) (bad : gset NodeId) (nodes : list NodeId)
    (recSigsByNode : gmap NodeId (list CRecoveredSig))
    (processed : gset uint256) (m : CSigningManager)
  : CSigningManager * list Event :=
  match nodes with
  | [] => (m, [])
  | nodeId :: rest =>
      if bool_decide (nodeId ∈ bad)
      then
        let ev := Log (LogBanning nodeId)
                  :: misbehaving_if_peer e nodeId 100 "invalid recSig from other node" in
        let '(m, ev') := dispatch e bad rest recSigsByNode processed m in
        (m, ev ++ ev')
      else
        let '(p, m, ev) :=
          dispatch_node e nodeId (recSigsByNode !!! nodeId) processed m in
        let '(m, ev') := dispatch e bad rest recSigsByNode p m in
        (m, ev ++ ev')
  end.

Definition nMaxBatchSize : nat := 32.

(** Everything of [ProcessPendingRecoveredSigs] after the collection: batch
    verification of the round [recSigsByNode] and the dispatch of what
    survives it. *)
Definition verify_and_dispatch (e : Env) (recSigsByNode : gmap NodeId (list CRecoveredSig))
    (quorums : gmap uint256 CQuorum) (m : CSigningManager)
  : option (bool * CSigningManager * list Event) :=
  let nodes := node_order e (dom recSigsByNode) in
  '(batchVerifier, verifyCount) ←
    push_all quorums nodes recSigsByNode (mkCBLSBatchVerifier [] ∅) 0%nat;
  let batchVerifier := Verify batchVerifier in
  let '(m, ev) := dispatch e (badSources batchVerifier) nodes recSigsByNode ∅ m in
  Some (bool_decide (nMaxBatchSize ≤ size recSigsByNode)%nat, m,
        Log (LogVerified verifyCount (size recSigsByNode)) :: ev).

Definition ProcessPendingRecoveredSigs (e : Env) (m : CSigningManager)
  : option (bool * CSigningManager * list Event) :=
  let '(m, ev0) := ProcessPendingReconstructedRecoveredSigs e m in
  '(recSigsByNode, quorums, m, ev1) ← CollectPendingRecoveredSigsToVerify e nMaxBatchSize m;
  if bool_decide (recSigsByNode = ∅) then Some (false, m, ev0 ++ ev1)
  else
    '(ret, m, ev2) ← verify_and_dispatch e recSigsByNode quorums m;
    Some (ret, m, ev0 ++ ev1 ++ ev2).

Definition AsyncSignIfMember (e : Env) (id msgHash quorumHash : uint256) (allowReSign : bool)
    (m : CSigningManager) : bool * CSigningManager * list Event :=
  if negb (fMasternodeMode e) || IsNull (proTxHash e) then (false, m, [])
  else
    let quorum :=
      if IsNull quorumHash then SelectQuorumForSigning e id else GetQuorum e quorumHash in
    match quorum with
    | None => (false, m, [Log (LogSelectFailed id msgHash)])
    | Some quorum =>
        if negb (IsValidMember quorum (proTxHash e)) then (false, m, [])
        else
          let hasVoted := HasVotedOnId id (db m) in
          (** the [if (hasVoted)] block: [inl] is its [return false] *)
          let voted : list Event + list Event :=
            if hasVoted then
              let prevMsgHash := default 0%N (GetVoteForId id (db m)) in
              if bool_decide (msgHash ≠ prevMsgHash)
              then inl [Log (LogNotVotingConflict id prevMsgHash msgHash)]
              else if allowReSign
              then inr [Log (LogResigning id prevMsgHash)]
              else inl [Log (LogNotVotingAgain id prevMsgHash)]
            else inr [] in
          match voted with
          | inl ev => (false, m, ev)
          | inr ev =>
              let '(hasSig, d) := HasRecoveredSigForId id (db m) in
              let m := set_db d m in
              if hasSig then (true, m, ev)
              else
                let m :=
                  if negb hasVoted
                  then set_db (WriteVoteForId (GetAdjustedTime e) id msgHash (db m)) m
                  else m in
                (true, m,
                 ev ++ (if allowReSign
                        then [ForceReAnnouncement (qc_quorumHash quorum) id msgHash]
                        else [])
                    ++ [AsyncSign (qc_quorumHash quorum) id msgHash])
          end
    end.

Definition TruncateRecoveredSig (id : uint256) (m : CSigningManager) : CSigningManager :=
  set_db (RecSigDb.TruncateRecoveredSig id (db m)) m.

Definition Clear (e : Env) (m : CSigningManager) : CSigningManager :=
  let maxAge := 0 in
  set_db (CleanupOldVotes (GetAdjustedTime e) maxAge
            (CleanupOldRecoveredSigs (GetAdjustedTime e) maxAge (db m))) m.

Definition IsConflicting (id msgHash : uint256) (m : CSigningManager)
  : bool * CSigningManager :=
  let '(hasId, d) := HasRecoveredSigForId id (db m) in
  let m := set_db d m in
  if negb hasId then (false, m)
  else if negb (HasRecoveredSig id msgHash (db m)) then (true, m)
  else (false, m).

(** The checks [ProcessRecoveredSig] makes on the signed block before it
    looks at the store. *)
Definition block_accepted (e : Env) (r : CRecoveredSig) : Prop :=
  ∃ pindex, LookupBlockIndex e (msgHash r) = Some pindex
    ∧ Z.rem (nHeight pindex) (SIGN_HEIGHT_LOOKBACK e) = 0
    ∧ in_active_chain pindex = true ∧ valid_scripts pindex = true.

(** Events by which a recovered signature is disseminated. *)
Definition disseminates (x : Event) : Prop :=
  match x with
  | RelayRecoveredSig _ | HandleNewRecoveredSig _ _ => True
  | _ => False
  end.

(** Log lines that report a conflicting recovered signature. *)
Definition reports_conflict (x : Event) : Prop :=
  match x with
  | Log (LogConflictingRecSig _ _ _ _) => True
  | _ => False
  end.

(** Events by which share signing is dispatched. *)
Definition dispatches_signing (x : Event) : Prop :=
  match x with
  | AsyncSign _ _ _ | ForceReAnnouncement _ _ _ => True
  | _ => False
  end.

(** Events other than the ones that show a candidate being handed to
    [ProcessRecoveredSig] or an origin being flagged for an invalid
    signature. *)
Definition inert (x : Event) : Prop :=
  match x with
  | ReceivedResponse _ _ | Log (LogBanning _) => False
  | Misbehaving _ howmuch _ => howmuch ≠ 100
  | _ => True
  end.



(** The vote a state holds for an id. *)
Definition vote_of (id : uint256) (m : CSigningManager) : option uint256 :=
  GetVoteForId id (db m).
End manager.
End Signing.

(** ** [CDKGSessionManager]: verified contributions *)
Module DKGMgr.
Import LLMQ.

(** A default-constructed [CBLSSecretKey] is the invalid key. *)
Inductive CBLSSecretKey := sk_invalid | sk_key (k : N).

Definition BLSVerificationVector := list CBLSPublicKey.

(** Keys [(DB_VVEC, quorumHash, proTxHash)] and
    [(DB_SKCONTRIB, quorumHash, proTxHash)], and the values under them. *)
Inductive DkgKey :=
| DB_VVEC (hashQuorum proTxHash : uint256)
| DB_SKCONTRIB (hashQuorum proTxHash : uint256).

Inductive DkgVal :=
| VVvec (vvec : BLSVerificationVector)
| VSk (skContribution : CBLSSecretKey).

Global Instance DkgKey_eq_dec : EqDecision DkgKey.
Proof. solve_decision. Defined.

Global Instance DkgKey_countable : Countable DkgKey.
Proof.
  apply (inj_countable'
           (λ k, match k with DB_VVEC q p => inl (q, p) | DB_SKCONTRIB q p => inr (q, p) end)
           (λ c, match c with inl (q, p) => DB_VVEC q p | inr (q, p) => DB_SKCONTRIB q p end)).
  by intros [].
Defined.

Record ContributionsCacheEntry := mkContributionsCacheEntry {
  entryTime : Z;
  vvec : BLSVerificationVector;
  skContribution : CBLSSecretKey
}.

Record CDKGSessionManager := mkCDKGSessionManager {
  db : gmap DkgKey DkgVal;
  (** keyed by [ContributionsCacheKey {quorumHash, proTxHash}] *)
  contributionsCache : gmap (uint256 * uint256) ContributionsCacheEntry
}.

Definition MAX_CONTRIBUTION_CACHE_TIME : Z := 60 * 1000.

Definition WriteVerifiedVvecContribution (hashQuorum proTxHash : uint256)
    (vv : BLSVerificationVector) (mgr : CDKGSessionManager) : CDKGSessionManager :=
  mkCDKGSessionManager (<[DB_VVEC hashQuorum proTxHash := VVvec vv]> (db mgr))
                       (contributionsCache mgr).

Definition WriteVerifiedSkContribution (hashQuorum proTxHash : uint256)
    (sk : CBLSSecretKey) (mgr : CDKGSessionManager) : CDKGSessionManager :=
  mkCDKGSessionManager (<[DB_SKCONTRIB hashQuorum proTxHash := VSk sk]> (db mgr))
                       (contributionsCache mgr).

(** Conversion to [uint16_t]. *)
Definition to_uint16 (i : nat) : Z := Z.of_nat i `mod` 2 ^ 16.

(** The three output vectors. *)
Record Contributions := mkContributions {
  memberIndexesRet : list Z;
  vvecsRet : list BLSVerificationVector;
  skContributionsRet : list CBLSSecretKey
}.

(** The loop of [GetVerifiedContributions] from index [i] on, [members]
    being the members not yet visited.  [blockHash] is
    [pQuorumBaseBlockIndex->GetBlockHash()], [now] the system clock in
    milliseconds.  [None] is [validMembers[i]] read past the end. *)
Fixpoint contributions_from (blockHash : uint256) (now : Z) (validMembers : list bool)
    (members : list uint256) (i : nat) (out : Contributions) (mgr : CDKGSessionManager)
  : option (bool * Contributions * CDKGSessionManager) :=
  match members with
  | [] => Some (true, out, mgr)
  | proTxHash :: rest =>
      valid ← validMembers !! i;
      if valid : bool then
        let cacheKey := (blockHash, proTxHash) in
        let found :=
          match contributionsCache mgr !! cacheKey with
          | Some entry => Some (entry, mgr)
          | None =>
              match db mgr !! DB_VVEC blockHash proTxHash with
              | Some (VVvec vv) =>
                  let sk := match db mgr !! DB_SKCONTRIB blockHash proTxHash with
                            | Some (VSk sk) => sk
                            | _ => sk_invalid
                            end in
                  let entry := mkContributionsCacheEntry now vv sk in
                  Some (entry,
                        mkCDKGSessionManager (db mgr)
                          (<[cacheKey := entry]> (contributionsCache mgr)))
              | _ => None
              end
          end in
        match found with
        | None => Some (false, out, mgr)
        | Some (entry, mgr) =>
            contributions_from blockHash now validMembers rest (S i)
              (mkContributions (memberIndexesRet out ++ [to_uint16 i])
                               (vvecsRet out ++ [vvec entry])
                               (skContributionsRet out ++ [skContribution entry]))
              mgr
        end
      else contributions_from blockHash now validMembers rest (S i) out mgr
  end.

(** [members] is [CLLMQUtils::GetAllQuorumMembers(pQuorumBaseBlockIndex)],
    by [proTxHash]. *)
Definition GetVerifiedContributions (blockHash : uint256) (members : list uint256)
    (now : Z) (validMembers : list bool) (mgr : CDKGSessionManager)
  : option (bool * Contributions * CDKGSessionManager) :=
  contributions_from blockHash now validMembers members 0 (mkContributions [] [] []) mgr.

Definition CleanupCache (curTime : Z) (mgr : CDKGSessionManager) : CDKGSessionManager :=
  mkCDKGSessionManager (db mgr)
    (filter (λ kv, ¬ (MAX_CONTRIBUTION_CACHE_TIME < curTime - entryTime kv.2))
            (contributionsCache mgr)).

(** What a lookup for one member yields: the cached entry if there is one,
    else the persisted verification vector with the persisted secret-key
    share, or the invalid key where no share is persisted. *)
Definition contribution_of (mgr : CDKGSessionManager) (blockHash proTxHash : uint256)
  : option (BLSVerificationVector * CBLSSecretKey) :=
  match contributionsCache mgr !! (blockHash, proTxHash) with
  | Some entry => Some (vvec entry, skContribution entry)
  | None =>
      match db mgr !! DB_VVEC blockHash proTxHash with
      | Some (VVvec vv) =>
          Some (vv, match db mgr !! DB_SKCONTRIB blockHash proTxHash with
                    | Some (VSk sk) => sk
                    | _ => sk_invalid
                    end)
      | _ => None
      end
  end.

(** Indexes from [i] on, below [i + n], that the bitset marks valid. *)
Definition valid_indexes (validMembers : list bool) (i n : nat) : list nat :=
  filter (λ j, validMembers !! j = Some true) (seq i n).
End DKGMgr.

(** ** [CEvoDB<K,V>]: copies of the pending state *)
Module EvoDBCopy.
Import DBWrapper EvoDB.
Section definitions.
Context {K : Type} `{Countable K} {V : Type}.

(** [GetMapCacheCopy()]: flushes first when a flush is armed, then copies
    every pending write, reading the value through the entry's iterator. *)
Definition GetMapCacheCopy (ok : bool) (c : CEvoDB K V) : option (gmap K V * CEvoDB K V) :=
  c1 ← flush_if_armed ok c;
  entries ← mapM (λ '(key, it), e ← deref (fifoList c1) it; Some (key, e.2))
                 (map_to_list (mapCache c1));
  Some (list_to_map entries, c1).


(** [GetFifoList()]: the pending entries, oldest first. *)
Definition GetFifoList (c : CEvoDB K V) : list (K * V) := (fifoList c).*2.

(** The loop of [RestoreCaches] over the entries of [mapCacheCopy]. *)
Fixpoint write_all (entries : list (K * V)) (c : CEvoDB K V) : option (CEvoDB K V) :=
  match entries with
  | [] => Some c
  | (key, value) :: rest => c1 ← WriteCache key value c; write_all rest c1
  end.

(** [RestoreCaches(mapCacheCopy, eraseCacheCopy)].  [traverse] is the order
    in which the [unordered_map] hands out its entries. *)
Definition RestoreCaches (traverse : gmap K V → list (K * V)) (mapCacheCopy : gmap K V)
    (eraseCacheCopy : gset K) (c : CEvoDB K V) : option (CEvoDB K V) :=
  c1 ← write_all (traverse mapCacheCopy) c;
  Some (mkCEvoDB (mapCache c1) (fifoList c1) eraseCacheCopy
          (maxCacheSize c1) (bFlushOnNextRead c1) (disk c1) (fresh c1)).
End definitions.
End EvoDBCopy.

(** ** [CRecoveredSigsDb]: sequences of calls *)
Module RecSigDbCalls.
Import DBWrapper LLMQ RecSigDb.
Section calls.
Context `{Crypto} `{LruCache} `{BatchSizing}.

(** The calls of the public interface that change the object (the existence
    queries fill the caches), with the reading of the clock where the call
    takes one. *)
Inductive DbCall :=
| CallWriteRecoveredSig (now : Z) (recSig : CRecoveredSig)
| CallTruncateRecoveredSig (id : uint256)
| CallCleanupOldRecoveredSigs (now maxAge : Z)
| CallWriteVoteForId (now : Z) (id msgHash : uint256)
| CallCleanupOldVotes (now maxAge : Z)
| CallHasRecoveredSigForId (id : uint256)
| CallHasRecoveredSigForSession (signHash : uint256)
| CallHasRecoveredSigForHash (hash : uint256).

Definition db_step (s : CRecoveredSigsDb) (o : DbCall) : CRecoveredSigsDb :=
  match o with
  | CallWriteRecoveredSig now recSig => WriteRecoveredSig now recSig s
  | CallTruncateRecoveredSig id => TruncateRecoveredSig id s
  | CallCleanupOldRecoveredSigs now maxAge => CleanupOldRecoveredSigs now maxAge s
  | CallWriteVoteForId now id msgHash => WriteVoteForId now id msgHash s
  | CallCleanupOldVotes now maxAge => CleanupOldVotes now maxAge s
  | CallHasRecoveredSigForId id => (HasRecoveredSigForId id s).2
  | CallHasRecoveredSigForSession signHash => (HasRecoveredSigForSession signHash s).2
  | CallHasRecoveredSigForHash hash => (HasRecoveredSigForHash hash s).2
  end.

Definition db_run (ops : list DbCall) (s : CRecoveredSigsDb) : CRecoveredSigsDb :=
  foldl db_step s ops.

(** The five keys [WriteRecoveredSig] files a record under at time [now]. *)
Definition record_keys (now : Z) (r : CRecoveredSig) : list DbKey :=
  [rs_r (LLMQ.id r); rs_r2 (LLMQ.id r) (LLMQ.msgHash r); rs_h (GetHash r);
   rs_s (BuildSignHash r); rs_t (htobe32 (to_uint32 now)) (LLMQ.id r)].
End calls.
End RecSigDbCalls.

(** ** [CSigningManager]: queries and listeners *)
Module SigningQueries.
Import DBWrapper LLMQ RecSigDb Signing.
Section manager.
Context `{Crypto} `{LruCache} `{BatchSizing}.

Definition AlreadyHave (hash : uint256) (m : CSigningManager) : bool * CSigningManager :=
  match pendingReconstructedRecoveredSigs m !! hash with
  | Some _ => (true, m)
  | None =>
      let '(ret, d) := HasRecoveredSigForHash hash (db m) in
      (ret, set_db d m)
  end.

Definition GetRecoveredSigForGetData (e : Env) (hash : uint256) (m : CSigningManager)
  : option CRecoveredSig :=
  match GetRecoveredSigByHash hash (db m) with
  | None => None
  | Some ret =>
      if negb (IsQuorumActive e (quorumHash ret)) then None else Some ret
  end.

Definition GetRecoveredSigForId (id : uint256) (m : CSigningManager) : option CRecoveredSig :=
  GetRecoveredSigById id (db m).

(** [recoveredSigsListeners.emplace_back(l)] *)
Definition RegisterRecoveredSigsListener (l : nat) (m : CSigningManager) : CSigningManager :=
  mkCSigningManager (db m) (pendingRecoveredSigs m) (pendingReconstructedRecoveredSigs m)
    (recoveredSigsListeners m ++ [l]).

(** [std::remove] followed by [erase]: every occurrence of [l] goes, the
    others keep their order. *)
Definition UnregisterRecoveredSigsListener (l : nat) (m : CSigningManager) : CSigningManager :=
  mkCSigningManager (db m) (pendingRecoveredSigs m) (pendingReconstructedRecoveredSigs m)
    (filter (λ x, x ≠ l) (recoveredSigsListeners m)).

(** The listener calls among a list of events, in order. *)
Definition notifications (ev : list Event) : list (nat * CRecoveredSig) :=
  omap (λ x, match x with HandleNewRecoveredSig l r => Some (l, r) | _ => None end) ev.

(** The relays among a list of events, in order. *)
Definition relays (ev : list Event) : list uint256 :=
  omap (λ x, match x with RelayRecoveredSig h => Some h | _ => None end) ev.

(** Every vote in the store is a message hash. *)
Definition votes_typed (d : gmap DbKey DbVal) : Prop :=
  ∀ i v, d !! rs_v i = Some v → ∃ h, v = VHash h.

(** The quorum [AsyncSignIfMember] signs with. *)
Definition signing_quorum (e : Env) (id quorumHash : uint256) : option CQuorum :=
  if IsNull quorumHash then SelectQuorumForSigning e id else GetQuorum e quorumHash.

(** What makes [ProcessMessageRecoveredSig] queue a message: its quorum is
    known and active, its content hash is not in the store, and no
    reconstructed signature with that hash is pending. *)
Definition queueable (e : Env) (recoveredSig : CRecoveredSig) (m : CSigningManager) : bool :=
  match GetQuorum e (quorumHash recoveredSig) with
  | Some quorum => IsQuorumActive e (qc_quorumHash quorum)
  | None => false
  end
  && negb (Exists (rs_h (GetHash recoveredSig)) (RecSigDb.db (db m)))
  && negb (bool_decide (is_Some (pendingReconstructedRecoveredSigs m !! GetHash recoveredSig))).
End manager.
End SigningQueries.

(** ** [CSigningManager::SelectQuorumForSigning] and [VerifyRecoveredSig] *)
Module QuorumSelection.
Import LLMQ Signing.

(** What the selection reads from its surroundings: the consensus parameter
    [llmqTypeChainLocks.signingActiveQuorumCount], the height of the active
    chain, the quorum manager's scan (from the block of the active chain at
    the given height, for at most the given number of quorums), and the
    hash [CHashWriter] yields for a quorum hash followed by a selection
    hash. *)
Record SelectionEnv := mkSelectionEnv {
  signingActiveQuorumCount : Z;
  ActiveHeight : Z;
  ScanQuorums : Z → nat → list CQuorum;
  HashPair : uint256 → uint256 → uint256
}.

(** [std::pair<uint256, size_t>] under [operator<]: by hash, then by
    index. *)
Definition score_le (a b : uint256 * nat) : Prop :=
  (a.1 < b.1)%N ∨ (a.1 = b.1 ∧ (a.2 ≤ b.2)%nat).

Global Instance score_le_dec a b : Decision (score_le a b).
Proof. unfold score_le. apply _. Defined.

(** The loop that fills [scores]. *)
Definition scores_of (c : SelectionEnv) (selectionHash : uint256) (quorums : list CQuorum)
  : list (uint256 * nat) :=
  imap (λ i quorum, (HashPair c (qc_quorumHash quorum) selectionHash, i)) quorums.

(** [SelectQuorumForSigning(chainman, selectionHash, signHeight,
    signOffset)].  The outer [None] is behaviour the language leaves
    undefined: overflow of [signHeight - signOffset] in [int], [front()] of
    an empty vector, indexing past the end.  The inner [None] is the null
    pointer. *)
Definition SelectQuorumForSigning (c : SelectionEnv) (selectionHash : uint256)
    (signHeight signOffset : Z) : option (option CQuorum) :=
  let poolSize := Z.to_nat (signingActiveQuorumCount c `mod` 2 ^ 64) in (* (size_t) *)
  let signHeight := if bool_decide (signHeight = -1) then ActiveHeight c else signHeight in
  let startBlockHeight := signHeight - signOffset in
  if negb (bool_decide (- 2 ^ 31 ≤ startBlockHeight < 2 ^ 31)) then None
  else if bool_decide (ActiveHeight c < startBlockHeight) || bool_decide (startBlockHeight < 0)
  then Some None
  else
    let quorums := ScanQuorums c startBlockHeight poolSize in
    match quorums with
    | [] => Some None
    | _ =>
        match merge_sort score_le (scores_of c selectionHash quorums) with
        | [] => None
        | front :: _ => quorum ← quorums !! front.2; Some (Some quorum)
        end
    end.

Definition VerifyRecoveredSig `{Crypto} (c : SelectionEnv) (signedAtHeight : Z)
    (id msgHash : uint256) (sg : CBLSSignature) (signOffset : Z) : option bool :=
  quorum ← SelectQuorumForSigning c id signedAtHeight signOffset;
  match quorum with
  | None => Some false
  | Some quorum =>
      let signHash := BuildSignHash3 (qc_quorumHash quorum) id msgHash in
      Some (VerifyInsecure sg (qc_quorumPublicKey quorum) signHash)
  end.

(** The block height the scan starts from, and what is scanned there. *)
Definition start_height (c : SelectionEnv) (signHeight signOffset : Z) : Z :=
  (if bool_decide (signHeight = -1) then ActiveHeight c else signHeight) - signOffset.

Definition scanned (c : SelectionEnv) (signHeight signOffset : Z) : list CQuorum :=
  ScanQuorums c (start_height c signHeight signOffset)
    (Z.to_nat (signingActiveQuorumCount c `mod` 2 ^ 64)).

(** The score of a quorum for a selection hash. *)
Definition score (c : SelectionEnv) (selectionHash : uint256) (quorum : CQuorum) : uint256 :=
  HashPair c (qc_quorumHash quorum) selectionHash.
End QuorumSelection.

(** ** [CDKGSessionManager]: the contributions cache and the clean-ups *)
Module DKGMgrCalls.
Import LLMQ DKGMgr.

(** The cache lookup of one loop iteration of [GetVerifiedContributions]:
    the entry found in the cache, or the one read from the store and put
    into the cache; [None] when no verification vector is stored. *)
Definition cached_or_read (blockHash : uint256) (now : Z) (proTxHash : uint256)
    (mgr : CDKGSessionManager) : option (ContributionsCacheEntry * CDKGSessionManager) :=
  let cacheKey := (blockHash, proTxHash) in
  match contributionsCache mgr !! cacheKey with
  | Some entry => Some (entry, mgr)
  | None =>
      match db mgr !! DB_VVEC blockHash proTxHash with
      | Some (VVvec vv) =>
          let sk := match db mgr !! DB_SKCONTRIB blockHash proTxHash with
                    | Some (VSk sk) => sk
                    | _ => sk_invalid
                    end in
          let entry := mkContributionsCacheEntry now vv sk in
          Some (entry,
                mkCDKGSessionManager (db mgr)
                  (<[cacheKey := entry]> (contributionsCache mgr)))
      | _ => None
      end
  end.

(** What [CleanupOldContributions] reads from the chain: the height of the
    block index [m_blockman.LookupBlockIndex] finds for a hash, the height
    of the active chain, and the consensus parameter
    [llmqTypeChainLocks.max_store_depth()]. *)
Record ChainView := mkChainView {
  LookupBlockIndex : uint256 → option Z;
  ActiveHeight : Z;
  max_store_depth : Z
}.

Definition key_quorum (k : DkgKey) : uint256 :=
  match k with DB_VVEC q _ | DB_SKCONTRIB q _ => q end.

(** [std::get<0>(k) == prefix], for the two prefixes. *)
Definition has_prefix (vvec_prefix : bool) (k : DkgKey) : bool :=
  match k with DB_VVEC _ _ => vvec_prefix | DB_SKCONTRIB _ _ => negb vvec_prefix end.

(** [pindexQuorum == nullptr || ActiveHeight() - pindexQuorum->nHeight >
    max_store_depth()].  Heights are non-negative [int]s and the active
    height is at least [-1], so the difference does not overflow. *)
Definition not_found_or_too_old (chain : ChainView) (q : uint256) : bool :=
  match LookupBlockIndex chain q with
  | None => true
  | Some nHeight => bool_decide (max_store_depth chain < ActiveHeight chain - nHeight)
  end.

(** The cursor loop for one prefix: the keys under the prefix are visited
    and those of quorums not found or too old are added to the batch.  The
    store visits them in key order; the batch holds erasures only, so its
    effect does not depend on that order. *)
Definition scan_prefix (chain : ChainView) (vvec_prefix : bool)
    (store : gmap DkgKey DkgVal) (batch : list DkgKey) : list DkgKey :=
  batch ++ filter (λ k, not_found_or_too_old chain (key_quorum k) = true)
                  (filter (λ k, has_prefix vvec_prefix k = true) (map_to_list store).*1).

Definition CleanupOldContributions (chain : ChainView) (mgr : CDKGSessionManager)
  : CDKGSessionManager :=
  if decide (db mgr = ∅) then mgr
  else
    let batch := scan_prefix chain false (db mgr) (scan_prefix chain true (db mgr) []) in
    (* [cnt_old] is the number of erasures in the batch *)
    if decide (0 < length batch)%nat
    then mkCDKGSessionManager (foldl (λ store k, delete k store) (db mgr) batch)
                              (contributionsCache mgr)
    else mgr.

(** Calls on the manager other than [GetVerifiedContributions]. *)
Inductive MgrCall :=
| CallWriteVerifiedVvecContribution (hashQuorum proTxHash : uint256)
                                    (vv : BLSVerificationVector)
| CallWriteVerifiedSkContribution (hashQuorum proTxHash : uint256) (sk : CBLSSecretKey)
| CallCleanupCache (curTime : Z)
| CallCleanupOldContributions (chain : ChainView).

Definition mgr_step (mgr : CDKGSessionManager) (c : MgrCall) : CDKGSessionManager :=
  match c with
  | CallWriteVerifiedVvecContribution q p vv => WriteVerifiedVvecContribution q p vv mgr
  | CallWriteVerifiedSkContribution q p sk => WriteVerifiedSkContribution q p sk mgr
  | CallCleanupCache curTime => CleanupCache curTime mgr
  | CallCleanupOldContributions chain => CleanupOldContributions chain mgr
  end.

Definition mgr_run (mgr : CDKGSessionManager) (calls : list MgrCall) : CDKGSessionManager :=
  foldl mgr_step mgr calls.

(** [CleanupCache] at [curTime] keeps an entry made at [entryTime]. *)
Definition keeps (curTime entryTime : Z) : Prop :=
  ¬ (MAX_CONTRIBUTION_CACHE_TIME < curTime - entryTime).

(** The cache clean-ups among the calls all keep entries made at [t]. *)
Definition cleanups_keep (t : Z) (calls : list MgrCall) : Prop :=
  ∀ curTime, CallCleanupCache curTime ∈ calls → keeps curTime t.

(** What the store alone holds for a member. *)
Definition stored_contribution (mgr : CDKGSessionManager) (blockHash proTxHash : uint256)
  : option (BLSVerificationVector * CBLSSecretKey) :=
  match db mgr !! DB_VVEC blockHash proTxHash with
  | Some (VVvec vv) =>
      Some (vv, match db mgr !! DB_SKCONTRIB blockHash proTxHash with
                | Some (VSk sk) => sk
                | _ => sk_invalid
                end)
  | _ => None
  end.

(** Every cache entry is what the store holds for its member. *)
Definition cache_agrees (mgr : CDKGSessionManager) : Prop :=
  ∀ q p entry,
    contributionsCache mgr !! (q, p) = Some entry →
    stored_contribution mgr q p = Some (vvec entry, skContribution entry).
End DKGMgrCalls.

(** ** [CLLMQUtils::ToHexStr] and [CLLMQUtils::HexStrToBits] *)
Module HexBits.

(** [HexStr] and [TryParseHex<uint8_t>] of [util/strencodings.h], consumed
    as an opaque capability; a byte is a number below [256]. *)
Class HexCodec := {
  HexStr : list Z → string;
  TryParseHex : string → option (list Z)
}.

(** Conversion to [uint8_t]. *)
Definition to_uint8 (x : Z) : Z := x mod 2 ^ 8.

(** The loop of [ToHexStr] from index [i] on, [vBits] being the bits not
    yet visited: [vBytes[i / 8] |= vBits[i] << (i % 8)].  [None] is an index
    past the end of [vBytes]. *)
Fixpoint pack_from (vBits : list bool) (i : nat) (vBytes : list Z) : option (list Z) :=
  match vBits with
  | [] => Some vBytes
  | b :: rest =>
      byte ← vBytes !! (i / 8)%nat;
      pack_from rest (S i)
        (<[(i / 8)%nat := to_uint8 (Z.lor byte (Z.shiftl (Z.b2z b) (Z.of_nat (i mod 8))))]>
           vBytes)
  end.

Definition ToHexStr `{HexCodec} (vBits : list bool) : option string :=
  vBytes ← pack_from vBits 0 (replicate ((length vBits + 7) / 8)%nat 0);
  Some (HexStr vBytes).

(** [(byte >> bit) & 1], converted to [bool]. *)
Definition bit_of (byte : Z) (bit : nat) : bool :=
  bool_decide (Z.land (Z.shiftr byte (Z.of_nat bit)) 1 ≠ 0).

(** The inner loop of [HexStrToBits] for the byte at index [i]. *)
Definition unpack_byte (expectedBits i : nat) (byte : Z) (vBits : list bool) : list bool :=
  foldl (λ vBits bit,
           let bitIndex := (i * 8 + bit)%nat in
           if decide (bitIndex < expectedBits)%nat
           then <[bitIndex := bit_of byte bit]> vBits
           else vBits)
        vBits (seq 0 8).

(** The outer loop from index [i] on, [vBytes] being the bytes not yet
    visited. *)
Fixpoint unpack_from (expectedBits : nat) (vBytes : list Z) (i : nat) (vBits : list bool)
  : list bool :=
  match vBytes with
  | [] => vBits
  | byte :: rest =>
      unpack_from expectedBits rest (S i) (unpack_byte expectedBits i byte vBits)
  end.

(** [None] is [std::nullopt]. *)
Definition HexStrToBits `{HexCodec} (hex : string) (expectedBits : nat)
  : option (list bool) :=
  vBytes ← TryParseHex hex;
  Some (unpack_from expectedBits vBytes 0 (replicate expectedBits false)).
End HexBits.

(** ** [CEvoDB<K,V>]: the whole public interface *)
Module EvoDBClient.
Import DBWrapper EvoDB EvoDBCopy.
Section definitions.
Context {K : Type} `{Countable K} {V : Type}.

(** The list and the index describe the same nodes: every iterator held by
    [mapCache] designates a node of [fifoList] with the same key, and every
    node is indexed.  Nothing is said about [setEraseCache]. *)
Record cache_wf (c : CEvoDB K V) : Prop := {
  wf_nodes : NoDup (fifoList c).*1;
  wf_fresh : ∀ it, it ∈ (fifoList c).*1 → (it < fresh c)%nat;
  wf_index : ∀ k it, mapCache c !! k = Some it ↔ ∃ v, (it, (k, v)) ∈ fifoList c
}.

(** The object with another pending-erase set. *)
Definition with_erase (s : gset K) (c : CEvoDB K V) : CEvoDB K V :=
  mkCEvoDB (mapCache c) (fifoList c) s (maxCacheSize c) (bFlushOnNextRead c)
    (disk c) (fresh c).

(** The calls of [Call], and the two that copy and restore the pending
    state. *)
Inductive ClientCall :=
| CCall (o : Call K V)
| CGetMapCacheCopy (ok : bool)
| CRestoreCaches (traverse : gmap K V → list (K * V)) (mapCacheCopy : gmap K V)
                 (eraseCacheCopy : gset K).

Definition client_step (c : CEvoDB K V) (o : ClientCall) : option (CEvoDB K V) :=
  match o with
  | CCall o => step c o
  | CGetMapCacheCopy ok => snd <$> GetMapCacheCopy ok c
  | CRestoreCaches traverse mapCacheCopy eraseCacheCopy =>
      RestoreCaches traverse mapCacheCopy eraseCacheCopy c
  end.

Fixpoint client_run (ops : list ClientCall) (c : CEvoDB K V) : option (CEvoDB K V) :=
  match ops with
  | [] => Some c
  | o :: ops' => c' ← client_step c o; client_run ops' c'
  end.
End definitions.
Global Arguments ClientCall K {_ _} V.
End EvoDBClient.

(** ** Rounds of [CSigningManager::ProcessPendingRecoveredSigs] *)
Module SigningRound.
Import DBWrapper LLMQ RecSigDb Signing.
Section manager.
Context `{Crypto} `{LruCache} `{BatchSizing}.



(** The store holds neither the content hash nor the id of [r]. *)
Definition fresh (r : CRecoveredSig) (d : gmap DbKey DbVal) : Prop :=
  d !! rs_h (GetHash r) = None ∧ d !! rs_r (id r) = None.

End manager.
End SigningRound.

(** ** Concrete instances for the examples *)
Module Fixtures.
Import DBWrapper LLMQ RecSigDb Signing.

(** Hashes that pair their inputs injectively; a signature is well-formed
    when it is not null and verifies when it is the sum of the public key
    and the sign hash. *)
#[export] Instance toy_crypto : Crypto := {|
  SerializeHash r := Npos (encode (quorumHash r, id r, msgHash r, sig r));
  BuildSignHash3 q i h := Npos (encode (q, i, h));
  IsValid sg := negb (sg =? 0)%N;
  VerifyInsecure sg pk h := (sg =? pk + h)%N
|}.

(** A cache that never drops an entry. *)
#[export] Instance map_cache : LruCache.
Proof.
  refine {|
    lru := gmap uint256 bool;
    lru_get k t := (t !! k, t);
    lru_insert k v t := <[k := v]> t;
    lru_erase k t := delete k t;
    lru_entries t := t
  |}.
  - done.
  - done.
  - intros. apply lookup_insert_eq.
  - intros k v t k' b Hne. by rewrite lookup_insert_ne.
  - done.
Defined.

#[export] Instance count_sizing : BatchSizing := {|
  SizeEstimate b := Z.of_nat (length b)
|}.

Definition empty_db : CRecoveredSigsDb := mkCRecoveredSigsDb ∅ ∅ ∅ ∅.

Definition empty_manager : CSigningManager := mkCSigningManager empty_db ∅ ∅ [].

(** The quorum with hash [q]: public key [100], every node a member. *)
Definition toy_quorum (q : uint256) : CQuorum := mkCQuorum q 100 (λ _, true).

(** A masternode that knows every block (at height 10, active and valid)
    and every quorum, with the clock at [now], and maps traversed in the
    order of their elements. *)
Definition toy_env (now : Z) : Env :=
  mkEnv true 1%N now (λ _, true) (λ _, Some (mkCBlockIndex 10 true true)) 5
        (λ q, Some (toy_quorum q)) (λ _, true) (λ _, Some (toy_quorum 1%N))
        (λ l, l) (λ l, reflexivity l)
        elements (λ X, reflexivity (elements X))
        elements (λ X, reflexivity (elements X)).

(** A recovered signature of quorum 1 that verifies. *)
Definition signed (i h : uint256) : CRecoveredSig :=
  mkCRecoveredSig 1 i h (100 + BuildSignHash3 1 i h)%N.

(** One with a signature that does not verify. *)
Definition forged (i h : uint256) : CRecoveredSig := mkCRecoveredSig 1 i h 5.

(** Concrete caches over [nat] keys and values. *)
Definition cache_after (d : gmap nat nat) (m : nat) (ops : list (EvoDB.Call nat nat))
  : EvoDB.CEvoDB nat nat :=
  default (EvoDB.open d m) (EvoDB.run ops (EvoDB.open d m)).

(** The store after one write at time 1000. *)
Definition one_record : CRecoveredSigsDb := WriteRecoveredSig 1000 (signed 7 20) empty_db.

(** A manager whose store holds the record of id 7 for message 20. *)
Definition with_record : CSigningManager := mkCSigningManager one_record ∅ ∅ [0%nat].

(** A session manager that persisted a verification vector but no
    secret-key share for member 11 of quorum 1. *)
Definition vvec_only : DKGMgr.CDKGSessionManager :=
  DKGMgr.WriteVerifiedVvecContribution 1 11 [3%N; 4%N] (DKGMgr.mkCDKGSessionManager ∅ ∅).

(** A round with three origins: origin 2 sends a signature that does not
    verify; origins 1 and 3 send valid ones, one of them twice over. *)
Definition round_recs : gmap NodeId (list CRecoveredSig) :=
  <[1 := [signed 7 20]]>
    (<[2 := [forged 8 20]]> (<[3 := [signed 9 20; signed 7 20]]> ∅)).


Definition round_manager : CSigningManager :=
  mkCSigningManager empty_db round_recs ∅ [0%nat].
End Fixtures.

(** ** More concrete instances *)
Module SigningFixtures.
Import DBWrapper LLMQ RecSigDb Signing Fixtures.

(** A masternode like [toy_env] that knows no block. *)
Definition blockless_env (now : Z) : Env :=
  mkEnv true 1%N now (λ _, true) (λ _, None) 5
        (λ q, Some (toy_quorum q)) (λ _, true) (λ _, Some (toy_quorum 1%N))
        (λ l, l) (λ l, reflexivity l)
        elements (λ X, reflexivity (elements X))
        elements (λ X, reflexivity (elements X)).

(** A manager that has voted message 20 for id 7 at time 1000. *)
Definition voted_manager : CSigningManager :=
  mkCSigningManager (WriteVoteForId 1000 7 20 empty_db) ∅ ∅ [0%nat].

(** A manager with two listeners, one of them registered twice. *)
Definition listening_manager : CSigningManager :=
  mkCSigningManager empty_db ∅ ∅ [0%nat; 1%nat; 0%nat].
End SigningFixtures.

Module SelectionFixtures.
Import LLMQ Signing Fixtures QuorumSelection.

(** A chain of height 100 on which every scan finds the quorums 5, 3 and
    9, in this order, with the sum as hash. *)
Definition toy_selection : SelectionEnv :=
  mkSelectionEnv 4 100 (λ _ n, take n [toy_quorum 5; toy_quorum 3; toy_quorum 9])
    (λ q h, (q + h)%N).

(** The same quorums scanned in another order. *)
Definition other_scan : Z → nat → list CQuorum :=
  λ _ n, take n [toy_quorum 9; toy_quorum 5; toy_quorum 3].
End SelectionFixtures.

Module DKGMgrFixtures.
Import LLMQ DKGMgr DKGMgrCalls.

(** Quorum [1] with members [11] and [12], both with a verification vector
    and a secret-key share in the store; nothing cached. *)
Definition two_members : CDKGSessionManager :=
  WriteVerifiedSkContribution 1 12 (sk_key 8)
    (WriteVerifiedVvecContribution 1 12 [5%N]
       (WriteVerifiedSkContribution 1 11 (sk_key 7)
          (WriteVerifiedVvecContribution 1 11 [3%N; 4%N] (mkCDKGSessionManager ∅ ∅)))).

(** [two_members] after a call at time [1000] that cached both members. *)
Definition two_members_cached : CDKGSessionManager :=
  mkCDKGSessionManager (db two_members)
    (<[(1%N, 12%N) := mkContributionsCacheEntry 1000 [5%N] (sk_key 8)]>
       (<[(1%N, 11%N) := mkContributionsCacheEntry 1000 [3%N; 4%N] (sk_key 7)]> ∅)).

(** A chain of height [100] that knows quorum [1] at height [10] and keeps
    contributions for [50] blocks. *)
Definition toy_chain : ChainView :=
  mkChainView (λ q, if decide (q = 1%N) then Some 10 else None) 100 50.
End DKGMgrFixtures.

Module HexFixtures.
Import HexBits.
Local Open Scope string_scope.

Definition hex_digit (d : Z) : string :=
  match d with
  | 0 => "0" | 1 => "1" | 2 => "2" | 3 => "3" | 4 => "4" | 5 => "5" | 6 => "6" | 7 => "7"
  | 8 => "8" | 9 => "9" | 10 => "a" | 11 => "b" | 12 => "c" | 13 => "d" | 14 => "e"
  | _ => "f"
  end.

Definition hex_char (d : Z) : Ascii.ascii :=
  match hex_digit d with
  | String c _ => c
  | EmptyString => Ascii.zero
  end.

Definition hex_value (c : Ascii.ascii) : option Z :=
  list_find (λ d, hex_char d = c) (seqZ 0 16) ≫= λ '(_, d), Some d.

Fixpoint two_digits (vBytes : list Z) : string :=
  match vBytes with
  | [] => ""
  | byte :: rest =>
      String (hex_char (byte / 16)) (String (hex_char (byte mod 16)) (two_digits rest))
  end.

Fixpoint parse_digits (hex : string) : option (list Z) :=
  match hex with
  | EmptyString => Some []
  | String hi (String lo rest) =>
      h ← hex_value hi; l ← hex_value lo; vBytes ← parse_digits rest;
      Some (h * 16 + l :: vBytes)
  | String _ EmptyString => None
  end.

(** Two lower-case digits per byte, and nothing else. *)
#[export] Instance toy_hex : HexCodec := {|
  HexStr := two_digits;
  TryParseHex := parse_digits
|}.
End HexFixtures.

Module EvoDBClientFixtures.
Import DBWrapper EvoDB EvoDBCopy EvoDBClient Fixtures.

(** A cache over the store [{1 := 7}] into which a copy was restored whose
    erase set names keys of its write map: keys 2 and 3 are pending writes
    and pending erases at once. *)
Definition restored_overlap : CEvoDB nat nat :=
  default (open {[1%nat := 7%nat]} 4)
    (client_run [CRestoreCaches map_to_list {[2%nat := 8%nat; 3%nat := 9%nat]}
                   {[3%nat; 2%nat]}]
       (open {[1%nat := 7%nat]} 4)).

(** Store [{1 := 7}]; the erase of key 1 is pending and the flush it armed
    was consumed, unsuccessfully, by a read of key 2. *)
Definition erase_unflushed : CEvoDB nat nat :=
  cache_after {[1%nat := 7%nat]} 0 [CErase 1%nat; CRead false 2%nat].
End EvoDBClientFixtures.

Module SigningRoundFixtures.
Import DBWrapper LLMQ RecSigDb Signing Fixtures.




(** The store after the record of id 7 for message 25 was written and
    truncated, and a record of id 7 for message 20 written after it. *)
Definition rewritten_db : CRecoveredSigsDb :=
  WriteRecoveredSig 1002 (signed 7 20)
    (RecSigDb.TruncateRecoveredSig 7 (WriteRecoveredSig 1000 (signed 7 25) empty_db)).

Definition rewritten : CSigningManager := mkCSigningManager rewritten_db ∅ ∅ [0%nat].
End SigningRoundFixtures.

(* ===================================================================== *)
(** * Part II: properties                                                 *)
(* ===================================================================== *)

(** ** The write-back cache *)
Module EvoDBFacts.
Import DBWrapper EvoDB Fixtures.
Section facts.
Context {K : Type} `{Countable K} {V : Type}.
Implicit Types (c : CEvoDB K V) (l : list (iterator * (K * V))).

(** *** Iterators and list nodes *)

Lemma deref_elem_of l it e : deref l it = Some e → (it, e) ∈ l.
Proof.
  induction l as [|[it' e'] l IH]; simpl; [done|].
  destruct (decide (it' = it)) as [->|].
  - intros [= ->]. left.
  - intros ?. right. auto.
Qed.

Lemma elem_of_deref l it e : NoDup l.*1 → (it, e) ∈ l → deref l it = Some e.
Proof.
  induction l as [|[it' e'] l IH]; simpl; intros Hnd Hin.
  - by apply elem_of_nil in Hin.
  - apply NoDup_cons in Hnd as [Hfresh Hnd].
    destruct (decide (it' = it)) as [->|Hne].
    + apply elem_of_cons in Hin as [[= ->]|Hin]; [done|].
      destruct Hfresh. apply list_elem_of_fmap. by exists (it, e).
    + apply elem_of_cons in Hin as [[= ? ?]|Hin]; [done|]. auto.
Qed.

Lemma deref_None l it : deref l it = None ↔ it ∉ l.*1.
Proof.
  induction l as [|[it' e'] l IH]; simpl.
  - split; [intros _; apply not_elem_of_nil | done].
  - rewrite not_elem_of_cons. destruct (decide (it' = it)) as [->|Hne].
    + split; [done | by intros [? _]].
    + rewrite IH. naive_solver.
Qed.

Lemma node_functional l it e1 e2 :
  NoDup l.*1 → (it, e1) ∈ l → (it, e2) ∈ l → e1 = e2.
Proof.
  intros Hnd H1 H2. apply (elem_of_deref _ _ _ Hnd) in H1, H2. congruence.
Qed.

Lemma NoDup_filter_fst l (P : iterator * (K * V) → Prop) `{!∀ x, Decision (P x)} :
  NoDup l.*1 → NoDup (filter P l).*1.
Proof.
  intros Hnd. eapply sublist_NoDup; [exact Hnd|].
  apply fmap_sublist, sublist_filter.
Qed.

Lemma filter_ext_in {A} (P Q : A → Prop) `{!∀ x, Decision (P x)} `{!∀ x, Decision (Q x)}
    (l : list A) :
  (∀ x, x ∈ l → P x ↔ Q x) → filter P l = filter Q l.
Proof.
  induction l as [|a l IH]; intros Hext; [done|].
  rewrite !filter_cons. rewrite IH by (intros; apply Hext; by right).
  destruct (decide (P a)), (decide (Q a)); try done;
    exfalso; pose proof (Hext a ltac:(left)); tauto.
Qed.

Lemma filter_all {A} (P : A → Prop) `{!∀ x, Decision (P x)} (l : list A) :
  (∀ x, x ∈ l → P x) → filter P l = l.
Proof.
  induction l as [|a l IH]; intros Hall; [done|].
  rewrite filter_cons. rewrite decide_True by (apply Hall; left).
  f_equal. apply IH. intros; apply Hall; by right.
Qed.

(** *** The representation invariant is kept by every member function *)

Lemma open_inv (d : gmap K V) m : cache_inv (open d m).
Proof.
  split; simpl.
  - constructor.
  - intros it Hit. by apply elem_of_nil in Hit.
  - intros k it. rewrite lookup_empty. split; [done|].
    intros [v Hv]. by apply elem_of_nil in Hv.
  - intros k Hk. by apply not_elem_of_empty in Hk.
Qed.

Lemma unlink_inv key c :
  cache_inv c →
  ∃ c1, unlink key c = Some c1 ∧ cache_inv c1
    ∧ mapCache c1 = delete key (mapCache c)
    ∧ fifoList c1 = filter (λ e, e.2.1 ≠ key) (fifoList c)
    ∧ setEraseCache c1 = setEraseCache c
    ∧ maxCacheSize c1 = maxCacheSize c
    ∧ bFlushOnNextRead c1 = bFlushOnNextRead c
    ∧ disk c1 = disk c ∧ fresh c1 = fresh c.
Proof.
  intros [Hnd Hfr Hix Hdj]. unfold unlink.
  destruct (mapCache c !! key) as [it|] eqn:Hit.
  - destruct (proj1 (Hix key it) Hit) as [v Hv].
    unfold list_erase. rewrite (elem_of_deref _ _ _ Hnd Hv). simpl.
    assert (Hsame : filter (λ e : iterator * (K * V), e.1 ≠ it) (fifoList c)
                    = filter (λ e, e.2.1 ≠ key) (fifoList c)).
    { apply filter_ext_in. intros [it' [k' v']] Hin. simpl.
      split; intros Hne ->.
      - apply Hix in Hit as [v0 Hv0]. apply Hne.
        assert (mapCache c !! key = Some it') as Hk by (apply Hix; eauto).
        assert (mapCache c !! key = Some it) as Hk' by (apply Hix; eauto).
        congruence.
      - apply Hne. pose proof (node_functional _ _ _ _ Hnd Hin Hv). congruence. }
    eexists. split; [reflexivity|]. simpl. split_and!; try done.
    split; simpl.
    + by apply NoDup_filter_fst.
    + intros it' Hin. apply Hfr.
      apply list_elem_of_fmap in Hin as [e [-> He]].
      apply list_elem_of_filter in He as [_ He].
      apply list_elem_of_fmap. by exists e.
    + intros k it'. rewrite lookup_delete. case_decide as Hk; subst.
      * split; [done|]. intros [v' Hv']. rewrite Hsame in Hv'.
        apply list_elem_of_filter in Hv' as [Hne _]. by destruct Hne.
      * rewrite Hix, Hsame. split; intros [v' Hv']; exists v'.
        -- apply list_elem_of_filter. split; [simpl; congruence | done].
        -- by apply list_elem_of_filter in Hv' as [_ ?].
    + intros k Hk. rewrite lookup_delete. case_decide; [done | by apply Hdj].
  - eexists. split; [reflexivity|]. split_and!; try done.
    + symmetry. by apply delete_id.
    + symmetry. apply filter_all. intros [it' [k' v']] Hin. simpl.
      intros ->. assert (mapCache c !! key = Some it') by (apply Hix; eauto). congruence.
Qed.
Lemma upsert_inv key value c :
  cache_inv c →
  ∃ c2, upsert key value c = Some c2 ∧ cache_inv c2
    ∧ mapCache c2 = <[key := fresh c]> (mapCache c)
    ∧ fifoList c2 = filter (λ e, e.2.1 ≠ key) (fifoList c) ++ [(fresh c, (key, value))]
    ∧ setEraseCache c2 = setEraseCache c ∖ {[key]}
    ∧ maxCacheSize c2 = maxCacheSize c
    ∧ bFlushOnNextRead c2 = bFlushOnNextRead c
    ∧ disk c2 = disk c.
Proof.
  intros Hinv. unfold upsert.
  destruct (unlink_inv key c Hinv)
    as (c1 & -> & [Hnd Hfr Hix Hdj] & Hm & Hl & Hs & Hmax & Hfl & Hd & Hf).
  simpl. eexists. split; [reflexivity|]. simpl.
  rewrite Hm, Hl, Hs, Hmax, Hfl, Hd, Hf, insert_delete_eq.
  split_and!; try done.
  rewrite Hm, Hl, Hs, Hf in *. split; simpl.
  - rewrite fmap_app. apply NoDup_app. split_and!; [done| |apply NoDup_singleton].
    intros it Hit ->%list_elem_of_singleton. apply Hfr in Hit. simpl in Hit. lia.
  - intros it. rewrite fmap_app, elem_of_app. intros [Hit| ->%list_elem_of_singleton]; [|simpl; lia].
    apply Hfr in Hit. lia.
  - intros k it. rewrite lookup_insert. case_decide as Hk; subst.
    + split.
      * intros [= <-]. exists value. apply elem_of_app. right. by left.
      * intros [v [Hv|Hv]%elem_of_app].
        -- apply list_elem_of_filter in Hv as [Hne _]. by destruct Hne.
        -- apply list_elem_of_singleton in Hv. congruence.
    + rewrite <-(lookup_delete_ne (mapCache c) key k) by done. rewrite Hix.
      split; intros [v Hv]; exists v.
      * apply elem_of_app. by left.
      * apply elem_of_app in Hv as [Hv|Hv]; [done|].
        apply list_elem_of_singleton in Hv. congruence.
  - intros k [Hk Hne]%elem_of_difference.
    rewrite lookup_insert_ne by set_solver.
    rewrite <-(lookup_delete_ne (mapCache c) key k) by set_solver. by apply Hdj.
Qed.

Lemma evict_front_inv c it oldest v rest :
  cache_inv c → fifoList c = (it, (oldest, v)) :: rest →
  ∃ c', evict_front c = Some c' ∧ cache_inv c'
    ∧ mapCache c' = delete oldest (mapCache c) ∧ fifoList c' = rest
    ∧ setEraseCache c' = setEraseCache c ∧ maxCacheSize c' = maxCacheSize c
    ∧ bFlushOnNextRead c' = bFlushOnNextRead c ∧ disk c' = disk c.
Proof.
  intros [Hnd Hfr Hix Hdj] Hl. unfold evict_front. rewrite Hl.
  eexists. split; [reflexivity|]. simpl. split_and!; try done.
  rewrite Hl in *. simpl in Hnd. apply NoDup_cons in Hnd as [Hnotin Hnd].
  split; simpl.
  - done.
  - intros it' Hit'. apply Hfr. by right.
  - intros k it'. rewrite lookup_delete. case_decide as Hk; subst.
    + split; [done|]. intros [v' Hv'].
      assert (mapCache c !! k = Some it') as H1 by (apply Hix; exists v'; by right).
      assert (mapCache c !! k = Some it) as H2 by (apply Hix; exists v; by left).
      destruct Hnotin. apply list_elem_of_fmap. exists (it', (k, v')).
      split; [simpl; congruence | done].
    + rewrite Hix. split; intros [v' Hv']; exists v'.
      * apply elem_of_cons in Hv' as [[= ? ? ?]|?]; [congruence | done].
      * by right.
  - intros k Hk. rewrite lookup_delete. case_decide; [done | by apply Hdj].
Qed.

Lemma WriteCache_inv key value c :
  cache_inv c → ∃ c', WriteCache key value c = Some c' ∧ cache_inv c'.
Proof.
  intros Hinv. unfold WriteCache.
  destruct (upsert_inv key value c Hinv) as (c2 & -> & Hinv2 & _ & Hl & _).
  simpl. destruct (over_limit c2); [|eauto].
  destruct (fifoList c2) as [|[it [oldest v]] rest] eqn:Hfifo.
  - by destruct (filter _ _).
  - destruct (evict_front_inv c2 it oldest v rest Hinv2 Hfifo) as (c' & ? & ? & _). eauto.
Qed.

Lemma EraseCache_inv key c :
  cache_inv c →
  ∃ c', EraseCache key c = Some c' ∧ cache_inv c'
    ∧ mapCache c' = delete key (mapCache c)
    ∧ fifoList c' = filter (λ e, e.2.1 ≠ key) (fifoList c)
    ∧ setEraseCache c' = {[key]} ∪ setEraseCache c
    ∧ maxCacheSize c' = maxCacheSize c
    ∧ bFlushOnNextRead c' = true ∧ disk c' = disk c ∧ fresh c' = fresh c.
Proof.
  intros Hinv. unfold EraseCache.
  set (c0 := mkCEvoDB _ _ _ _ true _ _).
  assert (cache_inv c0) as Hinv0 by (destruct Hinv; by split).
  destruct (unlink_inv key c0 Hinv0)
    as (c1 & -> & [Hnd Hfr Hix Hdj] & Hm & Hl & Hs & Hmax & Hfl & Hd & Hf).
  simpl in Hm, Hl, Hs, Hmax, Hfl, Hd, Hf.
  simpl. eexists. split; [reflexivity|]. simpl. split_and!; try done; try congruence.
  split; simpl; try done.
  intros k [->%elem_of_singleton|Hk]%elem_of_union; [|by apply Hdj].
  rewrite Hm. apply lookup_delete_eq.
Qed.

(** *** Flushing *)

Lemma lookup_foldl_apply_op (b : list (BatchOp K V)) (d : gmap K V) k :
  apply_batch b d !! k = foldl (op_effect k) (d !! k) b.
Proof.
  revert d. induction b as [|o b IH]; intros d; [done|].
  simpl. rewrite IH. f_equal. destruct o as [k' v|k']; simpl.
  - rewrite lookup_insert. by destruct (decide (k' = k)).
  - rewrite lookup_delete. by destruct (decide (k' = k)).
Qed.

Lemma erases_effect k (ks : list K) (x : option V) :
  foldl (op_effect k) x (BErase <$> ks) = if decide (k ∈ ks) then None else x.
Proof.
  revert x. induction ks as [|k' ks IH]; intros x.
  - by rewrite decide_False by apply not_elem_of_nil.
  - rewrite fmap_cons. cbn [foldl]. rewrite IH. unfold op_effect.
    destruct (decide (k' = k)) as [->|Hne].
    + rewrite (decide_True _ _ (list_elem_of_here k ks)). by destruct (decide (k ∈ ks)).
    + destruct (decide (k ∈ ks)) as [Hin|Hnin].
      * by rewrite decide_True by (by right).
      * rewrite decide_False; [done|]. rewrite not_elem_of_cons. naive_solver.
Qed.

Lemma writes_effect l k (kvs : list (K * iterator)) (ws : list (BatchOp K V)) x :
  Forall2 (λ (x : K * iterator) w,
             (let '(key, it) := x in e ← deref l it; Some (BWrite key e.2)) = Some w) kvs ws →
  NoDup kvs.*1 →
  (k ∉ kvs.*1 → foldl (op_effect k) x ws = x)
  ∧ (∀ it, (k, it) ∈ kvs → ∃ e, deref l it = Some e ∧ foldl (op_effect k) x ws = Some e.2).
Proof.
  intros Hall. revert x. induction Hall as [|[key it] w kvs ws Hw Hall IH]; intros x Hnd.
  - split; [done|]. intros it Hit. by apply elem_of_nil in Hit.
  - simpl in Hnd. apply NoDup_cons in Hnd as [Hnotin Hnd].
    destruct (deref l it) as [e|] eqn:He; simpl in Hw; [|done].
    injection Hw as <-. simpl. split.
    + intros [Hne Hk]%not_elem_of_cons. simpl in Hne.
      rewrite decide_False by done. by apply IH.
    + intros it' [[= -> ->]|Hin]%elem_of_cons.
      * exists e. split; [done|]. rewrite decide_True by done.
        by apply IH.
      * assert (key ≠ k) as Hne.
        { intros ->. apply Hnotin. apply list_elem_of_fmap. by exists (k, it'). }
        rewrite decide_False by done. by apply IH.
Qed.

Lemma flush_batch_defined c :
  cache_inv c →
  ∃ b, flush_batch c = Some b
    ∧ ∀ d k, apply_batch b d !! k =
        match pending c k with
        | Some v => Some v
        | None => if decide (k ∈ setEraseCache c) then None else d !! k
        end.
Proof.
  intros [Hnd Hfr Hix Hdj]. unfold flush_batch.
  destruct (mapM _ (map_to_list (mapCache c))) as [ws|] eqn:Hws.
  - simpl. eexists. split; [reflexivity|]. intros d k.
    apply mapM_Some in Hws.
    rewrite lookup_foldl_apply_op, foldl_app, erases_effect.
    destruct (writes_effect (fifoList c) k _ _ (d !! k) Hws
                (NoDup_fst_map_to_list _)) as [Hno Hyes].
    unfold pending. destruct (mapCache c !! k) as [it|] eqn:Hk; simpl.
    + apply elem_of_map_to_list in Hk as Hin.
      destruct (Hyes it Hin) as (e & He & ->). rewrite He. simpl.
      rewrite decide_False; [done|]. rewrite elem_of_elements.
      intros Hke%Hdj. congruence.
    + rewrite Hno.
      * destruct (decide (k ∈ elements (setEraseCache c))) as [Hin|Hnin];
          rewrite elem_of_elements in *; [by rewrite decide_True | by rewrite decide_False].
      * intros [[k' it] [? Hin]]%list_elem_of_fmap. simpl in *. subst k'.
        apply elem_of_map_to_list in Hin. congruence.
  - exfalso. apply mapM_None in Hws. apply Exists_exists in Hws as ([key it] & Hin & Hnone).
    apply elem_of_map_to_list in Hin. apply Hix in Hin as [v Hv].
    by rewrite (elem_of_deref _ _ _ Hnd Hv) in Hnone.
Qed.

Lemma FlushCacheToDisk_inv ok c :
  cache_inv c → ∃ res c', FlushCacheToDisk ok c = Some (res, c') ∧ cache_inv c'.
Proof.
  intros Hinv. unfold FlushCacheToDisk.
  destruct (_ && _); [eauto|].
  destruct (flush_batch_defined c Hinv) as (b & -> & _). simpl.
  destruct ok; simpl; [|eauto].
  do 2 eexists. split; [reflexivity|].
  destruct (open_inv (apply_batch b (disk c)) (maxCacheSize c)) as [? ? ? ?].
  split; simpl in *; try done. intros it Hit. by apply elem_of_nil in Hit.
Qed.

Lemma flush_if_armed_inv ok c :
  cache_inv c → ∃ c', flush_if_armed ok c = Some c' ∧ cache_inv c'.
Proof.
  intros Hinv. unfold flush_if_armed. destruct (bFlushOnNextRead c); [|eauto].
  set (c0 := mkCEvoDB _ _ _ _ false _ _).
  assert (cache_inv c0) as Hinv0 by (destruct Hinv; by split).
  destruct (FlushCacheToDisk_inv ok c0 Hinv0) as (res & c' & -> & ?). simpl. eauto.
Qed.

Lemma ReadCache_inv ok key c :
  cache_inv c → ∃ r c', ReadCache ok key c = Some (r, c') ∧ cache_inv c'.
Proof.
  intros Hinv. unfold ReadCache.
  destruct (flush_if_armed_inv ok c Hinv) as (c1 & -> & Hinv1). simpl.
  destruct (mapCache c1 !! key) as [it|] eqn:Hk; [|eauto].
  destruct Hinv1 as [Hnd Hfr Hix Hdj]. apply Hix in Hk as [v Hv].
  rewrite (elem_of_deref _ _ _ Hnd Hv). simpl. do 2 eexists. split; [reflexivity|]. by split.
Qed.

Lemma ExistsCache_inv ok key c :
  cache_inv c → ∃ r c', ExistsCache ok key c = Some (r, c') ∧ cache_inv c'.
Proof.
  intros Hinv. unfold ExistsCache.
  destruct (flush_if_armed_inv ok c Hinv) as (c1 & -> & Hinv1). simpl. eauto.
Qed.

Lemma step_inv c o : cache_inv c → ∃ c', step c o = Some c' ∧ cache_inv c'.
Proof.
  intros Hinv. destruct o as [k v|k|ok|ok k|ok k]; simpl.
  - by apply WriteCache_inv.
  - destruct (EraseCache_inv k c Hinv) as (c' & ? & ? & _). eauto.
  - destruct (FlushCacheToDisk_inv ok c Hinv) as (? & c' & -> & ?). simpl. eauto.
  - destruct (ReadCache_inv ok k c Hinv) as (? & c' & -> & ?). simpl. eauto.
  - destruct (ExistsCache_inv ok k c Hinv) as (? & c' & -> & ?). simpl. eauto.
Qed.

Lemma run_inv ops c : cache_inv c → ∃ c', run ops c = Some c' ∧ cache_inv c'.
Proof.
  revert c. induction ops as [|o ops IH]; intros c Hinv; simpl; [eauto|].
  destruct (step_inv c o Hinv) as (c1 & -> & Hinv1). simpl. by apply IH.
Qed.

Lemma fifo_keys_NoDup c : cache_inv c → NoDup (fifo_keys c).
Proof.
  intros [Hnd Hfr Hix Hdj]. unfold fifo_keys. rewrite <-list_fmap_compose.
  apply NoDup_fmap_2_strong; [|by apply NoDup_fmap_1 in Hnd].
  intros [it1 [k1 v1]] [it2 [k2 v2]] H1 H2 Hk. simpl in Hk. subst k2.
  assert (mapCache c !! k1 = Some it1) as E1 by (apply Hix; eauto).
  assert (mapCache c !! k1 = Some it2) as E2 by (apply Hix; eauto).
  assert (it1 = it2) as -> by congruence.
  by rewrite (node_functional _ _ _ _ Hnd H1 H2).
Qed.

Lemma fifo_keys_index c k : cache_inv c → k ∈ fifo_keys c ↔ is_Some (mapCache c !! k).
Proof.
  intros [Hnd Hfr Hix Hdj]. unfold fifo_keys. split.
  - intros [[k' v] [-> [[it e] [Heq Hin]]%list_elem_of_fmap]]%list_elem_of_fmap.
    simpl in *. subst e. exists it. apply Hix. eauto.
  - intros [it [v Hv]%Hix]. apply list_elem_of_fmap. exists (k, v). split; [done|].
    apply list_elem_of_fmap. by exists (it, (k, v)).
Qed.

Lemma empty_index_empty_list c : cache_inv c → mapCache c = ∅ → fifoList c = [].
Proof.
  intros [Hnd Hfr Hix Hdj] Hm. destruct (fifoList c) as [|[it [k v]] l] eqn:Hl; [done|].
  assert (mapCache c !! k = Some it) as E by (apply Hix; exists v; by left).
  by rewrite Hm, lookup_empty in E.
Qed.

(** *** The claims about the cache *)

(** C10.  Whatever calls are made on a freshly opened cache, and whatever
    the store answers to its batch writes, every call has defined
    behaviour, and in the state reached no key is at once a pending write
    and a pending erase, the FIFO list has no key twice, and the list and
    the index hold the same keys.  From such a state a write of [k] leaves
    [k] out of the pending-erase set, and an erase of [k] leaves no pending
    write for [k] and records the erase. *)
Theorem pending_write_erase_disjoint (d : gmap K V) (m : nat) (ops : list (Call K V)) :
  ∃ c, run ops (open d m) = Some c
    ∧ (∀ k, ¬ (is_Some (mapCache c !! k) ∧ k ∈ setEraseCache c))
    ∧ NoDup (fifo_keys c)
    ∧ (∀ k, k ∈ fifo_keys c ↔ is_Some (mapCache c !! k))
    ∧ (∀ k v c', WriteCache k v c = Some c' → k ∉ setEraseCache c')
    ∧ (∀ k c', EraseCache k c = Some c' →
         mapCache c' !! k = None ∧ (k ∉ fifo_keys c') ∧ k ∈ setEraseCache c').
Proof.
  destruct (run_inv ops (open d m) (open_inv d m)) as (c & Hrun & Hinv).
  exists c. split_and!; [done| | | | |].
  - intros k [[it Hit] Hk]. apply (inv_disjoint _ Hinv) in Hk. congruence.
  - by apply fifo_keys_NoDup.
  - intros k. by apply fifo_keys_index.
  - intros k v c'. unfold WriteCache.
    destruct (upsert_inv k v c Hinv) as (c2 & -> & Hinv2 & _ & Hl & Hs & _). simpl.
    destruct (over_limit c2).
    + destruct (fifoList c2) as [|[it [oldest v0]] rest] eqn:Hfifo; [by destruct (filter _ _)|].
      destruct (evict_front_inv c2 it oldest v0 rest Hinv2 Hfifo) as (c3 & -> & _ & _ & _ & Hs3 & _).
      intros [= <-]. rewrite Hs3, Hs. set_solver.
    + intros [= <-]. rewrite Hs. set_solver.
  - intros k c'. destruct (EraseCache_inv k c Hinv) as (c1 & -> & Hinv1 & Hm & _ & Hs & _).
    intros [= <-]. split_and!.
    + rewrite Hm. apply lookup_delete_eq.
    + rewrite (fifo_keys_index _ _ Hinv1), Hm, lookup_delete_eq. by intros [? ?].
    + rewrite Hs. set_solver.
Qed.

(** C4, as the code has it.  With a maximum [m > 0], [WriteCache] first
    upserts; it then evicts exactly when the number of pending writes alone
    (the pending erases are not counted) exceeds [m], and what it evicts is
    the front node of the FIFO list together with its index entry.  The
    pending-erase set is the one the upsert left, and the store is not
    touched in either case. *)
Theorem WriteCache_evicts_oldest key value c :
  cache_inv c → (0 < maxCacheSize c)%nat →
  ∃ c2 c', upsert key value c = Some c2 ∧ WriteCache key value c = Some c'
    ∧ disk c' = disk c ∧ setEraseCache c' = setEraseCache c2
    ∧ if bool_decide (maxCacheSize c < size (mapCache c2))%nat
      then ∃ it oldest v, fifoList c2 = (it, (oldest, v)) :: fifoList c'
                          ∧ mapCache c' = delete oldest (mapCache c2)
      else c' = c2.
Proof.
  intros Hinv Hmax. unfold WriteCache.
  destruct (upsert_inv key value c Hinv) as (c2 & Hup & Hinv2 & _ & Hl & _ & Hmax2 & _ & Hd).
  rewrite Hup. simpl. exists c2. unfold over_limit. rewrite Hmax2.
  rewrite (bool_decide_eq_true_2 _ Hmax). simpl.
  destruct (bool_decide (maxCacheSize c < size (mapCache c2))%nat).
  - destruct (fifoList c2) as [|[it [oldest v]] rest] eqn:Hfifo; [by destruct (filter _ _)|].
    destruct (evict_front_inv c2 it oldest v rest Hinv2 Hfifo)
      as (c3 & -> & _ & Hm3 & Hl3 & Hs3 & _ & _ & Hd3).
    exists c3. split_and!; try done; [congruence|].
    exists it, oldest, v. by rewrite Hl3.
  - exists c2. by split_and!.
Qed.

End facts.

Lemma cache_after_inv d m ops : cache_inv (cache_after d m ops).
Proof.
  unfold cache_after.
  destruct (run_inv ops (open d m) (open_inv d m)) as (c & -> & Hinv). exact Hinv.
Defined.

(** C4, the claim as stated fails: with maximum 1 and two pending erases, a
    write brings the combined count of pending entries to 3, yet the entry at
    the front of the FIFO list stays. *)
Lemma eviction_ignores_pending_erases :
  ¬ (∀ (c c2 c' : CEvoDB nat nat) (k v : nat),
       cache_inv c → (0 < maxCacheSize c)%nat →
       upsert k v c = Some c2 →
       (maxCacheSize c < size (mapCache c2) + size (setEraseCache c2))%nat →
       WriteCache k v c = Some c' →
       ∃ node, fifoList c2 = node :: fifoList c').
Proof.
  intros Hclaim.
  pose (c := cache_after ∅ 1 [CErase 1%nat; CErase 2%nat]).
  destruct (Hclaim c (default c (upsert 3%nat 30%nat c)) (default c (WriteCache 3%nat 30%nat c))
              3%nat 30%nat (cache_after_inv _ _ _)) as [node Hnode].
  - vm_compute. lia.
  - reflexivity.
  - vm_compute. lia.
  - reflexivity.
  - vm_compute in Hnode. discriminate Hnode.
Qed.

Lemma WriteCache_evicts_oldest_witness :
  let c := cache_after ∅ 1 [CWrite 1%nat 10%nat] in
  (0 < maxCacheSize c)%nat
  ∧ ∃ c2 c', upsert 2%nat 20%nat c = Some c2 ∧ WriteCache 2%nat 20%nat c = Some c'
      ∧ disk c' = disk c ∧ setEraseCache c' = setEraseCache c2
      ∧ if bool_decide (maxCacheSize c < size (mapCache c2))%nat
        then ∃ it oldest v, fifoList c2 = (it, (oldest, v)) :: fifoList c'
                            ∧ mapCache c' = delete oldest (mapCache c2)
        else c' = c2.
Proof.
  intros c.
  assert (0 < maxCacheSize c)%nat as Hmax by (vm_compute; lia).
  split; [exact Hmax|].
  exact (WriteCache_evicts_oldest 2%nat 20%nat c (cache_after_inv _ _ _) Hmax).
Defined.

(** C2, the claim as stated fails: the store holds 7 under key 1; after
    [EraseCache 1] a read whose flush fails still returns 7, although the
    erase of key 1 is pending. *)
Lemma read_after_failed_flush_returns_stale_value :
  ¬ (∀ (c c1 c2 : CEvoDB nat nat) (k : nat) (ok : bool) (r : option nat),
       cache_inv c → EraseCache k c = Some c1 → ReadCache ok k c1 = Some (r, c2) →
       r = None).
Proof.
  intros Hclaim.
  pose (c := open (K:=nat) (V:=nat) {[1%nat := 7%nat]} 0).
  pose (c1 := default c (EraseCache 1%nat c)).
  pose (c2 := default c1 (snd <$> ReadCache false 1%nat c1)).
  specialize (Hclaim c c1 c2 1%nat false (Some 7%nat) (open_inv _ _)).
  assert (Some 7%nat = None :> option nat) as Habs; [|discriminate Habs].
  apply Hclaim; vm_compute; reflexivity.
Qed.

End EvoDBFacts.

(** ** Fixed-width arithmetic *)
Module LLMQFacts.
Import LLMQ.

Lemma testbit_255 m : Z.testbit 255 m = bool_decide (0 ≤ m < 8).
Proof.
  change 255 with (Z.ones 8).
  destruct (decide (0 ≤ m < 8)) as [Hm|Hm].
  - rewrite bool_decide_eq_true_2 by done. apply Z.ones_spec_low. lia.
  - rewrite bool_decide_eq_false_2 by done.
    destruct (decide (m < 0)); [by apply Z.testbit_neg_r|].
    apply Z.ones_spec_high. lia.
Qed.

(** Bit [n] of byte [k/8] of [x] moved to bit position [s]. *)
Lemma testbit_byte_at x k s n :
  0 ≤ n → 0 ≤ k →
  Z.testbit (Z.shiftl (Z.land (Z.shiftr x k) 255) s) n
  = bool_decide (s ≤ n < s + 8) && Z.testbit x (n - s + k).
Proof.
  intros Hn Hk. rewrite Z.shiftl_spec by done.
  destruct (decide (n - s < 0)) as [Hneg|Hpos].
  - rewrite Z.testbit_neg_r by done. rewrite bool_decide_eq_false_2 by lia. done.
  - rewrite Z.land_spec, Z.shiftr_spec, testbit_255 by lia.
    rewrite andb_comm. f_equal. apply bool_decide_ext. lia.
Qed.

Lemma testbit_bswap32 x n :
  0 ≤ n →
  Z.testbit (bswap32 x) n =
    if decide (n < 8) then Z.testbit x (n + 24)
    else if decide (n < 16) then Z.testbit x (n + 8)
    else if decide (n < 24) then Z.testbit x (n - 8)
    else if decide (n < 32) then Z.testbit x (n - 24)
    else false.
Proof.
  intros Hn. unfold bswap32.
  rewrite <-(Z.shiftr_0_r x) at 1.
  rewrite <-(Z.shiftl_0_r (Z.land (Z.shiftr x 24) 255)).
  rewrite !Z.lor_spec, !testbit_byte_at by lia.
  repeat case_decide; repeat (case_bool_decide; try lia); simpl;
    rewrite ?orb_false_r; try done; f_equal; lia.
Qed.

Lemma bswap32_nonneg x : 0 ≤ bswap32 x.
Proof.
  unfold bswap32. repeat (apply Z.lor_nonneg; split);
    try apply Z.shiftl_nonneg; apply Z.land_nonneg; lia.
Qed.

Lemma bswap32_involutive x : 0 ≤ x < 2 ^ 32 → bswap32 (bswap32 x) = x.
Proof.
  intros Hx. apply Z.bits_inj'. intros n Hn.
  rewrite testbit_bswap32 by done.
  repeat case_decide; rewrite ?testbit_bswap32 by lia;
    repeat case_decide; try lia; try (f_equal; lia).
  symmetry. rewrite <-(Z.mod_small x (2 ^ 32)) by done.
  apply Z.mod_pow2_bits_high. lia.
Qed.

Lemma be32toh_htobe32 x : 0 ≤ x < 2 ^ 32 → be32toh (htobe32 x) = x.
Proof. apply bswap32_involutive. Qed.

Lemma to_uint32_range x : 0 ≤ to_uint32 x < 2 ^ 32.
Proof. unfold to_uint32. apply Z.mod_pos_bound. lia. Qed.

Lemma be32toh_written now : be32toh (htobe32 (to_uint32 now)) = to_uint32 now.
Proof. apply be32toh_htobe32, to_uint32_range. Qed.
End LLMQFacts.

(** ** The recovered-signature store *)
Module RecSigDbFacts.
Import DBWrapper LLMQ RecSigDb.
Section facts.
Context `{Crypto} `{LruCache} `{BatchSizing}.
Implicit Types (s : CRecoveredSigsDb) (d : gmap DbKey DbVal) (r : CRecoveredSig).

(** *** Batches *)

Lemma lookup_apply_batch (b : list (BatchOp DbKey DbVal)) d k :
  apply_batch b d !! k = foldl (op_effect k) (d !! k) b.
Proof.
  unfold apply_batch. revert d. induction b as [|o b IH]; intros d; [done|].
  simpl. rewrite IH. f_equal. destruct o as [k' v|k']; simpl.
  - rewrite lookup_insert. by destruct (decide (k' = k)).
  - rewrite lookup_delete. by destruct (decide (k' = k)).
Qed.

Lemma apply_batch_app (b1 b2 : list (BatchOp DbKey DbVal)) d :
  apply_batch (b1 ++ b2) d = apply_batch b2 (apply_batch b1 d).
Proof. unfold apply_batch. apply foldl_app. Qed.

Lemma lookup_apply_erases (ks : list DbKey) d k :
  apply_batch (BErase <$> ks) d !! k = if decide (k ∈ ks) then None else d !! k.
Proof.
  rewrite lookup_apply_batch. generalize (d !! k) as x.
  induction ks as [|k' ks IH]; intros x.
  - by rewrite decide_False by apply not_elem_of_nil.
  - rewrite fmap_cons. cbn [foldl]. rewrite IH. unfold op_effect.
    destruct (decide (k' = k)) as [->|Hne].
    + rewrite (decide_True _ _ (list_elem_of_here k ks)). by destruct (decide (k ∈ ks)).
    + destruct (decide (k ∈ ks)) as [Hin|Hnin].
      * by rewrite decide_True by (by right).
      * rewrite decide_False; [done|]. rewrite not_elem_of_cons. naive_solver.
Qed.

Lemma db_WriteBatch b s : db (WriteBatch b s) = apply_batch b (db s).
Proof. done. Qed.

(** *** The existence caches *)

Lemma cache_agrees_get tag t d k :
  cache_agrees tag t d →
  match lru_get k t with
  | (Some ret, t') => ret = Exists (tag k) d ∧ cache_agrees tag t' d
  | (None, t') => cache_agrees tag (lru_insert k (Exists (tag k) d) t') d
  end.
Proof.
  intros Hag. pose proof (lru_get_result k t) as Hres.
  pose proof (lru_get_entries k t) as Hent.
  destruct (lru_get k t) as [[ret|] t']; simpl in *.
  - split; [by apply Hag | intros k' b; rewrite Hent; apply Hag].
  - intros k' b Hk'. destruct (decide (k' = k)) as [->|Hne].
    + rewrite lru_insert_eq in Hk'. congruence.
    + apply Hag. rewrite <-Hent. by eapply lru_insert_ne.
Qed.

Lemma cache_agrees_insert tag t d d' k b :
  cache_agrees tag t d → b = Exists (tag k) d' →
  (∀ k', k' ≠ k → d' !! tag k' = d !! tag k') →
  cache_agrees tag (lru_insert k b t) d'.
Proof.
  intros Hag -> Hsame k' b' Hk'. destruct (decide (k' = k)) as [->|Hne].
  - rewrite lru_insert_eq in Hk'. congruence.
  - apply lru_insert_ne in Hk'; [|done]. apply Hag in Hk' as ->.
    unfold Exists. by rewrite Hsame.
Qed.

Lemma cache_agrees_erase tag t d d' k :
  cache_agrees tag t d →
  (∀ k', k' ≠ k → d' !! tag k' = d !! tag k') →
  cache_agrees tag (lru_erase k t) d'.
Proof.
  intros Hag Hsame k' b. rewrite lru_erase_entries, lookup_delete.
  case_decide as Hk; [done|]. intros Hk'%Hag. subst b.
  unfold Exists. rewrite Hsame; [done | congruence].
Qed.

Lemma cache_agrees_same tag t d d' :
  cache_agrees tag t d → (∀ k, d' !! tag k = d !! tag k) → cache_agrees tag t d'.
Proof. intros Hag Hsame k b Hk%Hag. subst b. unfold Exists. by rewrite Hsame. Qed.

Lemma HasRecoveredSigForId_spec i s :
  caches_coherent s →
  (HasRecoveredSigForId i s).1 = Exists (rs_r i) (db s)
  ∧ db (HasRecoveredSigForId i s).2 = db s
  ∧ caches_coherent (HasRecoveredSigForId i s).2.
Proof.
  intros [Hi Hs Hh]. unfold HasRecoveredSigForId.
  pose proof (cache_agrees_get rs_r _ _ i Hi) as Hget.
  destruct (lru_get i (hasSigForIdCache s)) as [[ret|] t']; simpl.
  - destruct Hget as [-> Hag]. by split_and!.
  - by split_and!.
Qed.

Lemma HasRecoveredSigForSession_spec h s :
  caches_coherent s →
  (HasRecoveredSigForSession h s).1 = Exists (rs_s h) (db s)
  ∧ db (HasRecoveredSigForSession h s).2 = db s
  ∧ caches_coherent (HasRecoveredSigForSession h s).2.
Proof.
  intros [Hi Hs Hh]. unfold HasRecoveredSigForSession.
  pose proof (cache_agrees_get rs_s _ _ h Hs) as Hget.
  destruct (lru_get h (hasSigForSessionCache s)) as [[ret|] t']; simpl.
  - destruct Hget as [-> Hag]. by split_and!.
  - by split_and!.
Qed.

Lemma HasRecoveredSigForHash_spec h s :
  caches_coherent s →
  (HasRecoveredSigForHash h s).1 = Exists (rs_h h) (db s)
  ∧ db (HasRecoveredSigForHash h s).2 = db s
  ∧ caches_coherent (HasRecoveredSigForHash h s).2.
Proof.
  intros [Hi Hs Hh]. unfold HasRecoveredSigForHash.
  pose proof (cache_agrees_get rs_h _ _ h Hh) as Hget.
  destruct (lru_get h (hasSigForHashCache s)) as [[ret|] t']; simpl.
  - destruct Hget as [-> Hag]. by split_and!.
  - by split_and!.
Qed.
(** *** Writing and removing records *)

Lemma db_WriteRecoveredSig now r s :
  db (WriteRecoveredSig now r s) =
    <[rs_t (htobe32 (to_uint32 now)) (LLMQ.id r) := VByte 1]>
      (<[rs_s (BuildSignHash r) := VByte 1]>
        (<[rs_h (GetHash r) := VHash (LLMQ.id r)]>
          (<[rs_r2 (LLMQ.id r) (LLMQ.msgHash r) := VU32 (to_uint32 now)]>
            (<[rs_r (LLMQ.id r) := VRecSig r]> (db s))))).
Proof. done. Qed.

Lemma WriteRecoveredSig_stored now r s : stored r (WriteRecoveredSig now r s).
Proof.
  unfold stored. rewrite db_WriteRecoveredSig. split.
  - by rewrite !lookup_insert_ne, lookup_insert_eq by done.
  - rewrite !(lookup_insert_ne _ (rs_t _ _)), (lookup_insert_ne _ (rs_s _)) by done.
    rewrite lookup_insert_eq. by eexists.
Qed.

Lemma WriteRecoveredSig_coherent now r s :
  caches_coherent s → caches_coherent (WriteRecoveredSig now r s).
Proof.
  intros [Hi Hs Hh]. unfold caches_coherent. rewrite db_WriteRecoveredSig.
  split; simpl.
  - eapply cache_agrees_insert; [exact Hi| |].
    + unfold Exists. rewrite !lookup_insert_ne, lookup_insert_eq by done.
      symmetry. apply bool_decide_eq_true_2. by eexists.
    + intros k' Hk'. rewrite !lookup_insert_ne by congruence. done.
  - eapply cache_agrees_insert; [exact Hs| |].
    + unfold Exists. rewrite lookup_insert_ne, lookup_insert_eq by done.
      symmetry. apply bool_decide_eq_true_2. by eexists.
    + intros k' Hk'. rewrite !lookup_insert_ne by congruence. done.
  - eapply cache_agrees_insert; [exact Hh| |].
    + unfold Exists. rewrite !(lookup_insert_ne _ (rs_t _ _)), (lookup_insert_ne _ (rs_s _)) by done.
      rewrite lookup_insert_eq.
      symmetry. apply bool_decide_eq_true_2. by eexists.
    + intros k' Hk'. rewrite !lookup_insert_ne by congruence. done.
Qed.

Lemma WriteRecoveredSig_keyed now r s :
  records_keyed (db s) → records_keyed (db (WriteRecoveredSig now r s)).
Proof.
  intros Hk i v. rewrite db_WriteRecoveredSig. rewrite !lookup_insert_ne by done.
  rewrite lookup_insert. case_decide as Hi.
  - intros [= <-]. exists r. split; [done | congruence].
  - apply Hk.
Qed.

Lemma removal_keys_spec d hk i k :
  k ∈ removal_keys d hk i ↔
  ∃ r, d !! rs_r i = Some (VRecSig r)
       ∧ (k = rs_r (LLMQ.id r) ∨ k = rs_r2 (LLMQ.id r) (LLMQ.msgHash r)
          ∨ (hk = true ∧ k = rs_h (GetHash r)) ∨ k = rs_s (BuildSignHash r)).
Proof.
  unfold removal_keys. destruct (d !! rs_r i) as [[r| | |]|]; try (split; [by intros ?%elem_of_nil | by intros (? & [=] & _)]).
  rewrite !elem_of_app, !elem_of_cons. destruct hk.
  - rewrite !elem_of_cons. split.
    + intros Hk. exists r. split; [done|]. set_solver.
    + intros (r' & [= <-] & Hk). set_solver.
  - split.
    + intros Hk. exists r. split; [done|]. set_solver.
    + intros (r' & [= <-] & Hk). set_solver.
Qed.

(** One call of [RemoveRecoveredSig(batch, id, deleteHashKey, false)]: the
    store is only read, the batch grows by the erasures of
    [removal_keys], and caches that agreed with some contents [V] agree
    with [V] less those keys. *)
Lemma RemoveRecoveredSig_step batch i hk s :
  ∃ s', RemoveRecoveredSig batch i hk false s
        = (batch ++ (BErase <$> removal_keys (db s) hk i), s')
    ∧ db s' = db s
    ∧ ∀ V, caches_agree V s →
           caches_agree (apply_batch (BErase <$> removal_keys (db s) hk i) V) s'.
Proof.
  unfold RemoveRecoveredSig, removal_keys, ReadRecoveredSig.
  destruct (db s !! rs_r i) as [[r| | |]|] eqn:Hr;
    try (exists s; rewrite app_nil_r; by split_and!).
  eexists. split.
  { f_equal. destruct hk; simpl; by rewrite <-?app_assoc. }
  split; [by destruct hk|].
  intros V [Hi Hs Hh].
  assert (∀ k, apply_batch (BErase <$> ([rs_r (LLMQ.id r); rs_r2 (LLMQ.id r) (LLMQ.msgHash r)]
             ++ (if hk then [rs_h (GetHash r)] else []) ++ [rs_s (BuildSignHash r)])) V !! k
           = if decide (k ∈ [rs_r (LLMQ.id r); rs_r2 (LLMQ.id r) (LLMQ.msgHash r)]
                 ++ (if hk then [rs_h (GetHash r)] else []) ++ [rs_s (BuildSignHash r)])
             then None else V !! k) as Hlk by (intros; apply lookup_apply_erases).
  split.
  - destruct hk; simpl; (eapply cache_agrees_erase; [exact Hi|]);
      intros k' Hk'; rewrite Hlk; apply decide_False; set_solver.
  - destruct hk; simpl; (eapply cache_agrees_erase; [exact Hs|]);
      intros k' Hk'; rewrite Hlk; apply decide_False; set_solver.
  - destruct hk; simpl.
    + eapply cache_agrees_erase; [exact Hh|].
      intros k' Hk'; rewrite Hlk; apply decide_False; set_solver.
    + eapply cache_agrees_same; [exact Hh|].
      intros k'; rewrite Hlk; apply decide_False; set_solver.
Qed.

(** *** Truncation *)

(** C7.  Let [r] be a record as [WriteRecoveredSig] leaves it (filed under
    its id, its content hash in the by-hash index), in a store whose
    existence caches are coherent.  After [TruncateRecoveredSig (id r)] the
    record, its (id, message hash) entry and its sign-hash entry are gone
    and [HasRecoveredSigForId] and [HasRecoveredSigForSession] answer
    [false], while the by-hash entry is untouched and
    [HasRecoveredSigForHash] still answers [true].  The by-hash cache is
    left exactly as it was, so the answer it holds for the hash stays in
    place; the id cache and the session cache lose their entries for the
    id and the sign hash, and nothing else.  The caches are coherent
    again. *)
Theorem truncate_keeps_hash_index r s :
  caches_coherent s → stored r s →
  let s' := TruncateRecoveredSig (LLMQ.id r) s in
  (HasRecoveredSigForId (LLMQ.id r) s').1 = false
  ∧ ReadRecoveredSig (LLMQ.id r) s' = None
  ∧ HasRecoveredSig (LLMQ.id r) (LLMQ.msgHash r) s' = false
  ∧ (HasRecoveredSigForSession (BuildSignHash r) s').1 = false
  ∧ (HasRecoveredSigForHash (GetHash r) s').1 = true
  ∧ db s' !! rs_h (GetHash r) = db s !! rs_h (GetHash r)
  ∧ hasSigForHashCache s' = hasSigForHashCache s
  ∧ lru_entries (hasSigForIdCache s') = delete (LLMQ.id r) (lru_entries (hasSigForIdCache s))
  ∧ lru_entries (hasSigForSessionCache s')
    = delete (BuildSignHash r) (lru_entries (hasSigForSessionCache s))
  ∧ caches_coherent s'.
Proof.
  intros Hcoh [Hrec Hhash].
  assert (hasSigForHashCache (TruncateRecoveredSig (LLMQ.id r) s) = hasSigForHashCache s
          ∧ lru_entries (hasSigForIdCache (TruncateRecoveredSig (LLMQ.id r) s))
            = delete (LLMQ.id r) (lru_entries (hasSigForIdCache s))
          ∧ lru_entries (hasSigForSessionCache (TruncateRecoveredSig (LLMQ.id r) s))
            = delete (BuildSignHash r) (lru_entries (hasSigForSessionCache s)))
    as (Hcache & Hcid & Hcs).
  { unfold TruncateRecoveredSig, RemoveRecoveredSig, ReadRecoveredSig. rewrite Hrec.
    simpl. by rewrite !lru_erase_entries. }
  revert Hcache Hcid Hcs.
  unfold TruncateRecoveredSig.
  destruct (RemoveRecoveredSig_step [] (LLMQ.id r) false s) as (s1 & -> & Hdb & Hag).
  specialize (Hag (db s) Hcoh). simpl.
  assert (removal_keys (db s) false (LLMQ.id r)
          = [rs_r (LLMQ.id r); rs_r2 (LLMQ.id r) (LLMQ.msgHash r); rs_s (BuildSignHash r)]) as Hkeys
    by (unfold removal_keys; by rewrite Hrec).
  rewrite Hkeys in *.
  set (s' := WriteBatch _ s1).
  intros Hcache Hcid Hcs.
  assert (∀ k, db s' !! k =
            if decide (k ∈ [rs_r (LLMQ.id r); rs_r2 (LLMQ.id r) (LLMQ.msgHash r);
                            rs_s (BuildSignHash r)])
            then None else db s !! k) as Hlk.
  { intros k. unfold s'. rewrite db_WriteBatch, Hdb. apply lookup_apply_erases. }
  assert (caches_coherent s') as Hcoh'.
  { unfold caches_coherent, s'. rewrite db_WriteBatch, Hdb. destruct Hag. by split. }
  destruct (HasRecoveredSigForId_spec (LLMQ.id r) s' Hcoh') as (-> & _ & _).
  destruct (HasRecoveredSigForSession_spec (BuildSignHash r) s' Hcoh') as (-> & _ & _).
  destruct (HasRecoveredSigForHash_spec (GetHash r) s' Hcoh') as (-> & _ & _).
  unfold HasRecoveredSig, ReadRecoveredSig, Exists. rewrite !Hlk.
  rewrite !decide_True by set_solver. rewrite decide_False by set_solver.
  rewrite (bool_decide_eq_true_2 _ Hhash).
  rewrite bool_decide_eq_false_2 by (by intros [? ?]).
  by split_and!.
Qed.

(** *** Store order and the cursor *)

Global Instance lex_le_total : Total lex_le.
Proof. intros [[a1 a2] a3] [[b1 b2] b3]. unfold lex_le; simpl. lia. Qed.

Global Instance lex_le_trans : Transitive lex_le.
Proof. intros [[a1 a2] a3] [[b1 b2] b3] [[c1 c2] c3]. unfold lex_le; simpl. lia. Qed.

Global Instance key_le_total : Total key_le.
Proof. intros k1 k2. apply lex_le_total. Qed.

Global Instance key_le_trans : Transitive key_le.
Proof. intros k1 k2 k3. apply lex_le_trans. Qed.

Lemma elem_of_Seek {V} start (d : gmap DbKey V) k :
  k ∈ Seek start d ↔ is_Some (d !! k) ∧ key_le start k.
Proof.
  unfold Seek. rewrite merge_sort_Permutation, list_elem_of_filter, elem_of_elements, elem_of_dom.
  tauto.
Qed.

Lemma Seek_sorted {V} start (d : gmap DbKey V) : StronglySorted key_le (Seek start d).
Proof. apply Sorted_StronglySorted; [apply _|]. apply Sorted_merge_sort, _. Qed.

Lemma rs_t_after_start t i : key_le (rs_t 0 0%N) (rs_t t i).
Proof.
  unfold key_le, lex_le. simpl.
  pose proof (LLMQFacts.bswap32_nonneg t). unfold be32toh.
  change (bswap32 0) with 0. lia.
Qed.

Lemma scan_rs_t_sound endTime cursor t i :
  (t, i) ∈ scan_rs_t endTime cursor → rs_t t i ∈ cursor ∧ be32toh t < endTime.
Proof.
  induction cursor as [|k cursor IH]; simpl; [by intros ?%elem_of_nil|].
  destruct k as [| | | |t0 i0| |]; try by intros ?%elem_of_nil.
  case_bool_decide as Ht; [by intros ?%elem_of_nil|].
  intros [[= -> ->]|Hin]%elem_of_cons.
  - split; [left | lia].
  - destruct (IH Hin). split; [by right | done].
Qed.

Lemma scan_rs_t_complete endTime cursor t i :
  StronglySorted key_le cursor → (∀ k, k ∈ cursor → key_le (rs_t 0 0%N) k) →
  rs_t t i ∈ cursor → be32toh t < endTime → (t, i) ∈ scan_rs_t endTime cursor.
Proof.
  intros Hsorted. induction Hsorted as [|k cursor Hsorted IH Hall]; intros Hstart Hin Ht.
  - by apply elem_of_nil in Hin.
  - rewrite Forall_forall in Hall.
    assert (∀ k', k' ∈ cursor → key_le (rs_t 0 0%N) k') as Hstart' by (intros; apply Hstart; by right).
    specialize (Hstart k ltac:(left)).
    apply elem_of_cons in Hin as [<-|Hin].
    + simpl. rewrite bool_decide_eq_false_2 by lia. left.
    + specialize (Hall _ Hin).
      destruct k as [| | | |t0 i0| |]; unfold key_le, lex_le in Hstart, Hall; simpl in *;
        try lia.
      rewrite bool_decide_eq_false_2 by lia. right. by apply IH.
Qed.

Lemma elem_of_scan_rs_t endTime d t i :
  (t, i) ∈ scan_rs_t endTime (Seek (rs_t 0 0%N) d)
  ↔ is_Some (d !! rs_t t i) ∧ be32toh t < endTime.
Proof.
  split.
  - intros [Hin Ht]%scan_rs_t_sound. by apply elem_of_Seek in Hin as [? _].
  - intros [Hin Ht]. apply scan_rs_t_complete; [apply Seek_sorted| | |done].
    + intros k Hk. by apply elem_of_Seek in Hk as [_ ?].
    + apply elem_of_Seek. split; [done | apply rs_t_after_start].
Qed.

(** *** The aging sweep *)

(** Keys of ["rs_r"] kind that a removal touches are those of the ids
    removed. *)
Lemma removal_keys_rs_r d hk e i :
  records_keyed d → rs_r i ∈ removal_keys d hk e → i = e.
Proof.
  intros Hkeyed (r & Hr & Hk)%removal_keys_spec.
  destruct (Hkeyed _ _ Hr) as (r' & [= <-] & <-).
  destruct Hk as [Hk|[Hk|[[_ Hk]|Hk]]]; congruence.
Qed.

Lemma removal_keys_not_rs_t d hk e t i : rs_t t i ∉ removal_keys d hk e.
Proof. intros (r & _ & [Hk|[Hk|[[_ Hk]|Hk]]])%removal_keys_spec; congruence. Qed.

(** The loop over [toDelete]: [orig] is the store the sweep started from,
    [done] the ids already handled.  The store with the pending batch
    applied is [orig] less the removal keys of the ids handled, whether or
    not the batch was flushed on the way. *)
Lemma remove_all_spec orig toDelete done batch s :
  records_keyed orig →
  (∀ k, apply_batch batch (db s) !! k =
        if decide (k ∈ done ≫= removal_keys orig true) then None else orig !! k) →
  (∀ k, db s !! k = orig !! k ∨ (db s !! k = None ∧ k ∈ done ≫= removal_keys orig true)) →
  caches_agree (apply_batch batch (db s)) s →
  ∃ batch' s', remove_all toDelete batch s = (batch', s')
    ∧ (∀ k, apply_batch batch' (db s') !! k =
            if decide (k ∈ (done ++ toDelete) ≫= removal_keys orig true)
            then None else orig !! k)
    ∧ caches_agree (apply_batch batch' (db s')) s'.
Proof.
  intros Hkeyed. revert done batch s.
  induction toDelete as [|e toDelete IH]; intros done batch s Hvirt Hreal Hag.
  - exists batch, s. rewrite app_nil_r. by split_and!.
  - cbn [remove_all].
    destruct (RemoveRecoveredSig_step batch e true s) as (s1 & -> & Hdb1 & Hag1).
    specialize (Hag1 _ Hag).
    set (ks := removal_keys (db s) true e) in *.
    (* what this call erases, on top of what was erased, is what the
       original store lists for [e] *)
    assert (∀ k, k ∈ (done ++ [e]) ≫= removal_keys orig true
                 ↔ k ∈ done ≫= removal_keys orig true ∨ k ∈ ks) as Hks.
    { intros k. rewrite bind_app, elem_of_app. simpl. rewrite app_nil_r.
      destruct (Hreal (rs_r e)) as [Hsame|[Hnone Hgone]].
      - unfold ks, removal_keys. by rewrite Hsame.
      - assert (ks = []) as -> by (unfold ks, removal_keys; by rewrite Hnone).
        apply list_elem_of_bind in Hgone as (e' & Hin & He').
        apply removal_keys_rs_r in Hin as ->; [|done].
        split; [|intros [?|[]%elem_of_nil]; tauto]. intros [?|Hk]; [tauto|]. left.
        apply list_elem_of_bind. eauto. }
    assert (∀ k, apply_batch (batch ++ (BErase <$> ks)) (db s1) !! k =
                 if decide (k ∈ (done ++ [e]) ≫= removal_keys orig true)
                 then None else orig !! k) as Hvirt1.
    { intros k. rewrite Hdb1, apply_batch_app, lookup_apply_erases, Hvirt.
      repeat case_decide; try done; exfalso; rewrite Hks in *; tauto. }
    rewrite <-apply_batch_app, <-Hdb1 in Hag1.
    replace (done ++ e :: toDelete) with ((done ++ [e]) ++ toDelete)
      by (by rewrite <-app_assoc).
    case_bool_decide.
    + apply IH.
      * intros k. rewrite db_WriteBatch. apply Hvirt1.
      * intros k. rewrite db_WriteBatch, Hvirt1. case_decide; tauto.
      * destruct Hag1. by split.
    + apply IH; [done| |done].
      intros k. rewrite Hdb1. destruct (Hreal k) as [?|[? ?]]; [tauto|].
      right. split; [done|]. apply Hks. tauto.
Qed.

Lemma db_CleanupOldRecoveredSigs now maxAge s :
  records_keyed (db s) → caches_coherent s →
  let found := scan_rs_t (to_uint32 (now - maxAge)) (Seek (rs_t 0 0%N) (db s)) in
  let s' := CleanupOldRecoveredSigs now maxAge s in
  (∀ k, db s' !! k =
        if decide (k ∈ ((λ k, rs_t k.1 k.2) <$> found)) then None
        else if decide (k ∈ found.*2 ≫= removal_keys (db s) true) then None
        else db s !! k)
  ∧ caches_coherent s'.
Proof.
  intros Hkeyed Hcoh found s'. unfold s', CleanupOldRecoveredSigs. fold found.
  case_bool_decide as Hempty.
  - apply fmap_nil_inv in Hempty. rewrite Hempty. split; [|done].
    intros k. cbn [fmap list_fmap mbind list_bind]. by rewrite !decide_False by apply not_elem_of_nil.
  - assert (∀ k, apply_batch [] (db s) !! k =
              if decide (k ∈ [] ≫= removal_keys (db s) true) then None else db s !! k) as Hv0.
    { intros k. rewrite decide_False; [done|]. apply not_elem_of_nil. }
    assert (∀ k, db s !! k = db s !! k
                 ∨ (db s !! k = None ∧ k ∈ [] ≫= removal_keys (db s) true)) as Hr0
      by (intros; by left).
    destruct (remove_all_spec (db s) found.*2 [] [] s Hkeyed Hv0 Hr0 Hcoh)
      as (batch & s1 & -> & Hvirt & Hag).
    rewrite app_nil_l in Hvirt. split.
    + intros k. rewrite db_WriteBatch, apply_batch_app, lookup_apply_erases, Hvirt. done.
    + unfold caches_coherent. rewrite db_WriteBatch, apply_batch_app.
      destruct Hag as [Hi Hs Hh].
      split; simpl; (eapply cache_agrees_same; [eassumption|]);
        intros k; rewrite lookup_apply_erases; apply decide_False;
        intros [? [? ?]]%list_elem_of_fmap; congruence.
Qed.

(** The sweep in terms of [endTime = (uint32_t)(now - maxAge)]: it erases
    exactly the time-index entries whose time is below [endTime], and with
    them the record and the index entries of every id such an entry
    lists; a record whose id has no such entry stays. *)
Lemma CleanupOldRecoveredSigs_spec now maxAge s :
  records_keyed (db s) → caches_coherent s →
  let endTime := to_uint32 (now - maxAge) in
  let s' := CleanupOldRecoveredSigs now maxAge s in
  (∀ t i, db s' !! rs_t t i =
          if decide (be32toh t < endTime) then None else db s !! rs_t t i)
  ∧ (∀ t i, is_Some (db s !! rs_t t i) → be32toh t < endTime →
       db s' !! rs_r i = None
       ∧ ∀ r, db s !! rs_r i = Some (VRecSig r) →
              db s' !! rs_r2 i (LLMQ.msgHash r) = None
              ∧ db s' !! rs_h (GetHash r) = None
              ∧ db s' !! rs_s (BuildSignHash r) = None)
  ∧ (∀ i, (∀ t, is_Some (db s !! rs_t t i) → endTime ≤ be32toh t) →
       db s' !! rs_r i = db s !! rs_r i)
  ∧ (∀ w i, is_Some (db s !! rs_t (htobe32 (to_uint32 w)) i) → to_uint32 w < endTime →
       db s' !! rs_r i = None)
  ∧ (maxAge = now → s' = s)
  ∧ caches_coherent s'.
Proof.
  intros Hkeyed Hcoh endTime s'.
  destruct (db_CleanupOldRecoveredSigs now maxAge s Hkeyed Hcoh) as [Hlk Hcoh'].
  fold endTime s' in Hlk, Hcoh'.
  set (found := scan_rs_t endTime (Seek (rs_t 0 0%N) (db s))) in *.
  assert (∀ t i, rs_t t i ∈ ((λ k, rs_t k.1 k.2) <$> found)
                 ↔ is_Some (db s !! rs_t t i) ∧ be32toh t < endTime) as Hfound.
  { intros t i. rewrite <-elem_of_scan_rs_t. fold found. rewrite list_elem_of_fmap. split.
    - intros ([t' i'] & [= -> ->] & Hin). done.
    - intros Hin. by exists (t, i). }
  assert (∀ t i, is_Some (db s !! rs_t t i) → be32toh t < endTime →
            db s' !! rs_r i = None
            ∧ ∀ r, db s !! rs_r i = Some (VRecSig r) →
                   db s' !! rs_r2 i (LLMQ.msgHash r) = None
                   ∧ db s' !! rs_h (GetHash r) = None
                   ∧ db s' !! rs_s (BuildSignHash r) = None) as Hgone.
  { intros t i Hin Ht.
    assert (i ∈ found.*2) as Hi.
    { apply list_elem_of_fmap. exists (t, i). split; [done|]. by apply elem_of_scan_rs_t. }
    assert (∀ k, k ∈ removal_keys (db s) true i → db s' !! k = None) as Hrm.
    { intros k Hk. rewrite Hlk. case_decide; [done|].
      rewrite decide_True; [done|]. apply list_elem_of_bind. eauto. }
    split.
    - destruct (db s !! rs_r i) as [v|] eqn:Hv.
      + destruct (Hkeyed _ _ Hv) as (r & -> & Hid). apply Hrm.
        apply removal_keys_spec. exists r. split; [done|]. left. by rewrite Hid.
      + rewrite Hlk. repeat case_decide; done.
    - intros r Hr. destruct (Hkeyed _ _ Hr) as (r' & [= <-] & Hid).
      split_and!; apply Hrm; apply removal_keys_spec; exists r; (split; [done|]);
        rewrite ?Hid; tauto. }
  split_and!; [| exact Hgone | | | | exact Hcoh'].
  - intros t i. rewrite Hlk.
    destruct (decide (be32toh t < endTime)) as [Ht|Ht].
    + destruct (db s !! rs_t t i) as [v|] eqn:Hv.
      * rewrite decide_True; [done|]. apply Hfound. split; [by eexists | done].
      * repeat case_decide; done.
    + rewrite decide_False by (rewrite Hfound; tauto).
      rewrite decide_False; [done|].
      intros (e & Hin & _)%list_elem_of_bind. by apply removal_keys_not_rs_t in Hin.
  - intros i Hi. rewrite Hlk.
    rewrite decide_False by (intros [? [? ?]]%list_elem_of_fmap; congruence).
    rewrite decide_False; [done|].
    intros (e & Hin & He)%list_elem_of_bind.
    apply removal_keys_rs_r in Hin as ->; [|done].
    apply list_elem_of_fmap in He as ([t e'] & -> & Hte).
    apply elem_of_scan_rs_t in Hte as [Hsome Hlt]. simpl in *.
    specialize (Hi _ Hsome). lia.
  - intros w i Hin Hw. eapply Hgone; [exact Hin|].
    by rewrite LLMQFacts.be32toh_written.
  - intros ->. unfold s', CleanupOldRecoveredSigs.
    rewrite bool_decide_eq_true_2; [done|].
    replace (scan_rs_t _ _) with (@nil (Z * uint256)); [done|].
    symmetry. apply elem_of_nil_inv. intros [t i] [_ Ht]%scan_rs_t_sound.
    rewrite Z.sub_diag in Ht. pose proof (LLMQFacts.bswap32_nonneg t).
    unfold be32toh, to_uint32 in *. change (0 mod 2 ^ 32) with 0 in Ht. lia.
Qed.

(** C8, as the code has it.  Take a sweep whose age does not reach back
    before the epoch, [0 ≤ maxAge ≤ now < 2^32], on a store whose records
    are filed under their ids and whose caches are coherent.  It erases
    exactly the time-index entries whose time is below [now - maxAge].  A
    record written at [w < now - maxAge] whose time-index entry is still
    there is erased, with its (id, message hash), content-hash and
    sign-hash entries; a record whose id has no time-index entry below
    [now - maxAge] stays.  So with [maxAge = 0] every record written before
    the current second goes, while a record written in the current second
    stays; and with [maxAge = now] nothing is erased.  The caches stay
    coherent. *)
Theorem cleanup_erases_records_older_than_maxAge now maxAge s :
  0 ≤ maxAge ≤ now → now < 2 ^ 32 →
  records_keyed (db s) → caches_coherent s →
  let s' := CleanupOldRecoveredSigs now maxAge s in
  (∀ t i, db s' !! rs_t t i =
          if decide (be32toh t < now - maxAge) then None else db s !! rs_t t i)
  ∧ (∀ w i, 0 ≤ w < now - maxAge → is_Some (db s !! rs_t (htobe32 w) i) →
       ReadRecoveredSig i s' = None
       ∧ ∀ r, ReadRecoveredSig i s = Some r →
              HasRecoveredSig i (LLMQ.msgHash r) s' = false
              ∧ db s' !! rs_h (GetHash r) = None
              ∧ db s' !! rs_s (BuildSignHash r) = None)
  ∧ (∀ i, (∀ t, is_Some (db s !! rs_t t i) → now - maxAge ≤ be32toh t) →
       ReadRecoveredSig i s' = ReadRecoveredSig i s)
  ∧ (maxAge = 0 → ∀ i, (∀ t, is_Some (db s !! rs_t t i) → be32toh t = now) →
       ReadRecoveredSig i s' = ReadRecoveredSig i s)
  ∧ (maxAge = now → s' = s)
  ∧ caches_coherent s'.
Proof.
  intros Hage Hnow Hkeyed Hcoh s'.
  destruct (CleanupOldRecoveredSigs_spec now maxAge s Hkeyed Hcoh)
    as (Htime & Hgone & Hstay & _ & Hnone & Hcoh').
  fold s' in Htime, Hgone, Hstay, Hnone, Hcoh'.
  assert (to_uint32 (now - maxAge) = now - maxAge) as Hend
    by (unfold to_uint32; apply Z.mod_small; lia).
  rewrite Hend in *.
  assert (∀ i, (∀ t, is_Some (db s !! rs_t t i) → now - maxAge ≤ be32toh t) →
            ReadRecoveredSig i s' = ReadRecoveredSig i s) as Hstay'.
  { intros i Hi. unfold ReadRecoveredSig. by rewrite Hstay. }
  split_and!; [exact Htime| |exact Hstay'| |exact Hnone|exact Hcoh'].
  - intros w i Hw Hin.
    assert (be32toh (htobe32 w) < now - maxAge) as Hlt
      by (rewrite LLMQFacts.be32toh_htobe32; lia).
    destruct (Hgone _ _ Hin Hlt) as [Hrec Hidx]. split.
    + unfold ReadRecoveredSig. by rewrite Hrec.
    + intros r Hr. unfold ReadRecoveredSig in Hr.
      destruct (db s !! rs_r i) as [[r'| | |]|] eqn:Hri; try done. injection Hr as ->.
      destruct (Hidx r eq_refl) as (H2 & Hh & Hs). split_and!; [|done|done].
      unfold HasRecoveredSig, Exists. rewrite H2. apply bool_decide_eq_false_2.
      by intros [? ?].
  - intros -> i Hi. apply Hstay'. intros t Ht. rewrite (Hi t Ht). lia.
Qed.

End facts.
End RecSigDbFacts.

(** ** The signing manager *)
Module SigningFacts.
Import DBWrapper LLMQ RecSigDb Signing RecSigDbFacts.
Section facts.
Context `{Crypto} `{LruCache} `{BatchSizing}.
Implicit Types (m : CSigningManager) (e : Env) (r : CRecoveredSig) (ev : list Event).

Lemma misbehaving_if_peer_quiet e nodeId howmuch message :
  Forall (λ x, ¬ disseminates x) (misbehaving_if_peer e nodeId howmuch message).
Proof.
  unfold misbehaving_if_peer. destruct (GetPeerRef e nodeId); repeat constructor; simpl; tauto.
Qed.

(** Closes goals saying that a list of events holds no dissemination. *)
Ltac quiet :=
  repeat first
    [ assumption
    | apply Forall_nil_2
    | apply misbehaving_if_peer_quiet
    | apply Forall_app_2
    | apply Forall_cons_2; [simpl; tauto|]
    | match goal with |- Forall _ (if ?b then _ else _) => destruct b end ].

(** *** Conflicting recovered signatures *)

Lemma misbehaving_if_peer_no_conflict e nodeId howmuch message :
  Forall (λ x, ¬ reports_conflict x) (misbehaving_if_peer e nodeId howmuch message).
Proof.
  unfold misbehaving_if_peer. destruct (GetPeerRef e nodeId); repeat constructor; simpl; tauto.
Qed.

(** Closes goals saying that a list of events reports no conflict. *)
Ltac unreported :=
  repeat first
    [ assumption
    | apply Forall_nil_2
    | apply misbehaving_if_peer_no_conflict
    | apply Forall_app_2
    | apply Forall_cons_2; [simpl; tauto|]
    | match goal with |- Forall _ (if ?b then _ else _) => destruct b end ].

Lemma unreported_absent ev sh i h osh :
  Forall (λ x, ¬ reports_conflict x) ev → ¬ Log (LogConflictingRecSig sh i h osh) ∈ ev.
Proof. intros Hall Hin. by apply (proj1 (Forall_forall _ _) Hall _ Hin). Qed.

(** C1, as the code has it.  Let the store hold a record [other] for the id
    of [new], with coherent caches.  Whatever [new] is, [ProcessRecoveredSig]
    on [new] leaves the store contents exactly as they were (nothing is
    written, the record for the id is still [other]), leaves the pending
    maps and the listeners alone, and neither relays [new] nor hands it to
    a listener.  A conflict is logged exactly when the sign hashes of [new]
    and [other] differ, the block checks pass for [new] and the content
    hash of [new] is not in the store; the line then carries both sign
    hashes, the id and the message hash of [new].  The message hashes are
    not compared. *)
Theorem conflicting_recovered_sig_rejected e nodeId new other m :
  caches_coherent (db m) →
  GetRecoveredSigById (id new) (db m) = Some other →
  let m' := (ProcessRecoveredSig e nodeId new m).1 in
  let ev := (ProcessRecoveredSig e nodeId new m).2 in
  RecSigDb.db (db m') = RecSigDb.db (db m)
  ∧ GetRecoveredSigById (id new) (db m') = Some other
  ∧ pendingRecoveredSigs m' = pendingRecoveredSigs m
  ∧ pendingReconstructedRecoveredSigs m' = pendingReconstructedRecoveredSigs m
  ∧ recoveredSigsListeners m' = recoveredSigsListeners m
  ∧ Forall (λ x, ¬ disseminates x) ev
  ∧ (∀ signHash i msgHash otherSignHash,
       Log (LogConflictingRecSig signHash i msgHash otherSignHash) ∈ ev ↔
         (signHash = BuildSignHash new ∧ i = id new ∧ msgHash = LLMQ.msgHash new
          ∧ otherSignHash = BuildSignHash other)
         ∧ BuildSignHash new ≠ BuildSignHash other
         ∧ block_accepted e new
         ∧ Exists (rs_h (GetHash new)) (RecSigDb.db (db m)) = false).
Proof.
  intros Hcoh Hother m' ev.
  assert (Forall (λ x, ¬ disseminates x)
            ((if GetPeerRef e nodeId then [AddKnownTx nodeId (GetHash new)] else [])
             ++ [ReceivedResponse nodeId (GetHash new)])) as Hev0.
  { destruct (GetPeerRef e nodeId); repeat constructor; simpl; tauto. }
  assert (Forall (λ x, ¬ reports_conflict x)
            ((if GetPeerRef e nodeId then [AddKnownTx nodeId (GetHash new)] else [])
             ++ [ReceivedResponse nodeId (GetHash new)])) as Hev0'.
  { destruct (GetPeerRef e nodeId); repeat constructor; simpl; tauto. }
  subst m' ev. unfold ProcessRecoveredSig, block_accepted.
  destruct (LookupBlockIndex e (LLMQ.msgHash new)) as [pindex|] eqn:Hblock; cbn zeta.
  2: { simpl. split_and!; try done.
       - quiet.
       - intros sh i h osh. split.
         + intros Hin. exfalso. revert Hin. apply unreported_absent. unreported.
         + by intros (_ & _ & (? & [=] & _) & _). }
  case_bool_decide as Hrem; simpl negb; cbn iota.
  2: { simpl. split_and!; try done.
       - quiet.
       - intros sh i h osh. split.
         + intros Hin. exfalso. revert Hin. apply unreported_absent. unreported.
         + intros (_ & _ & (? & [= <-] & ? & _) & _). done. }
  destruct (negb (in_active_chain pindex) || negb (valid_scripts pindex)) eqn:Hchain.
  { simpl. split_and!; try done.
    - quiet.
    - intros sh i h osh. split.
      + intros Hin. exfalso. revert Hin. apply unreported_absent. unreported.
      + intros (_ & _ & (? & [= <-] & _ & Ha & Hv) & _). rewrite Ha, Hv in Hchain. done. }
  assert (∃ pindex0, Some pindex = Some pindex0
            ∧ Z.rem (nHeight pindex0) (SIGN_HEIGHT_LOOKBACK e) = 0
            ∧ in_active_chain pindex0 = true ∧ valid_scripts pindex0 = true) as Hacc.
  { exists pindex. split_and!; try done.
    - by destruct (in_active_chain pindex).
    - destruct (in_active_chain pindex); [|done]. by destruct (valid_scripts pindex). }
  destruct (HasRecoveredSigForHash_spec (GetHash new) (db m) Hcoh) as (Hk & Hdb1 & Hcoh1).
  destruct (HasRecoveredSigForHash (GetHash new) (db m)) as [known d1]. simpl in Hk, Hdb1, Hcoh1.
  destruct known.
  { simpl. split_and!; try done.
    - unfold GetRecoveredSigById, ReadRecoveredSig in *. by rewrite Hdb1.
    - quiet.
    - intros sh i h osh. split.
      + intros Hin. exfalso. revert Hin. apply unreported_absent. unreported.
      + intros (_ & _ & _ & Hk'). rewrite <- Hk in Hk'. done. }
  cbn [set_db db].
  destruct (HasRecoveredSigForId_spec (id new) d1 Hcoh1) as (Hid & Hdb2 & Hcoh2).
  destruct (HasRecoveredSigForId (id new) d1) as [hasId d2]. simpl in Hid, Hdb2, Hcoh2.
  assert (GetRecoveredSigById (id new) d2 = Some other) as Hother2.
  { unfold GetRecoveredSigById, ReadRecoveredSig in *. by rewrite Hdb2, Hdb1. }
  assert (hasId = true) as ->.
  { rewrite Hid. unfold Exists. apply bool_decide_eq_true_2.
    unfold GetRecoveredSigById, ReadRecoveredSig in Hother. rewrite Hdb1.
    destruct (RecSigDb.db (db m) !! rs_r (id new)); [by eexists | done]. }
  cbn [set_db db]. rewrite Hother2.
  case_bool_decide as Hsign; simpl.
  - split_and!; try done.
    + by rewrite Hdb2, Hdb1.
    + quiet.
    + intros sh i h osh. split.
      * intros [Hin|Hin]%elem_of_app.
        { exfalso. revert Hin. apply unreported_absent. unreported. }
        apply elem_of_cons in Hin as [[= -> -> -> ->]|Hin]; [by split_and!|].
        exfalso. revert Hin. apply unreported_absent. unreported.
      * intros ((-> & -> & -> & ->) & _). apply elem_of_app. right. by left.
  - split_and!; try done.
    + by rewrite Hdb2, Hdb1.
    + quiet.
    + intros sh i h osh. split.
      * intros Hin. exfalso. revert Hin. apply unreported_absent. unreported.
      * intros (_ & Hne & _). done.
Qed.

(** *** Votes *)

Lemma db_WriteVoteForId now i h (d : CRecoveredSigsDb) :
  RecSigDb.db (WriteVoteForId now i h d)
  = <[rs_vt (htobe32 (to_uint32 now)) i := VByte 1]> (<[rs_v i := VHash h]> (RecSigDb.db d)).
Proof. done. Qed.

Lemma HasRecoveredSigForId_votes i (d : CRecoveredSigsDb) :
  RecSigDb.db (HasRecoveredSigForId i d).2 = RecSigDb.db d.
Proof.
  unfold HasRecoveredSigForId. destruct (lru_get i (hasSigForIdCache d)) as [[ret|] t]; done.
Qed.

(** A call of [AsyncSignIfMember] on an id that has a vote leaves the store
    contents as they are, whatever its arguments. *)
Lemma AsyncSignIfMember_voted_store e i h qh allowReSign m :
  HasVotedOnId i (db m) = true →
  RecSigDb.db (db (AsyncSignIfMember e i h qh allowReSign m).1.2) = RecSigDb.db (db m).
Proof.
  intros Hvoted. unfold AsyncSignIfMember.
  destruct (negb (fMasternodeMode e) || IsNull (proTxHash e)); [done|].
  destruct (if IsNull qh then SelectQuorumForSigning e i else GetQuorum e qh) as [quorum|]; [|done].
  destruct (negb (IsValidMember quorum (proTxHash e))); [done|].
  rewrite Hvoted. case_bool_decide; [done|]. destruct allowReSign; [|done].
  pose proof (HasRecoveredSigForId_votes i (db m)) as Hdb.
  destruct (HasRecoveredSigForId i (db m)) as [hasSig d]. simpl in Hdb.
  by destruct hasSig.
Qed.

(** C6.  Suppose a call of [AsyncSignIfMember] for [id] and [msgHash]
    records a vote: the store had no vote for [id] before it and has one
    after it.  Then the vote recorded is [msgHash], and a second call with
    the same [id] and [msgHash] and the re-sign flag off, in whatever
    surroundings and for whatever quorum, returns [false], leaves the
    manager exactly as it is, and dispatches nothing to the share signer.
    A later call with any arguments, re-sign flag included, leaves the vote
    and the rest of the store contents untouched. *)
Theorem second_sign_request_is_noop e1 e2 id msgHash qh1 qh2 allowReSign1 m :
  HasVotedOnId id (db m) = false →
  let m1 := (AsyncSignIfMember e1 id msgHash qh1 allowReSign1 m).1.2 in
  HasVotedOnId id (db m1) = true →
  vote_of id m1 = Some msgHash
  ∧ (AsyncSignIfMember e2 id msgHash qh2 false m1).1 = (false, m1)
  ∧ Forall (λ x, ¬ dispatches_signing x) (AsyncSignIfMember e2 id msgHash qh2 false m1).2
  ∧ ∀ e3 msgHash3 qh3 allowReSign3,
      let m3 := (AsyncSignIfMember e3 id msgHash3 qh3 allowReSign3 m1).1.2 in
      RecSigDb.db (db m3) = RecSigDb.db (db m1) ∧ vote_of id m3 = Some msgHash.
Proof.
  intros Hnot m1 Hvoted.
  assert (vote_of id m1 = Some msgHash) as Hvote.
  { revert Hvoted. unfold m1, AsyncSignIfMember.
    destruct (negb (fMasternodeMode e1) || IsNull (proTxHash e1)); [simpl; congruence|].
    destruct (if IsNull qh1 then SelectQuorumForSigning e1 id else GetQuorum e1 qh1)
      as [quorum|]; [|simpl; congruence].
    destruct (negb (IsValidMember quorum (proTxHash e1))); [simpl; congruence|].
    rewrite Hnot.
    pose proof (HasRecoveredSigForId_votes id (db m)) as Hdb.
    destruct (HasRecoveredSigForId id (db m)) as [hasSig d]. simpl in Hdb.
    destruct hasSig.
    - simpl. unfold HasVotedOnId in *. rewrite Hdb. congruence.
    - intros _. unfold vote_of, GetVoteForId. cbn -[WriteVoteForId].
      rewrite db_WriteVoteForId.
      by rewrite lookup_insert_ne, lookup_insert_eq by done. }
  split; [done|].
  assert (AsyncSignIfMember e2 id msgHash qh2 false m1 = (false, m1, [])
          ∨ ∃ l, AsyncSignIfMember e2 id msgHash qh2 false m1 = (false, m1, [Log l])) as Hsecond.
  { unfold AsyncSignIfMember.
    destruct (negb (fMasternodeMode e2) || IsNull (proTxHash e2)); [by left|].
    destruct (if IsNull qh2 then SelectQuorumForSigning e2 id else GetQuorum e2 qh2)
      as [quorum|]; [|right; by eexists].
    destruct (negb (IsValidMember quorum (proTxHash e2))); [by left|].
    rewrite Hvoted. unfold vote_of in Hvote. rewrite Hvote. simpl.
    rewrite bool_decide_eq_false_2 by (by intros []). right. by eexists. }
  split_and!.
  - by destruct Hsecond as [->|[l ->]].
  - destruct Hsecond as [->|[l ->]]; repeat constructor; simpl; tauto.
  - intros e3 msgHash3 qh3 allowReSign3 m3.
    assert (RecSigDb.db (db m3) = RecSigDb.db (db m1)) as Hdb
      by (by apply AsyncSignIfMember_voted_store).
    split; [done|]. unfold vote_of, GetVoteForId in *. by rewrite Hdb.
Qed.

(** *** Batch verification rounds *)

Lemma misbehaving_if_peer_inert e nodeId message :
  Forall inert (misbehaving_if_peer e nodeId 10 message).
Proof.
  unfold misbehaving_if_peer. destruct (GetPeerRef e nodeId); repeat constructor; done.
Qed.

Ltac all_inert :=
  repeat first
    [ assumption
    | apply Forall_nil_2
    | apply misbehaving_if_peer_inert
    | apply Forall_app_2
    | apply Forall_cons_2; [by simpl|]
    | apply Forall_fmap, Forall_true; by simpl
    | match goal with |- Forall _ (if ?b then _ else _) => destruct b end ].

(** [ProcessRecoveredSig] answers the peer manager for its candidate first,
    and nothing it does afterwards looks like another candidate being
    processed or an origin being flagged for an invalid signature. *)
Lemma ProcessRecoveredSig_events e nodeId r m :
  ∃ rest, (ProcessRecoveredSig e nodeId r m).2
          = (if GetPeerRef e nodeId then [AddKnownTx nodeId (GetHash r)] else [])
            ++ ReceivedResponse nodeId (GetHash r) :: rest
    ∧ Forall inert rest.
Proof.
  unfold ProcessRecoveredSig.
  destruct (LookupBlockIndex e (msgHash r)) as [pindex|]; cbn zeta.
  2: { eexists. split; [simpl; rewrite <-app_assoc; reflexivity|]. all_inert. }
  destruct (negb (bool_decide (Z.rem (nHeight pindex) (SIGN_HEIGHT_LOOKBACK e) = 0))).
  { eexists. split; [simpl; rewrite <-app_assoc; reflexivity|]. all_inert. }
  destruct (negb (in_active_chain pindex) || negb (valid_scripts pindex)).
  { eexists. split; [simpl; rewrite <-app_assoc; reflexivity|]. all_inert. }
  destruct (HasRecoveredSigForHash (GetHash r) (db m)) as [known d1].
  destruct known.
  { eexists. split; [simpl; rewrite <-app_assoc; reflexivity|]. all_inert. }
  cbn [set_db db].
  destruct (HasRecoveredSigForId (id r) d1) as [hasId d2]. cbn [set_db db].
  destruct hasId.
  - destruct (GetRecoveredSigById (id r) d2) as [other|].
    + case_bool_decide.
      * eexists. split; [simpl; rewrite <-!app_assoc; reflexivity|]. all_inert.
      * eexists. split; [simpl; rewrite <-!app_assoc; reflexivity|]. all_inert.
    + eexists. split; [simpl; rewrite <-!app_assoc; reflexivity|]. all_inert.
  - eexists. split; [simpl; rewrite <-!app_assoc; reflexivity|]. all_inert.
Qed.

Lemma ProcessRecoveredSig_responds e nodeId r m :
  ReceivedResponse nodeId (GetHash r) ∈ (ProcessRecoveredSig e nodeId r m).2.
Proof.
  destruct (ProcessRecoveredSig_events e nodeId r m) as (rest & -> & _).
  apply elem_of_app. right. left.
Qed.




(** *** Feeding the verifier *)





(** *** Collecting a round *)









End facts.
End SigningFacts.

(** ** The DKG session manager *)
Module DKGMgrFacts.
Import LLMQ DKGMgr.
Section facts.
Implicit Types (mgr : CDKGSessionManager) (out : Contributions).

Lemma valid_indexes_cons validMembers i n :
  valid_indexes validMembers i (S n) =
    if decide (validMembers !! i = Some true)
    then i :: valid_indexes validMembers (S i) n
    else valid_indexes validMembers (S i) n.
Proof. unfold valid_indexes. cbn [seq]. by rewrite filter_cons. Qed.

Lemma elem_of_valid_indexes validMembers i n k :
  k ∈ valid_indexes validMembers i n ↔ (i ≤ k < i + n)%nat ∧ validMembers !! k = Some true.
Proof. unfold valid_indexes. rewrite list_elem_of_filter, elem_of_seq. tauto. Qed.

(** Filling the cache from the store does not change what a lookup
    yields. *)
Lemma contribution_of_cached mgr blockHash proTxHash now vv sk p :
  contributionsCache mgr !! (blockHash, proTxHash) = None →
  contribution_of mgr blockHash proTxHash = Some (vv, sk) →
  contribution_of
    (mkCDKGSessionManager (db mgr)
       (<[(blockHash, proTxHash) := mkContributionsCacheEntry now vv sk]>
          (contributionsCache mgr))) blockHash p
  = contribution_of mgr blockHash p.
Proof.
  intros Hmiss Hfound. unfold contribution_of at 1. simpl.
  destruct (decide (p = proTxHash)) as [->|Hne].
  - by rewrite lookup_insert_eq.
  - rewrite lookup_insert_ne by congruence. done.
Qed.

(** The loop from index [i] on, over the members [drop i all]. *)
Lemma contributions_from_spec blockHash now validMembers all mgr0 members i out mgr :
  members = drop i all →
  db mgr = db mgr0 →
  (∀ p, contribution_of mgr blockHash p = contribution_of mgr0 blockHash p) →
  (length all ≤ length validMembers)%nat →
  ∃ ok out' mgr',
    contributions_from blockHash now validMembers members i out mgr = Some (ok, out', mgr')
    ∧ db mgr' = db mgr0
    ∧ (ok = false ↔
       ∃ k p, (i ≤ k)%nat ∧ all !! k = Some p ∧ validMembers !! k = Some true
              ∧ contribution_of mgr0 blockHash p = None)
    ∧ (ok = true →
       ∃ found : list (BLSVerificationVector * CBLSSecretKey),
         Forall2 (λ k vs, ∃ p, all !! k = Some p
                               ∧ contribution_of mgr0 blockHash p = Some vs)
                 (valid_indexes validMembers i (length members)) found
         ∧ memberIndexesRet out'
           = memberIndexesRet out
             ++ (to_uint16 <$> valid_indexes validMembers i (length members))
         ∧ vvecsRet out' = vvecsRet out ++ found.*1
         ∧ skContributionsRet out' = skContributionsRet out ++ found.*2).
Proof.
  intros Hmembers Hdb Hsame Hlen. revert i out mgr Hmembers Hdb Hsame.
  induction members as [|proTxHash rest IH]; intros i out mgr Hmembers Hdb Hsame.
  - cbn [contributions_from]. do 3 eexists. split; [done|]. split; [done|]. split.
    + split; [done|]. intros (k & p & Hk & Hp & _).
      apply lookup_lt_Some in Hp.
      assert (length (drop i all) = 0%nat) as Hd by (by rewrite <-Hmembers).
      rewrite length_drop in Hd. lia.
    + intros _. exists []. simpl. rewrite !app_nil_r. by split_and!.
  - assert (all !! i = Some proTxHash) as Hi.
    { rewrite <-(Nat.add_0_r i), <-lookup_drop, <-Hmembers. done. }
    assert (rest = drop (S i) all) as Hrest.
    { rewrite <-Nat.add_1_r, <-drop_drop, <-Hmembers. done. }
    assert (is_Some (validMembers !! i)) as [valid Hvalid].
    { apply lookup_lt_is_Some. apply lookup_lt_Some in Hi. lia. }
    cbn [contributions_from]. rewrite Hvalid. cbn [mbind option_bind].
    cbn [length]. rewrite valid_indexes_cons, Hvalid.
    destruct valid.
    + rewrite decide_True by done.
      assert (∀ entry mgr1 vs,
                contribution_of mgr0 blockHash proTxHash = Some vs →
                vs = (vvec entry, skContribution entry) →
                db mgr1 = db mgr0 →
                (∀ p, contribution_of mgr1 blockHash p = contribution_of mgr0 blockHash p) →
                ∃ ok out' mgr',
                  contributions_from blockHash now validMembers rest (S i)
                    (mkContributions (memberIndexesRet out ++ [to_uint16 i])
                       (vvecsRet out ++ [vvec entry])
                       (skContributionsRet out ++ [skContribution entry])) mgr1
                  = Some (ok, out', mgr')
                  ∧ db mgr' = db mgr0
                  ∧ (ok = false ↔
                     ∃ k p, (i ≤ k)%nat ∧ all !! k = Some p ∧ validMembers !! k = Some true
                            ∧ contribution_of mgr0 blockHash p = None)
                  ∧ (ok = true →
                     ∃ found : list (BLSVerificationVector * CBLSSecretKey),
                       Forall2 (λ k vs, ∃ p, all !! k = Some p
                                  ∧ contribution_of mgr0 blockHash p = Some vs)
                               (i :: valid_indexes validMembers (S i) (length rest)) found
                       ∧ memberIndexesRet out'
                         = memberIndexesRet out
                           ++ (to_uint16 <$> i :: valid_indexes validMembers (S i) (length rest))
                       ∧ vvecsRet out' = vvecsRet out ++ found.*1
                       ∧ skContributionsRet out' = skContributionsRet out ++ found.*2)) as Hstep.
      { intros entry mgr1 vs Hvs -> Hdb1 Hsame1.
        destruct (IH (S i) (mkContributions (memberIndexesRet out ++ [to_uint16 i])
                       (vvecsRet out ++ [vvec entry])
                       (skContributionsRet out ++ [skContribution entry])) mgr1 Hrest Hdb1 Hsame1)
          as (ok & out' & mgr' & -> & Hdb' & Hfail & Hsucc).
        do 3 eexists. split; [done|]. split; [done|]. split.
        - rewrite Hfail. split.
          + intros (k & p & ? & ?). exists k, p. split; [lia|done].
          + intros (k & p & Hk & Hp & Hv & Hnone).
            destruct (decide (k = i)) as [->|Hne]; [congruence|].
            exists k, p. split; [lia|done].
        - intros Hok. destruct (Hsucc Hok) as (found & Hall & Hidx & Hvv & Hsk).
          exists ((vvec entry, skContribution entry) :: found). simpl in *.
          rewrite Hidx, Hvv, Hsk, <-!app_assoc. split_and!; try done.
          constructor; [eauto | done]. }
      destruct (contributionsCache mgr !! (blockHash, proTxHash)) as [entry|] eqn:Hcache.
      * eapply Hstep; try done.
        rewrite <-Hsame. unfold contribution_of. by rewrite Hcache.
      * destruct (db mgr !! DB_VVEC blockHash proTxHash) as [[vv|sk0]|] eqn:Hvvec.
        -- eapply (Hstep (mkContributionsCacheEntry now vv _)); try done.
           ++ rewrite <-Hsame. unfold contribution_of. by rewrite Hcache, Hvvec.
           ++ intros p. rewrite <-Hsame. apply contribution_of_cached; [done|].
              unfold contribution_of. by rewrite Hcache, Hvvec.
        -- do 3 eexists. split; [done|]. split; [done|]. split; [|done].
           split; [|done]. intros _. exists i, proTxHash. split_and!; try done.
           rewrite <-Hsame. unfold contribution_of. by rewrite Hcache, Hvvec.
        -- do 3 eexists. split; [done|]. split; [done|]. split; [|done].
           split; [|done]. intros _. exists i, proTxHash. split_and!; try done.
           rewrite <-Hsame. unfold contribution_of. by rewrite Hcache, Hvvec.
    + rewrite decide_False by congruence.
      destruct (IH (S i) out mgr Hrest Hdb Hsame) as (ok & out' & mgr' & -> & Hdb' & Hfail & Hsucc).
      do 3 eexists. split; [done|]. split; [done|]. split; [|done].
      rewrite Hfail. split.
      * intros (k & p & ? & ?). exists k, p. split; [lia|done].
      * intros (k & p & Hk & Hp & Hv & Hnone).
        destruct (decide (k = i)) as [->|Hne]; [congruence|].
        exists k, p. split; [lia|done].
Qed.

(** C9, as the code has it.  When the bitset is at least as long as the
    member list, [GetVerifiedContributions] returns, and does not write to
    the store.  It fails exactly when some member marked valid has neither
    a cached entry nor a persisted verification vector; a missing
    secret-key share alone is no failure, the invalid key is returned in
    its place.  On success the three vectors are parallel: the indexes are
    those of the members marked valid, in increasing order (as 16-bit
    numbers), and with each index come the verification vector and share
    that a lookup for that member yields. *)
Theorem GetVerifiedContributions_spec blockHash members now validMembers mgr :
  (length members ≤ length validMembers)%nat →
  ∃ ok out mgr',
    GetVerifiedContributions blockHash members now validMembers mgr = Some (ok, out, mgr')
    ∧ db mgr' = db mgr
    ∧ (ok = false ↔
       ∃ k p, members !! k = Some p ∧ validMembers !! k = Some true
              ∧ contribution_of mgr blockHash p = None)
    ∧ (ok = true →
       ∃ found : list (BLSVerificationVector * CBLSSecretKey),
         Forall2 (λ k vs, ∃ p, members !! k = Some p
                               ∧ contribution_of mgr blockHash p = Some vs)
                 (valid_indexes validMembers 0 (length members)) found
         ∧ memberIndexesRet out
           = to_uint16 <$> valid_indexes validMembers 0 (length members)
         ∧ vvecsRet out = found.*1
         ∧ skContributionsRet out = found.*2).
Proof.
  intros Hlen. unfold GetVerifiedContributions.
  destruct (contributions_from_spec blockHash now validMembers members mgr members 0
              (mkContributions [] [] []) mgr eq_refl eq_refl (λ _, eq_refl) Hlen)
    as (ok & out & mgr' & -> & Hdb & Hfail & Hsucc).
  do 3 eexists. split; [done|]. split; [done|]. split; [|done].
  rewrite Hfail. split.
  - intros (k & p & _ & ?). eauto.
  - intros (k & p & ?). exists k, p. split; [lia|done].
Qed.
End facts.
End DKGMgrFacts.

(** ** Examples: the theorems at concrete inputs, and inputs on which claims
       fail as stated *)
Module Examples.
Import DBWrapper LLMQ RecSigDb Signing DKGMgr Fixtures.
Import RecSigDbFacts SigningFacts DKGMgrFacts.

Lemma empty_db_coherent : caches_coherent empty_db.
Proof. split; intros k b Hk; simpl in Hk; by rewrite lookup_empty in Hk. Qed.

Lemma empty_db_keyed : records_keyed (RecSigDb.db empty_db).
Proof. intros i v Hv. simpl in Hv. by rewrite lookup_empty in Hv. Qed.

Lemma truncate_keeps_hash_index_witness :
  caches_coherent one_record ∧ stored (signed 7 20) one_record
  ∧ let s' := RecSigDb.TruncateRecoveredSig 7 one_record in
    (HasRecoveredSigForId 7 s').1 = false
    ∧ ReadRecoveredSig 7 s' = None
    ∧ HasRecoveredSig 7 20 s' = false
    ∧ (HasRecoveredSigForSession (BuildSignHash (signed 7 20)) s').1 = false
    ∧ (HasRecoveredSigForHash (GetHash (signed 7 20)) s').1 = true
    ∧ RecSigDb.db s' !! rs_h (GetHash (signed 7 20))
      = RecSigDb.db one_record !! rs_h (GetHash (signed 7 20))
    ∧ hasSigForHashCache s' = hasSigForHashCache one_record
    ∧ lru_entries (hasSigForIdCache s') = delete 7%N (lru_entries (hasSigForIdCache one_record))
    ∧ lru_entries (hasSigForSessionCache s')
      = delete (BuildSignHash (signed 7 20)) (lru_entries (hasSigForSessionCache one_record))
    ∧ caches_coherent s'.
Proof.
  assert (caches_coherent one_record) as Hcoh
    by apply WriteRecoveredSig_coherent, empty_db_coherent.
  assert (stored (signed 7 20) one_record) as Hst by apply WriteRecoveredSig_stored.
  split; [exact Hcoh|]. split; [exact Hst|].
  exact (truncate_keeps_hash_index (signed 7 20) one_record Hcoh Hst).
Defined.

Lemma one_record_keyed : records_keyed (RecSigDb.db one_record).
Proof. apply WriteRecoveredSig_keyed, empty_db_keyed. Qed.

Lemma one_record_coherent : caches_coherent one_record.
Proof. apply WriteRecoveredSig_coherent, empty_db_coherent. Qed.

Lemma cleanup_erases_records_older_than_maxAge_witness :
  0 ≤ 0 ≤ 2000 ∧ 2000 < 2 ^ 32
  ∧ records_keyed (RecSigDb.db one_record) ∧ caches_coherent one_record
  ∧ let s' := CleanupOldRecoveredSigs 2000 0 one_record in
    (∀ t i, RecSigDb.db s' !! rs_t t i =
            if decide (be32toh t < 2000 - 0) then None
            else RecSigDb.db one_record !! rs_t t i)
    ∧ (∀ w i, 0 ≤ w < 2000 - 0 → is_Some (RecSigDb.db one_record !! rs_t (htobe32 w) i) →
         ReadRecoveredSig i s' = None
         ∧ ∀ r, ReadRecoveredSig i one_record = Some r →
                HasRecoveredSig i (msgHash r) s' = false
                ∧ RecSigDb.db s' !! rs_h (GetHash r) = None
                ∧ RecSigDb.db s' !! rs_s (BuildSignHash r) = None)
    ∧ (∀ i, (∀ t, is_Some (RecSigDb.db one_record !! rs_t t i) → 2000 - 0 ≤ be32toh t) →
         ReadRecoveredSig i s' = ReadRecoveredSig i one_record)
    ∧ (0 = 0 → ∀ i, (∀ t, is_Some (RecSigDb.db one_record !! rs_t t i) → be32toh t = 2000) →
         ReadRecoveredSig i s' = ReadRecoveredSig i one_record)
    ∧ (0 = 2000 → s' = one_record)
    ∧ caches_coherent s'.
Proof.
  assert (0 ≤ 0 ≤ 2000) as Hage by lia.
  assert (2000 < 2 ^ 32) as Hnow by lia.
  split; [exact Hage|]. split; [exact Hnow|].
  split; [exact one_record_keyed|]. split; [exact one_record_coherent|].
  exact (cleanup_erases_records_older_than_maxAge 2000 0 one_record Hage Hnow
           one_record_keyed one_record_coherent).
Defined.

(** The record of [one_record], written at 1000, is swept at 2000 with
    [maxAge = 0] and survives a sweep at 2000 with [maxAge = 1000]. *)
Example sweep_of_one_record :
  ReadRecoveredSig 7 (CleanupOldRecoveredSigs 2000 0 one_record) = None
  ∧ RecSigDb.db (CleanupOldRecoveredSigs 2000 0 one_record) = ∅
  ∧ ReadRecoveredSig 7 (CleanupOldRecoveredSigs 2000 1000 one_record) = Some (signed 7 20).
Proof. by vm_compute. Qed.

(** C8, the claim as stated fails, in both halves.  A sweep with
    [maxAge = 0] in the second in which the record was written leaves the
    record; and a sweep with the largest [maxAge] there is, [2^63 - 1],
    erases a record written a thousand seconds before: the end time is
    computed modulo [2^32] and comes out as [now + 1]. *)
Lemma cleanup_extremes_fail :
  ¬ (∀ now (s : CRecoveredSigsDb) i,
       records_keyed (RecSigDb.db s) → caches_coherent s →
       ReadRecoveredSig i (CleanupOldRecoveredSigs now 0 s) = None)
  ∧ ¬ (∀ now (s : CRecoveredSigsDb) i,
         records_keyed (RecSigDb.db s) → caches_coherent s →
         ReadRecoveredSig i (CleanupOldRecoveredSigs now (2 ^ 63 - 1) s)
         = ReadRecoveredSig i s).
Proof.
  split; intros Hclaim.
  - specialize (Hclaim 1000 one_record 7%N one_record_keyed one_record_coherent).
    vm_compute in Hclaim. discriminate Hclaim.
  - specialize (Hclaim 2000 one_record 7%N one_record_keyed one_record_coherent).
    vm_compute in Hclaim. discriminate Hclaim.
Qed.

Lemma conflicting_recovered_sig_rejected_witness :
  caches_coherent (Signing.db with_record)
  ∧ GetRecoveredSigById (id (signed 7 25)) (Signing.db with_record) = Some (signed 7 20)
  ∧ let m' := (ProcessRecoveredSig (toy_env 2000) 3 (signed 7 25) with_record).1 in
    let ev := (ProcessRecoveredSig (toy_env 2000) 3 (signed 7 25) with_record).2 in
    RecSigDb.db (Signing.db m') = RecSigDb.db (Signing.db with_record)
    ∧ GetRecoveredSigById (id (signed 7 25)) (Signing.db m') = Some (signed 7 20)
    ∧ pendingRecoveredSigs m' = pendingRecoveredSigs with_record
    ∧ pendingReconstructedRecoveredSigs m' = pendingReconstructedRecoveredSigs with_record
    ∧ recoveredSigsListeners m' = recoveredSigsListeners with_record
    ∧ Forall (λ x, ¬ disseminates x) ev
    ∧ (∀ signHash i msgHash otherSignHash,
         Log (LogConflictingRecSig signHash i msgHash otherSignHash) ∈ ev ↔
           (signHash = BuildSignHash (signed 7 25) ∧ i = id (signed 7 25)
            ∧ msgHash = LLMQ.msgHash (signed 7 25)
            ∧ otherSignHash = BuildSignHash (signed 7 20))
           ∧ BuildSignHash (signed 7 25) ≠ BuildSignHash (signed 7 20)
           ∧ block_accepted (toy_env 2000) (signed 7 25)
           ∧ Exists (rs_h (GetHash (signed 7 25))) (RecSigDb.db (Signing.db with_record))
             = false).
Proof.
  assert (GetRecoveredSigById (id (signed 7 25)) (Signing.db with_record)
          = Some (signed 7 20)) as Hother by (vm_compute; reflexivity).
  split; [exact one_record_coherent|]. split; [exact Hother|].
  exact (conflicting_recovered_sig_rejected (toy_env 2000) 3 (signed 7 25) (signed 7 20)
           with_record one_record_coherent Hother).
Defined.

(** In the run of the witness the conflict is logged. *)
Lemma conflict_with_stored_record_logged :
  Log (LogConflictingRecSig (BuildSignHash (signed 7 25)) 7%N 25%N
         (BuildSignHash (signed 7 20)))
    ∈ (ProcessRecoveredSig (toy_env 2000) 3 (signed 7 25) with_record).2.
Proof. vm_compute. set_solver. Qed.

Lemma second_sign_request_is_noop_witness :
  HasVotedOnId 7 (Signing.db empty_manager) = false
  ∧ let m1 := (AsyncSignIfMember (toy_env 1000) 7 20 0 false empty_manager).1.2 in
    HasVotedOnId 7 (Signing.db m1) = true
    ∧ vote_of 7 m1 = Some 20%N
    ∧ (AsyncSignIfMember (toy_env 1001) 7 20 0 false m1).1 = (false, m1)
    ∧ Forall (λ x, ¬ dispatches_signing x)
             (AsyncSignIfMember (toy_env 1001) 7 20 0 false m1).2
    ∧ ∀ e3 msgHash3 qh3 allowReSign3,
        let m3 := (AsyncSignIfMember e3 7 msgHash3 qh3 allowReSign3 m1).1.2 in
        RecSigDb.db (Signing.db m3) = RecSigDb.db (Signing.db m1)
        ∧ vote_of 7 m3 = Some 20%N.
Proof.
  assert (HasVotedOnId 7 (Signing.db empty_manager) = false) as Hnot by reflexivity.
  assert (HasVotedOnId 7
            (Signing.db (AsyncSignIfMember (toy_env 1000) 7 20 0 false empty_manager).1.2)
          = true) as Hvoted by (vm_compute; reflexivity).
  split; [exact Hnot|]. intros m1. split; [exact Hvoted|].
  exact (second_sign_request_is_noop (toy_env 1000) (toy_env 1001) 7 20 0 0 false
           empty_manager Hnot Hvoted).
Defined.

Lemma GetVerifiedContributions_spec_witness :
  (length [11%N; 12%N] ≤ length [true; false])%nat
  ∧ ∃ ok out mgr',
      GetVerifiedContributions 1 [11%N; 12%N] 0 [true; false] vvec_only = Some (ok, out, mgr')
      ∧ DKGMgr.db mgr' = DKGMgr.db vvec_only
      ∧ (ok = false ↔
         ∃ k p, [11%N; 12%N] !! k = Some p ∧ [true; false] !! k = Some true
                ∧ contribution_of vvec_only 1 p = None)
      ∧ (ok = true →
         ∃ found : list (BLSVerificationVector * CBLSSecretKey),
           Forall2 (λ k vs, ∃ p, [11%N; 12%N] !! k = Some p
                                 ∧ contribution_of vvec_only 1 p = Some vs)
                   (valid_indexes [true; false] 0 (length [11%N; 12%N])) found
           ∧ memberIndexesRet out
             = to_uint16 <$> valid_indexes [true; false] 0 (length [11%N; 12%N])
           ∧ vvecsRet out = found.*1
           ∧ skContributionsRet out = found.*2).
Proof.
  assert (length [11%N; 12%N] ≤ length [true; false])%nat as Hlen by (simpl; lia).
  split; [exact Hlen|].
  exact (GetVerifiedContributions_spec 1 [11%N; 12%N] 0 [true; false] vvec_only Hlen).
Defined.

(** C9, the claim as stated fails: the secret-key share of a member marked
    valid is missing from the store and from the cache, and the call
    succeeds, returning the invalid key for that member. *)
Lemma missing_share_is_no_failure :
  ¬ (∀ blockHash members now validMembers (mgr : CDKGSessionManager) ok out mgr',
       GetVerifiedContributions blockHash members now validMembers mgr
       = Some (ok, out, mgr') →
       (∃ k p, members !! k = Some p ∧ validMembers !! k = Some true
               ∧ contributionsCache mgr !! (blockHash, p) = None
               ∧ (DKGMgr.db mgr !! DB_VVEC blockHash p = None
                  ∨ DKGMgr.db mgr !! DB_SKCONTRIB blockHash p = None)) →
       ok = false).
Proof.
  intros Hclaim.
  pose (res := GetVerifiedContributions 1 [11%N] 0 [true] vvec_only).
  assert (res = Some (true, mkContributions [0] [[3%N; 4%N]] [sk_invalid],
                      mkCDKGSessionManager (DKGMgr.db vvec_only)
                        {[ (1%N, 11%N) := mkContributionsCacheEntry 0 [3%N; 4%N] sk_invalid ]}))
    as Hres by (vm_compute; reflexivity).
  specialize (Hclaim _ _ _ _ _ _ _ _ Hres).
  assert (true = false) as Habs; [|discriminate Habs].
  apply Hclaim. exists 0%nat, 11%N. split_and!; try reflexivity. right. reflexivity.
Qed.


(** The round evaluated: both valid objects are accepted and stored, each
    once, for the origin visited first; origin 2 is banned and its
    candidate is in no index. *)
Example round_with_one_forger :
  ∃ m', ProcessPendingRecoveredSigs (toy_env 2000) round_manager
        = Some (false, m',
                [Log (LogVerified 4 3);
                 AddKnownTx 3 (GetHash (signed 9 20));
                 ReceivedResponse 3 (GetHash (signed 9 20));
                 Log (LogValidRecSig (BuildSignHash (signed 9 20)) 9 20);
                 RelayRecoveredSig (GetHash (signed 9 20));
                 HandleNewRecoveredSig 0 (signed 9 20);
                 ForgetTxHash 3 (GetHash (signed 9 20));
                 AddKnownTx 3 (GetHash (signed 7 20));
                 ReceivedResponse 3 (GetHash (signed 7 20));
                 Log (LogValidRecSig (BuildSignHash (signed 7 20)) 7 20);
                 RelayRecoveredSig (GetHash (signed 7 20));
                 HandleNewRecoveredSig 0 (signed 7 20);
                 ForgetTxHash 3 (GetHash (signed 7 20));
                 Log (LogBanning 2);
                 Misbehaving 2 100 "invalid recSig from other node"])
    ∧ ReadRecoveredSig 7 (Signing.db m') = Some (signed 7 20)
    ∧ ReadRecoveredSig 9 (Signing.db m') = Some (signed 9 20)
    ∧ ReadRecoveredSig 8 (Signing.db m') = None
    ∧ (HasRecoveredSigForHash (GetHash (forged 8 20)) (Signing.db m')).1 = false.
Proof.
  eexists. split; [vm_compute; reflexivity|]. by vm_compute.
Qed.



End Examples.

(** ** The write-back cache on every state of the object *)
Module EvoDBWfFacts.
Import DBWrapper EvoDB EvoDBCopy EvoDBClient EvoDBFacts Fixtures EvoDBClientFixtures.
Section facts.
Context {K : Type} `{Countable K} {V : Type}.
Implicit Types (c : CEvoDB K V) (s : gset K).

(** *** The shape invariant and the pending-erase set *)

Lemma inv_wf c : cache_inv c → cache_wf c.
Proof. intros [? ? ? _]. by split. Qed.

Lemma wf_inv c :
  cache_wf c → (∀ k, k ∈ setEraseCache c → mapCache c !! k = None) → cache_inv c.
Proof. intros [? ? ?] ?. by split. Qed.

Lemma wf_with_erase s c : cache_wf (with_erase s c) ↔ cache_wf c.
Proof. split; intros [? ? ?]; by split. Qed.

Lemma wf_forget c : cache_wf c → cache_inv (with_erase ∅ c).
Proof.
  intros [? ? ?]. by split.
Qed.

Lemma with_erase_id c : with_erase (setEraseCache c) c = c.
Proof. by destruct c. Qed.

Lemma unlink_with_erase s key c :
  unlink key (with_erase s c) = with_erase s <$> unlink key c.
Proof.
  unfold unlink. simpl. destruct (mapCache c !! key) as [it|]; [|done].
  by destruct (list_erase it (fifoList c)).
Qed.

Lemma WriteCache_with_erase s key value c :
  WriteCache key value (with_erase s c) = with_erase (s ∖ {[key]}) <$> WriteCache key value c.
Proof.
  unfold WriteCache, upsert. rewrite unlink_with_erase.
  destruct (unlink key c) as [c1|]; [|done]. simpl.
  unfold over_limit. simpl. destruct (_ && _); [|done].
  unfold evict_front. simpl.
  by destruct (fifoList c1 ++ [(fresh c1, (key, value))]) as [|[it [oldest v]] rest].
Qed.

Lemma EraseCache_with_erase s key c :
  EraseCache key (with_erase s c) = with_erase ({[key]} ∪ s) <$> EraseCache key c.
Proof.
  unfold EraseCache.
  change (mkCEvoDB (mapCache (with_erase s c)) (fifoList (with_erase s c))
            (setEraseCache (with_erase s c)) (maxCacheSize (with_erase s c)) true
            (disk (with_erase s c)) (fresh (with_erase s c)))
    with (with_erase s (mkCEvoDB (mapCache c) (fifoList c) (setEraseCache c)
                          (maxCacheSize c) true (disk c) (fresh c))).
  rewrite unlink_with_erase. by destruct (unlink key _).
Qed.

(** *** Every member function keeps the shape invariant *)

Lemma WriteCache_wf key value c :
  cache_wf c → ∃ c', WriteCache key value c = Some c' ∧ cache_wf c'.
Proof.
  intros Hwf.
  destruct (WriteCache_inv key value _ (wf_forget c Hwf)) as (c0 & Hw & Hinv0).
  rewrite WriteCache_with_erase in Hw.
  destruct (WriteCache key value c) as [c'|]; [|done].
  injection Hw as <-. exists c'. split; [done|].
  by apply inv_wf, wf_with_erase in Hinv0.
Qed.

Lemma EraseCache_wf key c :
  cache_wf c →
  ∃ c', EraseCache key c = Some c' ∧ cache_wf c'
    ∧ mapCache c' !! key = None
    ∧ setEraseCache c' = {[key]} ∪ setEraseCache c
    ∧ bFlushOnNextRead c' = true ∧ disk c' = disk c.
Proof.
  intros Hwf.
  destruct (EraseCache_inv key _ (wf_forget c Hwf))
    as (c0 & He & Hinv0 & Hm & _ & _ & _ & Hfl & Hd & _).
  rewrite EraseCache_with_erase in He.
  destruct (EraseCache key c) as [c'|] eqn:Hc'; [|done].
  injection He as <-. exists c'. split; [done|]. simpl in *.
  split; [by apply inv_wf, wf_with_erase in Hinv0|].
  split; [rewrite Hm; apply lookup_delete_eq|].
  split; [|done].
  revert Hc'. unfold EraseCache, unlink. simpl.
  destruct (mapCache c !! key) as [it|]; [|by intros [= <-]].
  destruct (list_erase it (fifoList c)); [|done]. by intros [= <-].
Qed.

(** The batch of a flush, as the store applies it: the writes first, then
    the erases, so that a key that is both written and erased ends up
    erased. *)
Lemma flush_batch_wf c :
  cache_wf c →
  ∃ b, flush_batch c = Some b
    ∧ ∀ d k, apply_batch b d !! k =
        if decide (k ∈ setEraseCache c) then None
        else match pending c k with
             | Some v => Some v
             | None => d !! k
             end.
Proof.
  intros [Hnd Hfr Hix]. unfold flush_batch.
  destruct (mapM _ (map_to_list (mapCache c))) as [ws|] eqn:Hws.
  - simpl. eexists. split; [reflexivity|]. intros d k.
    apply mapM_Some in Hws.
    rewrite lookup_foldl_apply_op, foldl_app, erases_effect.
    destruct (writes_effect (fifoList c) k _ _ (d !! k) Hws
                (NoDup_fst_map_to_list _)) as [Hno Hyes].
    assert (foldl (op_effect k) (d !! k) ws
            = match pending c k with Some v => Some v | None => d !! k end) as ->.
    { unfold pending. destruct (mapCache c !! k) as [it|] eqn:Hk; simpl.
      - apply elem_of_map_to_list in Hk as Hin.
        destruct (Hyes it Hin) as (e & He & ->). by rewrite He.
      - apply Hno. intros [[k' it] [? Hin]]%list_elem_of_fmap. simpl in *. subst k'.
        apply elem_of_map_to_list in Hin. congruence. }
    destruct (decide (k ∈ elements (setEraseCache c))) as [Hin|Hnin];
      rewrite elem_of_elements in *; [by rewrite decide_True | by rewrite decide_False].
  - exfalso. apply mapM_None in Hws. apply Exists_exists in Hws as ([key it] & Hin & Hnone).
    apply elem_of_map_to_list in Hin. apply Hix in Hin as [v Hv].
    by rewrite (elem_of_deref _ _ _ Hnd Hv) in Hnone.
Qed.

Lemma cleared_wf (d : gmap K V) m fl fr : cache_wf (mkCEvoDB ∅ [] ∅ m fl d fr).
Proof.
  split; simpl.
  - constructor.
  - intros it Hit. by apply elem_of_nil in Hit.
  - intros k it. rewrite lookup_empty. split; [done|].
    intros [v Hv]. by apply elem_of_nil in Hv.
Qed.

Lemma wf_empty_list c : cache_wf c → mapCache c = ∅ → fifoList c = [].
Proof.
  intros [Hnd Hfr Hix] Hm. destruct (fifoList c) as [|[it [k v]] l] eqn:Hl; [done|].
  assert (mapCache c !! k = Some it) as E by (apply Hix; exists v; by left).
  by rewrite Hm, lookup_empty in E.
Qed.

Lemma wf_pending c k :
  cache_wf c →
  match mapCache c !! k with
  | Some it => ∃ e, deref (fifoList c) it = Some e ∧ pending c k = Some e.2
  | None => pending c k = None
  end.
Proof.
  intros [Hnd Hfr Hix]. unfold pending.
  destruct (mapCache c !! k) as [it|] eqn:Hk; [|done].
  apply Hix in Hk as [v Hv]. simpl. rewrite (elem_of_deref _ _ _ Hnd Hv).
  exists (k, v). by split.
Qed.

(** One flush attempt: nothing changes, or everything pending is cleared
    and the batch is in the store. *)
Lemma FlushCacheToDisk_wf ok c :
  cache_wf c →
  ∃ res c', FlushCacheToDisk ok c = Some (res, c') ∧ cache_wf c'
    ∧ bFlushOnNextRead c' = bFlushOnNextRead c
    ∧ (c' = c ∧ (ok = false ∨ (mapCache c = ∅ ∧ setEraseCache c = ∅))
       ∨ (ok = true ∧ mapCache c' = ∅ ∧ fifoList c' = [] ∧ setEraseCache c' = ∅
          ∧ ∀ k, disk c' !! k =
              if decide (k ∈ setEraseCache c) then None
              else match pending c k with
                   | Some v => Some v
                   | None => disk c !! k
                   end)).
Proof.
  intros Hwf. unfold FlushCacheToDisk.
  destruct (bool_decide (mapCache c = ∅) && bool_decide (setEraseCache c = ∅)) eqn:Hempty.
  - apply andb_prop in Hempty as [Hm%bool_decide_eq_true Hs%bool_decide_eq_true].
    exists true, c. split_and!; try done. left. split; [done|]. by right.
  - destruct (flush_batch_wf c Hwf) as (b & -> & Hb). simpl.
    destruct ok; simpl.
    + do 2 eexists. split; [reflexivity|]. split; [apply cleared_wf|]. split; [done|].
      right. simpl. split_and!; try done.
    + exists false, c. split_and!; try done. left. split; [done|]. by left.
Qed.

(** The flush a read starts with: the flag is off afterwards; either the
    pending state and the store are as they were, or the flag was on, the
    batch write succeeded, and everything pending has gone to the store. *)
Lemma flush_if_armed_wf ok c :
  cache_wf c →
  ∃ c1, flush_if_armed ok c = Some c1 ∧ cache_wf c1
    ∧ bFlushOnNextRead c1 = false
    ∧ ((mapCache c1 = mapCache c ∧ fifoList c1 = fifoList c
        ∧ setEraseCache c1 = setEraseCache c ∧ disk c1 = disk c
        ∧ (bFlushOnNextRead c = false ∨ ok = false
           ∨ (mapCache c = ∅ ∧ setEraseCache c = ∅)))
       ∨ (bFlushOnNextRead c = true ∧ ok = true
          ∧ mapCache c1 = ∅ ∧ fifoList c1 = [] ∧ setEraseCache c1 = ∅
          ∧ ∀ k, disk c1 !! k =
              if decide (k ∈ setEraseCache c) then None
              else match pending c k with
                   | Some v => Some v
                   | None => disk c !! k
                   end)).
Proof.
  intros Hwf. unfold flush_if_armed. destruct (bFlushOnNextRead c) eqn:Hfl.
  - set (c0 := mkCEvoDB _ _ _ _ false _ _).
    assert (cache_wf c0) as Hwf0 by (destruct Hwf; by split).
    destruct (FlushCacheToDisk_wf ok c0 Hwf0)
      as (res & c1 & -> & Hwf1 & Hfl1 & [[-> Hwhy]|(-> & Hm & Hl & Hs & Hd)]).
    + simpl. exists c0. split_and!; try done. left. split_and!; try done.
      destruct Hwhy as [?|?]; auto.
    + simpl. exists c1. split_and!; try done. right. by split_and!.
  - exists c. split_and!; try done. left. split_and!; auto.
Qed.

Lemma ReadCache_wf ok key c :
  cache_wf c → ∃ r c', ReadCache ok key c = Some (r, c') ∧ cache_wf c'.
Proof.
  intros Hwf. unfold ReadCache.
  destruct (flush_if_armed_wf ok c Hwf) as (c1 & -> & Hwf1 & _). simpl.
  pose proof (wf_pending c1 key Hwf1) as Hp.
  destruct (mapCache c1 !! key) as [it|]; [|eauto].
  destruct Hp as (e & -> & _). simpl. eauto.
Qed.

Lemma ExistsCache_wf ok key c :
  cache_wf c → ∃ r c', ExistsCache ok key c = Some (r, c') ∧ cache_wf c'.
Proof.
  intros Hwf. unfold ExistsCache.
  destruct (flush_if_armed_wf ok c Hwf) as (c1 & -> & Hwf1 & _). simpl. eauto.
Qed.

Lemma step_wf c o : cache_wf c → ∃ c', step c o = Some c' ∧ cache_wf c'.
Proof.
  intros Hwf. destruct o as [k v|k|ok|ok k|ok k]; simpl.
  - by apply WriteCache_wf.
  - destruct (EraseCache_wf k c Hwf) as (c' & ? & ? & _). eauto.
  - destruct (FlushCacheToDisk_wf ok c Hwf) as (? & c' & -> & ? & _). simpl. eauto.
  - destruct (ReadCache_wf ok k c Hwf) as (? & c' & -> & ?). simpl. eauto.
  - destruct (ExistsCache_wf ok k c Hwf) as (? & c' & -> & ?). simpl. eauto.
Qed.

Lemma copy_entries (l : list (iterator * (K * V))) (kis : list (K * iterator)) entries :
  mapM (λ '(key, it), e ← deref l it; Some (key, e.2)) kis = Some entries →
  entries.*1 = kis.*1
  ∧ ∀ k v, (k, v) ∈ entries ↔ ∃ it e, (k, it) ∈ kis ∧ deref l it = Some e ∧ e.2 = v.
Proof.
  revert entries. induction kis as [|[k0 it0] kis IH]; intros entries; simpl.
  - intros [= <-]. split; [done|]. intros k v. split.
    + by intros ?%elem_of_nil.
    + by intros (? & ? & ?%elem_of_nil & _).
  - destruct (deref l it0) as [e0|] eqn:Hd0; [|done]. simpl.
    destruct (mapM _ kis) as [es|]; [|done]. simpl. intros [= <-].
    destruct (IH es eq_refl) as [Hfst Hin]. split; [by rewrite !fmap_cons, Hfst|].
    intros k v. rewrite elem_of_cons, Hin. split.
    + intros [[= -> ->]|(it & e & ? & ? & ?)].
      * exists it0, e0. split_and!; [by left|done..].
      * exists it, e. split_and!; [by right|done..].
    + intros (it & e & [[= -> ->]|?]%elem_of_cons & Hd & <-).
      * left. congruence.
      * right. by exists it, e.
Qed.

(** The copy [GetMapCacheCopy] makes of a state. *)
Lemma copy_is_pending c :
  cache_wf c →
  ∃ entries,
    mapM (λ '(key, it), e ← deref (fifoList c) it; Some (key, e.2))
         (map_to_list (mapCache c)) = Some entries
    ∧ ∀ k, (list_to_map entries : gmap K V) !! k = pending c k.
Proof.
  intros Hwf.
  destruct (mapM (λ '(key, it), e ← deref (fifoList c) it; Some (key, e.2))
              (map_to_list (mapCache c))) as [entries|] eqn:Hm.
  - exists entries. split; [done|].
    destruct (copy_entries _ _ _ Hm) as [Hfst Hin].
    assert (NoDup entries.*1) as Hnd by (rewrite Hfst; apply NoDup_fst_map_to_list).
    intros k. apply option_eq. intros v.
    rewrite <-elem_of_list_to_map by done. rewrite Hin.
    pose proof (wf_pending c k Hwf) as Hp. split.
    + intros (it & e & Hk%elem_of_map_to_list & Hd & <-).
      rewrite Hk in Hp. destruct Hp as (e' & He' & ->). congruence.
    + intros Hv. destruct (mapCache c !! k) as [it|] eqn:Hk; [|congruence].
      destruct Hp as (e & He & Hpe). exists it, e. split_and!; [|done|congruence].
      by apply elem_of_map_to_list.
  - exfalso.
    assert (is_Some (mapM (λ '(key, it), e ← deref (fifoList c) it; Some (key, e.2))
                       (map_to_list (mapCache c)))) as [? Hs]; [|congruence].
    apply mapM_is_Some, Forall_forall. intros [k it] Hk%elem_of_map_to_list. simpl.
    pose proof (wf_pending c k Hwf) as Hp. rewrite Hk in Hp.
    destruct Hp as (e & -> & _). by eexists.
Qed.

Lemma write_all_wf (entries : list (K * V)) c :
  cache_wf c → ∃ c', write_all entries c = Some c' ∧ cache_wf c'.
Proof.
  revert c. induction entries as [|[k v] rest IH]; intros c Hwf; simpl; [eauto|].
  destruct (WriteCache_wf k v c Hwf) as (c1 & -> & Hwf1). simpl. by apply IH.
Qed.

Lemma RestoreCaches_wf (traverse : gmap K V → list (K * V)) mapCacheCopy eraseCacheCopy c :
  cache_wf c →
  ∃ c', RestoreCaches traverse mapCacheCopy eraseCacheCopy c = Some c' ∧ cache_wf c'.
Proof.
  intros Hwf. unfold RestoreCaches.
  destruct (write_all_wf (traverse mapCacheCopy) c Hwf) as (c1 & -> & [? ? ?]).
  simpl. eexists. split; [done|]. by split.
Qed.

Lemma GetMapCacheCopy_wf ok c :
  cache_wf c → ∃ copy c', GetMapCacheCopy ok c = Some (copy, c') ∧ cache_wf c'.
Proof.
  intros Hwf. unfold GetMapCacheCopy.
  destruct (flush_if_armed_wf ok c Hwf) as (c1 & -> & Hwf1 & _). simpl.
  destruct (copy_is_pending c1 Hwf1) as (entries & -> & _). simpl. eauto.
Qed.

Lemma client_step_wf c (o : ClientCall K V) :
  cache_wf c → ∃ c', client_step c o = Some c' ∧ cache_wf c'.
Proof.
  intros Hwf. destruct o as [o|ok|traverse mapCacheCopy eraseCacheCopy]; simpl.
  - by apply step_wf.
  - destruct (GetMapCacheCopy_wf ok c Hwf) as (? & c' & -> & ?). simpl. eauto.
  - by apply RestoreCaches_wf.
Qed.

(** Whatever calls of the public interface are made on a freshly opened
    cache, [RestoreCaches] with arbitrary arguments included, every call
    has defined behaviour and the state reached satisfies the shape
    invariant. *)
Lemma client_run_wf (ops : list (ClientCall K V)) c :
  cache_wf c → ∃ c', client_run ops c = Some c' ∧ cache_wf c'.
Proof.
  revert c. induction ops as [|o ops IH]; intros c Hwf; simpl; [eauto|].
  destruct (client_step_wf c o Hwf) as (c1 & -> & Hwf1). simpl. by apply IH.
Qed.

Lemma open_wf (d : gmap K V) m : cache_wf (open d m).
Proof. apply inv_wf, open_inv. Qed.

(** *** The claims about flushing and reading *)

(** C3.  On every state of the cache (the list and the index describing the
    same nodes, as they do after any calls of the public interface,
    [RestoreCaches] included), [FlushCacheToDisk] has defined behaviour.
    If it returns [false], the store reported a failed batch write and the
    cache, the store contents included, is exactly as before.  If it
    returns [true], the index, the FIFO list and the pending-erase set are
    empty, and the store holds, under every key, nothing if the key had a
    pending erase, else the pending write if there was one, else its old
    value: the batch is the writes followed by the erases, so where a key
    is both a pending write and a pending erase the erase prevails.
    Whenever something is pending, the result is the outcome of the batch
    write. *)
Theorem flush_all_or_nothing (ok : bool) c :
  cache_wf c →
  ∃ res c', FlushCacheToDisk ok c = Some (res, c')
    ∧ (res = false → c' = c ∧ ok = false)
    ∧ (res = true →
         mapCache c' = ∅ ∧ fifoList c' = [] ∧ setEraseCache c' = ∅
         ∧ ∀ k, disk c' !! k =
             if decide (k ∈ setEraseCache c) then None
             else match pending c k with
                  | Some v => Some v
                  | None => disk c !! k
                  end)
    ∧ (¬ (mapCache c = ∅ ∧ setEraseCache c = ∅) → res = ok)
    ∧ cache_wf c'.
Proof.
  intros Hwf. unfold FlushCacheToDisk.
  destruct (bool_decide (mapCache c = ∅) && bool_decide (setEraseCache c = ∅)) eqn:Hempty.
  - apply andb_prop in Hempty as [Hm%bool_decide_eq_true Hs%bool_decide_eq_true].
    exists true, c. split_and!; [done|done| |tauto|done].
    intros _. split_and!; [done|by apply wf_empty_list|done|].
    intros k. unfold pending. rewrite Hm, Hs, lookup_empty. simpl.
    by rewrite decide_False by apply not_elem_of_empty.
  - destruct (flush_batch_wf c Hwf) as (b & -> & Hb). simpl.
    destruct ok; simpl.
    + do 2 eexists. split; [reflexivity|]. split_and!; try done.
      * intros _. simpl. split_and!; try done.
      * apply cleared_wf.
    + exists false, c. split_and!; try done.
Qed.

(** C2, as the code has it.  Let the erase of [k] be pending.  [ReadCache k]
    has defined behaviour and leaves the flush flag off.  If the flag was
    on and the batch write succeeds, the read reports not-found, nothing
    is pending any more and the store has no value for [k].  Otherwise (the
    flag was off, an earlier read having consumed it, or the batch write
    fails) nothing is flushed: the pending state and the store are as
    they were, [k] is still pending erase, and the read returns the
    pending write for [k] if there is one and else whatever the store
    holds for [k].  The pending-erase set is not consulted. *)
Theorem read_with_pending_erase (ok : bool) k c :
  cache_wf c → k ∈ setEraseCache c →
  ∃ r c2, ReadCache ok k c = Some (r, c2)
    ∧ bFlushOnNextRead c2 = false
    ∧ (bFlushOnNextRead c = true → ok = true →
         r = None ∧ mapCache c2 = ∅ ∧ fifoList c2 = [] ∧ setEraseCache c2 = ∅
         ∧ disk c2 !! k = None)
    ∧ (bFlushOnNextRead c = false ∨ ok = false →
         mapCache c2 = mapCache c ∧ fifoList c2 = fifoList c
         ∧ setEraseCache c2 = setEraseCache c ∧ disk c2 = disk c
         ∧ r = match pending c k with
               | Some v => Some v
               | None => disk c !! k
               end).
Proof.
  intros Hwf Hk. unfold ReadCache.
  destruct (flush_if_armed_wf ok c Hwf)
    as (c1 & -> & Hwf1 & Hfl1 & [(Hm & Hl & Hs & Hd & Hwhy)|(Hfl & -> & Hm & Hl & Hs & Hd)]).
  - simpl.
    assert (pending c1 k = pending c k) as Hpk by (unfold pending; by rewrite Hm, Hl).
    pose proof (wf_pending c1 k Hwf1) as Hp. rewrite Hpk in Hp.
    assert (∃ r, (match mapCache c1 !! k with
                  | Some it => e ← deref (fifoList c1) it; Some (Some e.2, c1)
                  | None => Some (disk c1 !! k, c1)
                  end) = Some (r, c1)
                 ∧ r = match pending c k with Some v => Some v | None => disk c !! k end)
      as (r & -> & Hr).
    { destruct (mapCache c1 !! k) as [it|].
      - destruct Hp as (e & -> & ->). simpl. eauto.
      - rewrite Hp, Hd. eauto. }
    exists r, c1. split_and!; try done.
    intros Hon ->. exfalso.
    destruct Hwhy as [Hoff|[?|[_ Hse]]]; [congruence|done|].
    rewrite Hse in Hk. by apply not_elem_of_empty in Hk.
  - simpl. rewrite Hm, lookup_empty. exists (disk c1 !! k), c1.
    assert (disk c1 !! k = None) as Hgone by (rewrite Hd; by rewrite decide_True).
    split_and!; try done.
    intros [Hoff|?]; [congruence|done].
Qed.
End facts.

Lemma restored_overlap_wf : cache_wf restored_overlap.
Proof.
  unfold restored_overlap.
  destruct (client_run_wf
              [CRestoreCaches map_to_list {[2%nat := 8%nat; 3%nat := 9%nat]}
                 ({[3%nat; 2%nat]} : gset nat)]
              (open ({[1%nat := 7%nat]} : gmap nat nat) 4) (open_wf _ _)) as (c & -> & Hwf).
  exact Hwf.
Defined.

Lemma erase_unflushed_wf : cache_wf erase_unflushed.
Proof. apply inv_wf, cache_after_inv. Defined.

Lemma flush_all_or_nothing_witness :
  let c := restored_overlap in
  cache_wf c
  ∧ ∃ res c', FlushCacheToDisk true c = Some (res, c')
      ∧ (res = false → c' = c ∧ true = false)
      ∧ (res = true →
           mapCache c' = ∅ ∧ fifoList c' = [] ∧ setEraseCache c' = ∅
           ∧ ∀ k, disk c' !! k =
               if decide (k ∈ setEraseCache c) then None
               else match pending c k with
                    | Some v => Some v
                    | None => disk c !! k
                    end)
      ∧ (¬ (mapCache c = ∅ ∧ setEraseCache c = ∅) → res = true)
      ∧ cache_wf c'.
Proof.
  intros c. split; [exact restored_overlap_wf|].
  exact (flush_all_or_nothing true c restored_overlap_wf).
Defined.

Lemma read_with_pending_erase_witness :
  let c := erase_unflushed in
  cache_wf c ∧ 1%nat ∈ setEraseCache c
  ∧ ∃ r c2, ReadCache true 1%nat c = Some (r, c2)
      ∧ bFlushOnNextRead c2 = false
      ∧ (bFlushOnNextRead c = true → true = true →
           r = None ∧ mapCache c2 = ∅ ∧ fifoList c2 = [] ∧ setEraseCache c2 = ∅
           ∧ disk c2 !! 1%nat = None)
      ∧ (bFlushOnNextRead c = false ∨ true = false →
           mapCache c2 = mapCache c ∧ fifoList c2 = fifoList c
           ∧ setEraseCache c2 = setEraseCache c ∧ disk c2 = disk c
           ∧ r = match pending c 1%nat with
                 | Some v => Some v
                 | None => disk c !! 1%nat
                 end).
Proof.
  intros c.
  assert (1%nat ∈ setEraseCache c) as Hk by (vm_compute; set_solver).
  split; [exact erase_unflushed_wf|]. split; [exact Hk|].
  exact (read_with_pending_erase true 1%nat c erase_unflushed_wf Hk).
Defined.

(** What the two fixtures come to. *)
Lemma restored_overlap_flushed :
  is_Some (mapCache restored_overlap !! 2%nat)
  ∧ 2%nat ∈ setEraseCache restored_overlap
  ∧ ∃ c', FlushCacheToDisk true restored_overlap = Some (true, c')
      ∧ disk c' = {[1%nat := 7%nat]}.
Proof.
  split; [vm_compute; by eexists|]. split; [vm_compute; set_solver|].
  eexists. split; [vm_compute; reflexivity|]. reflexivity.
Qed.

Lemma erase_unflushed_read :
  bFlushOnNextRead erase_unflushed = false
  ∧ ∃ c2, ReadCache true 1%nat erase_unflushed = Some (Some 7%nat, c2).
Proof. split; [reflexivity|]. eexists. vm_compute. reflexivity. Qed.
End EvoDBWfFacts.

Module EvoDBClientFacts.
Import DBWrapper EvoDB EvoDBCopy EvoDBClient EvoDBFacts EvoDBWfFacts Fixtures
  EvoDBClientFixtures.
Section facts.
Context {K : Type} `{Countable K} {V : Type}.
Implicit Types c : CEvoDB K V.

Lemma size_mapCache c : cache_inv c → size (mapCache c) = length (fifoList c).
Proof.
  intros Hinv. rewrite <-size_dom.
  assert (dom (mapCache c) = list_to_set (fifo_keys c)) as ->.
  { apply set_eq. intros k. rewrite elem_of_dom, elem_of_list_to_set.
    symmetry. by apply fifo_keys_index. }
  rewrite size_list_to_set by by apply fifo_keys_NoDup.
  unfold fifo_keys. by rewrite !length_fmap.
Qed.

Lemma pending_iff c k v :
  cache_inv c → pending c k = Some v ↔ ∃ it, (it, (k, v)) ∈ fifoList c.
Proof.
  intros Hinv. unfold pending. split.
  - destruct (mapCache c !! k) as [it|] eqn:Hk; [|done]. simpl.
    destruct (deref (fifoList c) it) as [[k' v']|] eqn:Hd; [|done]. simpl.
    intros [= ->]. apply deref_elem_of in Hd.
    apply (inv_index c Hinv) in Hk as (v0 & Hv0).
    pose proof (node_functional _ _ _ _ (inv_nodes c Hinv) Hd Hv0) as [= -> ->].
    by exists it.
  - intros (it & Hin).
    assert (mapCache c !! k = Some it) as -> by (apply (inv_index c Hinv); by exists v).
    simpl. by rewrite (elem_of_deref _ _ _ (inv_nodes c Hinv) Hin).
Qed.

Lemma pending_None c k : cache_inv c → pending c k = None ↔ mapCache c !! k = None.
Proof.
  intros Hinv. split.
  - intros Hp. destruct (mapCache c !! k) as [it|] eqn:Hk; [|done].
    apply (inv_index c Hinv) in Hk as (v & Hv).
    assert (pending c k = Some v) by (apply pending_iff; eauto). congruence.
  - intros Hk. unfold pending. by rewrite Hk.
Qed.

(** What [WriteCache] leaves pending: the value written under the key, and
    under every other key what was pending before, less the entry it may have
    evicted. *)
Lemma WriteCache_pending key value c :
  cache_inv c →
  ∃ c', WriteCache key value c = Some c' ∧ cache_inv c'
    ∧ pending c' key = Some value
    ∧ disk c' = disk c ∧ maxCacheSize c' = maxCacheSize c
    ∧ bFlushOnNextRead c' = bFlushOnNextRead c
    ∧ (size (mapCache c') ≤ S (size (mapCache c)))%nat
    ∧ ((0 < maxCacheSize c)%nat → (size (mapCache c) ≤ maxCacheSize c)%nat →
       (size (mapCache c') ≤ maxCacheSize c)%nat)
    ∧ (∀ k v, k ≠ key → pending c' k = Some v → pending c k = Some v)
    ∧ ((maxCacheSize c = 0 ∨ size (mapCache c) < maxCacheSize c)%nat →
       ∀ k, k ≠ key → pending c' k = pending c k).
Proof.
  intros Hinv. unfold WriteCache.
  destruct (upsert_inv key value c Hinv) as (c2 & -> & Hinv2 & Hm & Hl & Hs & Hmax & Hfl & Hd).
  simpl.
  assert (size (mapCache c2) ≤ S (size (mapCache c)))%nat as Hsz.
  { rewrite Hm. destruct (mapCache c !! key) eqn:Hk.
    - rewrite map_size_insert_Some by done. lia.
    - rewrite map_size_insert_None by done. lia. }
  assert (∀ k v, k ≠ key → pending c2 k = Some v ↔ pending c k = Some v) as Hother.
  { intros k v Hne. rewrite !pending_iff by done. rewrite Hl.
    setoid_rewrite elem_of_app. setoid_rewrite list_elem_of_filter.
    setoid_rewrite list_elem_of_singleton. simpl. split.
    - intros (it & [[_ ?]|[= _ ? _]]); [eauto|done].
    - intros (it & ?). exists it. left. by split. }
  assert (pending c2 key = Some value) as Hkey.
  { apply pending_iff; [done|]. exists (fresh c). rewrite Hl. set_solver. }
  unfold over_limit. rewrite Hmax.
  destruct (bool_decide (0 < maxCacheSize c)%nat && bool_decide (maxCacheSize c < size (mapCache c2))%nat)
    eqn:Hover.
  - apply andb_prop in Hover as [Hpos%bool_decide_eq_true Hlt%bool_decide_eq_true].
    destruct (fifoList c2) as [|[it [oldest v0]] rest] eqn:Hfifo.
    { by destruct (filter _ (fifoList c)). }
    destruct (evict_front_inv c2 it oldest v0 rest Hinv2 Hfifo)
      as (c3 & -> & Hinv3 & Hm3 & Hl3 & Hs3 & Hmax3 & Hfl3 & Hd3).
    assert (mapCache c2 !! oldest = Some it) as Hold.
    { apply (inv_index c2 Hinv2). exists v0. rewrite Hfifo. by left. }
    assert (S (size (mapCache c3)) = size (mapCache c2)) as Hsz3.
    { rewrite <-(insert_delete_id (mapCache c2) oldest it Hold), Hm3.
      by rewrite map_size_insert_None by apply lookup_delete_eq. }
    assert (∀ k v, pending c3 k = Some v → pending c2 k = Some v) as Hsub.
    { intros k v. rewrite !pending_iff by done. rewrite Hl3, Hfifo.
      intros (it' & ?). exists it'. by right. }
    exists c3. split_and!; try done; try congruence; try lia.
    + apply pending_iff; [done|]. rewrite Hl3.
      destruct (filter (λ e, e.2.1 ≠ key) (fifoList c)) as [|x f'] eqn:Hf.
      * exfalso. simpl in Hl. injection Hl as -> -> -> ->.
        pose proof (size_mapCache c2 Hinv2) as Hsize. rewrite Hfifo in Hsize. simpl in Hsize.
        lia.
      * simpl in Hl. injection Hl as _ ->.
        exists (fresh c). set_solver.
    + intros k v Hne Hp. apply Hother; [done|]. by apply Hsub.
  - exists c2. split_and!; try done.
    + intros Hpos Hle. apply andb_false_iff in Hover as [Hb|Hb].
      * apply bool_decide_eq_false in Hb. lia.
      * apply bool_decide_eq_false in Hb. lia.
    + intros k v Hne. by apply Hother.
    + intros _ k Hne. apply option_eq. intros v. by apply Hother.
Qed.

(** A pending write is what [ReadCache] returns, whether or not the read
    flushes first and whatever the flush comes to. *)
Lemma ReadCache_pending ok key value c :
  cache_inv c → pending c key = Some value →
  ∃ c', ReadCache ok key c = Some (Some value, c') ∧ cache_inv c'.
Proof.
  intros Hinv Hp.
  destruct (ReadCache_inv ok key c Hinv) as (r & c' & Hr & Hinv').
  exists c'. split; [|done]. rewrite Hr. do 2 f_equal.
  revert Hr. unfold ReadCache, flush_if_armed.
  pose proof Hp as Hp'. unfold pending in Hp'.
  destruct (mapCache c !! key) as [it|] eqn:Hk; [|done]. simpl in Hp'.
  destruct (deref (fifoList c) it) as [e|] eqn:Hd; [|done]. simpl in Hp'.
  injection Hp' as Hp'.
  destruct (bFlushOnNextRead c) eqn:Hfl.
  - set (c0 := mkCEvoDB _ _ _ _ false _ _).
    assert (cache_inv c0) as Hinv0 by (destruct Hinv; by split).
    assert (pending c0 key = Some value) as Hp0 by done.
    unfold FlushCacheToDisk.
    rewrite (bool_decide_eq_false_2 (mapCache c0 = ∅)), andb_false_l.
    2: { simpl. intros He. by rewrite He, lookup_empty in Hk. }
    destruct (flush_batch_defined c0 Hinv0) as (b & -> & Hb). simpl.
    destruct ok; simpl.
    + rewrite lookup_empty, Hb, Hp0. by intros [= <- _].
    + rewrite Hk. simpl. rewrite Hd. simpl. rewrite Hp'. by intros [= <- _].
  - simpl. rewrite Hk. simpl. rewrite Hd. simpl. rewrite Hp'. by intros [= <- _].
Qed.

Lemma fifo_filter_keys (l : list (iterator * (K * V))) key :
  (filter (λ e, e.2.1 ≠ key) l).*2.*1 = filter (λ k, k ≠ key) (l.*2.*1).
Proof.
  induction l as [|[it [k v]] l IH]; [done|].
  rewrite !fmap_cons, !filter_cons. simpl.
  destruct (decide (k ≠ key)); [rewrite !fmap_cons; simpl|]; by rewrite IH.
Qed.

(** What one flush attempt can do to the pending writes: leave them, or
    clear them. *)
Lemma FlushCacheToDisk_cases ok c :
  cache_inv c →
  ∃ res c', FlushCacheToDisk ok c = Some (res, c') ∧ cache_inv c'
    ∧ maxCacheSize c' = maxCacheSize c
    ∧ bFlushOnNextRead c' = bFlushOnNextRead c
    ∧ (mapCache c' = mapCache c ∨ mapCache c' = ∅).
Proof.
  intros Hinv. destruct (FlushCacheToDisk_inv ok c Hinv) as (res & c' & Hf & Hinv').
  exists res, c'. split; [done|]. split; [done|]. revert Hf. unfold FlushCacheToDisk.
  destruct (_ && _).
  - intros [= <- <-]. by split_and!; [..|left].
  - destruct (flush_batch c) as [b|]; [|done]. simpl. destruct ok; simpl.
    + intros [= <- <-]. simpl. by split_and!; [..|right].
    + intros [= <- <-]. by split_and!; [..|left].
Qed.

Lemma flush_if_armed_spec ok c :
  cache_inv c →
  ∃ c', flush_if_armed ok c = Some c' ∧ cache_inv c'
    ∧ maxCacheSize c' = maxCacheSize c
    ∧ bFlushOnNextRead c' = false
    ∧ (mapCache c' = mapCache c ∨ mapCache c' = ∅).
Proof.
  intros Hinv. unfold flush_if_armed. destruct (bFlushOnNextRead c) eqn:Hfl.
  - set (c0 := mkCEvoDB _ _ _ _ false _ _).
    assert (cache_inv c0) as Hinv0 by (destruct Hinv; by split).
    destruct (FlushCacheToDisk_cases ok c0 Hinv0) as (res & c' & -> & ? & ? & ? & ?).
    simpl. exists c'. by split_and!.
  - exists c. by split_and!; [..|left].
Qed.

(** The bound on the pending writes, over one call. *)
Lemma step_bounded c o :
  cache_inv c → ((0 < maxCacheSize c)%nat → (size (mapCache c) ≤ maxCacheSize c)%nat) →
  ∃ c', step c o = Some c' ∧ cache_inv c' ∧ maxCacheSize c' = maxCacheSize c
    ∧ ((0 < maxCacheSize c')%nat → (size (mapCache c') ≤ maxCacheSize c')%nat).
Proof.
  intros Hinv Hb.
  assert (∀ c', maxCacheSize c' = maxCacheSize c →
                (mapCache c' = mapCache c ∨ mapCache c' = ∅) →
                (0 < maxCacheSize c')%nat → (size (mapCache c') ≤ maxCacheSize c')%nat)
    as Hkeep.
  { intros c' Hmax [->| ->] Hpos; [rewrite Hmax in *; auto|]. rewrite map_size_empty. lia. }
  destruct o as [k v|k|ok|ok k|ok k]; simpl.
  - destruct (WriteCache_pending k v c Hinv)
      as (c' & -> & Hinv' & _ & _ & Hmax & _ & _ & Hle & _).
    exists c'. split_and!; try done. rewrite Hmax. intros Hpos. apply Hle; auto.
  - destruct (EraseCache_inv k c Hinv) as (c' & -> & Hinv' & Hm & _ & _ & Hmax & _).
    exists c'. split_and!; try done. rewrite Hmax, Hm. intros Hpos.
    etrans; [|by apply Hb]. apply map_subseteq_size, delete_subseteq.
  - destruct (FlushCacheToDisk_cases ok c Hinv) as (res & c' & -> & ? & ? & ? & ?).
    simpl. exists c'. split_and!; try done. by apply Hkeep.
  - destruct (flush_if_armed_spec ok c Hinv) as (c' & Hf & Hinv' & Hmax & _ & Hm).
    unfold ReadCache. rewrite Hf. simpl.
    destruct (ReadCache_inv ok k c Hinv) as (r & c'' & Hr & _).
    unfold ReadCache in Hr. rewrite Hf in Hr. simpl in Hr.
    destruct (mapCache c' !! k); simpl in *.
    + destruct (deref _ _); [|done]. simpl. exists c'. split_and!; try done. by apply Hkeep.
    + exists c'. split_and!; try done. by apply Hkeep.
  - destruct (flush_if_armed_spec ok c Hinv) as (c' & Hf & Hinv' & Hmax & _ & Hm).
    unfold ExistsCache. rewrite Hf. simpl. exists c'. split_and!; try done. by apply Hkeep.
Qed.

(** X1.  Over any sequence of calls on a freshly opened cache with maximum
    [m], every call has defined behaviour, the list holds one node per
    pending write, and when [m > 0] there are never more than [m] pending
    writes once a call has returned. *)
Theorem pending_writes_bounded (d : gmap K V) (m : nat) (ops : list (Call K V)) :
  ∃ c, run ops (open d m) = Some c
    ∧ maxCacheSize c = m
    ∧ length (fifoList c) = size (mapCache c)
    ∧ ((0 < m)%nat → (size (mapCache c) ≤ m)%nat).
Proof.
  assert (∀ c, cache_inv c →
            ((0 < maxCacheSize c)%nat → (size (mapCache c) ≤ maxCacheSize c)%nat) →
            ∃ c', run ops c = Some c' ∧ cache_inv c' ∧ maxCacheSize c' = maxCacheSize c
              ∧ ((0 < maxCacheSize c')%nat → (size (mapCache c') ≤ maxCacheSize c')%nat))
    as Hrun.
  { induction ops as [|o ops IH]; intros c Hinv Hb; simpl.
    - exists c. by split_and!.
    - destruct (step_bounded c o Hinv Hb) as (c1 & -> & Hinv1 & Hmax1 & Hb1). simpl.
      destruct (IH c1 Hinv1 Hb1) as (c' & ? & ? & ? & ?).
      exists c'. split_and!; try done. congruence. }
  destruct (Hrun (open d m) (open_inv d m)) as (c & Hc & Hinv & Hmax & Hb).
  { simpl. rewrite map_size_empty. lia. }
  exists c. simpl in Hmax. split_and!; try done.
  - by rewrite size_mapCache.
  - intros Hpos. rewrite <-Hmax in *. auto.
Qed.

(** X2.  A value written is the value read: after [WriteCache(key, value)]
    the next [ReadCache(key)] returns [value] and [ExistsCache(key)] answers
    [true], whether or not a flush is armed and whatever the outcome of the
    batch write; the entry just written is never the one evicted. *)
Theorem WriteCache_then_ReadCache ok key value c :
  cache_inv c →
  ∃ c1 c2, WriteCache key value c = Some c1
    ∧ ReadCache ok key c1 = Some (Some value, c2)
    ∧ ExistsCache ok key c1 = Some (true, c2).
Proof.
  intros Hinv.
  destruct (WriteCache_pending key value c Hinv) as (c1 & Hw & Hinv1 & Hp & _).
  destruct (ReadCache_pending ok key value c1 Hinv1 Hp) as (c2 & Hr & _).
  exists c1, c2. split_and!; try done.
  revert Hr. unfold ReadCache, ExistsCache.
  destruct (flush_if_armed ok c1) as [c1'|]; [|done]. simpl.
  destruct (mapCache c1' !! key) as [it|] eqn:Hk; simpl.
  - destruct (deref _ _); [|done]. simpl. by intros [= _ <-].
  - intros [= Hd <-]. do 2 f_equal. apply bool_decide_eq_true_2. rewrite Hd. by eexists.
Qed.

(** X3.  [ExistsCache] answers [true] exactly when [ReadCache] finds a
    value, and both leave the same state. *)
Theorem ExistsCache_agrees_with_ReadCache ok key c :
  cache_inv c →
  ∃ r c', ReadCache ok key c = Some (r, c')
    ∧ ExistsCache ok key c = Some (bool_decide (is_Some r), c').
Proof.
  intros Hinv. destruct (ReadCache_inv ok key c Hinv) as (r & c' & Hr & _).
  exists r, c'. split; [done|]. revert Hr. unfold ReadCache, ExistsCache.
  destruct (flush_if_armed ok c) as [c1|]; [|done]. simpl.
  destruct (mapCache c1 !! key) as [it|] eqn:Hk; simpl.
  - destruct (deref _ _); [|done]. simpl. by intros [= <- <-].
  - by intros [= <- <-].
Qed.

(** X4.  The list is ordered by last write.  [WriteCache(key, value)] takes
    the key out of the list wherever it was and appends it; the entry then
    evicted, if the bound is exceeded, is the front of that list. *)
Theorem WriteCache_moves_key_to_back key value c :
  cache_inv c →
  let ks := filter (λ k, k ≠ key) (fifo_keys c) ++ [key] in
  ∃ c', WriteCache key value c = Some c'
    ∧ fifo_keys c' = if bool_decide (0 < maxCacheSize c < length ks)%nat
                     then drop 1 ks else ks.
Proof.
  intros Hinv ks. unfold WriteCache.
  destruct (upsert_inv key value c Hinv) as (c2 & -> & Hinv2 & Hm & Hl & Hs & Hmax & Hfl & Hd).
  simpl.
  assert (fifo_keys c2 = ks) as Hks.
  { unfold fifo_keys. by rewrite Hl, !fmap_app, fifo_filter_keys. }
  assert (size (mapCache c2) = length ks) as Hsz.
  { rewrite (size_mapCache c2 Hinv2), <-Hks. unfold fifo_keys. by rewrite !length_fmap. }
  unfold over_limit. rewrite Hmax, Hsz.
  destruct (bool_decide (0 < maxCacheSize c)%nat) eqn:Hpos;
    destruct (bool_decide (maxCacheSize c < length ks)%nat) eqn:Hlt; simpl.
  - apply bool_decide_eq_true in Hpos, Hlt.
    rewrite bool_decide_eq_true_2 by lia.
    destruct (fifoList c2) as [|[it [oldest v0]] rest] eqn:Hfifo.
    { by destruct (filter _ (fifoList c)). }
    destruct (evict_front_inv c2 it oldest v0 rest Hinv2 Hfifo) as (c3 & -> & _ & _ & Hl3 & _).
    exists c3. split; [done|]. rewrite <-Hks. unfold fifo_keys. by rewrite Hl3, Hfifo.
  - apply bool_decide_eq_false in Hlt. rewrite bool_decide_eq_false_2 by lia. eauto.
  - apply bool_decide_eq_false in Hpos. rewrite bool_decide_eq_false_2 by lia. eauto.
  - apply bool_decide_eq_false in Hpos. rewrite bool_decide_eq_false_2 by lia. eauto.
Qed.


Lemma write_all_spec (entries : list (K * V)) c :
  cache_inv c → NoDup entries.*1 →
  (maxCacheSize c = 0 ∨ size (mapCache c) + length entries ≤ maxCacheSize c)%nat →
  ∃ c', write_all entries c = Some c' ∧ cache_inv c'
    ∧ disk c' = disk c
    ∧ ∀ k, pending c' k = match (list_to_map entries : gmap K V) !! k with
                          | Some v => Some v
                          | None => pending c k
                          end.
Proof.
  revert c. induction entries as [|[k1 v1] rest IH]; intros c Hinv Hnd Hroom; simpl.
  - exists c. split_and!; try done.
  - apply NoDup_cons in Hnd as [Hk1 Hnd].
    destruct (WriteCache_pending k1 v1 c Hinv)
      as (c1 & -> & Hinv1 & Hp1 & Hd1 & Hmax1 & _ & Hsz1 & _ & _ & Hsame).
    simpl. destruct (IH c1 Hinv1 Hnd) as (c' & -> & Hinv' & Hd' & Hp').
    { rewrite Hmax1. simpl in Hroom. lia. }
    exists c'. split_and!; try done; [congruence|].
    intros k. rewrite Hp'. destruct (decide (k = k1)) as [->|Hne].
    + rewrite lookup_insert_eq, Hp1.
      by rewrite (not_elem_of_list_to_map_1 _ _ Hk1).
    + rewrite lookup_insert_ne by done. destruct (list_to_map rest !! k); [done|].
      apply Hsame; [|done]. simpl in Hroom. lia.
Qed.

(** X6.  Restoring a copy.  On a cache with no pending writes and room for
    the copy, [RestoreCaches(mapCacheCopy, eraseCacheCopy)] leaves exactly
    the entries of [mapCacheCopy] pending, whatever the order in which the
    copy is traversed, installs [eraseCacheCopy] as the pending-erase set,
    replacing what was there, and does not touch the store.  The
    representation invariant holds afterwards exactly when no key of
    [eraseCacheCopy] is a key of [mapCacheCopy]. *)
Theorem RestoreCaches_restores (traverse : gmap K V → list (K * V))
    (mapCacheCopy : gmap K V) (eraseCacheCopy : gset K) c :
  traverse mapCacheCopy ≡ₚ map_to_list mapCacheCopy →
  cache_inv c → mapCache c = ∅ →
  (maxCacheSize c = 0 ∨ size mapCacheCopy ≤ maxCacheSize c)%nat →
  ∃ c', RestoreCaches traverse mapCacheCopy eraseCacheCopy c = Some c'
    ∧ (∀ k, pending c' k = mapCacheCopy !! k)
    ∧ setEraseCache c' = eraseCacheCopy
    ∧ disk c' = disk c
    ∧ (cache_inv c' ↔ ∀ k, k ∈ eraseCacheCopy → mapCacheCopy !! k = None).
Proof.
  intros Hperm Hinv Hempty Hroom. unfold RestoreCaches.
  assert (NoDup (traverse mapCacheCopy).*1) as Hnd.
  { rewrite Hperm. apply NoDup_fst_map_to_list. }
  destruct (write_all_spec (traverse mapCacheCopy) c Hinv Hnd) as (c1 & -> & Hinv1 & Hd1 & Hp1).
  { rewrite Hempty, map_size_empty, Hperm, length_map_to_list. lia. }
  simpl. eexists. split; [done|].
  assert (∀ k, pending c1 k = mapCacheCopy !! k) as Hp.
  { intros k. rewrite Hp1.
    rewrite (list_to_map_proper _ _ Hnd Hperm), list_to_map_to_list.
    destruct (mapCacheCopy !! k); [done|]. unfold pending. by rewrite Hempty, lookup_empty. }
  split_and!; try done.
  split.
  - intros Hinv' k Hk. rewrite <-Hp. apply pending_None; [done|].
    by apply (inv_disjoint _ Hinv').
  - intros Hdis. destruct Hinv1 as [Hnodes Hfresh Hindex _]. split; try done. simpl.
    intros k Hk. apply Hdis in Hk. rewrite <-Hp in Hk.
    unfold pending in Hk. destruct (mapCache c1 !! k) as [it|] eqn:Hit; [|done].
    exfalso. simpl in Hk. apply Hindex in Hit as (v & Hv).
    by rewrite (elem_of_deref _ _ _ Hnodes Hv) in Hk.
Qed.

End facts.

Lemma WriteCache_then_ReadCache_witness :
  let c := cache_after {[1%nat := 7%nat]} 1 [CWrite 2%nat 8%nat; CErase 1%nat] in
  cache_inv c
  ∧ ∃ c1 c2, WriteCache 3%nat 9%nat c = Some c1
      ∧ ReadCache false 3%nat c1 = Some (Some 9%nat, c2)
      ∧ ExistsCache false 3%nat c1 = Some (true, c2).
Proof.
  intros c. split; [apply cache_after_inv|].
  exact (WriteCache_then_ReadCache false 3%nat 9%nat c (cache_after_inv _ _ _)).
Defined.

Lemma ExistsCache_agrees_with_ReadCache_witness :
  let c := cache_after {[1%nat := 7%nat]} 4 [CWrite 2%nat 8%nat; CErase 1%nat] in
  cache_inv c
  ∧ ∃ r c', ReadCache false 1%nat c = Some (r, c')
      ∧ ExistsCache false 1%nat c = Some (bool_decide (is_Some r), c').
Proof.
  intros c. split; [apply cache_after_inv|].
  exact (ExistsCache_agrees_with_ReadCache false 1%nat c (cache_after_inv _ _ _)).
Defined.

Lemma WriteCache_moves_key_to_back_witness :
  let c := cache_after ∅ 2 [CWrite 1%nat 10%nat; CWrite 2%nat 20%nat] in
  cache_inv c
  ∧ let ks := filter (λ k, k ≠ 1%nat) (fifo_keys c) ++ [1%nat] in
    ∃ c', WriteCache 1%nat 11%nat c = Some c'
      ∧ fifo_keys c' = if bool_decide (0 < maxCacheSize c < length ks)%nat
                       then drop 1 ks else ks.
Proof.
  intros c. split; [apply cache_after_inv|].
  exact (WriteCache_moves_key_to_back 1%nat 11%nat c (cache_after_inv _ _ _)).
Defined.


Lemma RestoreCaches_restores_witness :
  let c := cache_after {[1%nat := 7%nat]} 4 [] in
  let mapCacheCopy : gmap nat nat := {[2%nat := 8%nat; 3%nat := 9%nat]} in
  let eraseCacheCopy : gset nat := {[1%nat]} in
  map_to_list mapCacheCopy ≡ₚ map_to_list mapCacheCopy
  ∧ cache_inv c ∧ mapCache c = ∅
  ∧ (maxCacheSize c = 0 ∨ size mapCacheCopy ≤ maxCacheSize c)%nat
  ∧ ∃ c', RestoreCaches map_to_list mapCacheCopy eraseCacheCopy c = Some c'
      ∧ (∀ k, pending c' k = mapCacheCopy !! k)
      ∧ setEraseCache c' = eraseCacheCopy
      ∧ disk c' = disk c
      ∧ (cache_inv c' ↔ ∀ k, k ∈ eraseCacheCopy → mapCacheCopy !! k = None).
Proof.
  intros c mapCacheCopy eraseCacheCopy.
  assert (maxCacheSize c = 0 ∨ size mapCacheCopy ≤ maxCacheSize c)%nat as Hroom.
  { right. vm_compute. lia. }
  split; [reflexivity|]. split; [apply cache_after_inv|]. split; [reflexivity|].
  split; [exact Hroom|].
  exact (RestoreCaches_restores map_to_list mapCacheCopy eraseCacheCopy c
           (reflexivity _) (cache_after_inv _ _ _) eq_refl Hroom).
Defined.

End EvoDBClientFacts.

Module RecSigDbCallsFacts.
Import DBWrapper LLMQ RecSigDb RecSigDbCalls RecSigDbFacts Fixtures.
Section facts.
Context `{Crypto} `{LruCache} `{BatchSizing}.
Implicit Types (s : CRecoveredSigsDb) (r : CRecoveredSig).

Lemma lru_hit k v t : lru_entries t !! k = Some v → (lru_get k t).1 = Some v.
Proof. intros Hk. by rewrite lru_get_result. Qed.

(** X7.  What [WriteRecoveredSig] writes can be read back: the record by
    its id and by its content hash, and all four existence queries answer
    [true], whatever the store and the caches held before. *)
Theorem WriteRecoveredSig_round_trip now r s :
  let s' := WriteRecoveredSig now r s in
  GetRecoveredSigById (LLMQ.id r) s' = Some r
  ∧ GetRecoveredSigByHash (GetHash r) s' = Some r
  ∧ HasRecoveredSig (LLMQ.id r) (LLMQ.msgHash r) s' = true
  ∧ (HasRecoveredSigForId (LLMQ.id r) s').1 = true
  ∧ (HasRecoveredSigForSession (BuildSignHash r) s').1 = true
  ∧ (HasRecoveredSigForHash (GetHash r) s').1 = true.
Proof.
  intros s'.
  assert (db s' !! rs_r (LLMQ.id r) = Some (VRecSig r)) as Hr.
  { unfold s'. rewrite db_WriteRecoveredSig.
    by rewrite !lookup_insert_ne, lookup_insert_eq by done. }
  assert (db s' !! rs_h (GetHash r) = Some (VHash (LLMQ.id r))) as Hh.
  { unfold s'. rewrite db_WriteRecoveredSig.
    by rewrite !(lookup_insert_ne _ (rs_t _ _)), (lookup_insert_ne _ (rs_s _)), lookup_insert_eq
      by done. }
  assert (db s' !! rs_r2 (LLMQ.id r) (LLMQ.msgHash r) = Some (VU32 (to_uint32 now))) as Hr2.
  { unfold s'. rewrite db_WriteRecoveredSig.
    by rewrite !(lookup_insert_ne _ (rs_t _ _)), (lookup_insert_ne _ (rs_s _)),
      (lookup_insert_ne _ (rs_h _)), lookup_insert_eq by done. }
  split_and!.
  - unfold GetRecoveredSigById, ReadRecoveredSig. by rewrite Hr.
  - unfold GetRecoveredSigByHash, ReadRecoveredSig. by rewrite Hh, Hr.
  - unfold HasRecoveredSig, Exists. rewrite Hr2. apply bool_decide_eq_true_2. by eexists.
  - unfold HasRecoveredSigForId.
    destruct (lru_get (LLMQ.id r) (hasSigForIdCache s')) as [hit t] eqn:Hg.
    assert (hit = Some true) as ->; [|done].
    change hit with (hit, t).1. rewrite <-Hg. apply lru_hit. apply lru_insert_eq.
  - unfold HasRecoveredSigForSession.
    destruct (lru_get (BuildSignHash r) (hasSigForSessionCache s')) as [hit t] eqn:Hg.
    assert (hit = Some true) as ->; [|done].
    change hit with (hit, t).1. rewrite <-Hg. apply lru_hit. apply lru_insert_eq.
  - unfold HasRecoveredSigForHash.
    destruct (lru_get (GetHash r) (hasSigForHashCache s')) as [hit t] eqn:Hg.
    assert (hit = Some true) as ->; [|done].
    change hit with (hit, t).1. rewrite <-Hg. apply lru_hit. apply lru_insert_eq.
Qed.

(** *** Votes *)

(** X8.  A vote written can be read back: after [WriteVoteForId(id, msgHash)]
    the id counts as voted on and the vote read is [msgHash]; the votes of
    other ids, the recovered signatures with their indexes, and the caches
    are as before. *)
Theorem WriteVoteForId_round_trip now i h s :
  let s' := WriteVoteForId now i h s in
  HasVotedOnId i s' = true
  ∧ GetVoteForId i s' = Some h
  ∧ (∀ i', i' ≠ i → GetVoteForId i' s' = GetVoteForId i' s
                    ∧ HasVotedOnId i' s' = HasVotedOnId i' s)
  ∧ (∀ k, k ≠ rs_v i → k ≠ rs_vt (htobe32 (to_uint32 now)) i → db s' !! k = db s !! k)
  ∧ hasSigForIdCache s' = hasSigForIdCache s
  ∧ hasSigForSessionCache s' = hasSigForSessionCache s
  ∧ hasSigForHashCache s' = hasSigForHashCache s.
Proof.
  intros s'.
  assert (db s' = <[rs_vt (htobe32 (to_uint32 now)) i := VByte 1]> (<[rs_v i := VHash h]> (db s)))
    as Hdb by done.
  split_and!; try done.
  - unfold HasVotedOnId, Exists. rewrite Hdb, lookup_insert_ne, lookup_insert_eq by done.
    apply bool_decide_eq_true_2. by eexists.
  - unfold GetVoteForId. by rewrite Hdb, lookup_insert_ne, lookup_insert_eq by done.
  - intros i' Hne. unfold GetVoteForId, HasVotedOnId, Exists.
    by rewrite Hdb, !lookup_insert_ne by congruence.
  - intros k Hk1 Hk2. by rewrite Hdb, !lookup_insert_ne by done.
Qed.

Lemma rs_vt_after_start t i : key_le (rs_vt 0 0%N) (rs_vt t i).
Proof.
  unfold key_le, lex_le. simpl.
  pose proof (LLMQFacts.bswap32_nonneg t). unfold be32toh.
  change (bswap32 0) with 0. lia.
Qed.

Lemma scan_rs_vt_sound endTime cursor t i :
  (t, i) ∈ scan_rs_vt endTime cursor → rs_vt t i ∈ cursor ∧ be32toh t < endTime.
Proof.
  induction cursor as [|k cursor IH]; simpl; [by intros ?%elem_of_nil|].
  destruct k as [| | | | | |t0 i0]; try by intros ?%elem_of_nil.
  case_bool_decide as Ht; [by intros ?%elem_of_nil|].
  intros [[= -> ->]|Hin]%elem_of_cons.
  - split; [left | lia].
  - destruct (IH Hin). split; [by right | done].
Qed.

Lemma scan_rs_vt_complete endTime cursor t i :
  StronglySorted key_le cursor → (∀ k, k ∈ cursor → key_le (rs_vt 0 0%N) k) →
  rs_vt t i ∈ cursor → be32toh t < endTime → (t, i) ∈ scan_rs_vt endTime cursor.
Proof.
  intros Hsorted. induction Hsorted as [|k cursor Hsorted IH Hall]; intros Hstart Hin Ht.
  - by apply elem_of_nil in Hin.
  - rewrite Forall_forall in Hall.
    assert (∀ k', k' ∈ cursor → key_le (rs_vt 0 0%N) k') as Hstart'
      by (intros; apply Hstart; by right).
    specialize (Hstart k ltac:(left)).
    apply elem_of_cons in Hin as [<-|Hin].
    + simpl. rewrite bool_decide_eq_false_2 by lia. left.
    + specialize (Hall _ Hin).
      destruct k as [| | | | | |t0 i0]; unfold key_le, lex_le in Hstart, Hall; simpl in *;
        try lia.
      rewrite bool_decide_eq_false_2 by lia. right. by apply IH.
Qed.

Lemma elem_of_scan_rs_vt endTime (d : gmap DbKey DbVal) t i :
  (t, i) ∈ scan_rs_vt endTime (Seek (rs_vt 0 0%N) d)
  ↔ is_Some (d !! rs_vt t i) ∧ be32toh t < endTime.
Proof.
  split.
  - intros [Hin Ht]%scan_rs_vt_sound. by apply elem_of_Seek in Hin as [? _].
  - intros [Hin Ht]. apply scan_rs_vt_complete; [apply Seek_sorted| | |done].
    + intros k Hk. by apply elem_of_Seek in Hk as [_ ?].
    + apply elem_of_Seek. split; [done | apply rs_vt_after_start].
Qed.

Lemma vote_erasures (found : list (Z * uint256)) :
  found ≫= (λ k, [BErase (V:=DbVal) (rs_vt k.1 k.2); BErase (rs_v k.2)])
  = BErase <$> (found ≫= λ k, [rs_vt k.1 k.2; rs_v k.2]).
Proof.
  induction found as [|k found IH]; [done|].
  rewrite !bind_cons, fmap_app, IH. done.
Qed.

(** What [CleanupOldVotes] does to the store, by key. *)
Lemma db_CleanupOldVotes now maxAge s :
  let endTime := to_uint32 (now - maxAge) in
  let s' := CleanupOldVotes now maxAge s in
  (∀ t i, db s' !! rs_vt t i =
          if decide (be32toh t < endTime) then None else db s !! rs_vt t i)
  ∧ (∀ i t, is_Some (db s !! rs_vt t i) → be32toh t < endTime → db s' !! rs_v i = None)
  ∧ (∀ i, (∀ t, is_Some (db s !! rs_vt t i) → endTime ≤ be32toh t) →
          db s' !! rs_v i = db s !! rs_v i)
  ∧ (∀ k, (∀ t i, k ≠ rs_vt t i) → (∀ i, k ≠ rs_v i) → db s' !! k = db s !! k)
  ∧ hasSigForIdCache s' = hasSigForIdCache s
  ∧ hasSigForSessionCache s' = hasSigForSessionCache s
  ∧ hasSigForHashCache s' = hasSigForHashCache s.
Proof.
  intros endTime s'.
  set (found := scan_rs_vt endTime (Seek (rs_vt 0 0%N) (db s))).
  set (keys := found ≫= λ k, [rs_vt k.1 k.2; rs_v k.2]).
  assert (∀ k, db s' !! k = if decide (k ∈ keys) then None else db s !! k) as Hlk.
  { intros k. unfold s', CleanupOldVotes. fold endTime. fold found.
    case_bool_decide as Hnone.
    - apply length_zero_iff_nil in Hnone. unfold keys. by rewrite Hnone.
    - rewrite db_WriteBatch, vote_erasures. apply lookup_apply_erases. }
  assert (∀ k, k ∈ keys ↔ ∃ t i, (t, i) ∈ found ∧ (k = rs_vt t i ∨ k = rs_v i)) as Hkeys.
  { intros k. unfold keys. rewrite list_elem_of_bind. split.
    - intros ([t i] & Hk & Hin). exists t, i. split; [done|]. simpl in Hk. set_solver.
    - intros (t & i & Hin & Hk). exists (t, i). split; [simpl; set_solver|done]. }
  assert (hasSigForIdCache s' = hasSigForIdCache s
          ∧ hasSigForSessionCache s' = hasSigForSessionCache s
          ∧ hasSigForHashCache s' = hasSigForHashCache s) as (? & ? & ?).
  { unfold s', CleanupOldVotes. by case_bool_decide. }
  split_and!; try done.
  - intros t i. rewrite Hlk. destruct (decide (be32toh t < endTime)) as [Ht|Ht].
    + destruct (db s !! rs_vt t i) eqn:Hd; [|by destruct (decide _)].
      rewrite decide_True; [done|]. apply Hkeys. exists t, i. split; [|by left].
      apply elem_of_scan_rs_vt. split; [by eexists|done].
    + rewrite decide_False; [done|]. intros (t' & i' & Hin & [[= <- <-]|[=]])%Hkeys.
      apply elem_of_scan_rs_vt in Hin as [_ ?]. lia.
  - intros i t Hin Ht. rewrite Hlk, decide_True; [done|]. apply Hkeys.
    exists t, i. split; [|by right]. by apply elem_of_scan_rs_vt.
  - intros i Hyoung. rewrite Hlk, decide_False; [done|].
    intros (t' & i' & Hin & [[=]|[= <-]])%Hkeys.
    apply elem_of_scan_rs_vt in Hin as [Hin Ht]. specialize (Hyoung _ Hin). lia.
  - intros k Hk1 Hk2. rewrite Hlk, decide_False; [done|].
    intros (t & i & _ & [->| ->])%Hkeys; [by apply (Hk1 t i) | by apply (Hk2 i)].
Qed.

(** X9.  The aging sweep of the votes.  For [0 ≤ maxAge ≤ now < 2^32],
    [CleanupOldVotes(maxAge)] erases exactly the time-index entries of
    votes cast more than [maxAge] seconds ago, together with the vote of
    every id such an entry names; a vote whose id has no such entry stays,
    so a vote cast in the current second survives a sweep with
    [maxAge = 0].  Recovered signatures, their indexes and the caches are
    not touched. *)
Theorem cleanup_forgets_votes_older_than_maxAge now maxAge s :
  0 ≤ maxAge ≤ now → now < 2 ^ 32 →
  let s' := CleanupOldVotes now maxAge s in
  (∀ t i, db s' !! rs_vt t i =
          if decide (be32toh t < now - maxAge) then None else db s !! rs_vt t i)
  ∧ (∀ w i, 0 ≤ w < now - maxAge → is_Some (db s !! rs_vt (htobe32 w) i) →
       HasVotedOnId i s' = false ∧ GetVoteForId i s' = None)
  ∧ (∀ i, (∀ t, is_Some (db s !! rs_vt t i) → now - maxAge ≤ be32toh t) →
       GetVoteForId i s' = GetVoteForId i s ∧ HasVotedOnId i s' = HasVotedOnId i s)
  ∧ (∀ k, (∀ t i, k ≠ rs_vt t i) → (∀ i, k ≠ rs_v i) → db s' !! k = db s !! k)
  ∧ hasSigForIdCache s' = hasSigForIdCache s
  ∧ hasSigForSessionCache s' = hasSigForSessionCache s
  ∧ hasSigForHashCache s' = hasSigForHashCache s.
Proof.
  intros Hage Hnow s'.
  assert (to_uint32 (now - maxAge) = now - maxAge) as Hend.
  { unfold to_uint32. apply Z.mod_small. lia. }
  destruct (db_CleanupOldVotes now maxAge s) as (Hvt & Hold & Hyoung & Hrest & Hc1 & Hc2 & Hc3).
  rewrite Hend in Hvt, Hold, Hyoung. fold s' in Hvt, Hold, Hyoung, Hrest, Hc1, Hc2, Hc3.
  split_and!; try done.
  - intros w i Hw Hin.
    assert (db s' !! rs_v i = None) as Hv.
    { apply (Hold i (htobe32 w)); [done|]. rewrite LLMQFacts.be32toh_htobe32 by lia. lia. }
    unfold HasVotedOnId, GetVoteForId, Exists. rewrite Hv. split; [|done].
    apply bool_decide_eq_false_2. by intros [? ?].
  - intros i Hi. unfold HasVotedOnId, GetVoteForId, Exists. by rewrite (Hyoung i Hi).
Qed.

(** *** The existence caches over sequences of calls *)

Lemma coherent_same_indexes s s' :
  caches_coherent s →
  hasSigForIdCache s' = hasSigForIdCache s →
  hasSigForSessionCache s' = hasSigForSessionCache s →
  hasSigForHashCache s' = hasSigForHashCache s →
  (∀ i, db s' !! rs_r i = db s !! rs_r i) →
  (∀ h, db s' !! rs_s h = db s !! rs_s h) →
  (∀ h, db s' !! rs_h h = db s !! rs_h h) →
  caches_coherent s'.
Proof.
  intros [Hi Hs Hh] Ei Es Eh Hr Hss Hhh. split; [rewrite Ei|rewrite Es|rewrite Eh].
  - by eapply cache_agrees_same.
  - by eapply cache_agrees_same.
  - by eapply cache_agrees_same.
Qed.

Lemma TruncateRecoveredSig_inv i s :
  caches_coherent s → records_keyed (db s) →
  caches_coherent (TruncateRecoveredSig i s) ∧ records_keyed (db (TruncateRecoveredSig i s)).
Proof.
  intros Hcoh Hkeyed. unfold TruncateRecoveredSig.
  destruct (RemoveRecoveredSig_step [] i false s) as (s1 & -> & Hdb & Hag).
  specialize (Hag (db s) Hcoh). rewrite app_nil_l. split.
  - unfold caches_coherent. rewrite db_WriteBatch, Hdb. destruct Hag. by split.
  - intros i' v. rewrite db_WriteBatch, Hdb, lookup_apply_erases.
    destruct (decide _); [done|]. apply Hkeyed.
Qed.

Lemma CleanupOldRecoveredSigs_inv now maxAge s :
  caches_coherent s → records_keyed (db s) →
  caches_coherent (CleanupOldRecoveredSigs now maxAge s)
  ∧ records_keyed (db (CleanupOldRecoveredSigs now maxAge s)).
Proof.
  intros Hcoh Hkeyed.
  destruct (db_CleanupOldRecoveredSigs now maxAge s Hkeyed Hcoh) as [Hlk Hcoh'].
  split; [done|]. intros i v. rewrite Hlk.
  repeat (destruct (decide _); [done|]). apply Hkeyed.
Qed.

(** [WriteVoteForId] writes two keys and nothing else. *)
Lemma WriteVoteForId_rest now i h s :
  let s' := WriteVoteForId now i h s in
  (∀ k, k ≠ rs_v i → k ≠ rs_vt (htobe32 (to_uint32 now)) i → db s' !! k = db s !! k)
  ∧ hasSigForIdCache s' = hasSigForIdCache s
  ∧ hasSigForSessionCache s' = hasSigForSessionCache s
  ∧ hasSigForHashCache s' = hasSigForHashCache s.
Proof.
  intros s'.
  assert (db s' = <[rs_vt (htobe32 (to_uint32 now)) i := VByte 1]> (<[rs_v i := VHash h]> (db s)))
    as Hdb by done.
  split_and!; try done.
  intros k Hk1 Hk2. by rewrite Hdb, !lookup_insert_ne by done.
Qed.

Lemma db_step_inv s o :
  caches_coherent s → records_keyed (db s) →
  caches_coherent (db_step s o) ∧ records_keyed (db (db_step s o)).
Proof.
  intros Hcoh Hkeyed. destruct o as [now r|i|now maxAge|now i h|now maxAge|i|h|h]; simpl.
  - split; [by apply WriteRecoveredSig_coherent | by apply WriteRecoveredSig_keyed].
  - by apply TruncateRecoveredSig_inv.
  - by apply CleanupOldRecoveredSigs_inv.
  - destruct (WriteVoteForId_rest now i h s) as (Hrest & ? & ? & ?).
    split.
    + apply (coherent_same_indexes s); try done; intros; by apply Hrest.
    + intros i' v. rewrite Hrest by done. apply Hkeyed.
  - destruct (db_CleanupOldVotes now maxAge s) as (_ & _ & _ & Hrest & ? & ? & ?).
    split.
    + apply (coherent_same_indexes s); try done; intros; by apply Hrest.
    + intros i' v. rewrite Hrest by done. apply Hkeyed.
  - destruct (HasRecoveredSigForId_spec i s Hcoh) as (_ & Hdb & ?). by rewrite Hdb.
  - destruct (HasRecoveredSigForSession_spec h s Hcoh) as (_ & Hdb & ?). by rewrite Hdb.
  - destruct (HasRecoveredSigForHash_spec h s Hcoh) as (_ & Hdb & ?). by rewrite Hdb.
Qed.

(** X10.  The existence caches never give a stale answer.  From a store
    whose caches agree with it and whose records are filed under their own
    ids, after any sequence of writes, truncations, sweeps, votes and
    queries, with any readings of the clock and any cache replacement
    policy, [HasRecoveredSigForId], [HasRecoveredSigForSession] and
    [HasRecoveredSigForHash] answer exactly what the store holds, and a
    query changes nothing in the store. *)
Theorem existence_queries_never_stale (ops : list DbCall) s0 :
  caches_coherent s0 → records_keyed (db s0) →
  let s := db_run ops s0 in
  caches_coherent s ∧ records_keyed (db s)
  ∧ (∀ i, (HasRecoveredSigForId i s).1 = Exists (rs_r i) (db s)
          ∧ db (HasRecoveredSigForId i s).2 = db s)
  ∧ (∀ h, (HasRecoveredSigForSession h s).1 = Exists (rs_s h) (db s)
          ∧ db (HasRecoveredSigForSession h s).2 = db s)
  ∧ (∀ h, (HasRecoveredSigForHash h s).1 = Exists (rs_h h) (db s)
          ∧ db (HasRecoveredSigForHash h s).2 = db s).
Proof.
  intros Hcoh Hkeyed s.
  assert (caches_coherent s ∧ records_keyed (db s)) as [Hcoh' Hkeyed'].
  { unfold s, db_run. clear s. revert s0 Hcoh Hkeyed.
    induction ops as [|o ops IH]; intros s0 Hcoh Hkeyed; [done|].
    simpl. destruct (db_step_inv s0 o Hcoh Hkeyed). by apply IH. }
  split_and!; try done.
  - intros i. by destruct (HasRecoveredSigForId_spec i s Hcoh') as (? & ? & _).
  - intros h. by destruct (HasRecoveredSigForSession_spec h s Hcoh') as (? & ? & _).
  - intros h. by destruct (HasRecoveredSigForHash_spec h s Hcoh') as (? & ? & _).
Qed.

(** *** Complete removal *)

(** X11.  [RemoveRecoveredSig(id)] undoes [WriteRecoveredSig]: removing a
    record right after it was written erases exactly the five keys the
    write filed it under (the time-index entry included) and leaves every
    other key of the store alone; all three existence queries answer
    [false] for it afterwards. *)
Theorem RemoveRecoveredSig_undoes_WriteRecoveredSig now r s :
  let s' := RemoveRecoveredSig_all (LLMQ.id r) (WriteRecoveredSig now r s) in
  (∀ k, db s' !! k = if decide (k ∈ record_keys now r) then None else db s !! k)
  ∧ GetRecoveredSigById (LLMQ.id r) s' = None
  ∧ GetRecoveredSigByHash (GetHash r) s' = None
  ∧ (HasRecoveredSigForId (LLMQ.id r) s').1 = false
  ∧ (HasRecoveredSigForSession (BuildSignHash r) s').1 = false
  ∧ (HasRecoveredSigForHash (GetHash r) s').1 = false.
Proof.
  intros s'. remember (WriteRecoveredSig now r s) as s1 eqn:Hs1.
  assert (db s1 !! rs_r (LLMQ.id r) = Some (VRecSig r)) as Hr.
  { rewrite Hs1, db_WriteRecoveredSig.
    by rewrite !lookup_insert_ne, lookup_insert_eq by done. }
  assert (db s1 !! rs_r2 (LLMQ.id r) (LLMQ.msgHash r) = Some (VU32 (to_uint32 now))) as Hr2.
  { rewrite Hs1, db_WriteRecoveredSig.
    by rewrite !(lookup_insert_ne _ (rs_t _ _)), (lookup_insert_ne _ (rs_s _)),
      (lookup_insert_ne _ (rs_h _)), lookup_insert_eq by done. }
  assert (db s' = apply_batch (BErase <$> [rs_r (LLMQ.id r); rs_r2 (LLMQ.id r) (LLMQ.msgHash r);
                     rs_h (GetHash r); rs_s (BuildSignHash r);
                     rs_t (htobe32 (to_uint32 now)) (LLMQ.id r)]) (db s1)
          ∧ lru_entries (hasSigForIdCache s') !! LLMQ.id r = None
          ∧ lru_entries (hasSigForSessionCache s') !! BuildSignHash r = None
          ∧ lru_entries (hasSigForHashCache s') !! GetHash r = None) as (Hdb & Hci & Hcs & Hch).
  { unfold s', RemoveRecoveredSig_all, RemoveRecoveredSig, ReadRecoveredSig.
    rewrite Hr. simpl. rewrite Hr2. simpl.
    rewrite !lru_erase_entries, !lookup_delete_eq. done. }
  assert (∀ k, db s' !! k = if decide (k ∈ record_keys now r) then None else db s !! k) as Hlk.
  { intros k. rewrite Hdb, lookup_apply_erases. fold (record_keys now r).
    destruct (decide (k ∈ record_keys now r)) as [Hin|Hnin]; [done|].
    rewrite Hs1, db_WriteRecoveredSig.
    unfold record_keys in Hnin. rewrite !lookup_insert_ne; [done|..]; set_solver. }
  assert (∀ tag k t, lru_entries t !! k = None →
            (let '(hit, t') := lru_get k t in
             match hit with
             | Some ret => ret
             | None => Exists (tag k) (db s')
             end) = Exists (tag k) (db s')) as Hmiss.
  { intros tag k t Hk. destruct (lru_get k t) as [hit t'] eqn:Hg.
    assert (hit = None) as ->; [|done].
    change hit with (hit, t').1. by rewrite <-Hg, lru_get_result. }
  assert (∀ k, k ∈ record_keys now r → Exists k (db s') = false) as Hgone.
  { intros k Hk. unfold Exists. rewrite Hlk, decide_True by done.
    apply bool_decide_eq_false_2. by intros [? ?]. }
  split_and!; try done.
  - unfold GetRecoveredSigById, ReadRecoveredSig. rewrite Hlk, decide_True; [done|].
    unfold record_keys. set_solver.
  - unfold GetRecoveredSigByHash. rewrite Hlk, decide_True; [done|].
    unfold record_keys. set_solver.
  - unfold HasRecoveredSigForId.
    pose proof (Hmiss rs_r _ _ Hci) as Hm.
    destruct (lru_get (LLMQ.id r) (hasSigForIdCache s')) as [[ret|] t']; simpl in *;
      [rewrite Hm|]; apply Hgone; unfold record_keys; set_solver.
  - unfold HasRecoveredSigForSession.
    pose proof (Hmiss rs_s _ _ Hcs) as Hm.
    destruct (lru_get (BuildSignHash r) (hasSigForSessionCache s')) as [[ret|] t']; simpl in *;
      [rewrite Hm|]; apply Hgone; unfold record_keys; set_solver.
  - unfold HasRecoveredSigForHash.
    pose proof (Hmiss rs_h _ _ Hch) as Hm.
    destruct (lru_get (GetHash r) (hasSigForHashCache s')) as [[ret|] t']; simpl in *;
      [rewrite Hm|]; apply Hgone; unfold record_keys; set_solver.
Qed.

End facts.

Lemma cleanup_forgets_votes_older_than_maxAge_witness :
  let s := WriteVoteForId 1000 7 20 empty_db in
  0 ≤ 0 ≤ 2000 ∧ 2000 < 2 ^ 32
  ∧ let s' := CleanupOldVotes 2000 0 s in
    (∀ t i, db s' !! rs_vt t i =
            if decide (be32toh t < 2000 - 0) then None else db s !! rs_vt t i)
    ∧ (∀ w i, 0 ≤ w < 2000 - 0 → is_Some (db s !! rs_vt (htobe32 w) i) →
         HasVotedOnId i s' = false ∧ GetVoteForId i s' = None)
    ∧ (∀ i, (∀ t, is_Some (db s !! rs_vt t i) → 2000 - 0 ≤ be32toh t) →
         GetVoteForId i s' = GetVoteForId i s ∧ HasVotedOnId i s' = HasVotedOnId i s)
    ∧ (∀ k, (∀ t i, k ≠ rs_vt t i) → (∀ i, k ≠ rs_v i) → db s' !! k = db s !! k)
    ∧ hasSigForIdCache s' = hasSigForIdCache s
    ∧ hasSigForSessionCache s' = hasSigForSessionCache s
    ∧ hasSigForHashCache s' = hasSigForHashCache s.
Proof.
  intros s.
  assert (0 ≤ 0 ≤ 2000) as Hage by lia.
  assert (2000 < 2 ^ 32) as Hnow by lia.
  split; [exact Hage|]. split; [exact Hnow|].
  exact (cleanup_forgets_votes_older_than_maxAge 2000 0 s Hage Hnow).
Defined.

Lemma existence_queries_never_stale_witness :
  let ops := [CallWriteRecoveredSig 1000 (signed 7 20); CallHasRecoveredSigForId 7;
              CallTruncateRecoveredSig 7; CallCleanupOldRecoveredSigs 2000 0] in
  caches_coherent empty_db ∧ records_keyed (db empty_db)
  ∧ let s := db_run ops empty_db in
    caches_coherent s ∧ records_keyed (db s)
    ∧ (∀ i, (HasRecoveredSigForId i s).1 = Exists (rs_r i) (db s)
            ∧ db (HasRecoveredSigForId i s).2 = db s)
    ∧ (∀ h, (HasRecoveredSigForSession h s).1 = Exists (rs_s h) (db s)
            ∧ db (HasRecoveredSigForSession h s).2 = db s)
    ∧ (∀ h, (HasRecoveredSigForHash h s).1 = Exists (rs_h h) (db s)
            ∧ db (HasRecoveredSigForHash h s).2 = db s).
Proof.
  intros ops. split; [exact Examples.empty_db_coherent|].
  split; [exact Examples.empty_db_keyed|].
  exact (existence_queries_never_stale ops empty_db
           Examples.empty_db_coherent Examples.empty_db_keyed).
Defined.

End RecSigDbCallsFacts.

Module SigningQueriesFacts.
Import DBWrapper LLMQ RecSigDb Signing SigningQueries RecSigDbFacts SigningFacts Fixtures
  SigningFixtures.
Section facts.
Context `{Crypto} `{LruCache} `{BatchSizing}.
Implicit Types (m : CSigningManager) (r : CRecoveredSig).

Lemma notifications_app ev1 ev2 : notifications (ev1 ++ ev2) = notifications ev1 ++ notifications ev2.
Proof. apply omap_app. Qed.

Lemma relays_app ev1 ev2 : relays (ev1 ++ ev2) = relays ev1 ++ relays ev2.
Proof. apply omap_app. Qed.

Lemma notifications_misbehaving e n s msg : notifications (misbehaving_if_peer e n s msg) = [].
Proof. unfold misbehaving_if_peer. by destruct (GetPeerRef e n). Qed.

Lemma relays_misbehaving e n s msg : relays (misbehaving_if_peer e n s msg) = [].
Proof. unfold misbehaving_if_peer. by destruct (GetPeerRef e n). Qed.

Lemma notifications_listeners r (ls : list nat) :
  notifications ((λ l, HandleNewRecoveredSig l r) <$> ls) = (λ l, (l, r)) <$> ls.
Proof. induction ls as [|l ls IH]; [done|]. rewrite !fmap_cons. simpl. by rewrite <-IH. Qed.

Lemma relays_listeners r (ls : list nat) :
  relays ((λ l, HandleNewRecoveredSig l r) <$> ls) = [].
Proof. induction ls as [|l ls IH]; [done|]. by rewrite fmap_cons. Qed.

(** The accepting run of [ProcessRecoveredSig], spelled out. *)
Lemma ProcessRecoveredSig_accepts e nodeId r m :
  caches_coherent (db m) → block_accepted e r →
  Exists (rs_h (GetHash r)) (RecSigDb.db (db m)) = false →
  Exists (rs_r (id r)) (RecSigDb.db (db m)) = false →
  ∃ d, RecSigDb.db d = RecSigDb.db (db m) ∧ caches_coherent d
    ∧ ProcessRecoveredSig e nodeId r m
      = (mkCSigningManager (WriteRecoveredSig (GetAdjustedTime e) r d)
           (pendingRecoveredSigs m)
           (delete (GetHash r) (pendingReconstructedRecoveredSigs m))
           (recoveredSigsListeners m),
         ((if GetPeerRef e nodeId then [AddKnownTx nodeId (GetHash r)] else [])
            ++ [ReceivedResponse nodeId (GetHash r)])
         ++ [Log (LogValidRecSig (BuildSignHash r) (id r) (msgHash r))]
         ++ (if fMasternodeMode e then [RelayRecoveredSig (GetHash r)] else [])
         ++ ((λ l, HandleNewRecoveredSig l r) <$> recoveredSigsListeners m)
         ++ [ForgetTxHash nodeId (GetHash r)]).
Proof.
  intros Hcoh (pindex & Hblock & Hrem & Hact & Hval) Hnew Hnoid.
  destruct (HasRecoveredSigForHash_spec (GetHash r) (db m) Hcoh) as (Hk & Hdb1 & Hcoh1).
  unfold ProcessRecoveredSig. rewrite Hblock, (bool_decide_eq_true_2 _ Hrem), Hact, Hval.
  cbn [negb orb].
  destruct (HasRecoveredSigForHash (GetHash r) (db m)) as [known d1]. simpl in Hk, Hdb1, Hcoh1.
  rewrite Hnew in Hk. subst known.
  destruct (HasRecoveredSigForId_spec (id r) d1 Hcoh1) as (Hi & Hdb2 & Hcoh2).
  cbn [db set_db].
  destruct (HasRecoveredSigForId (id r) d1) as [hasId d2]. simpl in Hi, Hdb2, Hcoh2.
  rewrite Hdb1, Hnoid in Hi. subst hasId.
  exists d2. split; [congruence|]. split; [done|].
  simpl. rewrite <-!app_assoc. simpl. done.
Qed.

Lemma set_db_id m : set_db (db m) m = m.
Proof. by destruct m. Qed.

Ltac silent :=
  rewrite ?notifications_app, ?relays_app, ?notifications_misbehaving, ?relays_misbehaving;
  repeat match goal with
         | |- context [if ?b then _ else _] => destruct b
         end; simpl; rewrite ?app_nil_r; reflexivity.

(** The two ways [ProcessRecoveredSig] can end: without writing, and then
    without announcing anything; or with the record written, the relay on a
    masternode and one call per listener, in registration order. *)
Lemma ProcessRecoveredSig_outcome e nodeId r m :
  caches_coherent (db m) →
  ∃ d ev, RecSigDb.db d = RecSigDb.db (db m) ∧ caches_coherent d
    ∧ ((ProcessRecoveredSig e nodeId r m = (set_db d m, ev)
        ∧ notifications ev = [] ∧ relays ev = [])
       ∨ (ProcessRecoveredSig e nodeId r m
          = (mkCSigningManager (WriteRecoveredSig (GetAdjustedTime e) r d)
               (pendingRecoveredSigs m)
               (delete (GetHash r) (pendingReconstructedRecoveredSigs m))
               (recoveredSigsListeners m), ev)
          ∧ notifications ev = (λ l, (l, r)) <$> recoveredSigsListeners m
          ∧ relays ev = (if fMasternodeMode e then [GetHash r] else [])
          ∧ block_accepted e r
          ∧ Exists (rs_h (GetHash r)) (RecSigDb.db (db m)) = false)).
Proof.
  intros Hcoh.
  assert (∀ ev, notifications ev = [] → relays ev = [] →
            ∃ d ev', RecSigDb.db d = RecSigDb.db (db m) ∧ caches_coherent d
              ∧ (((m, ev) = (set_db d m, ev') ∧ notifications ev' = [] ∧ relays ev' = [])
                 ∨ ((m, ev) = (mkCSigningManager (WriteRecoveredSig (GetAdjustedTime e) r d)
                       (pendingRecoveredSigs m)
                       (delete (GetHash r) (pendingReconstructedRecoveredSigs m))
                       (recoveredSigsListeners m), ev')
                    ∧ notifications ev' = (λ l, (l, r)) <$> recoveredSigsListeners m
                    ∧ relays ev' = (if fMasternodeMode e then [GetHash r] else [])
                    ∧ block_accepted e r
                    ∧ Exists (rs_h (GetHash r)) (RecSigDb.db (db m)) = false))) as Hsame.
  { intros ev Hn Hr. exists (db m), ev. split; [done|]. split; [done|]. left.
    by rewrite set_db_id. }
  unfold ProcessRecoveredSig.
  destruct (LookupBlockIndex e (msgHash r)) as [pindex|] eqn:Hblock; [|apply Hsame; silent].
  case_bool_decide as Hrem; cbn [negb]; [|apply Hsame; silent].
  destruct (in_active_chain pindex) eqn:Hact; cbn [negb orb]; [|apply Hsame; silent].
  destruct (valid_scripts pindex) eqn:Hval; cbn [negb]; [|apply Hsame; silent].
  assert (block_accepted e r) as Hacc by (by exists pindex).
  destruct (HasRecoveredSigForHash_spec (GetHash r) (db m) Hcoh) as (Hk & Hdb1 & Hcoh1).
  destruct (HasRecoveredSigForHash (GetHash r) (db m)) as [known d1]. simpl in Hk, Hdb1, Hcoh1.
  destruct known.
  { exists d1. eexists. split; [done|]. split; [done|]. left. split; [done|]. split; silent. }
  symmetry in Hk.
  destruct (HasRecoveredSigForId_spec (id r) d1 Hcoh1) as (Hi & Hdb2 & Hcoh2).
  cbn [db set_db].
  destruct (HasRecoveredSigForId (id r) d1) as [hasId d2]. simpl in Hi, Hdb2, Hcoh2.
  assert (RecSigDb.db d2 = RecSigDb.db (db m)) as Hdb by congruence.
  assert (∀ evs : list Event,
            notifications evs = [] → relays evs = [] →
            notifications (evs ++ (if fMasternodeMode e then [RelayRecoveredSig (GetHash r)] else [])
                             ++ ((λ l, HandleNewRecoveredSig l r) <$> recoveredSigsListeners m)
                             ++ [ForgetTxHash nodeId (GetHash r)])
            = (λ l, (l, r)) <$> recoveredSigsListeners m
            ∧ relays (evs ++ (if fMasternodeMode e then [RelayRecoveredSig (GetHash r)] else [])
                             ++ ((λ l, HandleNewRecoveredSig l r) <$> recoveredSigsListeners m)
                             ++ [ForgetTxHash nodeId (GetHash r)])
              = (if fMasternodeMode e then [GetHash r] else [])) as Hann.
  { intros evs Hn Hr.
    rewrite !notifications_app, !relays_app, Hn, Hr, notifications_listeners, relays_listeners.
    destruct (fMasternodeMode e); simpl; by rewrite app_nil_r. }
  destruct hasId; cbn [db set_db].
  - destruct (GetRecoveredSigById (id r) d2) as [other|].
    + case_bool_decide; cbn [negb andb].
      * exists d2. eexists. split; [done|]. split; [done|]. left.
        split; [done|]. split; silent.
      * exists d2. eexists. split; [done|]. split; [done|]. left.
        split; [done|]. split; silent.
    + cbn [negb andb]. exists d2. eexists. split; [done|]. split; [done|]. right.
      split; [done|].
      destruct (Hann ((((if GetPeerRef e nodeId then [AddKnownTx nodeId (GetHash r)] else [])
                  ++ [ReceivedResponse nodeId (GetHash r)])
                  ++ [Log (LogValidRecSig (BuildSignHash r) (id r) (msgHash r))])
                  ++ [ForgetTxHash nodeId (GetHash r)])) as [? ?]; [silent|silent|].
      by split_and!.
  - cbn [negb andb]. exists d2. eexists. split; [done|]. split; [done|]. right.
    split; [done|].
    destruct (Hann ((((if GetPeerRef e nodeId then [AddKnownTx nodeId (GetHash r)] else [])
                  ++ [ReceivedResponse nodeId (GetHash r)])
                  ++ [Log (LogValidRecSig (BuildSignHash r) (id r) (msgHash r))])
                  ++ [])) as [? ?]; [silent|silent|].
    by split_and!.
Qed.

(** *** Accepting, repeating and dropping a recovered signature *)

(** X12.  A new recovered signature is stored and announced.  If the block it
    signs is accepted, its content hash is not in the store and no record
    exists for its id, [ProcessRecoveredSig] writes it: it can be read back
    by its id, [AlreadyHave] answers [true] for its hash, it is no longer
    pending as a reconstructed signature, the queues of the peers and the
    listeners are untouched, it is relayed exactly when the node is a
    masternode, and every registered listener is called once with it, in
    registration order. *)
Theorem new_recovered_sig_is_stored_and_announced e nodeId r m :
  caches_coherent (db m) → block_accepted e r →
  Exists (rs_h (GetHash r)) (RecSigDb.db (db m)) = false →
  Exists (rs_r (id r)) (RecSigDb.db (db m)) = false →
  let m' := (ProcessRecoveredSig e nodeId r m).1 in
  let ev := (ProcessRecoveredSig e nodeId r m).2 in
  GetRecoveredSigForId (id r) m' = Some r
  ∧ (AlreadyHave (GetHash r) m').1 = true
  ∧ pendingReconstructedRecoveredSigs m' = delete (GetHash r) (pendingReconstructedRecoveredSigs m)
  ∧ pendingRecoveredSigs m' = pendingRecoveredSigs m
  ∧ recoveredSigsListeners m' = recoveredSigsListeners m
  ∧ relays ev = (if fMasternodeMode e then [GetHash r] else [])
  ∧ notifications ev = (λ l, (l, r)) <$> recoveredSigsListeners m
  ∧ caches_coherent (db m').
Proof.
  intros Hcoh Hacc Hnew Hnoid m' ev.
  destruct (ProcessRecoveredSig_accepts e nodeId r m Hcoh Hacc Hnew Hnoid)
    as (d & Hdb & Hcohd & Hrun).
  unfold m', ev. rewrite Hrun. cbn [fst snd].
  destruct (WriteRecoveredSig_stored (GetAdjustedTime e) r d) as [Hrec Hhash].
  pose proof (WriteRecoveredSig_coherent (GetAdjustedTime e) r d Hcohd) as Hcoh'.
  split_and!; try done.
  - unfold GetRecoveredSigForId, GetRecoveredSigById, ReadRecoveredSig. cbn [db].
    by rewrite Hrec.
  - unfold AlreadyHave. cbn [pendingReconstructedRecoveredSigs db].
    rewrite lookup_delete_eq.
    destruct (HasRecoveredSigForHash_spec (GetHash r) _ Hcoh') as (Hk & _).
    destruct (HasRecoveredSigForHash _ _) as [known d']. simpl in *. rewrite Hk.
    by apply bool_decide_eq_true_2.
  - rewrite !relays_app, relays_listeners. silent.
  - rewrite !notifications_app, notifications_listeners. silent.
Qed.

(** X13.  Processing the same recovered signature again is a no-op.  Once
    [ProcessRecoveredSig] has accepted a signature, processing it again,
    from any peer and in any surroundings, writes nothing to the store,
    leaves the queues alone, relays nothing and calls no listener. *)
Theorem reprocessing_recovered_sig_is_noop e nodeId r m e2 nodeId2 :
  caches_coherent (db m) → block_accepted e r →
  Exists (rs_h (GetHash r)) (RecSigDb.db (db m)) = false →
  Exists (rs_r (id r)) (RecSigDb.db (db m)) = false →
  let m1 := (ProcessRecoveredSig e nodeId r m).1 in
  let m2 := (ProcessRecoveredSig e2 nodeId2 r m1).1 in
  let ev2 := (ProcessRecoveredSig e2 nodeId2 r m1).2 in
  RecSigDb.db (db m2) = RecSigDb.db (db m1)
  ∧ pendingRecoveredSigs m2 = pendingRecoveredSigs m1
  ∧ pendingReconstructedRecoveredSigs m2 = pendingReconstructedRecoveredSigs m1
  ∧ recoveredSigsListeners m2 = recoveredSigsListeners m1
  ∧ relays ev2 = [] ∧ notifications ev2 = [].
Proof.
  intros Hcoh Hacc Hnew Hnoid m1 m2 ev2.
  destruct (ProcessRecoveredSig_accepts e nodeId r m Hcoh Hacc Hnew Hnoid)
    as (d & Hdb & Hcohd & Hrun).
  assert (caches_coherent (db m1)) as Hcoh1.
  { unfold m1. rewrite Hrun. by apply WriteRecoveredSig_coherent. }
  assert (Exists (rs_h (GetHash r)) (RecSigDb.db (db m1)) = true) as Hknown.
  { unfold m1. rewrite Hrun. cbn [fst db].
    destruct (WriteRecoveredSig_stored (GetAdjustedTime e) r d) as [_ Hh].
    by apply bool_decide_eq_true_2. }
  destruct (ProcessRecoveredSig_outcome e2 nodeId2 r m1 Hcoh1)
    as (d' & ev' & Hdb' & _ & [(Hrun2 & Hn & Hr)|(_ & _ & _ & _ & Hfresh)]); [|congruence].
  unfold m2, ev2. rewrite Hrun2. by split_and!.
Qed.

Lemma drop_report e nodeId h line message :
  let ev := ((if GetPeerRef e nodeId then [AddKnownTx nodeId h] else [])
             ++ [ReceivedResponse nodeId h])
            ++ [Log line] ++ [ForgetTxHash nodeId h]
            ++ misbehaving_if_peer e nodeId 10 message in
  relays ev = [] ∧ notifications ev = []
  ∧ ForgetTxHash nodeId h ∈ ev
  ∧ (GetPeerRef e nodeId = true → ∃ message, Misbehaving nodeId 10 message ∈ ev)
  ∧ (GetPeerRef e nodeId = false → ∀ n howmuch message, Misbehaving n howmuch message ∉ ev).
Proof.
  unfold misbehaving_if_peer. destruct (GetPeerRef e nodeId); simpl.
  - split_and!; [done|done|set_solver| |done]. intros _. exists message. set_solver.
  - split_and!; [done|done|set_solver|done|]. intros _ n howmuch msg. set_solver.
Qed.

(** X14.  A recovered signature for a block that is unknown, whose height is
    not a multiple of the signing interval, or that is not a valid block of
    the active chain, is dropped: the manager is left exactly as it was,
    nothing is relayed, no listener is called, the request is forgotten,
    and the sender is charged with misbehaviour (score 10) when the peer
    manager still has it, and not otherwise. *)
Theorem recovered_sig_of_unaccepted_block_is_dropped e nodeId r m :
  ¬ block_accepted e r →
  let ev := (ProcessRecoveredSig e nodeId r m).2 in
  (ProcessRecoveredSig e nodeId r m).1 = m
  ∧ relays ev = [] ∧ notifications ev = []
  ∧ ForgetTxHash nodeId (GetHash r) ∈ ev
  ∧ (GetPeerRef e nodeId = true → ∃ message, Misbehaving nodeId 10 message ∈ ev)
  ∧ (GetPeerRef e nodeId = false → ∀ n howmuch message, Misbehaving n howmuch message ∉ ev).
Proof.
  intros Hrej ev. unfold ev, ProcessRecoveredSig.
  destruct (LookupBlockIndex e (msgHash r)) as [pindex|] eqn:Hblock.
  - case_bool_decide as Hrem; cbn [negb].
    + destruct (in_active_chain pindex) eqn:Hact; cbn [negb orb].
      * destruct (valid_scripts pindex) eqn:Hval; cbn [negb].
        -- exfalso. apply Hrej. by exists pindex.
        -- split; [done|]. apply drop_report.
      * split; [done|]. apply drop_report.
    + split; [done|]. apply drop_report.
  - split; [done|]. apply drop_report.
Qed.

(** *** Listeners *)

(** The listeners enter a run of [ProcessRecoveredSig] only through the
    calls made to them at its end. *)
Lemma ProcessRecoveredSig_listeners e nodeId r m :
  ∃ (written : bool) d ev,
    notifications ev = []
    ∧ ∀ ls,
        ProcessRecoveredSig e nodeId r
          (mkCSigningManager (db m) (pendingRecoveredSigs m)
             (pendingReconstructedRecoveredSigs m) ls)
        = if written
          then (mkCSigningManager (WriteRecoveredSig (GetAdjustedTime e) r d)
                  (pendingRecoveredSigs m)
                  (delete (GetHash r) (pendingReconstructedRecoveredSigs m)) ls,
                ev ++ ((λ l, HandleNewRecoveredSig l r) <$> ls)
                   ++ [ForgetTxHash nodeId (GetHash r)])
          else (mkCSigningManager d (pendingRecoveredSigs m)
                  (pendingReconstructedRecoveredSigs m) ls, ev).
Proof.
  unfold ProcessRecoveredSig. cbn [db pendingRecoveredSigs pendingReconstructedRecoveredSigs
                                   recoveredSigsListeners set_db
                                   set_pendingReconstructedRecoveredSigs].
  destruct (LookupBlockIndex e (msgHash r)) as [pindex|].
  2: { exists false, (db m). eexists. split; [|intros ls; reflexivity]. silent. }
  case_bool_decide; cbn [negb].
  2: { exists false, (db m). eexists. split; [|intros ls; reflexivity]. silent. }
  destruct (in_active_chain pindex); cbn [negb orb].
  2: { exists false, (db m). eexists. split; [|intros ls; reflexivity]. silent. }
  destruct (valid_scripts pindex); cbn [negb].
  2: { exists false, (db m). eexists. split; [|intros ls; reflexivity]. silent. }
  destruct (HasRecoveredSigForHash (GetHash r) (db m)) as [known d1].
  destruct known.
  { exists false, d1. eexists. split; [|intros ls; reflexivity]. silent. }
  destruct (HasRecoveredSigForId (id r) d1) as [hasId d2].
  destruct hasId.
  - destruct (GetRecoveredSigById (id r) d2) as [other|].
    + case_bool_decide; cbn [negb andb].
      * exists false, d2. eexists. split; [|intros ls; reflexivity]. silent.
      * exists false, d2. eexists. split; [|intros ls; reflexivity]. silent.
    + cbn [negb andb]. exists true, d2. eexists. split.
      2: { intros ls. f_equal. rewrite !app_assoc. reflexivity. }
      silent.
  - cbn [negb andb]. exists true, d2. eexists. split.
    2: { intros ls. f_equal. rewrite !app_assoc. reflexivity. }
    silent.
Qed.

Lemma with_listeners m :
  m = mkCSigningManager (db m) (pendingRecoveredSigs m) (pendingReconstructedRecoveredSigs m)
        (recoveredSigsListeners m).
Proof. by destruct m. Qed.

Lemma notifications_calls r (ls : list nat) ev nodeId h :
  notifications ev = [] →
  notifications (ev ++ ((λ l, HandleNewRecoveredSig l r) <$> ls) ++ [ForgetTxHash nodeId h])
  = (λ l, (l, r)) <$> ls.
Proof.
  intros Hev. rewrite !notifications_app, Hev, notifications_listeners. simpl.
  by rewrite app_nil_r.
Qed.

(** X15.  Registering and unregistering listeners.  A listener that has been
    unregistered is not called by [ProcessRecoveredSig] any more, however
    often it had been registered, and the calls to the other listeners are
    the same, in the same order, as without the unregistration.  A listener
    that registers is called after the listeners registered before it. *)
Theorem unregistered_listener_is_no_longer_called e nodeId r l m :
  let ev := (ProcessRecoveredSig e nodeId r m).2 in
  let ev_without := (ProcessRecoveredSig e nodeId r (UnregisterRecoveredSigsListener l m)).2 in
  let ev_with := (ProcessRecoveredSig e nodeId r (RegisterRecoveredSigsListener l m)).2 in
  notifications ev_without = filter (λ p, p.1 ≠ l) (notifications ev)
  ∧ (∀ r', (l, r') ∉ notifications ev_without)
  ∧ (notifications ev_with = notifications ev ++ [(l, r)]
     ∨ (notifications ev_with = [] ∧ notifications ev = [])).
Proof.
  intros ev ev_without ev_with.
  destruct (ProcessRecoveredSig_listeners e nodeId r m) as (written & d & ev0 & Hev0 & Hrun).
  assert (∀ ls, notifications (ProcessRecoveredSig e nodeId r
                  (mkCSigningManager (db m) (pendingRecoveredSigs m)
                     (pendingReconstructedRecoveredSigs m) ls)).2
                = if written then (λ l, (l, r)) <$> ls else []) as Hn.
  { intros ls. rewrite Hrun. destruct written; cbn [snd]; [|done].
    by apply notifications_calls. }
  assert (notifications ev = if written then (λ l, (l, r)) <$> recoveredSigsListeners m else [])
    as Hev.
  { unfold ev. rewrite (with_listeners m) at 1. apply Hn. }
  assert (notifications ev_without
          = if written then (λ l, (l, r)) <$> filter (λ x, x ≠ l) (recoveredSigsListeners m)
            else []) as Hwithout by apply Hn.
  assert (notifications ev_with
          = if written then (λ l, (l, r)) <$> (recoveredSigsListeners m ++ [l]) else [])
    as Hwith by apply Hn.
  assert (∀ ls : list nat,
            (λ l, (l, r)) <$> filter (λ x, x ≠ l) ls
            = filter (λ p : nat * CRecoveredSig, p.1 ≠ l) ((λ l, (l, r)) <$> ls)) as Hfilter.
  { induction ls as [|x ls IH]; [done|].
    rewrite fmap_cons, !filter_cons. simpl.
    destruct (decide (x ≠ l)); [rewrite fmap_cons|]; by rewrite IH. }
  rewrite Hwithout, Hwith, Hev. destruct written.
  - split_and!.
    + apply Hfilter.
    + intros r'. rewrite Hfilter, list_elem_of_filter. simpl. tauto.
    + left. by rewrite fmap_app.
  - split_and!; [done| |by right]. intros r'. apply not_elem_of_nil.
Qed.

(** *** Reconstructed signatures *)

Lemma process_reconstructed_spec e sigs m :
  caches_coherent (db m) →
  caches_coherent (db (process_reconstructed e sigs m).1)
  ∧ pendingReconstructedRecoveredSigs (process_reconstructed e sigs m).1
    ⊆ pendingReconstructedRecoveredSigs m
  ∧ pendingRecoveredSigs (process_reconstructed e sigs m).1 = pendingRecoveredSigs m
  ∧ recoveredSigsListeners (process_reconstructed e sigs m).1 = recoveredSigsListeners m
  ∧ ∀ r, r ∈ sigs → ReceivedResponse (-1) (GetHash r) ∈ (process_reconstructed e sigs m).2.
Proof.
  revert m. induction sigs as [|p rest IH]; intros m Hcoh; simpl.
  - split_and!; try done. intros r ?%elem_of_nil. done.
  - pose proof (ProcessRecoveredSig_responds e (-1) p m) as Hresp.
    destruct (ProcessRecoveredSig_outcome e (-1) p m Hcoh)
      as (d & ev & Hdb & Hcohd & [(Hrun & _)|(Hrun & _)]);
      rewrite Hrun in *; cbn [snd] in Hresp.
    + destruct (IH (set_db d m)) as (? & ? & ? & ? & Hall); [done|].
      destruct (process_reconstructed e rest (set_db d m)) as [m' ev']. simpl in *.
      split_and!; try done. intros r [->|Hr]%elem_of_cons; set_solver.
    + set (m1 := mkCSigningManager _ _ _ _).
      destruct (IH m1) as (? & Hsub & ? & ? & Hall).
      { unfold m1. cbn [db]. by apply WriteRecoveredSig_coherent. }
      destruct (process_reconstructed e rest m1) as [m' ev']. simpl in *.
      split_and!; try done.
      * etrans; [exact Hsub|]. apply delete_subseteq.
      * intros r [->|Hr]%elem_of_cons; set_solver.
Qed.

(** X16.  A reconstructed signature that is pushed counts as known at once,
    and is processed on the next round.  After
    [PushReconstructedRecoveredSig], [AlreadyHave] answers [true] for its
    hash; a signature already pending under that hash is kept.  The next
    [ProcessPendingReconstructedRecoveredSigs] hands every pending
    reconstructed signature to [ProcessRecoveredSig] on behalf of node
    [-1], leaves none pending, and does not touch the queues of the
    peers. *)
Theorem pushed_reconstructed_sig_is_known_and_processed e r m :
  caches_coherent (db m) →
  let m1 := PushReconstructedRecoveredSig r m in
  let m2 := (ProcessPendingReconstructedRecoveredSigs e m1).1 in
  let ev := (ProcessPendingReconstructedRecoveredSigs e m1).2 in
  (AlreadyHave (GetHash r) m1).1 = true
  ∧ (pendingReconstructedRecoveredSigs m1 !! GetHash r
     = Some (default r (pendingReconstructedRecoveredSigs m !! GetHash r)))
  ∧ (∀ h r0, pendingReconstructedRecoveredSigs m1 !! h = Some r0 →
       ReceivedResponse (-1) (GetHash r0) ∈ ev)
  ∧ pendingReconstructedRecoveredSigs m2 = ∅
  ∧ pendingRecoveredSigs m2 = pendingRecoveredSigs m.
Proof.
  intros Hcoh m1 m2 ev.
  assert (pendingReconstructedRecoveredSigs m1 !! GetHash r
          = Some (default r (pendingReconstructedRecoveredSigs m !! GetHash r))) as Hpend.
  { unfold m1, PushReconstructedRecoveredSig.
    destruct (pendingReconstructedRecoveredSigs m !! GetHash r) as [r0|] eqn:Hr0; simpl; [done|].
    apply lookup_insert_eq. }
  assert (db m1 = db m ∧ pendingRecoveredSigs m1 = pendingRecoveredSigs m) as [Hdb1 Hq1].
  { unfold m1, PushReconstructedRecoveredSig.
    by destruct (pendingReconstructedRecoveredSigs m !! GetHash r). }
  unfold m2, ev, ProcessPendingReconstructedRecoveredSigs.
  set (sigs := omap _ _).
  destruct (process_reconstructed_spec e sigs
              (set_pendingReconstructedRecoveredSigs ∅ m1)) as (_ & Hsub & Hq & _ & Hall).
  { cbn [db set_pendingReconstructedRecoveredSigs]. by rewrite Hdb1. }
  split_and!; try done.
  - unfold AlreadyHave. by rewrite Hpend.
  - intros h r0 Hh. apply Hall. unfold sigs. apply list_elem_of_omap. exists h.
    split; [|done]. rewrite (hash_order_perm e), elem_of_elements, elem_of_dom. by eexists.
  - apply map_empty. intros h. eapply lookup_weaken_None; [|exact Hsub]. apply lookup_empty.
  - rewrite Hq. cbn [pendingRecoveredSigs set_pendingReconstructedRecoveredSigs]. done.
Qed.

(** *** Messages from peers *)

(** X17.  A recovered signature received from a peer is queued, never stored.
    [ProcessMessageRecoveredSig] leaves the contents of the store, the
    pending reconstructed signatures and the listeners as they are, relays
    nothing and calls no listener.  It appends the signature to the queue
    of the sending peer exactly when the quorum of the signature is known
    and active, its content hash is not in the store and no reconstructed
    signature with that hash is pending; otherwise the queues stay as they
    are.  The request is reported as answered in every case, and forgotten
    exactly when the quorum is known and active. *)
Theorem received_recovered_sig_is_queued_not_stored e pfrom r m :
  caches_coherent (db m) →
  let m' := (ProcessMessageRecoveredSig e pfrom r m).1 in
  let ev := (ProcessMessageRecoveredSig e pfrom r m).2 in
  RecSigDb.db (db m') = RecSigDb.db (db m)
  ∧ caches_coherent (db m')
  ∧ pendingReconstructedRecoveredSigs m' = pendingReconstructedRecoveredSigs m
  ∧ recoveredSigsListeners m' = recoveredSigsListeners m
  ∧ pendingRecoveredSigs m'
    = (if queueable e r m
       then <[pfrom := (pendingRecoveredSigs m !!! pfrom) ++ [r]]> (pendingRecoveredSigs m)
       else pendingRecoveredSigs m)
  ∧ relays ev = [] ∧ notifications ev = []
  ∧ ReceivedResponse pfrom (GetHash r) ∈ ev
  ∧ (ForgetTxHash pfrom (GetHash r) ∈ ev
     ↔ ∃ quorum, GetQuorum e (quorumHash r) = Some quorum
                 ∧ IsQuorumActive e (qc_quorumHash quorum) = true).
Proof.
  intros Hcoh m' ev. unfold m', ev, ProcessMessageRecoveredSig, PreVerifyRecoveredSig, queueable.
  destruct (GetQuorum e (quorumHash r)) as [quorum|] eqn:Hq.
  - destruct (IsQuorumActive e (qc_quorumHash quorum)) eqn:Hactive; cbn [negb andb fst snd].
    + destruct (HasRecoveredSigForHash_spec (GetHash r) (db m) Hcoh) as (Hk & Hdb1 & Hcoh1).
      destruct (HasRecoveredSigForHash (GetHash r) (db m)) as [known d1].
      simpl in Hk, Hdb1, Hcoh1. rewrite <-Hk.
      destruct known; cbn [negb andb fst snd db set_db pendingReconstructedRecoveredSigs
                            pendingRecoveredSigs recoveredSigsListeners].
      * split_and!; try done; [silent|silent|set_solver|].
        split; [eauto|]. intros _. destruct (GetPeerRef e pfrom); set_solver.
      * destruct (pendingReconstructedRecoveredSigs m !! GetHash r) as [r0|] eqn:Hp;
          cbn [fst snd db set_db set_pendingRecoveredSigs pendingReconstructedRecoveredSigs
               pendingRecoveredSigs recoveredSigsListeners].
        -- rewrite (bool_decide_eq_true_2 (is_Some (Some r0))) by (by eexists). cbn [negb].
           split_and!; try done; [silent|silent|set_solver|].
           split; [eauto|]. intros _. destruct (GetPeerRef e pfrom); set_solver.
        -- rewrite (bool_decide_eq_false_2 (is_Some None)) by (by intros [? ?]). cbn [negb].
           split_and!; try done; [silent|silent|set_solver|].
           split; [eauto|]. intros _. destruct (GetPeerRef e pfrom); set_solver.
    + split_and!; try done; [silent|silent|set_solver|].
      split; [|by intros (? & [= <-] & ?); congruence].
      destruct (GetPeerRef e pfrom); set_solver.
  - cbn [negb andb fst snd]. split_and!; try done; [silent|silent|set_solver|].
    split; [|by intros (? & [=] & ?)].
    destruct (GetPeerRef e pfrom); set_solver.
Qed.

(** *** Conflicts *)

(** X18.  After a recovered signature has been accepted for an id,
    [IsConflicting] reports no conflict for the message hash it signs and
    a conflict for every other message hash that has no entry of its own
    under that id. *)
Theorem accepted_sig_conflicts_with_other_message_hashes e nodeId r m :
  caches_coherent (db m) → block_accepted e r →
  Exists (rs_h (GetHash r)) (RecSigDb.db (db m)) = false →
  Exists (rs_r (id r)) (RecSigDb.db (db m)) = false →
  let m' := (ProcessRecoveredSig e nodeId r m).1 in
  (IsConflicting (id r) (msgHash r) m').1 = false
  ∧ ∀ h, h ≠ msgHash r → RecSigDb.db (db m) !! rs_r2 (id r) h = None →
         (IsConflicting (id r) h m').1 = true.
Proof.
  intros Hcoh Hacc Hnew Hnoid m'.
  destruct (ProcessRecoveredSig_accepts e nodeId r m Hcoh Hacc Hnew Hnoid)
    as (d & Hdb & Hcohd & Hrun).
  unfold m'. rewrite Hrun. cbn [fst].
  pose proof (WriteRecoveredSig_coherent (GetAdjustedTime e) r d Hcohd) as Hcoh'.
  destruct (WriteRecoveredSig_stored (GetAdjustedTime e) r d) as [Hrec _].
  remember (WriteRecoveredSig (GetAdjustedTime e) r d) as s' eqn:Hs'.
  assert (∀ h, ∃ d', IsConflicting (id r) h
                       (mkCSigningManager s' (pendingRecoveredSigs m)
                          (delete (GetHash r) (pendingReconstructedRecoveredSigs m))
                          (recoveredSigsListeners m))
                     = (negb (Exists (rs_r2 (id r) h) (RecSigDb.db s')), d')) as Hconf.
  { intros h. unfold IsConflicting. cbn [db].
    destruct (HasRecoveredSigForId_spec (id r) s' Hcoh') as (Hi & Hdbi & _).
    destruct (HasRecoveredSigForId (id r) s') as [hasId d']. simpl in Hi, Hdbi.
    assert (hasId = true) as ->.
    { rewrite Hi. apply bool_decide_eq_true_2. by eexists. }
    cbn [negb set_db db]. unfold HasRecoveredSig. rewrite Hdbi.
    destruct (Exists (rs_r2 (id r) h) (RecSigDb.db s')); simpl; by eexists. }
  split.
  - destruct (Hconf (msgHash r)) as (d' & ->). cbn [fst]. unfold Exists.
    rewrite Hs', db_WriteRecoveredSig.
    rewrite !(lookup_insert_ne _ (rs_t _ _)), (lookup_insert_ne _ (rs_s _)),
      (lookup_insert_ne _ (rs_h _)), lookup_insert_eq by done.
    rewrite bool_decide_eq_true_2; [done|by eexists].
  - intros h Hne Hnone. destruct (Hconf h) as (d' & ->). cbn [fst]. unfold Exists.
    rewrite Hs', db_WriteRecoveredSig.
    rewrite !(lookup_insert_ne _ (rs_t _ _)), (lookup_insert_ne _ (rs_s _)),
      (lookup_insert_ne _ (rs_h _)), (lookup_insert_ne _ (rs_r2 _ _)),
      (lookup_insert_ne _ (rs_r _)), Hdb, Hnone by congruence.
    rewrite bool_decide_eq_false_2; [done|]. by intros [? ?].
Qed.

(** *** Votes and signing *)

(** X19.  A vote is never contradicted.  If the node has voted [prev] for an
    id, a request to sign a different message hash for that id is refused,
    with or without the re-sign flag: [AsyncSignIfMember] returns [false],
    leaves the manager exactly as it is and dispatches nothing to the share
    signer; a node that gets as far as looking at its vote logs the
    refusal. *)
Theorem conflicting_sign_request_is_refused e i msgHash quorumHash allowReSign m prev :
  vote_of i m = Some prev → msgHash ≠ prev →
  let ret := AsyncSignIfMember e i msgHash quorumHash allowReSign m in
  ret.1 = (false, m)
  ∧ Forall (λ x, ¬ dispatches_signing x) ret.2
  ∧ (fMasternodeMode e = true → IsNull (proTxHash e) = false →
     (∃ quorum, signing_quorum e i quorumHash = Some quorum
                ∧ IsValidMember quorum (proTxHash e) = true) →
     ret.2 = [Log (LogNotVotingConflict i prev msgHash)]).
Proof.
  intros Hvote Hne ret. unfold ret, AsyncSignIfMember, signing_quorum.
  assert (HasVotedOnId i (db m) = true ∧ GetVoteForId i (db m) = Some prev) as [Hvoted Hprev].
  { unfold vote_of, GetVoteForId in Hvote. unfold HasVotedOnId, GetVoteForId, Exists.
    by destruct (RecSigDb.db (db m) !! rs_v i) as [[| |h|]|]. }
  destruct (fMasternodeMode e); cbn [negb orb].
  2: { split_and!; [done|by apply Forall_nil_2|done]. }
  destruct (IsNull (proTxHash e)).
  { split_and!; [done|by apply Forall_nil_2|done]. }
  destruct (if IsNull quorumHash then SelectQuorumForSigning e i else GetQuorum e quorumHash)
    as [quorum|].
  2: { split_and!; [done| |intros _ _ (? & ? & _); done].
       apply Forall_cons_2; [simpl; tauto|apply Forall_nil_2]. }
  destruct (IsValidMember quorum (proTxHash e)) eqn:Hmember; cbn [negb].
  2: { split_and!; [done|by apply Forall_nil_2|].
       intros _ _ (? & [= <-] & ?). congruence. }
  rewrite Hvoted, Hprev. cbn [default]. rewrite bool_decide_eq_true_2 by done.
  split_and!; [done| |done]. apply Forall_cons_2; [simpl; tauto|apply Forall_nil_2].
Qed.

(** X20.  Signing follows the vote.  Whenever [AsyncSignIfMember] dispatches
    to the share signer, for signing or for a re-announcement, the node is
    a masternode and a valid member of the quorum it signs with, no
    recovered signature is known for the id, and the vote the store holds
    for the id afterwards is the message hash being signed.  (Votes in the
    store are message hashes, as [WriteVoteForId] writes them.) *)
Theorem signing_follows_the_vote e i msgHash quorumHash allowReSign m x :
  votes_typed (RecSigDb.db (db m)) →
  let ret := AsyncSignIfMember e i msgHash quorumHash allowReSign m in
  x ∈ ret.2 → dispatches_signing x →
  ret.1.1 = true
  ∧ vote_of i ret.1.2 = Some msgHash
  ∧ fMasternodeMode e = true ∧ IsNull (proTxHash e) = false
  ∧ (HasRecoveredSigForId i (db m)).1 = false
  ∧ ∃ quorum, signing_quorum e i quorumHash = Some quorum
      ∧ IsValidMember quorum (proTxHash e) = true
      ∧ (x = AsyncSign (qc_quorumHash quorum) i msgHash
         ∨ (allowReSign = true ∧ x = ForceReAnnouncement (qc_quorumHash quorum) i msgHash)).
Proof.
  intros Htyped ret. unfold ret, AsyncSignIfMember, signing_quorum, vote_of.
  destruct (fMasternodeMode e); cbn [negb orb]; [|by intros ?%elem_of_nil].
  destruct (IsNull (proTxHash e)); [by intros ?%elem_of_nil|].
  destruct (if IsNull quorumHash then SelectQuorumForSigning e i else GetQuorum e quorumHash)
    as [quorum|]; [|by intros [->|?%elem_of_nil]%elem_of_cons].
  destruct (IsValidMember quorum (proTxHash e)) eqn:Hmember; cbn [negb];
    [|by intros ?%elem_of_nil].
  pose proof (HasRecoveredSigForId_votes i (db m)) as Hdb.
  assert (∀ ev0 : list Event, Forall (λ y, ¬ dispatches_signing y) ev0 →
            x ∈ ev0 ++ (if allowReSign
                        then [ForceReAnnouncement (qc_quorumHash quorum) i msgHash] else [])
                    ++ [AsyncSign (qc_quorumHash quorum) i msgHash] →
            dispatches_signing x →
            x = AsyncSign (qc_quorumHash quorum) i msgHash
            ∨ (allowReSign = true ∧ x = ForceReAnnouncement (qc_quorumHash quorum) i msgHash))
    as Hwhich.
  { intros ev0 Hquiet Hin Hx. apply elem_of_app in Hin as [Hin|Hin].
    - rewrite Forall_forall in Hquiet. by destruct (Hquiet _ Hin).
    - destruct allowReSign; set_solver. }
  destruct (HasVotedOnId i (db m)) eqn:Hvoted.
  - assert (∃ prev, GetVoteForId i (db m) = Some prev) as [prev Hprev].
    { unfold HasVotedOnId, Exists in Hvoted. apply bool_decide_eq_true in Hvoted as [v Hv].
      destruct (Htyped _ _ Hv) as [h ->]. exists h. unfold GetVoteForId. by rewrite Hv. }
    rewrite Hprev. cbn [default]. case_bool_decide as Hsame.
    { by intros [->|?%elem_of_nil]%elem_of_cons. }
    simpl in Hsame. subst prev.
    destruct allowReSign; [|by intros [->|?%elem_of_nil]%elem_of_cons].
    destruct (HasRecoveredSigForId i (db m)) as [hasSig d]. simpl in Hdb.
    destruct hasSig; cbn [fst snd negb db set_db].
    { by intros [->|?%elem_of_nil]%elem_of_cons. }
    intros Hin Hx. split_and!; try done.
    + unfold GetVoteForId in *. by rewrite Hdb.
    + exists quorum. split_and!; try done. eapply (Hwhich [_]); [|exact Hin|done].
      apply Forall_cons_2; [simpl; tauto|apply Forall_nil_2].
  - destruct (HasRecoveredSigForId i (db m)) as [hasSig d]. simpl in Hdb.
    destruct hasSig; cbn [fst snd negb db set_db]; [by intros ?%elem_of_nil|].
    intros Hin Hx. split_and!; try done.
    + unfold GetVoteForId. rewrite db_WriteVoteForId.
      by rewrite lookup_insert_ne, lookup_insert_eq by done.
    + exists quorum. split_and!; try done. eapply (Hwhich []); [apply Forall_nil_2|exact Hin|done].
Qed.

(** X21.  The first request signs.  On a masternode that is a valid member of
    the signing quorum, a request for an id without a vote and without a
    recovered signature returns [true], records the message hash as the
    vote for the id, and dispatches the signing once, preceded by a forced
    re-announcement exactly when the re-sign flag is set. *)
Theorem first_sign_request_votes_and_signs e i msgHash quorumHash allowReSign m quorum :
  caches_coherent (db m) →
  fMasternodeMode e = true → IsNull (proTxHash e) = false →
  signing_quorum e i quorumHash = Some quorum →
  IsValidMember quorum (proTxHash e) = true →
  HasVotedOnId i (db m) = false →
  Exists (rs_r i) (RecSigDb.db (db m)) = false →
  let ret := AsyncSignIfMember e i msgHash quorumHash allowReSign m in
  ret.1.1 = true
  ∧ vote_of i ret.1.2 = Some msgHash
  ∧ ret.2 = (if allowReSign then [ForceReAnnouncement (qc_quorumHash quorum) i msgHash] else [])
            ++ [AsyncSign (qc_quorumHash quorum) i msgHash]
  ∧ pendingRecoveredSigs ret.1.2 = pendingRecoveredSigs m
  ∧ pendingReconstructedRecoveredSigs ret.1.2 = pendingReconstructedRecoveredSigs m.
Proof.
  intros Hcoh Hmn Hpro Hq Hmember Hvoted Hnosig ret.
  unfold ret, AsyncSignIfMember, vote_of. unfold signing_quorum in Hq.
  rewrite Hmn, Hpro, Hq, Hmember, Hvoted. cbn [negb orb].
  destruct (HasRecoveredSigForId_spec i (db m) Hcoh) as (Hi & Hdb & _).
  destruct (HasRecoveredSigForId i (db m)) as [hasSig d]. simpl in Hi, Hdb.
  rewrite Hnosig in Hi. subst hasSig. cbn [fst snd negb db set_db].
  split_and!; try done.
  unfold GetVoteForId. rewrite db_WriteVoteForId.
  by rewrite lookup_insert_ne, lookup_insert_eq by done.
Qed.

End facts.

Lemma toy_block_accepted now r : block_accepted (toy_env now) r.
Proof. exists (mkCBlockIndex 10 true true). by split_and!. Qed.

Lemma new_recovered_sig_is_stored_and_announced_witness :
  let e := toy_env 2000 in
  let r := signed 7 20 in
  let m := listening_manager in
  caches_coherent (db m) ∧ block_accepted e r
  ∧ Exists (rs_h (GetHash r)) (RecSigDb.db (db m)) = false
  ∧ Exists (rs_r (id r)) (RecSigDb.db (db m)) = false
  ∧ let m' := (ProcessRecoveredSig e 3 r m).1 in
    let ev := (ProcessRecoveredSig e 3 r m).2 in
    GetRecoveredSigForId (id r) m' = Some r
    ∧ (AlreadyHave (GetHash r) m').1 = true
    ∧ pendingReconstructedRecoveredSigs m'
      = delete (GetHash r) (pendingReconstructedRecoveredSigs m)
    ∧ pendingRecoveredSigs m' = pendingRecoveredSigs m
    ∧ recoveredSigsListeners m' = recoveredSigsListeners m
    ∧ relays ev = (if fMasternodeMode e then [GetHash r] else [])
    ∧ notifications ev = (λ l, (l, r)) <$> recoveredSigsListeners m
    ∧ caches_coherent (db m').
Proof.
  intros e r m.
  assert (Exists (rs_h (GetHash r)) (RecSigDb.db (db m)) = false) as Hnew by reflexivity.
  assert (Exists (rs_r (id r)) (RecSigDb.db (db m)) = false) as Hnoid by reflexivity.
  split; [exact Examples.empty_db_coherent|]. split; [exact (toy_block_accepted 2000 r)|].
  split; [exact Hnew|]. split; [exact Hnoid|].
  exact (new_recovered_sig_is_stored_and_announced e 3 r m Examples.empty_db_coherent
           (toy_block_accepted 2000 r) Hnew Hnoid).
Defined.

Lemma reprocessing_recovered_sig_is_noop_witness :
  let e := toy_env 2000 in
  let r := signed 7 20 in
  let m := listening_manager in
  caches_coherent (db m) ∧ block_accepted e r
  ∧ Exists (rs_h (GetHash r)) (RecSigDb.db (db m)) = false
  ∧ Exists (rs_r (id r)) (RecSigDb.db (db m)) = false
  ∧ let m1 := (ProcessRecoveredSig e 3 r m).1 in
    let m2 := (ProcessRecoveredSig (toy_env 2001) 4 r m1).1 in
    let ev2 := (ProcessRecoveredSig (toy_env 2001) 4 r m1).2 in
    RecSigDb.db (db m2) = RecSigDb.db (db m1)
    ∧ pendingRecoveredSigs m2 = pendingRecoveredSigs m1
    ∧ pendingReconstructedRecoveredSigs m2 = pendingReconstructedRecoveredSigs m1
    ∧ recoveredSigsListeners m2 = recoveredSigsListeners m1
    ∧ relays ev2 = [] ∧ notifications ev2 = [].
Proof.
  intros e r m.
  assert (Exists (rs_h (GetHash r)) (RecSigDb.db (db m)) = false) as Hnew by reflexivity.
  assert (Exists (rs_r (id r)) (RecSigDb.db (db m)) = false) as Hnoid by reflexivity.
  split; [exact Examples.empty_db_coherent|]. split; [exact (toy_block_accepted 2000 r)|].
  split; [exact Hnew|]. split; [exact Hnoid|].
  exact (reprocessing_recovered_sig_is_noop e 3 r m (toy_env 2001) 4
           Examples.empty_db_coherent (toy_block_accepted 2000 r) Hnew Hnoid).
Defined.

Lemma blockless_rejects now r : ¬ block_accepted (blockless_env now) r.
Proof. intros (pindex & Hblock & _). discriminate Hblock. Qed.

Lemma recovered_sig_of_unaccepted_block_is_dropped_witness :
  let e := blockless_env 2000 in
  let r := signed 7 20 in
  let m := listening_manager in
  ¬ block_accepted e r
  ∧ let ev := (ProcessRecoveredSig e 3 r m).2 in
    (ProcessRecoveredSig e 3 r m).1 = m
    ∧ relays ev = [] ∧ notifications ev = []
    ∧ ForgetTxHash 3 (GetHash r) ∈ ev
    ∧ (GetPeerRef e 3 = true → ∃ message, Misbehaving 3 10 message ∈ ev)
    ∧ (GetPeerRef e 3 = false → ∀ n howmuch message, Misbehaving n howmuch message ∉ ev).
Proof.
  intros e r m. split; [exact (blockless_rejects 2000 r)|].
  exact (recovered_sig_of_unaccepted_block_is_dropped e 3 r m (blockless_rejects 2000 r)).
Defined.

Lemma pushed_reconstructed_sig_is_known_and_processed_witness :
  let e := toy_env 2000 in
  let r := signed 7 20 in
  let m := listening_manager in
  caches_coherent (db m)
  ∧ let m1 := PushReconstructedRecoveredSig r m in
    let m2 := (ProcessPendingReconstructedRecoveredSigs e m1).1 in
    let ev := (ProcessPendingReconstructedRecoveredSigs e m1).2 in
    (AlreadyHave (GetHash r) m1).1 = true
    ∧ (pendingReconstructedRecoveredSigs m1 !! GetHash r
       = Some (default r (pendingReconstructedRecoveredSigs m !! GetHash r)))
    ∧ (∀ h r0, pendingReconstructedRecoveredSigs m1 !! h = Some r0 →
         ReceivedResponse (-1) (GetHash r0) ∈ ev)
    ∧ pendingReconstructedRecoveredSigs m2 = ∅
    ∧ pendingRecoveredSigs m2 = pendingRecoveredSigs m.
Proof.
  intros e r m. split; [exact Examples.empty_db_coherent|].
  exact (pushed_reconstructed_sig_is_known_and_processed e r m Examples.empty_db_coherent).
Defined.

Lemma received_recovered_sig_is_queued_not_stored_witness :
  let e := toy_env 2000 in
  let r := signed 7 20 in
  let m := listening_manager in
  caches_coherent (db m)
  ∧ let m' := (ProcessMessageRecoveredSig e 3 r m).1 in
    let ev := (ProcessMessageRecoveredSig e 3 r m).2 in
    RecSigDb.db (db m') = RecSigDb.db (db m)
    ∧ caches_coherent (db m')
    ∧ pendingReconstructedRecoveredSigs m' = pendingReconstructedRecoveredSigs m
    ∧ recoveredSigsListeners m' = recoveredSigsListeners m
    ∧ pendingRecoveredSigs m'
      = (if queueable e r m
         then <[3 := (pendingRecoveredSigs m !!! 3) ++ [r]]> (pendingRecoveredSigs m)
         else pendingRecoveredSigs m)
    ∧ relays ev = [] ∧ notifications ev = []
    ∧ ReceivedResponse 3 (GetHash r) ∈ ev
    ∧ (ForgetTxHash 3 (GetHash r) ∈ ev
       ↔ ∃ quorum, GetQuorum e (quorumHash r) = Some quorum
                   ∧ IsQuorumActive e (qc_quorumHash quorum) = true).
Proof.
  intros e r m. split; [exact Examples.empty_db_coherent|].
  exact (received_recovered_sig_is_queued_not_stored e 3 r m Examples.empty_db_coherent).
Defined.

Lemma accepted_sig_conflicts_with_other_message_hashes_witness :
  let e := toy_env 2000 in
  let r := signed 7 20 in
  let m := listening_manager in
  caches_coherent (db m) ∧ block_accepted e r
  ∧ Exists (rs_h (GetHash r)) (RecSigDb.db (db m)) = false
  ∧ Exists (rs_r (id r)) (RecSigDb.db (db m)) = false
  ∧ let m' := (ProcessRecoveredSig e 3 r m).1 in
    (IsConflicting (id r) (msgHash r) m').1 = false
    ∧ ∀ h, h ≠ msgHash r → RecSigDb.db (db m) !! rs_r2 (id r) h = None →
           (IsConflicting (id r) h m').1 = true.
Proof.
  intros e r m.
  assert (Exists (rs_h (GetHash r)) (RecSigDb.db (db m)) = false) as Hnew by reflexivity.
  assert (Exists (rs_r (id r)) (RecSigDb.db (db m)) = false) as Hnoid by reflexivity.
  split; [exact Examples.empty_db_coherent|]. split; [exact (toy_block_accepted 2000 r)|].
  split; [exact Hnew|]. split; [exact Hnoid|].
  exact (accepted_sig_conflicts_with_other_message_hashes e 3 r m Examples.empty_db_coherent
           (toy_block_accepted 2000 r) Hnew Hnoid).
Defined.

Lemma conflicting_sign_request_is_refused_witness :
  let e := toy_env 1001 in
  vote_of 7 voted_manager = Some 20%N ∧ 25%N ≠ 20%N
  ∧ let ret := AsyncSignIfMember e 7 25 0 true voted_manager in
    ret.1 = (false, voted_manager)
    ∧ Forall (λ x, ¬ dispatches_signing x) ret.2
    ∧ (fMasternodeMode e = true → IsNull (proTxHash e) = false →
       (∃ quorum, signing_quorum e 7 0 = Some quorum
                  ∧ IsValidMember quorum (proTxHash e) = true) →
       ret.2 = [Log (LogNotVotingConflict 7 20 25)]).
Proof.
  intros e.
  assert (vote_of 7 voted_manager = Some 20%N) as Hvote by (vm_compute; reflexivity).
  assert (25%N ≠ 20%N) as Hne by lia.
  split; [exact Hvote|]. split; [exact Hne|].
  exact (conflicting_sign_request_is_refused e 7 25 0 true voted_manager 20 Hvote Hne).
Defined.

Lemma empty_votes_typed : votes_typed (RecSigDb.db (db empty_manager)).
Proof. intros i v Hv. simpl in Hv. by rewrite lookup_empty in Hv. Qed.

Lemma signing_follows_the_vote_witness :
  let e := toy_env 1000 in
  let x := AsyncSign 1 7 20 in
  votes_typed (RecSigDb.db (db empty_manager))
  ∧ let ret := AsyncSignIfMember e 7 20 0 false empty_manager in
    x ∈ ret.2 ∧ dispatches_signing x
    ∧ ret.1.1 = true
    ∧ vote_of 7 ret.1.2 = Some 20%N
    ∧ fMasternodeMode e = true ∧ IsNull (proTxHash e) = false
    ∧ (HasRecoveredSigForId 7 (db empty_manager)).1 = false
    ∧ ∃ quorum, signing_quorum e 7 0 = Some quorum
        ∧ IsValidMember quorum (proTxHash e) = true
        ∧ (x = AsyncSign (qc_quorumHash quorum) 7 20
           ∨ (false = true ∧ x = ForceReAnnouncement (qc_quorumHash quorum) 7 20)).
Proof.
  intros e x.
  assert (x ∈ (AsyncSignIfMember e 7 20 0 false empty_manager).2) as Hin
    by (vm_compute; left).
  assert (dispatches_signing x) as Hx by (simpl; exact I).
  split; [exact empty_votes_typed|]. intros ret. split; [exact Hin|]. split; [exact Hx|].
  exact (signing_follows_the_vote e 7 20 0 false empty_manager x empty_votes_typed Hin Hx).
Defined.

Lemma first_sign_request_votes_and_signs_witness :
  let e := toy_env 1000 in
  let m := empty_manager in
  caches_coherent (db m)
  ∧ fMasternodeMode e = true ∧ IsNull (proTxHash e) = false
  ∧ signing_quorum e 7 0 = Some (toy_quorum 1)
  ∧ IsValidMember (toy_quorum 1) (proTxHash e) = true
  ∧ HasVotedOnId 7 (db m) = false
  ∧ Exists (rs_r 7) (RecSigDb.db (db m)) = false
  ∧ let ret := AsyncSignIfMember e 7 20 0 true m in
    ret.1.1 = true
    ∧ vote_of 7 ret.1.2 = Some 20%N
    ∧ ret.2 = (if true then [ForceReAnnouncement (qc_quorumHash (toy_quorum 1)) 7 20] else [])
              ++ [AsyncSign (qc_quorumHash (toy_quorum 1)) 7 20]
    ∧ pendingRecoveredSigs ret.1.2 = pendingRecoveredSigs m
    ∧ pendingReconstructedRecoveredSigs ret.1.2 = pendingReconstructedRecoveredSigs m.
Proof.
  intros e m.
  assert (fMasternodeMode e = true) as Hmn by reflexivity.
  assert (IsNull (proTxHash e) = false) as Hpro by reflexivity.
  assert (signing_quorum e 7 0 = Some (toy_quorum 1)) as Hq by reflexivity.
  assert (IsValidMember (toy_quorum 1) (proTxHash e) = true) as Hmember by reflexivity.
  assert (HasVotedOnId 7 (db m) = false) as Hvoted by reflexivity.
  assert (Exists (rs_r 7) (RecSigDb.db (db m)) = false) as Hnosig by reflexivity.
  split; [exact Examples.empty_db_coherent|]. split; [exact Hmn|]. split; [exact Hpro|].
  split; [exact Hq|]. split; [exact Hmember|]. split; [exact Hvoted|]. split; [exact Hnosig|].
  exact (first_sign_request_votes_and_signs e 7 20 0 true m (toy_quorum 1)
           Examples.empty_db_coherent Hmn Hpro Hq Hmember Hvoted Hnosig).
Defined.

End SigningQueriesFacts.

(** ** Rounds of batch verification *)
Module SigningRoundFacts.
Import DBWrapper LLMQ RecSigDb Signing SigningQueries SigningRound.
Import RecSigDbFacts SigningFacts SigningQueriesFacts RecSigDbCallsFacts.
Import Fixtures SigningFixtures SigningRoundFixtures Examples.
Section facts.
Context `{Crypto} `{LruCache} `{BatchSizing}.
Implicit Types (m : CSigningManager) (e : Env) (r : CRecoveredSig) (ev : list Event).
Implicit Types (d : gmap DbKey DbVal).



















(** *** The collection leaves the store alone *)







End facts.


(** *** A valid candidate that is not accepted *)






(** *** A conflict that is not logged *)

Lemma rewritten_db_coherent : caches_coherent rewritten_db.
Proof.
  apply WriteRecoveredSig_coherent.
  apply TruncateRecoveredSig_inv.
  - apply WriteRecoveredSig_coherent, empty_db_coherent.
  - apply WriteRecoveredSig_keyed, empty_db_keyed.
Qed.

Lemma toy_sign_hashes_differ : BuildSignHash (signed 7 25) ≠ BuildSignHash (signed 7 20).
Proof. intros Heq. vm_compute in Heq. discriminate Heq. Qed.

Lemma signed_verifies now i h :
  ∃ quorum, GetQuorum (toy_env now) (quorumHash (signed i h)) = Some quorum
    ∧ IsValid (sig (signed i h)) = true
    ∧ VerifyInsecure (sig (signed i h)) (qc_quorumPublicKey quorum)
        (BuildSignHash (signed i h)) = true.
Proof.
  exists (toy_quorum 1). split_and!; [reflexivity|reflexivity|].
  unfold signed, BuildSignHash. simpl. apply Pos.eqb_refl.
Qed.

(** C1, the claim as stated fails, for each of the two returns that come
    before the conflict test.  The signature of id 7 for message 25
    verifies, and the store holds the record of id 7 for message 20, whose
    sign hash differs.  First, let the store also hold, from a record
    written earlier and truncated since, the content hash of the new
    signature: its block is accepted, yet processing it logs no conflict,
    because its content hash is known.  Second, let the content hash be
    unknown and the block unknown to the node: processing it logs the
    missing block and no conflict. *)
Lemma conflict_is_not_always_logged :
  ¬ (∀ (e : Env) (nodeId : NodeId) (new other : CRecoveredSig) (m : CSigningManager),
       caches_coherent (db m) →
       GetRecoveredSigById (id new) (db m) = Some other →
       msgHash new ≠ msgHash other →
       BuildSignHash new ≠ BuildSignHash other →
       (∃ quorum, GetQuorum e (quorumHash new) = Some quorum
          ∧ IsValid (sig new) = true
          ∧ VerifyInsecure (sig new) (qc_quorumPublicKey quorum) (BuildSignHash new) = true) →
       block_accepted e new →
       ∃ signHash i msgHash otherSignHash,
         Log (LogConflictingRecSig signHash i msgHash otherSignHash)
           ∈ (ProcessRecoveredSig e nodeId new m).2)
  ∧ ¬ (∀ (e : Env) (nodeId : NodeId) (new other : CRecoveredSig) (m : CSigningManager),
         caches_coherent (db m) →
         GetRecoveredSigById (id new) (db m) = Some other →
         msgHash new ≠ msgHash other →
         BuildSignHash new ≠ BuildSignHash other →
         (∃ quorum, GetQuorum e (quorumHash new) = Some quorum
            ∧ IsValid (sig new) = true
            ∧ VerifyInsecure (sig new) (qc_quorumPublicKey quorum) (BuildSignHash new)
              = true) →
         Exists (rs_h (GetHash new)) (RecSigDb.db (db m)) = false →
         ∃ signHash i msgHash otherSignHash,
           Log (LogConflictingRecSig signHash i msgHash otherSignHash)
             ∈ (ProcessRecoveredSig e nodeId new m).2).
Proof.
  split; intros Hclaim.
  - destruct (Hclaim (toy_env 2000) 3 (signed 7 25) (signed 7 20) rewritten)
      as (sh & i & h & osh & Hin).
    + exact rewritten_db_coherent.
    + vm_compute. reflexivity.
    + simpl. lia.
    + exact toy_sign_hashes_differ.
    + apply signed_verifies.
    + apply toy_block_accepted.
    + vm_compute in Hin.
      repeat (apply elem_of_cons in Hin as [Hin|Hin]; [discriminate Hin|]).
      by apply elem_of_nil in Hin.
  - destruct (Hclaim (blockless_env 2000) 3 (signed 7 25) (signed 7 20) with_record)
      as (sh & i & h & osh & Hin).
    + exact one_record_coherent.
    + vm_compute. reflexivity.
    + simpl. lia.
    + exact toy_sign_hashes_differ.
    + apply (signed_verifies 2000).
    + vm_compute. reflexivity.
    + vm_compute in Hin.
      repeat (apply elem_of_cons in Hin as [Hin|Hin]; [discriminate Hin|]).
      by apply elem_of_nil in Hin.
Qed.

(** The two runs, evaluated. *)
Lemma replayed_signature_run :
  (ProcessRecoveredSig (toy_env 2000) 3 (signed 7 25) rewritten).2
  = [AddKnownTx 3 (GetHash (signed 7 25)); ReceivedResponse 3 (GetHash (signed 7 25));
     ForgetTxHash 3 (GetHash (signed 7 25))]
  ∧ (ProcessRecoveredSig (blockless_env 2000) 3 (signed 7 25) with_record).2
    = [AddKnownTx 3 (GetHash (signed 7 25)); ReceivedResponse 3 (GetHash (signed 7 25));
       Log (LogBlockMissing 7); ForgetTxHash 3 (GetHash (signed 7 25));
       Misbehaving 3 10 "invalid recovered signature"].
Proof. split; vm_compute; reflexivity. Qed.
End SigningRoundFacts.

Module QuorumSelectionFacts.
Import LLMQ Signing QuorumSelection Fixtures SelectionFixtures.

Global Instance score_le_total : Total score_le.
Proof. intros [a1 a2] [b1 b2]. unfold score_le; simpl. lia. Qed.

Global Instance score_le_trans : Transitive score_le.
Proof. intros [a1 a2] [b1 b2] [c1 c2]. unfold score_le; simpl. lia. Qed.

Lemma score_le_antisym a b : score_le a b → score_le b a → a = b.
Proof. destruct a as [a1 a2], b as [b1 b2]. unfold score_le; simpl. intros. f_equal; lia. Qed.

Lemma elem_of_scores_of c h quorums s :
  s ∈ scores_of c h quorums
  ↔ ∃ quorum, quorums !! s.2 = Some quorum ∧ s.1 = HashPair c (qc_quorumHash quorum) h.
Proof.
  unfold scores_of. rewrite elem_of_lookup_imap. split.
  - intros (i & quorum & -> & Hq). by exists quorum.
  - intros (quorum & Hq & Hs). exists s.2, quorum. split; [|done]. destruct s; simpl in *.
    by subst.
Qed.

(** The front of the sorted scores: an element below all the others. *)
Lemma sorted_front (l : list (uint256 * nat)) :
  l ≠ [] →
  ∃ front rest, merge_sort score_le l = front :: rest
    ∧ front ∈ l ∧ ∀ s, s ∈ l → score_le front s.
Proof.
  intros Hne.
  pose proof (merge_sort_Permutation score_le l) as Hperm.
  pose proof (Sorted_merge_sort score_le l) as Hsorted.
  apply Sorted_StronglySorted in Hsorted; [|apply _].
  destruct (merge_sort score_le l) as [|front rest].
  - apply Permutation_nil_l in Hperm. done.
  - exists front, rest. split; [done|]. split.
    + rewrite <-Hperm. left.
    + intros s Hs. rewrite <-Hperm in Hs. apply StronglySorted_inv in Hsorted as [_ Hall].
      apply elem_of_cons in Hs as [->|Hs].
      * destruct (total score_le front front); done.
      * rewrite Forall_forall in Hall. by apply Hall.
Qed.
(** How the function ends when the start height is representable: with
    the null pointer, or with the quorum at an index whose score, index
    included, is below all others. *)
Lemma SelectQuorumForSigning_cases c h signHeight signOffset :
  let start := start_height c signHeight signOffset in
  let quorums := scanned c signHeight signOffset in
  - 2 ^ 31 ≤ start < 2 ^ 31 →
  if bool_decide (0 ≤ start ≤ ActiveHeight c) && negb (bool_decide (length quorums = 0%nat))
  then ∃ i quorum,
         SelectQuorumForSigning c h signHeight signOffset = Some (Some quorum)
         ∧ quorums !! i = Some quorum
         ∧ ∀ j quorum', quorums !! j = Some quorum' →
                        score_le (score c h quorum, i) (score c h quorum', j)
  else SelectQuorumForSigning c h signHeight signOffset = Some None.
Proof.
  intros start quorums Hint. unfold SelectQuorumForSigning.
  fold (start_height c signHeight signOffset). fold start.
  unfold quorums, scanned. fold start. clear quorums.
  rewrite (bool_decide_eq_true_2 _ Hint). cbn [negb].
  destruct (bool_decide (0 ≤ start ≤ ActiveHeight c)) eqn:Hrange.
  - apply bool_decide_eq_true in Hrange.
    rewrite (bool_decide_eq_false_2 (ActiveHeight c < start)) by lia.
    rewrite (bool_decide_eq_false_2 (start < 0)) by lia. cbn [orb andb].
    destruct (ScanQuorums c start _) as [|q0 qs] eqn:Hqs; [done|].
    rewrite bool_decide_eq_false_2 by done. cbn [negb].
    destruct (sorted_front (scores_of c h (q0 :: qs))) as (front & rest & -> & Hin & Hmin).
    { done. }
    apply elem_of_scores_of in Hin as (quorum & Hq & Hs).
    rewrite Hq. simpl. exists front.2, quorum. split_and!; try done.
    intros j quorum' Hj. unfold score. rewrite <-Hs.
    replace (front.1, front.2) with front by (by destruct front).
    apply Hmin, elem_of_scores_of. by exists quorum'.
  - apply bool_decide_eq_false in Hrange. cbn [andb].
    destruct (bool_decide (ActiveHeight c < start)) eqn:H1; [done|].
    destruct (bool_decide (start < 0)) eqn:H2; [done|].
    apply bool_decide_eq_false in H1, H2. lia.
Qed.

(** X22.  The quorum selected for signing.  With a start height that fits an
    [int], [SelectQuorumForSigning] returns no quorum when the start height
    is negative or above the active chain, or when the scan finds none.
    Otherwise it returns one of the scanned quorums, and no scanned quorum
    has a smaller hash of (quorum hash, selection hash) than the one
    returned; among quorums with equal hash the first scanned wins. *)
Theorem selected_quorum_has_least_score c h signHeight signOffset :
  let start := start_height c signHeight signOffset in
  let quorums := scanned c signHeight signOffset in
  - 2 ^ 31 ≤ start < 2 ^ 31 →
  (start < 0 ∨ ActiveHeight c < start ∨ quorums = [] →
   SelectQuorumForSigning c h signHeight signOffset = Some None)
  ∧ (0 ≤ start ≤ ActiveHeight c → quorums ≠ [] →
     ∃ i quorum,
       SelectQuorumForSigning c h signHeight signOffset = Some (Some quorum)
       ∧ quorums !! i = Some quorum
       ∧ (∀ quorum', quorum' ∈ quorums → (score c h quorum ≤ score c h quorum')%N)
       ∧ (∀ j quorum', quorums !! j = Some quorum' →
                       score c h quorum' = score c h quorum → (i ≤ j)%nat)).
Proof.
  intros start quorums Hint.
  pose proof (SelectQuorumForSigning_cases c h signHeight signOffset Hint) as Hcases.
  fold start quorums in Hcases. split.
  - intros Hno.
    assert (bool_decide (0 ≤ start ≤ ActiveHeight c)
            && negb (bool_decide (length quorums = 0%nat)) = false) as Hb.
    { destruct Hno as [?|[?|Hq]].
      - by rewrite bool_decide_eq_false_2 by lia.
      - by rewrite bool_decide_eq_false_2 by lia.
      - rewrite Hq. apply andb_false_r. }
    by rewrite Hb in Hcases.
  - intros Hrange Hne.
    rewrite (bool_decide_eq_true_2 _ Hrange), bool_decide_eq_false_2 in Hcases.
    2: { intros ?%length_zero_iff_nil. done. }
    destruct Hcases as (i & quorum & Hsel & Hi & Hmin).
    exists i, quorum. split_and!; try done.
    + intros quorum' (j & Hj)%list_elem_of_lookup.
      destruct (Hmin j quorum' Hj) as [?|[? _]]; simpl in *; lia.
    + intros j quorum' Hj Heq.
      destruct (Hmin j quorum' Hj) as [?|[_ ?]]; simpl in *; [lia|done].
Qed.

Lemma NoDup_fmap_eq {A B} (f : A → B) (l : list A) x y :
  NoDup (f <$> l) → x ∈ l → y ∈ l → f x = f y → x = y.
Proof.
  induction l as [|a l IH]; [by intros _ ?%elem_of_nil|].
  rewrite fmap_cons, NoDup_cons. intros [Ha Hnd] Hx Hy Heq.
  apply elem_of_cons in Hx as [->|Hx]; apply elem_of_cons in Hy as [->|Hy]; try done.
  - exfalso. apply Ha. rewrite Heq. by apply list_elem_of_fmap_2.
  - exfalso. apply Ha. rewrite <-Heq. by apply list_elem_of_fmap_2.
  - by apply IH.
Qed.

(** X23.  The selection does not depend on the order of the scan.  When the
    scanned quorums have pairwise different scores for the selection hash,
    a scan that lists the same quorums in another order selects the same
    quorum, and [VerifyRecoveredSig] gives the same verdict on every
    signature. *)
Theorem selection_is_independent_of_scan_order `{Crypto} c scan' h signHeight signOffset :
  let c' := mkSelectionEnv (signingActiveQuorumCount c) (ActiveHeight c) scan' (HashPair c) in
  - 2 ^ 31 ≤ start_height c signHeight signOffset < 2 ^ 31 →
  scanned c' signHeight signOffset ≡ₚ scanned c signHeight signOffset →
  NoDup (score c h <$> scanned c signHeight signOffset) →
  SelectQuorumForSigning c' h signHeight signOffset
  = SelectQuorumForSigning c h signHeight signOffset
  ∧ ∀ msgHash sg,
      VerifyRecoveredSig c' signHeight h msgHash sg signOffset
      = VerifyRecoveredSig c signHeight h msgHash sg signOffset.
Proof.
  intros c' Hint Hperm Hnd.
  assert (SelectQuorumForSigning c' h signHeight signOffset
          = SelectQuorumForSigning c h signHeight signOffset) as Hsame.
  { pose proof (SelectQuorumForSigning_cases c h signHeight signOffset Hint) as H1.
    pose proof (SelectQuorumForSigning_cases c' h signHeight signOffset Hint) as H2.
    cbn zeta in H1, H2.
    change (start_height c' signHeight signOffset)
      with (start_height c signHeight signOffset) in H2.
    change (ActiveHeight c') with (ActiveHeight c) in H2.
    rewrite (Permutation_length Hperm) in H2.
    destruct (bool_decide _ && negb _); [|congruence].
    destruct H1 as (i & quorum & -> & Hi & Hmin).
    destruct H2 as (i' & quorum' & -> & Hi' & Hmin').
    do 2 f_equal.
    assert (quorum ∈ scanned c signHeight signOffset) as Hq
      by (apply list_elem_of_lookup; eauto).
    assert (quorum' ∈ scanned c signHeight signOffset) as Hq'
      by (rewrite <-Hperm; apply list_elem_of_lookup; eauto).
    apply (NoDup_fmap_eq (score c h) _ _ _ Hnd Hq' Hq).
    pose proof Hq' as (j' & Hj')%list_elem_of_lookup.
    pose proof Hq as Hq2. rewrite <-Hperm in Hq2. apply list_elem_of_lookup in Hq2 as (j & Hj).
    destruct (Hmin j' quorum' Hj') as [?|[? _]];
      destruct (Hmin' j quorum Hj) as [?|[? _]]; simpl in *;
      fold (score c h quorum) in *; fold (score c h quorum') in *;
      unfold score in *; simpl in *; first [done | lia | (apply N.le_antisymm; lia)]. }
  split; [done|]. intros msgHash sg. unfold VerifyRecoveredSig. by rewrite Hsame.
Qed.

Lemma toy_start_height : - 2 ^ 31 ≤ start_height toy_selection (-1) 8 < 2 ^ 31.
Proof. unfold start_height. simpl. lia. Qed.

Lemma selected_quorum_has_least_score_witness :
  let c := toy_selection in
  let start := start_height c (-1) 8 in
  let quorums := scanned c (-1) 8 in
  - 2 ^ 31 ≤ start < 2 ^ 31
  ∧ (start < 0 ∨ ActiveHeight c < start ∨ quorums = [] →
     SelectQuorumForSigning c 7 (-1) 8 = Some None)
  ∧ (0 ≤ start ≤ ActiveHeight c → quorums ≠ [] →
     ∃ i quorum,
       SelectQuorumForSigning c 7 (-1) 8 = Some (Some quorum)
       ∧ quorums !! i = Some quorum
       ∧ (∀ quorum', quorum' ∈ quorums → (score c 7 quorum ≤ score c 7 quorum')%N)
       ∧ (∀ j quorum', quorums !! j = Some quorum' →
                       score c 7 quorum' = score c 7 quorum → (i ≤ j)%nat)).
Proof.
  intros c start quorums. split; [exact toy_start_height|].
  exact (selected_quorum_has_least_score c 7 (-1) 8 toy_start_height).
Defined.

Lemma selection_is_independent_of_scan_order_witness :
  let c := toy_selection in
  let c' := mkSelectionEnv (signingActiveQuorumCount c) (ActiveHeight c) other_scan
              (HashPair c) in
  - 2 ^ 31 ≤ start_height c (-1) 8 < 2 ^ 31
  ∧ scanned c' (-1) 8 ≡ₚ scanned c (-1) 8
  ∧ NoDup (score c 7 <$> scanned c (-1) 8)
  ∧ SelectQuorumForSigning c' 7 (-1) 8 = SelectQuorumForSigning c 7 (-1) 8
  ∧ ∀ msgHash sg,
      VerifyRecoveredSig c' (-1) 7 msgHash sg 8 = VerifyRecoveredSig c (-1) 7 msgHash sg 8.
Proof.
  intros c c'.
  assert (scanned c' (-1) 8 ≡ₚ scanned c (-1) 8) as Hperm.
  { change ([toy_quorum 9; toy_quorum 5; toy_quorum 3]
            ≡ₚ [toy_quorum 5; toy_quorum 3] ++ [toy_quorum 9]).
    apply Permutation_cons_append. }
  assert (NoDup (score c 7 <$> scanned c (-1) 8)) as Hnd.
  { refine (bool_decide_unpack _ _). vm_compute. exact I. }
  split; [exact toy_start_height|]. split; [exact Hperm|]. split; [exact Hnd|].
  exact (selection_is_independent_of_scan_order c other_scan 7 (-1) 8
           toy_start_height Hperm Hnd).
Defined.

End QuorumSelectionFacts.

(** ** The DKG session manager: cache and clean-ups *)
Module DKGMgrCallsFacts.
Import LLMQ DKGMgr DKGMgrCalls DKGMgrFixtures.

Section facts.
Implicit Types (mgr : CDKGSessionManager) (out : Contributions).

Lemma contributions_from_cons blockHash now validMembers proTxHash rest i out mgr :
  contributions_from blockHash now validMembers (proTxHash :: rest) i out mgr =
    valid ← validMembers !! i;
    if valid : bool then
      match cached_or_read blockHash now proTxHash mgr with
      | None => Some (false, out, mgr)
      | Some (entry, mgr) =>
          contributions_from blockHash now validMembers rest (S i)
            (mkContributions (memberIndexesRet out ++ [to_uint16 i])
                             (vvecsRet out ++ [vvec entry])
                             (skContributionsRet out ++ [skContribution entry]))
            mgr
      end
    else contributions_from blockHash now validMembers rest (S i) out mgr.
Proof. reflexivity. Qed.

Lemma contribution_of_stored mgr blockHash proTxHash :
  contribution_of mgr blockHash proTxHash =
    match contributionsCache mgr !! (blockHash, proTxHash) with
    | Some entry => Some (vvec entry, skContribution entry)
    | None => stored_contribution mgr blockHash proTxHash
    end.
Proof. reflexivity. Qed.

(** One cache lookup: it fails exactly when a lookup for the member yields
    nothing; otherwise the entry is what a lookup yields, it is in the cache
    afterwards, the store is as before, the cache has grown at most by this
    entry, and lookups yield what they did. *)
Lemma cached_or_read_spec blockHash now proTxHash mgr :
  match cached_or_read blockHash now proTxHash mgr with
  | None => contribution_of mgr blockHash proTxHash = None
  | Some (entry, mgr') =>
      contribution_of mgr blockHash proTxHash = Some (vvec entry, skContribution entry)
      ∧ db mgr' = db mgr
      ∧ contributionsCache mgr' !! (blockHash, proTxHash) = Some entry
      ∧ (∀ key e, contributionsCache mgr !! key = Some e →
                  contributionsCache mgr' !! key = Some e)
      ∧ (∀ key e, contributionsCache mgr' !! key = Some e →
                  contributionsCache mgr !! key = Some e
                  ∨ (key = (blockHash, proTxHash) ∧ entryTime e = now
                     ∧ contributionsCache mgr !! key = None
                     ∧ stored_contribution mgr blockHash proTxHash
                       = Some (vvec e, skContribution e)))
      ∧ (∀ q p, contribution_of mgr' q p = contribution_of mgr q p)
  end.
Proof.
  unfold cached_or_read.
  destruct (contributionsCache mgr !! (blockHash, proTxHash)) as [entry|] eqn:Hcache.
  - rewrite contribution_of_stored, Hcache. split_and!; auto.
  - rewrite contribution_of_stored, Hcache. unfold stored_contribution.
    destruct (db mgr !! DB_VVEC blockHash proTxHash) as [[vv|sk0]|] eqn:Hvvec; try done.
    simpl. split_and!; try done.
    + by rewrite lookup_insert_eq.
    + intros key e He. destruct (decide (key = (blockHash, proTxHash))) as [->|Hne].
      * congruence.
      * by rewrite lookup_insert_ne.
    + intros key e He. destruct (decide (key = (blockHash, proTxHash))) as [->|Hne].
      * rewrite lookup_insert_eq in He. injection He as <-. right.
        unfold stored_contribution. rewrite ?Hvvec. done.
      * rewrite lookup_insert_ne in He by done. by left.
    + intros q p. rewrite !contribution_of_stored. simpl.
      destruct (decide ((q, p) = (blockHash, proTxHash))) as [Heq|Hne].
      * injection Heq as -> ->. rewrite lookup_insert_eq, Hcache. simpl.
        unfold stored_contribution. simpl. by rewrite Hvvec.
      * by rewrite lookup_insert_ne.
Qed.

(** What the loop returns is determined by what lookups yield for the
    members it visits that are marked valid. *)
Lemma contributions_from_ext blockHash now1 now2 validMembers members :
  ∀ i out mgr1 mgr2,
    (∀ k p, members !! k = Some p → validMembers !! (i + k)%nat = Some true →
            contribution_of mgr1 blockHash p = contribution_of mgr2 blockHash p) →
    fst <$> contributions_from blockHash now1 validMembers members i out mgr1
    = fst <$> contributions_from blockHash now2 validMembers members i out mgr2.
Proof.
  induction members as [|proTxHash rest IH]; intros i out mgr1 mgr2 Hsame; [done|].
  rewrite !contributions_from_cons.
  destruct (validMembers !! i) as [[]|] eqn:Hvalid; simpl; [| |done].
  - pose proof (Hsame 0%nat proTxHash eq_refl) as H0.
    rewrite Nat.add_0_r in H0. specialize (H0 Hvalid).
    pose proof (cached_or_read_spec blockHash now1 proTxHash mgr1) as H1.
    pose proof (cached_or_read_spec blockHash now2 proTxHash mgr2) as H2.
    destruct (cached_or_read blockHash now1 proTxHash mgr1) as [[e1 m1]|];
      destruct (cached_or_read blockHash now2 proTxHash mgr2) as [[e2 m2]|].
    + destruct H1 as (Hc1 & _ & _ & _ & _ & Hs1), H2 as (Hc2 & _ & _ & _ & _ & Hs2).
      assert (vvec e1 = vvec e2 ∧ skContribution e1 = skContribution e2) as [-> ->].
      { rewrite Hc1, Hc2 in H0. by injection H0. }
      apply IH. intros k p Hk Hv. rewrite Hs1, Hs2.
      apply (Hsame (S k)); [done|]. by rewrite <-Nat.add_succ_comm.
    + destruct H1 as (Hc1 & _). congruence.
    + destruct H2 as (Hc2 & _). congruence.
    + done.
  - apply IH. intros k p Hk Hv.
    apply (Hsame (S k)); [done|]. by rewrite <-Nat.add_succ_comm.
Qed.

(** What the loop leaves behind: the store as it was, a cache that has only
    grown, by entries made now from what the store holds, and, when it
    succeeds, an entry for every member visited that is marked valid. *)
Lemma contributions_from_caches blockHash now validMembers members :
  ∀ i out mgr ok out' mgr',
    contributions_from blockHash now validMembers members i out mgr = Some (ok, out', mgr') →
    db mgr' = db mgr
    ∧ (∀ key e, contributionsCache mgr !! key = Some e →
                contributionsCache mgr' !! key = Some e)
    ∧ (∀ key e, contributionsCache mgr' !! key = Some e →
                contributionsCache mgr !! key = Some e
                ∨ (entryTime e = now
                   ∧ stored_contribution mgr key.1 key.2 = Some (vvec e, skContribution e)))
    ∧ (∀ q p, contribution_of mgr' q p = contribution_of mgr q p)
    ∧ (ok = true →
       ∀ k p, members !! k = Some p → validMembers !! (i + k)%nat = Some true →
              is_Some (contributionsCache mgr' !! (blockHash, p))).
Proof.
  induction members as [|proTxHash rest IH]; intros i out mgr ok out' mgr' Hrun.
  - injection Hrun as <- <- <-. split_and!; auto. intros _ k p Hk. done.
  - rewrite contributions_from_cons in Hrun.
    destruct (validMembers !! i) as [[]|] eqn:Hvalid; simpl in Hrun; [| |done].
    + pose proof (cached_or_read_spec blockHash now proTxHash mgr) as H1.
      destruct (cached_or_read blockHash now proTxHash mgr) as [[e1 m1]|].
      * destruct H1 as (Hc1 & Hdb1 & Hin1 & Hmono1 & Hnew1 & Hs1).
        destruct (IH _ _ _ _ _ _ Hrun) as (Hdb & Hmono & Hnew & Hs & Hall).
        split_and!.
        -- congruence.
        -- auto.
        -- intros key e He. destruct (Hnew key e He) as [Hold|[Ht Hst]].
           ++ destruct (Hnew1 key e Hold) as [?|(-> & Ht & _ & Hst)]; [by left|].
              right. done.
           ++ right. split; [done|].
              unfold stored_contribution in *. by rewrite <-Hdb1.
        -- intros q p. by rewrite Hs, Hs1.
        -- intros Hok [|k] p Hk Hv.
           ++ injection Hk as <-. eauto.
           ++ apply (Hall Hok k); [done|]. by rewrite Nat.add_succ_comm.
      * injection Hrun as <- <- <-. split_and!; auto. done.
    + destruct (IH _ _ _ _ _ _ Hrun) as (Hdb & Hmono & Hnew & Hs & Hall).
      split_and!; try done.
      intros Hok [|k] p Hk Hv.
      * rewrite Nat.add_0_r in Hv. congruence.
      * apply (Hall Hok k); [done|]. by rewrite Nat.add_succ_comm.
Qed.

Lemma lookup_foldl_delete (store : gmap DkgKey DkgVal) (batch : list DkgKey) k :
  foldl (λ store k, delete k store) store batch !! k =
    if decide (k ∈ batch) then None else store !! k.
Proof.
  revert store. induction batch as [|k' batch IH]; intros store; cbn [foldl].
  - done.
  - rewrite IH. destruct (decide (k = k')) as [->|Hne].
    + rewrite lookup_delete_eq.
      destruct (decide (k' ∈ k' :: batch)) as [_|Hn]; [|set_solver].
      by destruct (decide (k' ∈ batch)).
    + rewrite lookup_delete_ne by done.
      destruct (decide (k ∈ batch)), (decide (k ∈ k' :: batch)); set_solver.
Qed.

Lemma elem_of_batch chain (store : gmap DkgKey DkgVal) k :
  k ∈ scan_prefix chain false store (scan_prefix chain true store [])
  ↔ is_Some (store !! k) ∧ not_found_or_too_old chain (key_quorum k) = true.
Proof.
  unfold scan_prefix. rewrite app_nil_l, elem_of_app, !list_elem_of_filter.
  assert (k ∈ (map_to_list store).*1 ↔ is_Some (store !! k)) as ->.
  { rewrite list_elem_of_fmap. split.
    - intros ([k' v] & -> & Hin). apply elem_of_map_to_list in Hin. eauto.
    - intros [v Hv]. exists (k, v). split; [done|]. by apply elem_of_map_to_list. }
  destruct k; simpl; naive_solver.
Qed.

(** The store after [CleanupOldContributions]. *)
Lemma CleanupOldContributions_db chain mgr k :
  db (CleanupOldContributions chain mgr) !! k =
    if not_found_or_too_old chain (key_quorum k) then None else db mgr !! k.
Proof.
  unfold CleanupOldContributions.
  destruct (decide (db mgr = ∅)) as [Hempty|_].
  { rewrite Hempty, lookup_empty. by destruct (not_found_or_too_old _ _). }
  remember (scan_prefix chain false (db mgr) (scan_prefix chain true (db mgr) []))
    as batch eqn:Hbatch.
  assert (∀ k, k ∈ batch ↔ is_Some (db mgr !! k)
                            ∧ not_found_or_too_old chain (key_quorum k) = true) as Hin.
  { intros k'. rewrite Hbatch. apply elem_of_batch. }
  destruct (decide (0 < length batch)%nat) as [_|Hnone].
  - simpl. rewrite lookup_foldl_delete.
    destruct (decide (k ∈ batch)) as [Hk|Hk].
    + apply Hin in Hk as [_ ->]. done.
    + destruct (not_found_or_too_old chain (key_quorum k)) eqn:Hold; [|done].
      destruct (db mgr !! k) eqn:Hlook; [|done].
      exfalso. apply Hk, Hin. eauto.
  - destruct batch as [|k0 batch]; [|simpl in Hnone; lia].
    destruct (not_found_or_too_old chain (key_quorum k)) eqn:Hold; [|done].
    destruct (db mgr !! k) eqn:Hlook; [|done].
    exfalso. eapply not_elem_of_nil, Hin. eauto.
Qed.

Lemma CleanupOldContributions_cache chain mgr :
  contributionsCache (CleanupOldContributions chain mgr) = contributionsCache mgr.
Proof.
  unfold CleanupOldContributions.
  destruct (decide _); [done|]. by destruct (decide _).
Qed.

Lemma CleanupCache_lookup curTime mgr key :
  contributionsCache (CleanupCache curTime mgr) !! key =
    match contributionsCache mgr !! key with
    | Some e => if decide (keeps curTime (entryTime e)) then Some e else None
    | None => None
    end.
Proof.
  unfold CleanupCache. simpl. rewrite map_lookup_filter.
  destruct (contributionsCache mgr !! key) as [e|]; simpl; [|done].
  unfold keeps. simpl.
  destruct (decide (¬ MAX_CONTRIBUTION_CACHE_TIME < curTime - entryTime e)).
  - by rewrite option_guard_True.
  - by rewrite option_guard_False.
Qed.

(** Calls that keep the entries made from [t] on keep every such entry. *)
Lemma mgr_run_keeps t calls :
  ∀ mgr key e,
    cleanups_keep t calls →
    contributionsCache mgr !! key = Some e →
    t ≤ entryTime e →
    contributionsCache (mgr_run mgr calls) !! key = Some e.
Proof.
  induction calls as [|c calls IH]; intros mgr key e Hkeep He Ht; [done|].
  simpl. apply IH; [|  |done].
  - intros curTime Hin. apply Hkeep. by right.
  - destruct c as [q p vv|q p sk|curTime|chain]; cbn [mgr_step];
      [exact He|exact He| |].
    + rewrite CleanupCache_lookup, He.
      rewrite decide_True; [done|].
      assert (keeps curTime t) as Hk by (apply Hkeep; by left).
      unfold keeps in *. lia.
    + by rewrite CleanupOldContributions_cache.
Qed.

(** X24.  Contributions written to the store are what
    [GetVerifiedContributions] returns for the member: when a verification
    vector and then a secret-key share are written for a member that has
    no cache entry, a successful call returns, at the member's position
    among the members marked valid, the member's index, that vector and
    that share. *)
Theorem written_contributions_are_returned blockHash proTxHash vv sk mgr
    members now validMembers out mgr' j k :
  contributionsCache mgr !! (blockHash, proTxHash) = None →
  (length members ≤ length validMembers)%nat →
  GetVerifiedContributions blockHash members now validMembers
    (WriteVerifiedSkContribution blockHash proTxHash sk
       (WriteVerifiedVvecContribution blockHash proTxHash vv mgr))
  = Some (true, out, mgr') →
  valid_indexes validMembers 0 (length members) !! j = Some k →
  members !! k = Some proTxHash →
  memberIndexesRet out !! j = Some (to_uint16 k)
  ∧ vvecsRet out !! j = Some vv
  ∧ skContributionsRet out !! j = Some sk.
Proof.
  intros Hmiss Hlen Hrun Hj Hk.
  remember (WriteVerifiedSkContribution blockHash proTxHash sk
              (WriteVerifiedVvecContribution blockHash proTxHash vv mgr)) as mgr1 eqn:Hmgr1.
  unfold GetVerifiedContributions in Hrun.
  destruct (DKGMgrFacts.contributions_from_spec blockHash now validMembers members mgr1
              members 0 (mkContributions [] [] []) mgr1 eq_refl eq_refl (λ _, eq_refl) Hlen)
    as (ok & out1 & mgr1' & Hrun1 & _ & _ & Hsucc).
  rewrite Hrun in Hrun1. injection Hrun1 as <- <- <-.
  destruct (Hsucc eq_refl) as (found & Hall & Hidx & Hvv & Hsk).
  simpl in Hidx, Hvv, Hsk.
  destruct (Forall2_lookup_l _ _ _ _ _ Hall Hj) as (vs & Hfound & p & Hp & Hvs).
  assert (p = proTxHash) as -> by congruence.
  assert (vs = (vv, sk)) as ->.
  { rewrite Hmgr1 in Hvs. unfold contribution_of in Hvs. simpl in Hvs.
    rewrite Hmiss in Hvs.
    rewrite lookup_insert_ne, lookup_insert_eq in Hvs by done.
    rewrite lookup_insert_eq in Hvs. congruence. }
  rewrite Hidx, Hvv, Hsk, !list_lookup_fmap, Hj, Hfound. done.
Qed.

(** X25.  Once [GetVerifiedContributions] has succeeded, the cache shadows the
    store: as long as every [CleanupCache] in between runs no more than
    [MAX_CONTRIBUTION_CACHE_TIME] (60000 ms, inclusive) after the oldest
    cache entry, a later call with the same arguments succeeds with the
    same three vectors, whatever was written to the store or removed from
    it by [CleanupOldContributions] in between. *)
Theorem cached_contributions_shadow_the_store blockHash members now validMembers mgr
    out mgr' t calls now' :
  GetVerifiedContributions blockHash members now validMembers mgr = Some (true, out, mgr') →
  (∀ key e, contributionsCache mgr !! key = Some e → t ≤ entryTime e) →
  t ≤ now →
  cleanups_keep t calls →
  ∃ mgr'',
    GetVerifiedContributions blockHash members now' validMembers (mgr_run mgr' calls)
    = Some (true, out, mgr'').
Proof.
  intros Hrun Hold Hnow Hkeep. unfold GetVerifiedContributions in *.
  destruct (contributions_from_caches _ _ _ _ _ _ _ _ _ _ Hrun)
    as (_ & Hmono & Hnew & Hs & Hall).
  pose proof (contributions_from_ext blockHash now' now validMembers members 0
                (mkContributions [] [] []) (mgr_run mgr' calls) mgr) as Hext.
  rewrite Hrun in Hext. simpl in Hext.
  destruct (contributions_from blockHash now' validMembers members 0
              (mkContributions [] [] []) (mgr_run mgr' calls)) as [[[ok2 out2] mgr2]|].
  - simpl in Hext. exists mgr2.
    assert (Some (ok2, out2) = Some (true, out)) as Heq; [|by injection Heq as -> ->].
    apply Hext. clear Hext.
    intros k p Hk Hv. rewrite <-Hs.
    destruct (Hall eq_refl k p Hk Hv) as [e He].
    rewrite !contribution_of_stored, He.
    rewrite (mgr_run_keeps t calls mgr' _ e); try done.
    destruct (Hnew _ _ He) as [Hwas|[-> _]]; [eauto|done].
  - exfalso. simpl in Hext.
    assert (None = Some (true, out)) as Heq; [|done].
    apply Hext. clear Hext.
    intros k p Hk Hv. rewrite <-Hs.
    destruct (Hall eq_refl k p Hk Hv) as [e He].
    rewrite !contribution_of_stored, He.
    rewrite (mgr_run_keeps t calls mgr' _ e); try done.
    destruct (Hnew _ _ He) as [Hwas|[-> _]]; [eauto|done].
Qed.

(** X26.  [GetVerifiedContributions] keeps the cache in agreement with the
    store: if every cache entry is what the store holds for its member
    before the call, the same is true after it, whether the call succeeds
    or fails. *)
Theorem GetVerifiedContributions_keeps_cache_agreeing blockHash members now validMembers
    mgr ok out mgr' :
  cache_agrees mgr →
  GetVerifiedContributions blockHash members now validMembers mgr = Some (ok, out, mgr') →
  cache_agrees mgr'.
Proof.
  intros Hagree Hrun. unfold GetVerifiedContributions in Hrun.
  destruct (contributions_from_caches _ _ _ _ _ _ _ _ _ _ Hrun)
    as (Hdb & _ & Hnew & _ & _).
  intros q p e He.
  assert (stored_contribution mgr' q p = stored_contribution mgr q p) as ->.
  { unfold stored_contribution. by rewrite Hdb. }
  destruct (Hnew _ _ He) as [Hwas|[_ Hst]]; [by apply Hagree|done].
Qed.

(** X27.  While the cache agrees with the store, [CleanupCache] is invisible:
    it leaves the cache in agreement, and [GetVerifiedContributions]
    returns the same success flag and the same three vectors after it as
    without it. *)
Theorem CleanupCache_is_transparent blockHash members now validMembers mgr curTime :
  cache_agrees mgr →
  cache_agrees (CleanupCache curTime mgr)
  ∧ fst <$> GetVerifiedContributions blockHash members now validMembers
              (CleanupCache curTime mgr)
    = fst <$> GetVerifiedContributions blockHash members now validMembers mgr.
Proof.
  intros Hagree. split.
  - intros q p e He. rewrite CleanupCache_lookup in He.
    destruct (contributionsCache mgr !! (q, p)) as [e'|] eqn:Hc; [|done].
    destruct (decide _); [|done]. injection He as ->.
    by apply Hagree.
  - apply contributions_from_ext. intros k p _ _.
    rewrite !contribution_of_stored, CleanupCache_lookup.
    destruct (contributionsCache mgr !! (blockHash, p)) as [e|] eqn:Hc; [|done].
    destruct (decide _); [done|].
    by apply Hagree.
Qed.

(** X28.  [CleanupOldContributions] removes from the store exactly the
    entries, verification vectors and secret-key shares alike, of quorums
    whose block is not found or lies more than [max_store_depth] below the
    active height; every other entry stays as it is, and the contributions
    cache is not touched. *)
Theorem CleanupOldContributions_removes_old_quorums chain mgr :
  (∀ k, db (CleanupOldContributions chain mgr) !! k =
          if not_found_or_too_old chain (key_quorum k) then None else db mgr !! k)
  ∧ contributionsCache (CleanupOldContributions chain mgr) = contributionsCache mgr.
Proof.
  split.
  - intros k. apply CleanupOldContributions_db.
  - apply CleanupOldContributions_cache.
Qed.
End facts.

Lemma two_members_run :
  GetVerifiedContributions 1 [11%N; 12%N] 1000 [true; true] two_members
  = Some (true,
          mkContributions [0; 1] [[3%N; 4%N]; [5%N]] [sk_key 7; sk_key 8],
          two_members_cached).
Proof. reflexivity. Qed.

Lemma two_members_cached_agrees : cache_agrees two_members_cached.
Proof.
  intros q p e He. unfold two_members_cached in He. simpl in He.
  apply lookup_insert_Some in He as [[Hk <-]|[_ He]].
  { injection Hk as <- <-. reflexivity. }
  apply lookup_insert_Some in He as [[Hk <-]|[_ He]].
  { injection Hk as <- <-. reflexivity. }
  by rewrite lookup_empty in He.
Qed.

Lemma written_contributions_are_returned_witness :
  let mgr := mkCDKGSessionManager ∅ ∅ in
  let mgr1 := WriteVerifiedSkContribution 1 11 (sk_key 7)
                (WriteVerifiedVvecContribution 1 11 [3%N; 4%N] mgr) in
  let out := mkContributions [1] [[3%N; 4%N]] [sk_key 7] in
  let mgr' := mkCDKGSessionManager (db mgr1)
                {[(1%N, 11%N) := mkContributionsCacheEntry 1000 [3%N; 4%N] (sk_key 7)]} in
  contributionsCache mgr !! (1%N, 11%N) = None
  ∧ (length [12%N; 11%N] ≤ length [false; true])%nat
  ∧ GetVerifiedContributions 1 [12%N; 11%N] 1000 [false; true] mgr1 = Some (true, out, mgr')
  ∧ valid_indexes [false; true] 0 (length [12%N; 11%N]) !! 0%nat = Some 1%nat
  ∧ [12%N; 11%N] !! 1%nat = Some 11%N
  ∧ memberIndexesRet out !! 0%nat = Some (to_uint16 1)
  ∧ vvecsRet out !! 0%nat = Some [3%N; 4%N]
  ∧ skContributionsRet out !! 0%nat = Some (sk_key 7).
Proof.
  intros mgr mgr1 out mgr'.
  assert (length [12%N; 11%N] ≤ length [false; true])%nat as Hlen by (simpl; lia).
  split; [reflexivity|]. split; [exact Hlen|]. split; [reflexivity|].
  split; [reflexivity|]. split; [reflexivity|].
  exact (written_contributions_are_returned 1 11 [3%N; 4%N] (sk_key 7) mgr
           [12%N; 11%N] 1000 [false; true] out mgr' 0 1
           eq_refl Hlen eq_refl eq_refl eq_refl).
Defined.

Lemma cached_contributions_shadow_the_store_witness :
  let calls := [CallWriteVerifiedVvecContribution 1 11 [9%N];
                CallCleanupCache 61000;
                CallCleanupOldContributions toy_chain] in
  let out := mkContributions [0; 1] [[3%N; 4%N]; [5%N]] [sk_key 7; sk_key 8] in
  GetVerifiedContributions 1 [11%N; 12%N] 1000 [true; true] two_members
  = Some (true, out, two_members_cached)
  ∧ (∀ key e, contributionsCache two_members !! key = Some e → 1000 ≤ entryTime e)
  ∧ 1000 ≤ 1000
  ∧ cleanups_keep 1000 calls
  ∧ ∃ mgr'',
      GetVerifiedContributions 1 [11%N; 12%N] 70000 [true; true]
        (mgr_run two_members_cached calls)
      = Some (true, out, mgr'').
Proof.
  intros calls out.
  assert (∀ key e, contributionsCache two_members !! key = Some e → 1000 ≤ entryTime e)
    as Hold.
  { intros key e He. simpl in He. by rewrite lookup_empty in He. }
  assert (cleanups_keep 1000 calls) as Hkeep.
  { intros curTime Hin. unfold calls in Hin.
    apply elem_of_cons in Hin as [Hin|Hin]; [discriminate Hin|].
    apply elem_of_cons in Hin as [Hin|Hin].
    - injection Hin as ->. unfold keeps, MAX_CONTRIBUTION_CACHE_TIME. lia.
    - apply elem_of_cons in Hin as [Hin|Hin]; [discriminate Hin|].
      by apply elem_of_nil in Hin. }
  split; [reflexivity|]. split; [exact Hold|]. split; [lia|]. split; [exact Hkeep|].
  exact (cached_contributions_shadow_the_store 1 [11%N; 12%N] 1000 [true; true] two_members
           out two_members_cached 1000 calls 70000 eq_refl Hold (Z.le_refl _) Hkeep).
Defined.

Lemma GetVerifiedContributions_keeps_cache_agreeing_witness :
  let stored := WriteVerifiedVvecContribution 1 13 [6%N] two_members_cached in
  let out := mkContributions [0; 2] [[3%N; 4%N]; [6%N]] [sk_key 7; sk_invalid] in
  let mgr' := mkCDKGSessionManager (db stored)
                (<[(1%N, 13%N) := mkContributionsCacheEntry 2000 [6%N] sk_invalid]>
                   (contributionsCache stored)) in
  cache_agrees stored
  ∧ GetVerifiedContributions 1 [11%N; 12%N; 13%N] 2000 [true; false; true] stored
    = Some (true, out, mgr')
  ∧ cache_agrees mgr'.
Proof.
  intros stored out mgr'.
  assert (cache_agrees stored) as Hagree.
  { intros q p e He. change (contributionsCache stored) with
      (contributionsCache two_members_cached) in He.
    pose proof (two_members_cached_agrees q p e He) as Hst.
    unfold stored_contribution in *. unfold stored. simpl.
    simpl in He.
    apply lookup_insert_Some in He as [[Hk <-]|[_ He]].
    { injection Hk as <- <-. reflexivity. }
    apply lookup_insert_Some in He as [[Hk <-]|[_ He]].
    { injection Hk as <- <-. reflexivity. }
    by rewrite lookup_empty in He. }
  split; [exact Hagree|]. split; [reflexivity|].
  exact (GetVerifiedContributions_keeps_cache_agreeing 1 [11%N; 12%N; 13%N] 2000
           [true; false; true] stored true out mgr' Hagree eq_refl).
Defined.

Lemma CleanupCache_is_transparent_witness :
  cache_agrees two_members_cached
  ∧ cache_agrees (CleanupCache 61001 two_members_cached)
  ∧ fst <$> GetVerifiedContributions 1 [11%N; 12%N] 70000 [true; true]
              (CleanupCache 61001 two_members_cached)
    = fst <$> GetVerifiedContributions 1 [11%N; 12%N] 70000 [true; true]
                two_members_cached.
Proof.
  split; [exact two_members_cached_agrees|].
  exact (CleanupCache_is_transparent 1 [11%N; 12%N] 70000 [true; true] two_members_cached
           61001 two_members_cached_agrees).
Defined.
End DKGMgrCallsFacts.

(** ** Bit sets as hex strings *)
Module HexBitsFacts.
Import HexBits HexFixtures.

Section facts.
Context `{HexCodec}.

Lemma bit_of_testbit byte bit : bit_of byte bit = Z.testbit byte (Z.of_nat bit).
Proof.
  unfold bit_of.
  change 1 with (Z.ones 1). rewrite Z.land_ones by lia.
  change (2 ^ 1) with 2. rewrite <-Z.bit0_mod, Z.shiftr_spec by lia.
  rewrite Z.add_0_l.
  destruct (Z.testbit byte (Z.of_nat bit)); reflexivity.
Qed.

(** The inner loop, from bit [s] on for [m] bits. *)
Lemma unpack_bits_lookup expectedBits i byte m :
  ∀ s vBits j,
    length vBits = expectedBits →
    let vBits' :=
      foldl (λ vBits bit,
               let bitIndex := (i * 8 + bit)%nat in
               if decide (bitIndex < expectedBits)%nat
               then <[bitIndex := bit_of byte bit]> vBits
               else vBits)
            vBits (seq s m) in
    length vBits' = expectedBits
    ∧ vBits' !! j =
        if decide (i * 8 + s ≤ j < i * 8 + s + m ∧ j < expectedBits)%nat
        then Some (bit_of byte (j - i * 8))
        else vBits !! j.
Proof.
  induction m as [|m IH]; intros s vBits j Hlen; cbn [seq foldl].
  - split; [done|]. rewrite decide_False by lia. done.
  - cbn zeta.
    destruct (decide (i * 8 + s < expectedBits)%nat) as [Hin|Hout].
    + destruct (IH (S s) (<[(i * 8 + s)%nat := bit_of byte s]> vBits) j) as [Hl Hj].
      { by rewrite length_insert. }
      cbn zeta in Hl, Hj. split; [done|]. rewrite Hj.
      destruct (decide (j = i * 8 + s)%nat) as [->|Hne].
      * rewrite decide_False by lia. rewrite decide_True by lia.
        rewrite list_lookup_insert_eq by lia.
        f_equal. f_equal. lia.
      * rewrite list_lookup_insert_ne by done.
        destruct (decide (i * 8 + S s ≤ j < i * 8 + S s + m ∧ j < expectedBits)%nat).
        -- by rewrite decide_True by lia.
        -- by rewrite decide_False by lia.
    + destruct (IH (S s) vBits j Hlen) as [Hl Hj].
      cbn zeta in Hl, Hj. split; [done|]. rewrite Hj.
      rewrite !decide_False by lia. done.
Qed.

Lemma unpack_byte_lookup expectedBits i byte vBits j :
  length vBits = expectedBits →
  length (unpack_byte expectedBits i byte vBits) = expectedBits
  ∧ unpack_byte expectedBits i byte vBits !! j =
      if decide (i * 8 ≤ j < i * 8 + 8 ∧ j < expectedBits)%nat
      then Some (bit_of byte (j - i * 8))
      else vBits !! j.
Proof.
  intros Hlen.
  destruct (unpack_bits_lookup expectedBits i byte 8 0 vBits j Hlen) as [Hl Hj].
  cbn zeta in Hl, Hj. split; [exact Hl|].
  unfold unpack_byte. rewrite Hj.
  destruct (decide (i * 8 ≤ j < i * 8 + 8 ∧ j < expectedBits)%nat).
  - by rewrite decide_True by lia.
  - by rewrite decide_False by lia.
Qed.

(** The outer loop: bit [j] is taken from byte [j / 8] where there is one,
    and left as it was otherwise. *)
Lemma unpack_from_lookup expectedBits vBytes :
  ∀ i vBits j,
    length vBits = expectedBits →
    length (unpack_from expectedBits vBytes i vBits) = expectedBits
    ∧ ((j < expectedBits)%nat →
       unpack_from expectedBits vBytes i vBits !! j =
         if decide (i * 8 ≤ j)%nat
         then match vBytes !! (j / 8 - i)%nat with
              | Some byte => Some (bit_of byte (j mod 8))
              | None => vBits !! j
              end
         else vBits !! j).
Proof.
  induction vBytes as [|byte rest IH]; intros i vBits j Hlen; cbn [unpack_from].
  - split; [done|]. intros _. rewrite lookup_nil. by destruct (decide _).
  - destruct (unpack_byte_lookup expectedBits i byte vBits j Hlen) as [Hl1 Hj1].
    destruct (IH (S i) _ j Hl1) as [Hl Hj]. split; [done|].
    intros Hlt. rewrite (Hj Hlt), Hj1.
    pose proof (Nat.div_mod_eq j 8) as Hdm.
    pose proof (Nat.mod_upper_bound j 8 ltac:(lia)) as Hm.
    destruct (decide (S i * 8 ≤ j)%nat) as [Hge|Hlow].
    + rewrite (decide_True (P := (i * 8 ≤ j)%nat)) by lia.
      assert (S i ≤ j / 8)%nat as Hq by (apply Nat.div_le_lower_bound; lia).
      replace (j / 8 - i)%nat with (S (j / 8 - S i)) by lia.
      cbn [lookup list_lookup].
      change (list_lookup (j / 8 - S i)%nat rest) with (rest !! (j / 8 - S i)%nat).
      destruct (rest !! (j / 8 - S i)%nat); [done|].
      rewrite decide_False by lia. done.
    + destruct (decide (i * 8 ≤ j)%nat) as [Hge|Hlow'].
      * assert (j / 8 = i)%nat as Hq.
        { symmetry. apply Nat.div_unique with (r := (j - i * 8)%nat); lia. }
        rewrite decide_True by lia.
        rewrite Hq, Nat.sub_diag. cbn [lookup list_lookup].
        f_equal. f_equal. lia.
      * rewrite decide_False by lia. done.
Qed.

Lemma testbit_set_bit byte (b : bool) (k m : nat) :
  0 ≤ byte < 256 →
  (k < 8)%nat →
  let byte' := to_uint8 (Z.lor byte (Z.shiftl (Z.b2z b) (Z.of_nat k))) in
  0 ≤ byte' < 256
  ∧ Z.testbit byte' (Z.of_nat m) =
      (Z.testbit byte (Z.of_nat m) || (b && bool_decide (m = k))).
Proof.
  intros Hbyte Hk byte'. unfold byte', to_uint8. split.
  { apply Z.mod_pos_bound. lia. }
  destruct (decide (m < 8)%nat) as [Hm|Hm].
  - rewrite Z.mod_pow2_bits_low by lia.
    rewrite Z.lor_spec, Z.shiftl_spec by lia. f_equal.
    destruct (decide (m = k)) as [->|Hne].
    + rewrite Z.sub_diag, bool_decide_eq_true_2 by done.
      destruct b; reflexivity.
    + rewrite bool_decide_eq_false_2 by done. rewrite andb_false_r.
      destruct (decide (m < k)%nat).
      * apply Z.testbit_neg_r. lia.
      * destruct b; simpl.
        -- change 1 with (2 ^ 0). rewrite Z.pow2_bits_eqb by lia.
           apply Z.eqb_neq. lia.
        -- apply Z.bits_0.
  - rewrite Z.mod_pow2_bits_high by lia.
    rewrite bool_decide_eq_false_2 by lia. rewrite andb_false_r, orb_false_r.
    symmetry. apply (Z.bits_above_log2 byte); [lia|].
    destruct (decide (byte = 0)) as [->|Hnz]; [simpl; lia|].
    apply Z.log2_lt_pow2; [lia|].
    apply Z.lt_le_trans with (2 ^ 8); [lia|].
    apply Z.pow_le_mono_r; lia.
Qed.

(** The packing loop: it stays within [vBytes], which keeps its length
    and holds bytes; afterwards bit [j] is set if it was set before or is a
    set bit of [vBits]. *)
Lemma pack_from_spec vBits :
  ∀ i vBytes,
    (i + length vBits ≤ length vBytes * 8)%nat →
    Forall (λ byte, 0 ≤ byte < 256) vBytes →
    ∃ vBytes',
      pack_from vBits i vBytes = Some vBytes'
      ∧ length vBytes' = length vBytes
      ∧ Forall (λ byte, 0 ≤ byte < 256) vBytes'
      ∧ ∀ q r, (r < 8)%nat →
          Z.testbit (default 0 (vBytes' !! q)) (Z.of_nat r) =
            (Z.testbit (default 0 (vBytes !! q)) (Z.of_nat r)
             || bool_decide (i ≤ q * 8 + r)%nat && default false (vBits !! (q * 8 + r - i)%nat)).
Proof.
  induction vBits as [|b rest IH]; intros i vBytes Hroom Hbytes; cbn [pack_from].
  - exists vBytes. split_and!; try done.
    intros q r _. rewrite lookup_nil. simpl. by rewrite andb_false_r, orb_false_r.
  - cbn [length] in Hroom.
    pose proof (Nat.div_mod_eq i 8) as Hdm.
    pose proof (Nat.mod_upper_bound i 8 ltac:(lia)) as Hm.
    assert (i / 8 < length vBytes)%nat as Hidx by (apply Nat.Div0.div_lt_upper_bound; lia).
    destruct (lookup_lt_is_Some_2 vBytes (i / 8)%nat Hidx) as [byte Hbyte].
    rewrite Hbyte. cbn [mbind option_bind].
    assert (0 ≤ byte < 256) as Hrange.
    { exact (Forall_lookup_1 (λ byte, 0 ≤ byte < 256) vBytes _ _ Hbytes Hbyte). }
    pose proof (λ m, testbit_set_bit byte b (i mod 8) m Hrange Hm) as Hset.
    cbn zeta in Hset.
    destruct (IH (S i)
                (<[(i / 8)%nat := to_uint8 (Z.lor byte
                    (Z.shiftl (Z.b2z b) (Z.of_nat (i mod 8))))]> vBytes))
      as (vBytes' & Hrun & Hlen & Hbytes' & Hbits).
    { rewrite length_insert. lia. }
    { apply Forall_insert; [done|]. apply (Hset 0%nat). }
    exists vBytes'. split; [done|]. rewrite length_insert in Hlen.
    split; [done|]. split; [done|].
    intros q r Hr. rewrite (Hbits q r Hr).
    destruct (decide (q = i / 8)%nat) as [->|Hne].
    + rewrite list_lookup_insert_eq by done. rewrite Hbyte.
      assert (∀ x : Z, default 0 (Some x) = x) as Hd by done.
      rewrite !Hd, (proj2 (Hset r)).
      destruct (decide (r = i mod 8)%nat) as [->|Hner].
      * rewrite bool_decide_eq_true_2 by done.
        rewrite (bool_decide_eq_false_2 (S i ≤ _)%nat) by lia.
        rewrite (bool_decide_eq_true_2 (i ≤ _)%nat) by lia.
        replace (i / 8 * 8 + i mod 8 - i)%nat with 0%nat by lia.
        simpl. by rewrite andb_true_r, orb_false_r.
      * rewrite (bool_decide_eq_false_2 (r = _)) by done.
        rewrite andb_false_r, orb_false_r. f_equal.
        destruct (decide (i ≤ i / 8 * 8 + r)%nat) as [Hle|Hgt].
        -- rewrite !bool_decide_eq_true_2 by lia.
           replace (i / 8 * 8 + r - i)%nat with (S (i / 8 * 8 + r - S i)) by lia.
           done.
        -- rewrite !bool_decide_eq_false_2 by lia. done.
    + rewrite list_lookup_insert_ne by done. f_equal.
      destruct (decide (i ≤ q * 8 + r)%nat) as [Hle|Hgt].
      * assert (q * 8 + r ≠ i)%nat as Hneq.
        { intros Heq. apply Hne.
          apply Nat.div_unique with (r := r); lia. }
        rewrite !bool_decide_eq_true_2 by lia.
        replace (q * 8 + r - i)%nat with (S (q * 8 + r - S i)) by lia.
        done.
      * rewrite !bool_decide_eq_false_2 by lia. done.
Qed.

(** X29.  [HexStrToBits] returns nothing exactly when the string is not hex,
    and otherwise always exactly [expectedBits] bits: bit [j] is bit
    [j % 8] of byte [j / 8] of the parsed string where the string has such
    a byte and is unset where the string is too short, and bytes beyond
    [expectedBits] are ignored. *)
Theorem HexStrToBits_bits hex expectedBits :
  match TryParseHex hex with
  | None => HexStrToBits hex expectedBits = None
  | Some vBytes =>
      ∃ vBits,
        HexStrToBits hex expectedBits = Some vBits
        ∧ length vBits = expectedBits
        ∧ ∀ j, (j < expectedBits)%nat →
            vBits !! j = Some (match vBytes !! (j / 8)%nat with
                               | Some byte => Z.testbit byte (Z.of_nat (j mod 8))
                               | None => false
                               end)
  end.
Proof.
  unfold HexStrToBits.
  destruct (TryParseHex hex) as [vBytes|]; [|done]. cbn [mbind option_bind].
  eexists. split; [done|].
  destruct (unpack_from_lookup expectedBits vBytes 0 (replicate expectedBits false) 0)
    as [Hlen _]; [by rewrite length_replicate|].
  split; [done|]. intros j Hj.
  destruct (unpack_from_lookup expectedBits vBytes 0 (replicate expectedBits false) j)
    as [_ Hlook]; [by rewrite length_replicate|].
  rewrite (Hlook Hj). rewrite decide_True by lia. rewrite Nat.sub_0_r.
  destruct (vBytes !! (j / 8)%nat).
  - by rewrite bit_of_testbit.
  - by rewrite lookup_replicate_2.
Qed.

(** X30.  Round trip: when [TryParseHex] reads back the bytes [HexStr] has
    written, [ToHexStr] stays within its byte vector, and [HexStrToBits]
    on its result gives the bits back, cut or padded with unset bits to
    [expectedBits]; with [expectedBits] the number of bits, it gives the
    bits themselves. *)
Theorem HexStrToBits_ToHexStr vBits expectedBits :
  (∀ vBytes, Forall (λ byte, 0 ≤ byte < 256) vBytes →
             TryParseHex (HexStr vBytes) = Some vBytes) →
  ∃ hex,
    ToHexStr vBits = Some hex
    ∧ HexStrToBits hex expectedBits = Some (resize expectedBits false vBits)
    ∧ HexStrToBits hex (length vBits) = Some vBits.
Proof.
  intros Hcodec. unfold ToHexStr.
  pose proof (Nat.div_mod_eq (length vBits + 7) 8) as Hdm.
  pose proof (Nat.mod_upper_bound (length vBits + 7) 8 ltac:(lia)) as Hm.
  destruct (pack_from_spec vBits 0 (replicate ((length vBits + 7) / 8)%nat 0))
    as (vBytes & -> & Hlen & Hbytes & Hbits).
  { rewrite length_replicate, Nat.add_0_l. lia. }
  { apply Forall_replicate. lia. }
  rewrite length_replicate in Hlen.
  cbn [mbind option_bind]. eexists. split; [done|].
  assert (∀ n, HexStrToBits (HexStr vBytes) n = Some (resize n false vBits)) as Hback.
  { intros n. unfold HexStrToBits. rewrite (Hcodec vBytes Hbytes).
    cbn [mbind option_bind]. f_equal.
    destruct (unpack_from_lookup n vBytes 0 (replicate n false) 0)
      as [Hl _]; [by rewrite length_replicate|].
    apply list_eq. intros j.
    destruct (decide (j < n)%nat) as [Hj|Hj].
    - destruct (unpack_from_lookup n vBytes 0 (replicate n false) j)
        as [_ Hlook]; [by rewrite length_replicate|].
      rewrite (Hlook Hj). rewrite decide_True by lia. rewrite Nat.sub_0_r.
      pose proof (Nat.div_mod_eq j 8) as Hdj.
      pose proof (Nat.mod_upper_bound j 8 ltac:(lia)) as Hmj.
      pose proof (Hbits (j / 8)%nat (j mod 8)%nat Hmj) as Hbit.
      rewrite bool_decide_eq_true_2 in Hbit by lia.
      replace (j / 8 * 8 + j mod 8 - 0)%nat with j in Hbit by lia.
      assert (Z.testbit (default 0 (replicate ((length vBits + 7) / 8)%nat 0
                                      !! (j / 8)%nat)) (Z.of_nat (j mod 8)) = false) as H0.
      { destruct (replicate _ 0 !! (j / 8)%nat) as [z|] eqn:Hz; simpl.
        - apply lookup_replicate in Hz as [-> _]. apply Z.bits_0.
        - apply Z.bits_0. }
      rewrite H0, orb_false_l, andb_true_l in Hbit.
      destruct (decide (j < length vBits)%nat) as [Hin|Hout].
      + rewrite lookup_resize by lia.
        destruct (lookup_lt_is_Some_2 vBits j Hin) as [b Hb].
        rewrite Hb in Hbit |- *.
        assert (j / 8 < length vBytes)%nat as Hq.
        { rewrite Hlen. apply Nat.Div0.div_lt_upper_bound. lia. }
        destruct (lookup_lt_is_Some_2 vBytes (j / 8)%nat Hq) as [byte Hbyte].
        rewrite Hbyte in Hbit |- *.
        rewrite bit_of_testbit. f_equal. exact Hbit.
      + rewrite lookup_resize_new by lia.
        rewrite (lookup_ge_None_2 vBits j) in Hbit by lia.
        destruct (vBytes !! (j / 8)%nat) as [byte|] eqn:Hbyte.
        * rewrite bit_of_testbit. f_equal. exact Hbit.
        * by rewrite lookup_replicate_2.
    - rewrite !lookup_ge_None_2; [done| |]; [rewrite length_resize|]; lia. }
  split; [apply Hback|].
  rewrite Hback. by rewrite resize_all.
Qed.
End facts.

Lemma hex_value_digit d : 0 ≤ d < 16 → hex_value (hex_char d) = Some d.
Proof.
  intros Hd.
  assert (d = 0 ∨ d = 1 ∨ d = 2 ∨ d = 3 ∨ d = 4 ∨ d = 5 ∨ d = 6 ∨ d = 7 ∨ d = 8
          ∨ d = 9 ∨ d = 10 ∨ d = 11 ∨ d = 12 ∨ d = 13 ∨ d = 14 ∨ d = 15) as Hcases by lia.
  repeat (destruct Hcases as [->|Hcases]; [reflexivity|]). by subst.
Qed.

(** The two-digit codec reads back what it writes. *)
Lemma toy_hex_round_trip (vBytes : list Z) :
  Forall (λ byte, 0 ≤ byte < 256) vBytes →
  TryParseHex (HexStr vBytes) = Some vBytes.
Proof.
  induction 1 as [|byte rest Hbyte _ IH]; [done|].
  cbn [HexStr TryParseHex toy_hex two_digits parse_digits] in *.
  rewrite !hex_value_digit.
  - cbn [mbind option_bind]. rewrite IH. cbn [mbind option_bind].
    f_equal. f_equal. pose proof (Z.div_mod byte 16 ltac:(lia)). lia.
  - split; [apply Z.div_pos; lia|]. apply Z.div_lt_upper_bound; lia.
  - apply Z.mod_pos_bound. lia.
Qed.

Lemma HexStrToBits_ToHexStr_witness :
  let vBits := [true; false; true; true; false; false; false; false; false; true] in
  (∀ vBytes, Forall (λ byte, 0 ≤ byte < 256) vBytes →
             TryParseHex (HexStr vBytes) = Some vBytes)
  ∧ ∃ hex,
      ToHexStr vBits = Some hex
      ∧ HexStrToBits hex 12 = Some (resize 12 false vBits)
      ∧ HexStrToBits hex (length vBits) = Some vBits.
Proof.
  intros vBits. split; [exact toy_hex_round_trip|].
  exact (HexStrToBits_ToHexStr vBits 12 toy_hex_round_trip).
Defined.
End HexBitsFacts.
